(** * ArrayReadState: the multi-fragment read state of a dense array

    A shallow embedding of [core/src/array/array_read_state.cc].

    Conventions of the embedding.
    - The coordinate type [T] of the templates ([int], [int64_t]) is [Z];
      signed overflow is undefined in C++, so no wrap-around is modelled.
    - A coordinate tuple [T*] of [dim_num] elements is a [list Z].  A cell
      range ([void*] holding [2*dim_num] elements) is the pair of its two
      halves: the first and the last coordinates of the range.
    - [std::pair] is a pair, [std::vector] a list.
    - The collaborators [ArraySchema] and [Fragment] live in other files of
      the repository; they appear here as a record of operations and as a
      class of operations over an abstract fragment state. *)

From stdpp Require Import base numbers list option.

Local Open Scope Z_scope.

(** ** Return codes *)

Definition TILEDB_ARS_OK : Z := 0.
Definition TILEDB_ARS_ERR : Z := -1.

(** ** Data model *)

Definition Coords : Type := list Z.

(** The two halves [range[0..dim_num)] and [range[dim_num..2*dim_num)]. *)
Definition CellRange : Type := (Coords * Coords)%type.

(** [typedef std::pair<int, void*> FragmentCellRange]. *)
Definition FragmentCellRange : Type := (Z * CellRange)%type.
Definition FragmentCellRanges : Type := list FragmentCellRange.

(** [typedef std::pair<int64_t, int64_t> CellPosRange] and
    [typedef std::pair<int, CellPosRange> FragmentCellPosRange]. *)
Definition CellPosRange : Type := (Z * Z)%type.
Definition FragmentCellPosRange : Type := (Z * CellPosRange)%type.
Definition FragmentCellPosRanges : Type := list FragmentCellPosRange.
Definition FragmentCellPosRangesVec : Type := list FragmentCellPosRanges.

(** The cell orders of [ArraySchema::CellOrder].  The source file names the
    row-major and the column-major constants and leaves every other value of
    the enumeration to the fall-through of its [else if] chains. *)
Inductive CellOrder : Type :=
  | TILEDB_AS_CO_ROW_MAJOR
  | TILEDB_AS_CO_COLUMN_MAJOR
  | TILEDB_AS_CO_HILBERT.

(** [enum Overlap] of the read state. *)
Inductive Overlap : Type :=
  | FULL
  | PARTIAL_CONTIG
  | PARTIAL_NON_CONTIG.

(** The part of [ArraySchema] the read state consumes. *)
Record ArraySchema : Type := {
  attribute_num : nat;
  dim_num : nat;
  cell_order : CellOrder;
  dense : bool;
  domain : list Z;
  tile_extents : list Z;
  var_size : Z -> bool;
  cell_order_cmp : Coords -> Coords -> Z;
  tile_order_cmp : Coords -> Coords -> Z;
  get_next_cell_coords : list Z -> Coords -> Coords;
  get_previous_cell_coords : list Z -> Coords -> Coords;
  get_next_tile_coords : list Z -> Coords -> Coords;
  get_cell_pos : Coords -> Z
}.

(** Reading [a[i]] of a C array. *)
Definition idx (a : list Z) (i : nat) : Z := nth i a 0.

(** ** SmallerFragmentCellRange: the comparator of the merge queue *)

Definition SmallerFragmentCellRange (AS : ArraySchema)
    (a b : FragmentCellRange) : bool :=
  let cmp := cell_order_cmp AS (fst (snd a)) (fst (snd b)) in
  if cmp <? 0 then false
  else if cmp >? 0 then true
  else fst a <? fst b.

(** ** std::priority_queue

    The queue is kept as a list in popping order, its head being [top()].
    [std::priority_queue] serves a greatest element of the comparator first,
    so [pq_push] walks past every element that is not smaller than the new
    one. *)

Fixpoint pq_push (AS : ArraySchema) (x : FragmentCellRange)
    (pq : FragmentCellRanges) : FragmentCellRanges :=
  match pq with
  | [] => [x]
  | y :: pq' =>
      if SmallerFragmentCellRange AS y x then x :: y :: pq'
      else y :: pq_push AS x pq'
  end.

Definition pq_top (pq : FragmentCellRanges) : option FragmentCellRange :=
  head pq.

Definition pq_pop (pq : FragmentCellRanges) : FragmentCellRanges :=
  tail pq.

Definition pq_of_list (AS : ArraySchema) (l : FragmentCellRanges)
    : FragmentCellRanges :=
  foldl (fun pq x => pq_push AS x pq) [] l.

(** ** Fragments

    [Fragment] is a collaborator of the read state.  Its operations are taken
    over an abstract fragment state.  Operations that report a status return
    [None] when the status is not [TILEDB_FG_OK]. *)

Definition Buffer : Type := list Z.

Module Fragment.

Class Ops (F : Type) : Type := {
  dense : F -> bool;
  reset_overflow : F -> F;
  overflow : F -> Z -> bool;
  get_next_overlapping_tile_mult : F -> F;
  get_global_tile_coords : F -> option Coords;
  max_overlap : F -> list Z -> bool;
  coords_exist : F -> Coords -> bool;
  (* get_first_two_coords(start, first, second) *)
  get_first_two_coords : F -> Coords -> option (Coords * Coords);
  (* compute_fragment_cell_ranges(fragment_i, ranges): appends to ranges *)
  compute_fragment_cell_ranges :
    F -> Z -> FragmentCellRanges -> FragmentCellRanges;
  (* get_cell_pos_ranges_sparse(fragment_i, tile_domain, range, out) *)
  get_cell_pos_ranges_sparse :
    F -> Z -> list Z -> CellRange -> option FragmentCellPosRanges;
  (* copy_cell_range(attribute_id, buffer, buffer_size, buffer_offset,
     cell_pos_range): the new fragment state, buffer and offset *)
  copy_cell_range :
    F -> Z -> Buffer -> Z -> Z -> CellPosRange -> option (F * Buffer * Z);
  tile_done : F -> Z -> F
}.

End Fragment.

(** ** The array and the read state *)

Record Array : Type := {
  array_schema : ArraySchema;
  attribute_ids : list Z;
  range : list Z
}.

(** The members of [ArrayReadState], together with the fragment objects the
    array hands out by pointer ([array_->fragments()]). *)
Record ArrayReadState (F : Type) : Type := {
  done_ : bool;
  fragment_cell_pos_ranges_vec_ : FragmentCellPosRangesVec;
  fragment_cell_pos_ranges_vec_pos_ : list Z;
  fragment_global_tile_coords_ : list (option Coords);
  max_overlap_i_ : Z;
  max_overlap_range_ : list Z;
  max_overlap_type_ : Overlap;
  overflow_ : list bool;
  range_global_tile_coords_ : option Coords;
  range_global_tile_domain_ : option (list Z);
  tile_done_ : list bool;
  fragments : list F
}.

Arguments done_ {F} _.
Arguments fragment_cell_pos_ranges_vec_ {F} _.
Arguments fragment_cell_pos_ranges_vec_pos_ {F} _.
Arguments fragment_global_tile_coords_ {F} _.
Arguments max_overlap_i_ {F} _.
Arguments max_overlap_range_ {F} _.
Arguments max_overlap_type_ {F} _.
Arguments overflow_ {F} _.
Arguments range_global_tile_coords_ {F} _.
Arguments range_global_tile_domain_ {F} _.
Arguments tile_done_ {F} _.
Arguments fragments {F} _.

(** What a run of a function of the read state ends in: a normal return, an
    operation the C++ standard leaves undefined, or the exhaustion of the
    fuel that bounds the loops of the model. *)
Inductive Fault : Type :=
  | FragmentIndexOutOfRange (i : Z)
  | VectorIndexOutOfRange (i : Z)
  | NullTileCoords
  | MissingReturn.

Inductive Run (A : Type) : Type :=
  | Ret (a : A)
  | Undefined (f : Fault)
  | OutOfFuel.

Arguments Ret {A} a.
Arguments Undefined {A} f.
Arguments OutOfFuel {A}.

#[global] Instance Run_ret : MRet Run := fun A a => Ret a.

#[global] Instance Run_bind : MBind Run := fun A B k m =>
  match m with
  | Ret a => k a
  | Undefined f => Undefined f
  | OutOfFuel => OutOfFuel
  end.

(** [v[i]] of a [std::vector] for an [int] index. *)
Definition at_index {A : Type} (v : list A) (i : Z) : option A :=
  if i <? 0 then None else v !! Z.to_nat i.

Definition fragment_at {F : Type} (fs : list F) (i : Z) : Run F :=
  match at_index fs i with
  | Some f => Ret f
  | None => Undefined (FragmentIndexOutOfRange i)
  end.

Definition vector_at {A : Type} (v : list A) (i : Z) : Run A :=
  match at_index v i with
  | Some a => Ret a
  | None => Undefined (VectorIndexOutOfRange i)
  end.

(** ** clean_up_processed_fragment_cell_pos_ranges *)

(** The minimum search: it starts from position [0] of the position vector
    and then visits [attribute_ids[1..]]. *)
Definition min_pos_of (attribute_ids : list Z) (vec_pos : list Z) : Z :=
  foldl
    (fun min_pos id =>
       if idx vec_pos (Z.to_nat id) <? min_pos
       then idx vec_pos (Z.to_nat id) else min_pos)
    (idx vec_pos 0)
    (drop 1 attribute_ids).

Definition update_positions (n : nat) (min_pos : Z) (vec_pos : list Z)
    : list Z :=
  map (fun p => if p =? 0 then p else p - min_pos) (take n vec_pos)
  ++ drop n vec_pos.

Definition clean_up_processed_fragment_cell_pos_ranges {F : Type}
    (A : Array) (st : ArrayReadState F) : ArrayReadState F :=
  let attribute_num := attribute_num (array_schema A) in
  let min_pos := min_pos_of (attribute_ids A)
                   (fragment_cell_pos_ranges_vec_pos_ st) in
  if min_pos =? 0 then st
  else
    {| done_ := done_ st;
       fragment_cell_pos_ranges_vec_ :=
         drop (Z.to_nat min_pos) (fragment_cell_pos_ranges_vec_ st);
       fragment_cell_pos_ranges_vec_pos_ :=
         update_positions (S attribute_num) min_pos
           (fragment_cell_pos_ranges_vec_pos_ st);
       fragment_global_tile_coords_ := fragment_global_tile_coords_ st;
       max_overlap_i_ := max_overlap_i_ st;
       max_overlap_range_ := max_overlap_range_ st;
       max_overlap_type_ := max_overlap_type_ st;
       overflow_ := overflow_ st;
       range_global_tile_coords_ := range_global_tile_coords_ st;
       range_global_tile_domain_ := range_global_tile_domain_ st;
       tile_done_ := tile_done_ st;
       fragments := fragments st |}.

(** ** compute_max_overlap_range *)

(** The first loop: the query range relative to the current tile, clipped to
    the tile. *)
Definition overlap_range (AS : ArraySchema) (range : list Z)
    (range_global_tile_coords : Coords) : list Z :=
  flat_map
    (fun i =>
       let tile_coords :=
         idx range_global_tile_coords i * idx (tile_extents AS) i
         + idx (domain AS) (2 * i) in
       [ Z.max (idx range (2 * i) - tile_coords) 0;
         Z.min (idx range (2 * i + 1) - tile_coords)
               (idx (tile_extents AS) i - 1) ])
    (seq 0 (dim_num AS)).

(** The test both loops of the classification apply to dimension [i]; it is
    true when the overlap leaves some cell of the dimension out. *)
Definition partial_on (AS : ArraySchema) (max_overlap_range : list Z)
    (i : nat) : bool :=
  negb (idx max_overlap_range (2 * i) =? 0)
  || negb (idx max_overlap_range (2 * i + 1) =? idx (tile_extents AS) i - 1).

Definition overlap_type (AS : ArraySchema) (max_overlap_range : list Z)
    : Overlap :=
  let type1 :=
    if existsb (partial_on AS max_overlap_range) (seq 0 (dim_num AS))
    then PARTIAL_NON_CONTIG else FULL in
  match type1 with
  | PARTIAL_NON_CONTIG =>
      match cell_order AS with
      | TILEDB_AS_CO_ROW_MAJOR =>
          (* for(int i=1; i<dim_num; ++i) *)
          if existsb (partial_on AS max_overlap_range)
               (seq 1 (dim_num AS - 1))
          then PARTIAL_NON_CONTIG else PARTIAL_CONTIG
      | TILEDB_AS_CO_COLUMN_MAJOR =>
          (* for(int i=dim_num-2; i>=0; --i) *)
          if existsb (partial_on AS max_overlap_range)
               (rev (seq 0 (dim_num AS - 1)))
          then PARTIAL_NON_CONTIG else PARTIAL_CONTIG
      | TILEDB_AS_CO_HILBERT => PARTIAL_CONTIG
      end
  | other => other
  end.

Definition set_max_overlap {F : Type} (st : ArrayReadState F)
    (r : list Z) (t : Overlap) : ArrayReadState F :=
  {| done_ := done_ st;
     fragment_cell_pos_ranges_vec_ := fragment_cell_pos_ranges_vec_ st;
     fragment_cell_pos_ranges_vec_pos_ := fragment_cell_pos_ranges_vec_pos_ st;
     fragment_global_tile_coords_ := fragment_global_tile_coords_ st;
     max_overlap_i_ := max_overlap_i_ st;
     max_overlap_range_ := r;
     max_overlap_type_ := t;
     overflow_ := overflow_ st;
     range_global_tile_coords_ := range_global_tile_coords_ st;
     range_global_tile_domain_ := range_global_tile_domain_ st;
     tile_done_ := tile_done_ st;
     fragments := fragments st |}.

Definition compute_max_overlap_range {F : Type} (A : Array)
    (st : ArrayReadState F) : Run (ArrayReadState F) :=
  match range_global_tile_coords_ st with
  | None => Undefined NullTileCoords
  | Some tc =>
      let r := overlap_range (array_schema A) (range A) tc in
      Ret (set_max_overlap st r (overlap_type (array_schema A) r))
  end.

(** ** The unimplemented read paths

    Both bodies consist of a TODO comment: control reaches the end of a
    function declared to return [int] without any [return] statement.  The
    C++ standard leaves a call of such a function undefined: there is no
    status, and nothing to rely on after the call. *)

Definition read_multiple_fragments_dense_attr_var {F : Type}
    (st : ArrayReadState F) (attribute_id : Z)
    (buffer : Buffer) (buffer_size : Z)
    (buffer_var : Buffer) (buffer_var_size : Z)
    : Run (Z * ArrayReadState F * (Buffer * Z) * (Buffer * Z)) :=
  Undefined MissingReturn.

Definition read_multiple_fragments_sparse {F : Type}
    (st : ArrayReadState F) (buffers : list Buffer) (buffer_sizes : list Z)
    : Run (Z * ArrayReadState F * list Buffer * list Z) :=
  Undefined MissingReturn.

(** ** compute_fragment_cell_pos_ranges: the per-tile merge *)

(** Calls of [pq.top()] made while the queue is empty are recorded with the
    line of the source they stand on.  The value such a call yields is
    indeterminate; every use of [top] in the source is guarded by
    [!pq.empty()], so the model never needs it. *)
Inductive Event : Type :=
  | TopOfEmptyQueue (line : Z).

Definition note_top (line : Z) (pq : FragmentCellRanges)
    (log : list Event) : list Event :=
  match pq with
  | [] => log ++ [TopOfEmptyQueue line]
  | _ => log
  end.

Definition compute_tile_domain (AS : ArraySchema) (tile_coords : Coords)
    : list Z :=
  flat_map
    (fun i =>
       let lo := idx (domain AS) (2 * i)
                 + idx tile_coords i * idx (tile_extents AS) i in
       [lo; lo + idx (tile_extents AS) i - 1])
    (seq 0 (dim_num AS)).

Definition compute_tile_domain_end (AS : ArraySchema) (tile_domain : list Z)
    : Coords :=
  map (fun i => idx tile_domain (2 * i + 1)) (seq 0 (dim_num AS)).

(** [memcmp(range, &range[dim_num], coords_size) == 0]. *)
Definition unary (r : CellRange) : bool := bool_decide (fst r = snd r).

(** The loop "keep on discarding ranges from the queue" (lines 314-355). *)
Fixpoint discard_ranges (fuel : nat) (AS : ArraySchema) (tile_domain : list Z)
    (popped : FragmentCellRange) (pq : FragmentCellRanges)
    (log : list Event) : Run (FragmentCellRanges * list Event) :=
  match fuel with
  | O => OutOfFuel
  | S fuel' =>
      match pq with
      | [] => Ret (pq, log)
      | top :: _ =>
          if (fst top <? fst popped)
             && (cell_order_cmp AS (fst (snd top)) (fst (snd popped)) >=? 0)
             && (cell_order_cmp AS (fst (snd top)) (snd (snd popped)) <=? 0)
          then
            let pq1 :=
              if cell_order_cmp AS (snd (snd top)) (snd (snd popped)) >? 0
              then
                let trimmed_top : FragmentCellRange :=
                  (fst top,
                   (get_next_cell_coords AS tile_domain (snd (snd popped)),
                    snd (snd top))) in
                pq_push AS trimmed_top pq
              else pq in
            let pq2 := pq_pop pq1 in
            discard_ranges fuel' AS tile_domain popped pq2
              (note_top 352 pq2 log)
          else Ret (pq, log)
      end
  end.

(** "Potentially trim the popped range" (lines 357-391): the queue after the
    optional push and the final popped range. *)
Definition trim_popped (AS : ArraySchema) (tile_domain : list Z)
    (popped : FragmentCellRange) (pq : FragmentCellRanges)
    : FragmentCellRanges * FragmentCellRange :=
  match pq with
  | top :: _ =>
      if (fst top >? fst popped)
         && (cell_order_cmp AS (fst (snd top)) (snd (snd popped)) <=? 0)
      then
        let pq1 :=
          if cell_order_cmp AS (snd (snd top)) (snd (snd popped)) <? 0
          then
            let extra_popped : FragmentCellRange :=
              (fst popped,
               (get_next_cell_coords AS tile_domain (snd (snd top)),
                snd (snd popped))) in
            pq_push AS extra_popped pq
          else pq in
        (pq1,
         (fst popped,
          (fst (snd popped),
           get_previous_cell_coords AS tile_domain (fst (snd top)))))
      else (pq, popped)
  | [] => (pq, popped)
  end.

(** The result of the queue processing: the status, the ranges produced so
    far and the log. *)
Definition Merged : Type := (Z * FragmentCellRanges * list Event)%type.

(** The [while(!pq.empty())] loop (lines 275-452). *)
Fixpoint process_queue `{Fragment.Ops F} (fuel : nat) (AS : ArraySchema)
    (fs : list F) (tile_domain : list Z) (tile_domain_end : Coords)
    (pq : FragmentCellRanges) (fragment_cell_ranges : FragmentCellRanges)
    (log : list Event) : Run Merged :=
  match fuel with
  | O => OutOfFuel
  | S fuel' =>
      match pq with
      | [] => Ret (TILEDB_ARS_OK, fragment_cell_ranges, log)
      | popped :: pq =>
          let popped_fragment_i := fst popped in
          let popped_range := snd popped in
          fragment ← fragment_at fs popped_fragment_i;
          (* Trivial case *)
          if bool_decide (pq = [])
             && (Fragment.dense fragment
                 || negb (unary popped_range)
                 || Fragment.coords_exist fragment (fst popped_range))
          then Ret (TILEDB_ARS_OK, fragment_cell_ranges ++ [popped], log)
          else
            (* top = pq.top() *)
            let log := note_top 296 pq log in
            if Fragment.dense fragment || unary popped_range then
              (* DENSE POPPED OR UNARY *)
              if negb (Fragment.dense fragment)
                 && negb (Fragment.coords_exist fragment (fst popped_range))
              then
                process_queue fuel' AS fs tile_domain tile_domain_end
                  pq fragment_cell_ranges log
              else
                '(pq, log) ← discard_ranges fuel' AS tile_domain popped pq log;
                let '(pq, popped) := trim_popped AS tile_domain popped pq in
                process_queue fuel' AS fs tile_domain tile_domain_end
                  pq (fragment_cell_ranges ++ [popped]) log
            else
              (* SPARSE POPPED *)
              let disjoint_from_top :=
                match pq with
                | top :: _ =>
                    cell_order_cmp AS (fst (snd top)) (snd popped_range) >? 0
                | [] => false
                end in
              if disjoint_from_top then
                process_queue fuel' AS fs tile_domain tile_domain_end
                  pq (fragment_cell_ranges ++ [popped]) log
              else
                match Fragment.get_first_two_coords fragment
                        (fst popped_range) with
                | None => Ret (TILEDB_ARS_ERR, [], log)
                | Some (first_coords, second_coords) =>
                    if cell_order_cmp AS first_coords tile_domain_end >? 0
                    then
                      process_queue fuel' AS fs tile_domain tile_domain_end
                        pq fragment_cell_ranges log
                    else
                      let unary_range : FragmentCellRange :=
                        (popped_fragment_i, (first_coords, first_coords)) in
                      let pq := pq_push AS unary_range pq in
                      if cell_order_cmp AS second_coords tile_domain_end >? 0
                      then
                        process_queue fuel' AS fs tile_domain tile_domain_end
                          pq fragment_cell_ranges log
                      else
                        let popped : FragmentCellRange :=
                          (popped_fragment_i,
                           (second_coords, snd popped_range)) in
                        process_queue fuel' AS fs tile_domain tile_domain_end
                          (pq_push AS popped pq) fragment_cell_ranges log
                end
      end
  end.

(** "Normalize range": subtract the tile's origin. *)
Definition normalize (AS : ArraySchema) (tile_domain : list Z) (c : Coords)
    : Coords :=
  map (fun i => idx c i - idx tile_domain (2 * i)) (seq 0 (dim_num AS)).

(** "Compute fragment cell position ranges" (lines 458-497). *)
Fixpoint to_cell_pos_ranges `{Fragment.Ops F} (AS : ArraySchema)
    (fs : list F) (tile_domain : list Z)
    (fragment_cell_ranges : FragmentCellRanges)
    (fragment_cell_pos_ranges : FragmentCellPosRanges)
    : Run (Z * FragmentCellPosRanges) :=
  match fragment_cell_ranges with
  | [] => Ret (TILEDB_ARS_OK, fragment_cell_pos_ranges)
  | r :: rest =>
      is_dense ←
        (if fst r =? -1 then Ret true
         else f ← fragment_at fs (fst r); Ret (Fragment.dense f));
      if is_dense : bool then
        let cell_pos_range : CellPosRange :=
          (get_cell_pos AS (normalize AS tile_domain (fst (snd r))),
           get_cell_pos AS (normalize AS tile_domain (snd (snd r)))) in
        to_cell_pos_ranges AS fs tile_domain rest
          (fragment_cell_pos_ranges ++ [(fst r, cell_pos_range)])
      else
        f ← fragment_at fs (fst r);
        match Fragment.get_cell_pos_ranges_sparse f (fst r) tile_domain
                (snd r) with
        | None => Ret (TILEDB_ARS_ERR, fragment_cell_pos_ranges)
        | Some sparse_cell_pos_ranges =>
            to_cell_pos_ranges AS fs tile_domain rest
              (fragment_cell_pos_ranges ++ sparse_cell_pos_ranges)
        end
  end.

(** The merged cell ranges of a tile, before their conversion to positions:
    the queue is populated from the unsorted ranges and processed. *)
Definition merge_fragment_cell_ranges `{Fragment.Ops F} (fuel : nat)
    (AS : ArraySchema) (fs : list F) (tile_coords : Coords)
    (unsorted_fragment_cell_ranges : FragmentCellRanges) : Run Merged :=
  let pq := pq_of_list AS unsorted_fragment_cell_ranges in
  let tile_domain := compute_tile_domain AS tile_coords in
  let tile_domain_end := compute_tile_domain_end AS tile_domain in
  process_queue fuel AS fs tile_domain tile_domain_end pq [] [].

Definition compute_fragment_cell_pos_ranges `{Fragment.Ops F} (fuel : nat)
    (AS : ArraySchema) (fs : list F) (tile_coords : Coords)
    (unsorted_fragment_cell_ranges : FragmentCellRanges)
    : Run (Z * FragmentCellPosRanges * list Event) :=
  '(rc, fragment_cell_ranges, log) ←
    merge_fragment_cell_ranges fuel AS fs tile_coords
      unsorted_fragment_cell_ranges;
  if rc =? TILEDB_ARS_OK then
    '(rc, fragment_cell_pos_ranges) ←
      to_cell_pos_ranges AS fs (compute_tile_domain AS tile_coords)
        fragment_cell_ranges [];
    Ret (rc, fragment_cell_pos_ranges, log)
  else Ret (rc, [], log).

(** ** Updates of the members of the read state *)

Definition set_done {F : Type} (st : ArrayReadState F) (b : bool)
    : ArrayReadState F :=
  {| done_ := b;
     fragment_cell_pos_ranges_vec_ := fragment_cell_pos_ranges_vec_ st;
     fragment_cell_pos_ranges_vec_pos_ := fragment_cell_pos_ranges_vec_pos_ st;
     fragment_global_tile_coords_ := fragment_global_tile_coords_ st;
     max_overlap_i_ := max_overlap_i_ st;
     max_overlap_range_ := max_overlap_range_ st;
     max_overlap_type_ := max_overlap_type_ st;
     overflow_ := overflow_ st;
     range_global_tile_coords_ := range_global_tile_coords_ st;
     range_global_tile_domain_ := range_global_tile_domain_ st;
     tile_done_ := tile_done_ st;
     fragments := fragments st |}.

Definition set_vec {F : Type} (st : ArrayReadState F)
    (v : FragmentCellPosRangesVec) : ArrayReadState F :=
  {| done_ := done_ st;
     fragment_cell_pos_ranges_vec_ := v;
     fragment_cell_pos_ranges_vec_pos_ := fragment_cell_pos_ranges_vec_pos_ st;
     fragment_global_tile_coords_ := fragment_global_tile_coords_ st;
     max_overlap_i_ := max_overlap_i_ st;
     max_overlap_range_ := max_overlap_range_ st;
     max_overlap_type_ := max_overlap_type_ st;
     overflow_ := overflow_ st;
     range_global_tile_coords_ := range_global_tile_coords_ st;
     range_global_tile_domain_ := range_global_tile_domain_ st;
     tile_done_ := tile_done_ st;
     fragments := fragments st |}.

Definition set_vec_pos {F : Type} (st : ArrayReadState F) (v : list Z)
    : ArrayReadState F :=
  {| done_ := done_ st;
     fragment_cell_pos_ranges_vec_ := fragment_cell_pos_ranges_vec_ st;
     fragment_cell_pos_ranges_vec_pos_ := v;
     fragment_global_tile_coords_ := fragment_global_tile_coords_ st;
     max_overlap_i_ := max_overlap_i_ st;
     max_overlap_range_ := max_overlap_range_ st;
     max_overlap_type_ := max_overlap_type_ st;
     overflow_ := overflow_ st;
     range_global_tile_coords_ := range_global_tile_coords_ st;
     range_global_tile_domain_ := range_global_tile_domain_ st;
     tile_done_ := tile_done_ st;
     fragments := fragments st |}.

Definition set_fragment_coords {F : Type} (st : ArrayReadState F)
    (v : list (option Coords)) : ArrayReadState F :=
  {| done_ := done_ st;
     fragment_cell_pos_ranges_vec_ := fragment_cell_pos_ranges_vec_ st;
     fragment_cell_pos_ranges_vec_pos_ := fragment_cell_pos_ranges_vec_pos_ st;
     fragment_global_tile_coords_ := v;
     max_overlap_i_ := max_overlap_i_ st;
     max_overlap_range_ := max_overlap_range_ st;
     max_overlap_type_ := max_overlap_type_ st;
     overflow_ := overflow_ st;
     range_global_tile_coords_ := range_global_tile_coords_ st;
     range_global_tile_domain_ := range_global_tile_domain_ st;
     tile_done_ := tile_done_ st;
     fragments := fragments st |}.

Definition set_max_overlap_i {F : Type} (st : ArrayReadState F) (i : Z)
    : ArrayReadState F :=
  {| done_ := done_ st;
     fragment_cell_pos_ranges_vec_ := fragment_cell_pos_ranges_vec_ st;
     fragment_cell_pos_ranges_vec_pos_ := fragment_cell_pos_ranges_vec_pos_ st;
     fragment_global_tile_coords_ := fragment_global_tile_coords_ st;
     max_overlap_i_ := i;
     max_overlap_range_ := max_overlap_range_ st;
     max_overlap_type_ := max_overlap_type_ st;
     overflow_ := overflow_ st;
     range_global_tile_coords_ := range_global_tile_coords_ st;
     range_global_tile_domain_ := range_global_tile_domain_ st;
     tile_done_ := tile_done_ st;
     fragments := fragments st |}.

Definition set_overflow {F : Type} (st : ArrayReadState F) (v : list bool)
    : ArrayReadState F :=
  {| done_ := done_ st;
     fragment_cell_pos_ranges_vec_ := fragment_cell_pos_ranges_vec_ st;
     fragment_cell_pos_ranges_vec_pos_ := fragment_cell_pos_ranges_vec_pos_ st;
     fragment_global_tile_coords_ := fragment_global_tile_coords_ st;
     max_overlap_i_ := max_overlap_i_ st;
     max_overlap_range_ := max_overlap_range_ st;
     max_overlap_type_ := max_overlap_type_ st;
     overflow_ := v;
     range_global_tile_coords_ := range_global_tile_coords_ st;
     range_global_tile_domain_ := range_global_tile_domain_ st;
     tile_done_ := tile_done_ st;
     fragments := fragments st |}.

Definition set_range_tile {F : Type} (st : ArrayReadState F)
    (coords : option Coords) (dom : option (list Z)) : ArrayReadState F :=
  {| done_ := done_ st;
     fragment_cell_pos_ranges_vec_ := fragment_cell_pos_ranges_vec_ st;
     fragment_cell_pos_ranges_vec_pos_ := fragment_cell_pos_ranges_vec_pos_ st;
     fragment_global_tile_coords_ := fragment_global_tile_coords_ st;
     max_overlap_i_ := max_overlap_i_ st;
     max_overlap_range_ := max_overlap_range_ st;
     max_overlap_type_ := max_overlap_type_ st;
     overflow_ := overflow_ st;
     range_global_tile_coords_ := coords;
     range_global_tile_domain_ := dom;
     tile_done_ := tile_done_ st;
     fragments := fragments st |}.

Definition set_tile_done {F : Type} (st : ArrayReadState F) (v : list bool)
    : ArrayReadState F :=
  {| done_ := done_ st;
     fragment_cell_pos_ranges_vec_ := fragment_cell_pos_ranges_vec_ st;
     fragment_cell_pos_ranges_vec_pos_ := fragment_cell_pos_ranges_vec_pos_ st;
     fragment_global_tile_coords_ := fragment_global_tile_coords_ st;
     max_overlap_i_ := max_overlap_i_ st;
     max_overlap_range_ := max_overlap_range_ st;
     max_overlap_type_ := max_overlap_type_ st;
     overflow_ := overflow_ st;
     range_global_tile_coords_ := range_global_tile_coords_ st;
     range_global_tile_domain_ := range_global_tile_domain_ st;
     tile_done_ := v;
     fragments := fragments st |}.

Definition set_fragments {F : Type} (st : ArrayReadState F) (v : list F)
    : ArrayReadState F :=
  {| done_ := done_ st;
     fragment_cell_pos_ranges_vec_ := fragment_cell_pos_ranges_vec_ st;
     fragment_cell_pos_ranges_vec_pos_ := fragment_cell_pos_ranges_vec_pos_ st;
     fragment_global_tile_coords_ := fragment_global_tile_coords_ st;
     max_overlap_i_ := max_overlap_i_ st;
     max_overlap_range_ := max_overlap_range_ st;
     max_overlap_type_ := max_overlap_type_ st;
     overflow_ := overflow_ st;
     range_global_tile_coords_ := range_global_tile_coords_ st;
     range_global_tile_domain_ := range_global_tile_domain_ st;
     tile_done_ := tile_done_ st;
     fragments := v |}.

(** ** copy_cell_range_with_empty and copy_cell_ranges *)

(** The body of [copy_cell_range_with_empty] is a TODO comment: nothing is
    written and the offset stays where it is. *)
Definition copy_cell_range_with_empty {F : Type} (st : ArrayReadState F)
    (attribute_id : Z) (buffer : Buffer) (buffer_size buffer_offset : Z)
    (cell_pos_range : CellPosRange) : ArrayReadState F * Buffer * Z :=
  (st, buffer, buffer_offset).

(** What [copy_cell_ranges] hands back: its status, the state, the buffer
    and the buffer offset. *)
Definition Copied (F : Type) : Type :=
  (Z * ArrayReadState F * Buffer * Z)%type.

(** "Copy the cell ranges one by one" (lines 186-218).  The status is
    [TILEDB_ARS_ERR] when the loop is left by [return]. *)
Fixpoint copy_ranges_loop `{Fragment.Ops F}
    (fragment_cell_pos_ranges : FragmentCellPosRanges)
    (attribute_id : Z) (buffer_size : Z)
    (st : ArrayReadState F) (buffer : Buffer) (buffer_offset : Z)
    : Run (Copied F) :=
  match fragment_cell_pos_ranges with
  | [] => Ret (TILEDB_ARS_OK, st, buffer, buffer_offset)
  | (fragment_i, cell_pos_range) :: rest =>
      if fragment_i =? -1 then
        (* Handle empty fragment *)
        let '(st, buffer, buffer_offset) :=
          copy_cell_range_with_empty st attribute_id buffer buffer_size
            buffer_offset cell_pos_range in
        ov ← vector_at (overflow_ st) attribute_id;
        if ov : bool then Ret (TILEDB_ARS_OK, st, buffer, buffer_offset)
        else copy_ranges_loop rest attribute_id buffer_size
               st buffer buffer_offset
      else
        (* Handle non-empty fragment *)
        f ← fragment_at (fragments st) fragment_i;
        match Fragment.copy_cell_range f attribute_id buffer buffer_size
                buffer_offset cell_pos_range with
        | None => Ret (TILEDB_ARS_ERR, st, buffer, buffer_offset)
        | Some (f, buffer, buffer_offset) =>
            let st :=
              set_fragments st (<[Z.to_nat fragment_i := f]> (fragments st)) in
            (* Handle overflow *)
            if Fragment.overflow f attribute_id then
              Ret (TILEDB_ARS_OK,
                   set_overflow st
                     (<[Z.to_nat attribute_id := true]> (overflow_ st)),
                   buffer, buffer_offset)
            else copy_ranges_loop rest attribute_id buffer_size
                   st buffer buffer_offset
        end
  end.

(** The fragments positioned on the current tile are told that the tile is
    done for the attribute (lines 222-228). *)
Fixpoint notify_tile_done `{Fragment.Ops F} (attribute_id : Z)
    (range_global_tile_coords : option Coords)
    (coords : list (option Coords)) (fs : list F) : Run (list F) :=
  match fs with
  | [] => Ret []
  | f :: fs' =>
      match coords with
      | [] => Undefined (VectorIndexOutOfRange 0)
      | c :: coords' =>
          f' ←
            match c with
            | None => Ret f
            | Some c =>
                match range_global_tile_coords with
                | None => Undefined NullTileCoords
                | Some rc =>
                    Ret (if bool_decide (c = rc)
                         then Fragment.tile_done f attribute_id else f)
                end
            end;
          fs'' ← notify_tile_done attribute_id range_global_tile_coords
                   coords' fs';
          Ret (f' :: fs'')
      end
  end.

Definition copy_cell_ranges `{Fragment.Ops F} (attribute_id : Z)
    (buffer_size : Z) (st : ArrayReadState F) (buffer : Buffer)
    (buffer_offset : Z) : Run (Copied F) :=
  pos ← vector_at (fragment_cell_pos_ranges_vec_pos_ st) attribute_id;
  fragment_cell_pos_ranges ←
    vector_at (fragment_cell_pos_ranges_vec_ st) pos;
  '(rc, st, buffer, buffer_offset) ←
    copy_ranges_loop fragment_cell_pos_ranges attribute_id buffer_size
      st buffer buffer_offset;
  if negb (rc =? TILEDB_ARS_OK)
  then Ret (TILEDB_ARS_ERR, st, buffer, buffer_offset)
  else
    ov ← vector_at (overflow_ st) attribute_id;
    if ov : bool then
      Ret (TILEDB_ARS_OK,
           set_tile_done st
             (<[Z.to_nat attribute_id := false]> (tile_done_ st)),
           buffer, buffer_offset)
    else
      (* Handle the case the tile is done for this attribute *)
      fs ← notify_tile_done attribute_id (range_global_tile_coords_ st)
             (fragment_global_tile_coords_ st) (fragments st);
      let st := set_fragments st fs in
      let st :=
        set_vec_pos st
          (<[Z.to_nat attribute_id := pos + 1]>
             (fragment_cell_pos_ranges_vec_pos_ st)) in
      Ret (TILEDB_ARS_OK,
           set_tile_done st
             (<[Z.to_nat attribute_id := true]> (tile_done_ st)),
           buffer, buffer_offset).

(** ** The tile cursor of the query range *)

(** The integer ceiling of [x / e].  Line 856 computes
    [ceil(double(x) / e)]: for [0 <= x < 2^53] and [0 < e < 2^53] both
    operands are doubles, the quotient is rounded to a double that lies on
    the same side of every integer as [x / e], and its ceiling is this
    value.  From 2^53 on the conversion to double rounds and the value of
    the code may differ; [e = 0] divides by zero there. *)
Definition ceil_div (x e : Z) : Z := - ((- x) `div` e).

Definition init_range_global_tile_coords {F : Type} (A : Array)
    (st : ArrayReadState F) : ArrayReadState F :=
  let AS := array_schema A in
  let dims := seq 0 (dim_num AS) in
  (* Compute tile domain *)
  let tile_domain :=
    flat_map
      (fun i =>
         let tile_num :=
           ceil_div (idx (domain AS) (2 * i + 1) - idx (domain AS) (2 * i) + 1)
                    (idx (tile_extents AS) i) in
         [0; tile_num - 1])
      dims in
  (* Calculate range in tile domain *)
  let range_global_tile_domain :=
    flat_map
      (fun i =>
         [ Z.max ((idx (range A) (2 * i) - idx (domain AS) (2 * i))
                    `quot` idx (tile_extents AS) i)
                 (idx tile_domain (2 * i));
           Z.min ((idx (range A) (2 * i + 1) - idx (domain AS) (2 * i))
                    `quot` idx (tile_extents AS) i)
                 (idx tile_domain (2 * i + 1)) ])
      dims in
  (* Check if there is any overlap between the range and the tile domain *)
  let overlap :=
    negb (existsb
            (fun i =>
               (idx range_global_tile_domain (2 * i)
                  >? idx tile_domain (2 * i + 1))
               || (idx range_global_tile_domain (2 * i + 1)
                     <? idx tile_domain (2 * i)))
            dims) in
  if overlap then
    set_range_tile st
      (Some (map (fun i => idx range_global_tile_domain (2 * i)) dims))
      (Some range_global_tile_domain)
  else set_range_tile st (range_global_tile_coords_ st) None.

Definition get_next_range_global_tile_coords {F : Type} (A : Array)
    (st : ArrayReadState F) : Run (ArrayReadState F) :=
  let AS := array_schema A in
  match range_global_tile_domain_ st, range_global_tile_coords_ st with
  | Some range_global_tile_domain, Some range_global_tile_coords =>
      (* Advance range tile coordinates *)
      let range_global_tile_coords :=
        get_next_tile_coords AS range_global_tile_domain
          range_global_tile_coords in
      (* Check if the new range coordinates fall out of the range domain *)
      let inside_domain :=
        negb (existsb
                (fun i =>
                   (idx range_global_tile_coords i
                      <? idx range_global_tile_domain (2 * i))
                   || (idx range_global_tile_coords i
                         >? idx range_global_tile_domain (2 * i + 1)))
                (seq 0 (dim_num AS))) in
      if inside_domain
      then Ret (set_range_tile st (Some range_global_tile_coords)
                  (Some range_global_tile_domain))
      else Ret (set_range_tile st None None)
  | _, _ => Undefined NullTileCoords
  end.

(** ** compute_max_overlap_fragment_cell_ranges *)

Definition global_overlap_range (AS : ArraySchema)
    (range_global_tile_coords : Coords) (max_overlap_range : list Z)
    : list Z :=
  flat_map
    (fun i =>
       [ idx range_global_tile_coords i * idx (tile_extents AS) i
         + idx max_overlap_range (2 * i) + idx (domain AS) (2 * i);
         idx range_global_tile_coords i * idx (tile_extents AS) i
         + idx max_overlap_range (2 * i + 1) + idx (domain AS) (2 * i) ])
    (seq 0 (dim_num AS)).

(** Row major: [while(i > 0 && coords[i] > g[2*i+1])]. *)
Fixpoint carry_row (g : list Z) (i : nat) (coords : Coords) : Coords :=
  match i with
  | O => coords
  | S j =>
      if idx coords i >? idx g (2 * i + 1)
      then carry_row g j
             (<[j := idx coords j + 1]> (<[i := idx g (2 * i)]> coords))
      else coords
  end.

(** Column major: [while(i < dim_num-1 && coords[i] > g[2*i+1])]; [k] counts
    the dimensions left above [i]. *)
Fixpoint carry_col (g : list Z) (k : nat) (i : nat) (coords : Coords)
    : Coords :=
  match k with
  | O => coords
  | S k' =>
      if idx coords i >? idx g (2 * i + 1)
      then carry_col g k' (S i)
             (<[S i := idx coords (S i) + 1]> (<[i := idx g (2 * i)]> coords))
      else coords
  end.

Fixpoint row_slabs (fuel : nat) (d : nat) (g : list Z) (max_overlap_i : Z)
    (coords : Coords) (acc : FragmentCellRanges) : Run FragmentCellRanges :=
  match fuel with
  | O => OutOfFuel
  | S fuel' =>
      if idx coords 0 <=? idx g 1 then
        let outer := map (idx coords) (seq 0 (d - 1)) in
        let cell_range : CellRange :=
          (outer ++ [idx g (2 * (d - 1))],
           outer ++ [idx g (2 * (d - 1) + 1)]) in
        let i := (d - 2)%nat in
        let coords := <[i := idx coords i + 1]> coords in
        row_slabs fuel' d g max_overlap_i (carry_row g i coords)
          (acc ++ [(max_overlap_i, cell_range)])
      else Ret acc
  end.

Fixpoint col_slabs (fuel : nat) (d : nat) (g : list Z) (max_overlap_i : Z)
    (coords : Coords) (acc : FragmentCellRanges) : Run FragmentCellRanges :=
  match fuel with
  | O => OutOfFuel
  | S fuel' =>
      if idx coords (d - 1) <=? idx g (2 * (d - 1) + 1) then
        let outer := map (idx coords) (seq 1 (d - 1)) in
        let cell_range : CellRange :=
          (idx g 0 :: outer, idx g 1 :: outer) in
        let coords := <[1%nat := idx coords 1 + 1]> coords in
        col_slabs fuel' d g max_overlap_i
          (carry_col g (d - 2) 1 coords)
          (acc ++ [(max_overlap_i, cell_range)])
      else Ret acc
  end.

Definition compute_max_overlap_fragment_cell_ranges {F : Type} (fuel : nat)
    (A : Array) (st : ArrayReadState F)
    (fragment_cell_ranges : FragmentCellRanges) : Run FragmentCellRanges :=
  let AS := array_schema A in
  match range_global_tile_coords_ st with
  | None => Undefined NullTileCoords
  | Some range_global_tile_coords =>
      let g := global_overlap_range AS range_global_tile_coords
                 (max_overlap_range_ st) in
      let dims := seq 0 (dim_num AS) in
      match max_overlap_type_ st with
      | FULL | PARTIAL_CONTIG =>
          (* Contiguous cells, single cell range *)
          let cell_range : CellRange :=
            (map (fun i => idx g (2 * i)) dims,
             map (fun i => idx g (2 * i + 1)) dims) in
          Ret (fragment_cell_ranges ++ [(max_overlap_i_ st, cell_range)])
      | PARTIAL_NON_CONTIG =>
          (* Non-contiguous cells, multiple ranges *)
          let coords := map (fun i => idx g (2 * i)) dims in
          match cell_order AS with
          | TILEDB_AS_CO_ROW_MAJOR =>
              row_slabs fuel (dim_num AS) g (max_overlap_i_ st) coords
                fragment_cell_ranges
          | TILEDB_AS_CO_COLUMN_MAJOR =>
              col_slabs fuel (dim_num AS) g (max_overlap_i_ st) coords
                fragment_cell_ranges
          | TILEDB_AS_CO_HILBERT => Ret fragment_cell_ranges
          end
      end
  end.

(** ** get_next_cell_ranges_dense *)

(** One fragment is advanced to its next overlapping tile. *)
Definition advance_fragment `{Fragment.Ops F} (f : F) : F * option Coords :=
  let f := Fragment.get_next_overlapping_tile_mult f in
  (f, Fragment.get_global_tile_coords f).

(** "Advance properly the sparse fragments": the [while] loop of one
    fragment (lines 577-585). *)
Fixpoint advance_sparse `{Fragment.Ops F} (fuel : nat) (AS : ArraySchema)
    (range_global_tile_coords : Coords) (f : F) (c : option Coords)
    : Run (F * option Coords) :=
  match fuel with
  | O => OutOfFuel
  | S fuel' =>
      match c with
      | Some coords =>
          if negb (Fragment.dense f)
             && (tile_order_cmp AS coords range_global_tile_coords <? 0)
          then
            let '(f, c) := advance_fragment f in
            advance_sparse fuel' AS range_global_tile_coords f c
          else Ret (f, c)
      | None => Ret (f, c)
      end
  end.

Fixpoint advance_all_sparse `{Fragment.Ops F} (fuel : nat) (AS : ArraySchema)
    (range_global_tile_coords : Coords)
    (fs : list F) (cs : list (option Coords))
    : Run (list F * list (option Coords)) :=
  match fs, cs with
  | f :: fs', c :: cs' =>
      '(f, c) ← advance_sparse fuel AS range_global_tile_coords f c;
      '(fs'', cs'') ← advance_all_sparse fuel AS range_global_tile_coords
                       fs' cs';
      Ret (f :: fs'', c :: cs'')
  | [], _ => Ret ([], cs)
  | _ :: _, [] => Undefined (VectorIndexOutOfRange 0)
  end.

(** Is fragment [i] positioned on the tile [tile]? *)
Definition on_tile (c : option Coords) (tile : Coords) : bool :=
  match c with
  | Some coords => bool_decide (coords = tile)
  | None => false
  end.

(** "Find the most recent fragment with a full dense tile": the downward
    loop over the fragments, here over the reversed list. *)
Fixpoint find_max_overlap `{Fragment.Ops F} (tile : Coords)
    (max_overlap_range : list Z)
    (rev_fs : list (nat * (F * option Coords))) : Z :=
  match rev_fs with
  | [] => -1
  | (i, (f, c)) :: rest =>
      if on_tile c tile && Fragment.max_overlap f max_overlap_range
      then Z.of_nat i
      else find_max_overlap tile max_overlap_range rest
  end.

Definition indexed {A : Type} (l : list A) : list (nat * A) :=
  zip (seq 0 (length l)) l.

(** "Compute cell ranges for the rest of the relevant fragments". *)
Fixpoint rest_cell_ranges `{Fragment.Ops F} (tile : Coords)
    (max_overlap_i : Z) (ifs : list (nat * (F * option Coords)))
    (unsorted : FragmentCellRanges) : FragmentCellRanges :=
  match ifs with
  | [] => unsorted
  | (i, (f, c)) :: rest =>
      let unsorted :=
        if (max_overlap_i <? Z.of_nat i) && on_tile c tile
        then Fragment.compute_fragment_cell_ranges f (Z.of_nat i) unsorted
        else unsorted in
      rest_cell_ranges tile max_overlap_i rest unsorted
  end.

Definition get_next_cell_ranges_dense `{Fragment.Ops F} (fuel : nat)
    (A : Array) (st : ArrayReadState F) : Run (Z * ArrayReadState F) :=
  let AS := array_schema A in
  (* the tile cursor and the fragments positioned on the previous tile *)
  '(finished, st) ←
    (if bool_decide (fragment_cell_pos_ranges_vec_ st = []) then
       (* First invocation *)
       let st := init_range_global_tile_coords A st in
       match range_global_tile_coords_ st with
       | None => Ret (true, set_done st true)
       | Some _ =>
           let advanced := map advance_fragment (fragments st) in
           Ret (false,
                set_fragment_coords
                  (set_fragments st (map fst advanced))
                  (map snd advanced))
       end
     else
       match range_global_tile_coords_ st with
       | None => Undefined NullTileCoords
       | Some previous_range_global_tile_coords =>
           st ← get_next_range_global_tile_coords A st;
           match range_global_tile_coords_ st with
           | None => Ret (true, set_done st true)
           | Some _ =>
               if bool_decide (length (fragment_global_tile_coords_ st)
                               < length (fragments st))%nat
               then Undefined (VectorIndexOutOfRange 0)
               else
                 let advanced :=
                   zip_with
                     (fun f c =>
                        if on_tile c previous_range_global_tile_coords
                        then advance_fragment f else (f, c))
                     (fragments st) (fragment_global_tile_coords_ st) in
                 Ret (false,
                      set_fragment_coords
                        (set_fragments st (map fst advanced))
                        (map snd advanced
                         ++ drop (length (fragments st))
                              (fragment_global_tile_coords_ st)))
           end
       end);
  if finished : bool then Ret (TILEDB_ARS_OK, st)
  else
    match range_global_tile_coords_ st with
    | None => Undefined NullTileCoords
    | Some tile =>
        (* Advance properly the sparse fragments *)
        '(fs, cs) ← advance_all_sparse fuel AS tile (fragments st)
                     (fragment_global_tile_coords_ st);
        let st := set_fragment_coords (set_fragments st fs) cs in
        (* Compute the maximum overlap range for this tile *)
        st ← compute_max_overlap_range A st;
        (* Find the most recent fragment with a full dense tile *)
        let ifs := indexed (zip (fragments st)
                              (fragment_global_tile_coords_ st)) in
        let st :=
          set_max_overlap_i st
            (find_max_overlap tile (max_overlap_range_ st) (rev ifs)) in
        unsorted ← compute_max_overlap_fragment_cell_ranges fuel A st [];
        let unsorted :=
          rest_cell_ranges tile (max_overlap_i_ st) ifs unsorted in
        (* Compute the fragment cell position ranges *)
        '(rc, fragment_cell_pos_ranges, _) ←
          compute_fragment_cell_pos_ranges fuel AS (fragments st) tile
            unsorted;
        if negb (rc =? TILEDB_ARS_OK) then Ret (TILEDB_ARS_ERR, st)
        else
          let st :=
            set_vec st
              (fragment_cell_pos_ranges_vec_ st
               ++ [fragment_cell_pos_ranges]) in
          Ret (TILEDB_ARS_OK,
               clean_up_processed_fragment_cell_pos_ranges A st)
    end.

(** ** read_multiple_fragments_dense_attr<T> *)

(** [fragment_cell_pos_ranges_vec_pos_[attribute_id] >=
    fragment_cell_pos_ranges_vec_.size()] (line 993).  The position is an
    [int64_t] (line 173) and [size()] is unsigned: the position is converted
    for the comparison, so that a negative one compares as past the end. *)
Definition past_the_plans {F : Type} (pos : Z) (st : ArrayReadState F)
    : bool :=
  (pos <? 0) || (pos >=? Z.of_nat (length (fragment_cell_pos_ranges_vec_ st))).

(** What a read of one attribute hands back: the status, the state, the
    buffer, [buffer_size] as rewritten, and the buffer offset reached. *)
Definition ReadAttr (F : Type) : Type :=
  (Z * ArrayReadState F * Buffer * Z * Z)%type.

Fixpoint read_dense_attr_loop `{Fragment.Ops F} (fuel : nat) (A : Array)
    (attribute_id : Z) (buffer_size : Z)
    (st : ArrayReadState F) (buffer : Buffer) (buffer_offset : Z)
    : Run (ReadAttr F) :=
  match fuel with
  | O => OutOfFuel
  | S fuel' =>
      (* Continue copying from the previous unfinished tile *)
      tile_done ← vector_at (tile_done_ st) attribute_id;
      '(rc, st, buffer, buffer_offset) ←
        (if negb tile_done
         then copy_cell_ranges attribute_id buffer_size st buffer
                buffer_offset
         else Ret (TILEDB_ARS_OK, st, buffer, buffer_offset));
      if negb (rc =? TILEDB_ARS_OK)
      then Ret (TILEDB_ARS_ERR, st, buffer, buffer_size, buffer_offset)
      else
        (* Check for overflow *)
        ov ← vector_at (overflow_ st) attribute_id;
        if ov : bool
        then Ret (TILEDB_ARS_OK, st, buffer, buffer_offset, buffer_offset)
        else
          (* Prepare the cell ranges for the next tile *)
          pos ← vector_at (fragment_cell_pos_ranges_vec_pos_ st) attribute_id;
          '(rc, st) ←
            (if past_the_plans pos st
             then get_next_cell_ranges_dense fuel' A st
             else Ret (TILEDB_ARS_OK, st));
          if negb (rc =? TILEDB_ARS_OK)
          then Ret (TILEDB_ARS_ERR, st, buffer, buffer_size, buffer_offset)
          else if done_ st
          then Ret (TILEDB_ARS_OK, st, buffer, buffer_offset, buffer_offset)
          else
            (* Process the heap and copy cells to buffers *)
            '(rc, st, buffer, buffer_offset) ←
              copy_cell_ranges attribute_id buffer_size st buffer
                buffer_offset;
            if negb (rc =? TILEDB_ARS_OK)
            then Ret (TILEDB_ARS_ERR, st, buffer, buffer_size, buffer_offset)
            else
              ov ← vector_at (overflow_ st) attribute_id;
              if ov : bool
              then Ret (TILEDB_ARS_OK, st, buffer, buffer_offset,
                        buffer_offset)
              else read_dense_attr_loop fuel' A attribute_id buffer_size
                     st buffer buffer_offset
  end.

(** The loop starts with [buffer_offset = 0]. *)
Definition read_multiple_fragments_dense_attr `{Fragment.Ops F} (fuel : nat)
    (A : Array) (attribute_id : Z) (st : ArrayReadState F)
    (buffer : Buffer) (buffer_size : Z) : Run (ReadAttr F) :=
  read_dense_attr_loop fuel A attribute_id buffer_size st buffer 0.

(** ** read_multiple_fragments_dense and read_multiple_fragments *)

(** The coordinate types [ArraySchema::coords_type()] may name. *)
Inductive CoordsType : Type :=
  | coords_int
  | coords_int64
  | coords_float
  | coords_double.

(** The untemplated [read_multiple_fragments_dense_attr]: the dispatch on the
    coordinate type. *)
Definition read_multiple_fragments_dense_attr_dispatch `{Fragment.Ops F}
    (fuel : nat) (coords_type : CoordsType) (A : Array) (attribute_id : Z)
    (st : ArrayReadState F) (buffer : Buffer) (buffer_size : Z)
    : Run (ReadAttr F) :=
  match coords_type with
  | coords_int | coords_int64 =>
      read_multiple_fragments_dense_attr fuel A attribute_id st buffer
        buffer_size
  | _ => Ret (TILEDB_ARS_ERR, st, buffer, buffer_size, 0)
  end.

(** The loop of [read_multiple_fragments_dense] over the attribute ids.  The
    status is [None] while [rc] is uninitialised. *)
Fixpoint read_dense_attrs `{Fragment.Ops F} (fuel : nat)
    (coords_type : CoordsType) (A : Array) (ids : list Z) (buffer_i : nat)
    (rc : option Z) (st : ArrayReadState F)
    (buffers : list Buffer) (buffer_sizes : list Z)
    : Run (option Z * ArrayReadState F * list Buffer * list Z) :=
  match ids with
  | [] => Ret (rc, st, buffers, buffer_sizes)
  | id :: ids' =>
      if negb (var_size (array_schema A) id) then
        (* FIXED CELLS *)
        buffer ← vector_at buffers (Z.of_nat buffer_i);
        buffer_size ← vector_at buffer_sizes (Z.of_nat buffer_i);
        '(rc, st, buffer, buffer_size, _) ←
          read_multiple_fragments_dense_attr_dispatch fuel coords_type A id
            st buffer buffer_size;
        let buffers := <[buffer_i := buffer]> buffers in
        let buffer_sizes := <[buffer_i := buffer_size]> buffer_sizes in
        if negb (rc =? TILEDB_ARS_OK)
        then Ret (Some rc, st, buffers, buffer_sizes)
        else read_dense_attrs fuel coords_type A ids' (S buffer_i) (Some rc)
               st buffers buffer_sizes
      else
        (* VARIABLE-SIZED CELLS *)
        buffer ← vector_at buffers (Z.of_nat buffer_i);
        buffer_size ← vector_at buffer_sizes (Z.of_nat buffer_i);
        buffer_var ← vector_at buffers (Z.of_nat (S buffer_i));
        buffer_var_size ← vector_at buffer_sizes (Z.of_nat (S buffer_i));
        '(rc, st, (buffer, buffer_size), (buffer_var, buffer_var_size)) ←
          read_multiple_fragments_dense_attr_var st id buffer buffer_size
            buffer_var buffer_var_size;
        let buffers :=
          <[S buffer_i := buffer_var]> (<[buffer_i := buffer]> buffers) in
        let buffer_sizes :=
          <[S buffer_i := buffer_var_size]>
            (<[buffer_i := buffer_size]> buffer_sizes) in
        if negb (rc =? TILEDB_ARS_OK)
        then Ret (Some rc, st, buffers, buffer_sizes)
        else read_dense_attrs fuel coords_type A ids' (S (S buffer_i))
               (Some rc) st buffers buffer_sizes
  end.

Definition read_multiple_fragments_dense `{Fragment.Ops F} (fuel : nat)
    (coords_type : CoordsType) (A : Array) (st : ArrayReadState F)
    (buffers : list Buffer) (buffer_sizes : list Z)
    : Run (option Z * ArrayReadState F * list Buffer * list Z) :=
  read_dense_attrs fuel coords_type A (attribute_ids A) 0 None st
    buffers buffer_sizes.

Definition read_multiple_fragments `{Fragment.Ops F} (fuel : nat)
    (coords_type : CoordsType) (A : Array) (st : ArrayReadState F)
    (buffers : list Buffer) (buffer_sizes : list Z)
    : Run (option Z * ArrayReadState F * list Buffer * list Z) :=
  (* Reset overflow *)
  let st :=
    set_overflow st
      (replicate (S (attribute_num (array_schema A))) false) in
  let st := set_done st false in
  let st := set_fragments st (map Fragment.reset_overflow (fragments st)) in
  if dense (array_schema A)
  then read_multiple_fragments_dense fuel coords_type A st buffers
         buffer_sizes
  else
    '(rc, st, buffers, buffer_sizes) ←
      read_multiple_fragments_sparse st buffers buffer_sizes;
    Ret (Some rc, st, buffers, buffer_sizes).

(** ** A row-major schema and simple fragments for the examples

    Modelled from the spec: the [ArraySchema] helpers are not part of the
    source file.  The spec describes the cell order as row-major over the
    coordinates, [get_next_cell_coords] and [get_previous_cell_coords] as the
    successor and predecessor in cell order "wrapping on inner axes and
    bounded to the tile-domain rectangle", and [get_cell_pos] as the
    "linearized cell index inside one tile under the tile's cell order". *)

Fixpoint row_major_cmp (a b : Coords) : Z :=
  match a, b with
  | x :: a', y :: b' =>
      if x <? y then -1 else if x >? y then 1 else row_major_cmp a' b'
  | _, _ => 0
  end.

Fixpoint borrow_row (td : list Z) (i : nat) (coords : Coords) : Coords :=
  match i with
  | O => coords
  | S j =>
      if idx coords i <? idx td (2 * i)
      then borrow_row td j
             (<[j := idx coords j - 1]> (<[i := idx td (2 * i + 1)]> coords))
      else coords
  end.

Definition row_major_next (td : list Z) (coords : Coords) : Coords :=
  let i := (length coords - 1)%nat in
  carry_row td i (<[i := idx coords i + 1]> coords).

Definition row_major_prev (td : list Z) (coords : Coords) : Coords :=
  let i := (length coords - 1)%nat in
  borrow_row td i (<[i := idx coords i - 1]> coords).

Fixpoint row_major_pos (extents : list Z) (coords : Coords) (acc : Z) : Z :=
  match extents, coords with
  | e :: extents', c :: coords' => row_major_pos extents' coords' (acc * e + c)
  | _, _ => acc
  end.

Definition row_major_schema (attributes : nat) (dom extents : list Z)
    : ArraySchema :=
  {| attribute_num := attributes;
     dim_num := length extents;
     cell_order := TILEDB_AS_CO_ROW_MAJOR;
     dense := true;
     domain := dom;
     tile_extents := extents;
     var_size := fun _ => false;
     cell_order_cmp := row_major_cmp;
     tile_order_cmp := row_major_cmp;
     get_next_cell_coords := row_major_next;
     get_previous_cell_coords := row_major_prev;
     get_next_tile_coords := row_major_next;
     get_cell_pos := fun c => row_major_pos extents c 0 |}.

(** The array of the spec's scenarios: domain [0,9] x [0,9], tiles of 5 x 5
    cells, one attribute. *)
Definition schema_10x10 : ArraySchema :=
  row_major_schema 1 [0; 9; 0; 9] [5; 5].

(** A one-dimensional array of ten cells in one tile. *)
Definition schema_line : ArraySchema := row_major_schema 1 [0; 9] [10].

(** A fragment of the examples.  It overlaps the tiles [sf_pending] of the
    query range, [sf_tile] being the one it is positioned on, and contributes
    the cell ranges [sf_ranges] to a tile.  [sf_values] lists the attribute
    values by cell position; a sparse fragment stores the coordinates
    [sf_coords] (in cell order); [sf_beyond] stands for coordinates past the
    end of the tile.  A cell takes one byte of a buffer.  [sf_next] is the
    position up to which the attribute has been copied: a copy request skips
    the cells before it, copies while the buffer has room and reports
    overflow when cells of the request are left. *)
Record SimpleFragment : Type := {
  sf_dense : bool;
  sf_max_overlap : bool;
  sf_ranges : list CellRange;
  sf_coords : list Coords;
  sf_beyond : Coords;
  sf_values : list Z;
  sf_tile : option Coords;
  sf_pending : list Coords;
  sf_overflow : bool;
  sf_next : Z
}.

Definition sf_with (f : SimpleFragment) (tile : option Coords)
    (pending : list Coords) (ov : bool) (next : Z) : SimpleFragment :=
  {| sf_dense := sf_dense f;
     sf_max_overlap := sf_max_overlap f;
     sf_ranges := sf_ranges f;
     sf_coords := sf_coords f;
     sf_beyond := sf_beyond f;
     sf_values := sf_values f;
     sf_tile := tile;
     sf_pending := pending;
     sf_overflow := ov;
     sf_next := next |}.

Definition sf_copy (f : SimpleFragment) (buffer : Buffer)
    (buffer_size buffer_offset : Z) (r : CellPosRange)
    : SimpleFragment * Buffer * Z :=
  let first := Z.max (fst r) (sf_next f) in
  let wanted := snd r - first + 1 in
  let room := buffer_size - buffer_offset in
  let n := Z.max 0 (Z.min wanted room) in
  let cells :=
    map (fun k => idx (sf_values f) (Z.to_nat (first + Z.of_nat k)))
      (seq 0 (Z.to_nat n)) in
  (sf_with f (sf_tile f) (sf_pending f)
     (sf_overflow f || (n <? wanted))
     (Z.max (sf_next f) (first + n)),
   take (Z.to_nat buffer_offset) buffer ++ cells
   ++ drop (Z.to_nat (buffer_offset + n)) buffer,
   buffer_offset + n).

Definition sf_first_two (cmp : Coords -> Coords -> Z) (f : SimpleFragment)
    (start : Coords) : option (Coords * Coords) :=
  match filter (fun c => cmp c start >= 0) (sf_coords f) with
  | c1 :: c2 :: _ => Some (c1, c2)
  | [c1] => Some (c1, sf_beyond f)
  | [] => Some (sf_beyond f, sf_beyond f)
  end.

(** The stored cells of the range [r], each as a unary range of positions
    in the tile with domain [td]. *)
Definition sf_cell_pos_ranges (f : SimpleFragment) (i : Z) (td : list Z)
    (r : CellRange) : FragmentCellPosRanges :=
  let dims := seq 0 (length td / 2) in
  let extents := map (fun d => idx td (2 * d + 1) - idx td (2 * d) + 1) dims in
  map (fun c =>
         let p :=
           row_major_pos extents
             (map (fun d => idx c d - idx td (2 * d)) dims) 0 in
         (i, (p, p)))
    (filter (fun c => row_major_cmp c (fst r) >= 0
                      /\ row_major_cmp c (snd r) <= 0)
       (sf_coords f)).

#[global] Instance SimpleFragment_ops : Fragment.Ops SimpleFragment := {|
  Fragment.dense := sf_dense;
  Fragment.reset_overflow f :=
    sf_with f (sf_tile f) (sf_pending f) false (sf_next f);
  Fragment.overflow f _ := sf_overflow f;
  Fragment.get_next_overlapping_tile_mult f :=
    sf_with f (head (sf_pending f)) (tail (sf_pending f)) (sf_overflow f) 0;
  Fragment.get_global_tile_coords := sf_tile;
  Fragment.max_overlap f _ := sf_max_overlap f;
  Fragment.coords_exist f c := bool_decide (c ∈ sf_coords f);
  Fragment.get_first_two_coords f start := sf_first_two row_major_cmp f start;
  Fragment.compute_fragment_cell_ranges f i ranges :=
    ranges ++ map (fun r => (i, r)) (sf_ranges f);
  Fragment.get_cell_pos_ranges_sparse f i td r :=
    Some (sf_cell_pos_ranges f i td r);
  Fragment.copy_cell_range f attr buffer buffer_size buffer_offset r :=
    Some (sf_copy f buffer buffer_size buffer_offset r);
  Fragment.tile_done f _ :=
    sf_with f (sf_tile f) (sf_pending f) (sf_overflow f) 0
|}.

(** A dense fragment that covers the tiles [tiles] entirely. *)
Definition dense_fragment (tiles : list Coords) (values : list Z)
    : SimpleFragment :=
  {| sf_dense := true; sf_max_overlap := true; sf_ranges := [];
     sf_coords := []; sf_beyond := []; sf_values := values;
     sf_tile := None; sf_pending := tiles;
     sf_overflow := false; sf_next := 0 |}.

(** A dense fragment that covers the cell ranges [ranges] of its tiles. *)
Definition partial_fragment (tiles : list Coords) (ranges : list CellRange)
    (values : list Z) : SimpleFragment :=
  {| sf_dense := true; sf_max_overlap := false; sf_ranges := ranges;
     sf_coords := []; sf_beyond := []; sf_values := values;
     sf_tile := None; sf_pending := tiles;
     sf_overflow := false; sf_next := 0 |}.

(** A sparse fragment that stores the coordinates [coords]. *)
Definition sparse_fragment (tiles : list Coords) (ranges : list CellRange)
    (coords : list Coords) (beyond : Coords) (values : list Z)
    : SimpleFragment :=
  {| sf_dense := false; sf_max_overlap := false; sf_ranges := ranges;
     sf_coords := coords; sf_beyond := beyond; sf_values := values;
     sf_tile := None; sf_pending := tiles;
     sf_overflow := false; sf_next := 0 |}.

(** The constructor of [ArrayReadState] over the fragments of the array. *)
Definition new_ArrayReadState {F : Type} (A : Array) (fs : list F)
    : ArrayReadState F :=
  let attribute_num := attribute_num (array_schema A) in
  {| done_ := false;
     fragment_cell_pos_ranges_vec_ := [];
     fragment_cell_pos_ranges_vec_pos_ := replicate (S attribute_num) 0;
     fragment_global_tile_coords_ := [];
     max_overlap_i_ := 0;
     max_overlap_range_ := [];
     max_overlap_type_ := FULL;
     overflow_ := [];
     range_global_tile_coords_ := None;
     range_global_tile_domain_ := None;
     tile_done_ := replicate attribute_num true;
     fragments := fs |}.

(** * Vocabulary of the properties *)

(** The overlap spans the whole extent of dimension [i]. *)
Definition spans (AS : ArraySchema) (r : list Z) (i : nat) : Prop :=
  idx r (2 * i) = 0 /\ idx r (2 * i + 1) = idx (tile_extents AS) i - 1.

(** ** Inputs of the examples *)

(** Three dense fragments over the one tile of the ten-cell line. *)
Definition three_dense_fragments : list SimpleFragment :=
  [ dense_fragment [[0]] [];
    partial_fragment [[0]] [([2], [5])] [];
    partial_fragment [[0]] [([1], [9])] [] ].

(** The newest fragment covers cells 1..9, an older one cells 2..5 inside
    it, the oldest one the whole tile. *)
Definition nested_ranges : FragmentCellRanges :=
  [ (0, ([0], [9])); (2, ([1], [9])); (1, ([2], [5])) ].

(** A sparse fragment that stores no cell at coordinate 3, with the unary
    range at that coordinate. *)
Definition empty_sparse_fragment : list SimpleFragment :=
  [ sparse_fragment [[0]] [([3], [3])] [] [10] [] ].

Definition absent_unary_range : FragmentCellRanges := [ (0, ([3], [3])) ].

(** The line of ten cells as a sparse array, and as a dense array whose
    attribute 0 has cells of variable size. *)
Definition sparse_line_schema : ArraySchema :=
  {| attribute_num := 1;
     dim_num := 1;
     cell_order := TILEDB_AS_CO_ROW_MAJOR;
     dense := false;
     domain := [0; 9];
     tile_extents := [10];
     var_size := fun _ => false;
     cell_order_cmp := row_major_cmp;
     tile_order_cmp := row_major_cmp;
     get_next_cell_coords := row_major_next;
     get_previous_cell_coords := row_major_prev;
     get_next_tile_coords := row_major_next;
     get_cell_pos := fun c => row_major_pos [10] c 0 |}.

Definition sparse_line_array : Array :=
  {| array_schema := sparse_line_schema;
     attribute_ids := [0];
     range := [0; 9] |}.

Definition var_line_schema : ArraySchema :=
  {| attribute_num := 1;
     dim_num := 1;
     cell_order := TILEDB_AS_CO_ROW_MAJOR;
     dense := true;
     domain := [0; 9];
     tile_extents := [10];
     var_size := fun id => id =? 0;
     cell_order_cmp := row_major_cmp;
     tile_order_cmp := row_major_cmp;
     get_next_cell_coords := row_major_next;
     get_previous_cell_coords := row_major_prev;
     get_next_tile_coords := row_major_next;
     get_cell_pos := fun c => row_major_pos [10] c 0 |}.

Definition var_line_array : Array :=
  {| array_schema := var_line_schema;
     attribute_ids := [0];
     range := [0; 9] |}.

(** An array of two attributes of which the second alone is requested, and
    one of which both are requested, the second first. *)
Definition array_second_attribute : Array :=
  {| array_schema := row_major_schema 2 [0; 9] [10];
     attribute_ids := [1];
     range := [0; 9] |}.

Definition array_second_then_first : Array :=
  {| array_schema := row_major_schema 2 [0; 9] [10];
     attribute_ids := [1; 0];
     range := [0; 9] |}.

(** A read state holding the plans [plans] with the plan positions [pos]. *)
Definition state_with_plans (A : Array) (plans : FragmentCellPosRangesVec)
    (pos : list Z) : ArrayReadState SimpleFragment :=
  set_vec_pos (set_vec (new_ArrayReadState A []) plans) pos.

Definition two_plans : FragmentCellPosRangesVec :=
  [ [(0, (0, 24))]; [(0, (0, 24))] ].

(** The ten-cell line read through its one attribute, one dense fragment
    storing the values 100..109, and the read state of a call that has reset
    the overflow flags. *)
Definition line_array : Array :=
  {| array_schema := schema_line; attribute_ids := [0]; range := [0; 9] |}.

Definition ten_cells : list SimpleFragment :=
  [ dense_fragment [[0]] [100; 101; 102; 103; 104; 105; 106; 107; 108; 109] ].

Definition line_state : ArrayReadState SimpleFragment :=
  set_overflow (new_ArrayReadState line_array ten_cells) [false; false].

(** ** Cells of a tile, cell ranges and their owners *)

(** The coordinates of the tile with domain [td]. *)
Definition in_tile (AS : ArraySchema) (td : list Z) (c : Coords) : Prop :=
  length c = dim_num AS
  /\ forall i, (i < dim_num AS)%nat ->
       idx td (2 * i) <= idx c i <= idx td (2 * i + 1).

(** The position of a cell of the tile, as the conversion of the merged
    ranges computes it. *)
Definition cell_pos (AS : ArraySchema) (td : list Z) (c : Coords) : Z :=
  get_cell_pos AS (normalize AS td c).

(** What the merge relies on from the schema, on the cells of one tile:
    positions identify cells, the cell order is the order of positions, and
    the next and the previous cell are one position away. *)
Record CellOrderLaws (AS : ArraySchema) (td : list Z) : Prop := {
  cell_pos_inj : forall a b,
    in_tile AS td a -> in_tile AS td b ->
    cell_pos AS td a = cell_pos AS td b -> a = b;
  cell_order_cmp_pos : forall a b,
    in_tile AS td a -> in_tile AS td b ->
    (cell_order_cmp AS a b ?= 0) = (cell_pos AS td a ?= cell_pos AS td b);
  next_cell_pos : forall a b,
    in_tile AS td a -> in_tile AS td b ->
    cell_pos AS td a < cell_pos AS td b ->
    in_tile AS td (get_next_cell_coords AS td a)
    /\ cell_pos AS td (get_next_cell_coords AS td a) = cell_pos AS td a + 1;
  previous_cell_pos : forall a b,
    in_tile AS td a -> in_tile AS td b ->
    cell_pos AS td b < cell_pos AS td a ->
    in_tile AS td (get_previous_cell_coords AS td a)
    /\ cell_pos AS td (get_previous_cell_coords AS td a)
       = cell_pos AS td a - 1
}.

(** The positions of the two ends of a range. *)
Definition lo (AS : ArraySchema) (td : list Z) (r : FragmentCellRange) : Z :=
  cell_pos AS td (fst (snd r)).

Definition hi (AS : ArraySchema) (td : list Z) (r : FragmentCellRange) : Z :=
  cell_pos AS td (snd (snd r)).

(** A range of cells of the tile that is not inverted. *)
Definition valid_range (AS : ArraySchema) (td : list Z)
    (r : FragmentCellRange) : Prop :=
  in_tile AS td (fst (snd r)) /\ in_tile AS td (snd (snd r))
  /\ lo AS td r <= hi AS td r.

(** The range [r] holds the cell at position [p]. *)
Definition covers (AS : ArraySchema) (td : list Z) (r : FragmentCellRange)
    (p : Z) : Prop :=
  lo AS td r <= p <= hi AS td r.

(** Two ranges share no cell. *)
Definition apart (AS : ArraySchema) (td : list Z)
    (r1 r2 : FragmentCellRange) : Prop :=
  hi AS td r1 < lo AS td r2 \/ hi AS td r2 < lo AS td r1.

(** The ranges one fragment contributes share no cell. *)
Definition apart_if_same (AS : ArraySchema) (td : list Z)
    (r1 r2 : FragmentCellRange) : Prop :=
  fst r1 = fst r2 -> apart AS td r1 r2.

Fixpoint pairwise {A : Type} (R : A -> A -> Prop) (l : list A) : Prop :=
  match l with
  | [] => True
  | x :: l' => Forall (R x) l' /\ pairwise R l'
  end.

(** Fragment [f] is the highest-indexed fragment with a range of [l] that
    holds the cell at position [p]. *)
Definition is_owner (AS : ArraySchema) (td : list Z)
    (l : FragmentCellRanges) (p : Z) (f : Z) : Prop :=
  (exists r, r ∈ l /\ fst r = f /\ covers AS td r p)
  /\ forall r, r ∈ l -> covers AS td r p -> fst r <= f.

(** Ranges in strictly increasing cell order: each is valid and ends before
    the next one starts. *)
Fixpoint increasing (AS : ArraySchema) (td : list Z)
    (l : FragmentCellRanges) : Prop :=
  match l with
  | [] => True
  | r :: l' =>
      valid_range AS td r
      /\ Forall (fun r' => hi AS td r < lo AS td r') l'
      /\ increasing AS td l'
  end.

(** The same for the position ranges of a plan. *)
Fixpoint increasing_pos (l : FragmentCellPosRanges) : Prop :=
  match l with
  | [] => True
  | r :: l' =>
      fst (snd r) <= snd (snd r)
      /\ Forall (fun r' => snd (snd r) < fst (snd r')) l'
      /\ increasing_pos l'
  end.

(** The fragment index [i] names a dense fragment. *)
Definition dense_id `{Fragment.Ops F} (fs : list F) (i : Z) : Prop :=
  exists f, fragment_at fs i = Ret f /\ Fragment.dense f = true.

(** The sum of the sizes of the ranges of a queue: a bound on the work that
    is left. *)
Definition work (AS : ArraySchema) (td : list Z) (l : FragmentCellRanges)
    : Z :=
  foldr (fun r acc => 2 * (hi AS td r - lo AS td r) + 1 + acc) 0 l.

(** ** Sparse fragments in the merge

    What the merge relies on from a sparse fragment, in the words of the
    spec: its ranges are "tight sparse ranges around their actual tile
    contents", and [get_first_two_coords] yields "its first two physical
    cells" from a starting point on. *)

(** The fragment stores a cell at the coordinates [c]. *)
Definition stored `{Fragment.Ops F} (f : F) (c : Coords) : Prop :=
  Fragment.coords_exist f c = true.

(** [e] is the last cell of the tile the fragment stores. *)
Definition last_stored `{Fragment.Ops F} (AS : ArraySchema) (td : list Z)
    (f : F) (e : Coords) : Prop :=
  stored f e
  /\ forall c, in_tile AS td c -> stored f c ->
       cell_pos AS td c <= cell_pos AS td e.

(** [get_first_two_coords] from the cell [s] on, in a tile whose last stored
    cell is not before [s]: the first coordinates are those of the first
    stored cell at or after [s]; the second are those of the next stored
    cell, or lie past the end of the tile when there is none. *)
Definition first_two_spec `{Fragment.Ops F} (AS : ArraySchema)
    (td : list Z) (tde : Coords) (f : F) : Prop :=
  forall s e,
    in_tile AS td s -> in_tile AS td e -> stored f e ->
    cell_pos AS td s <= cell_pos AS td e ->
    exists u v,
      Fragment.get_first_two_coords f s = Some (u, v)
      /\ in_tile AS td u /\ stored f u
      /\ cell_pos AS td s <= cell_pos AS td u
      /\ (forall c, in_tile AS td c -> stored f c ->
            cell_pos AS td s <= cell_pos AS td c ->
            cell_pos AS td u <= cell_pos AS td c)
      /\ ((in_tile AS td v /\ stored f v
           /\ cell_pos AS td u < cell_pos AS td v
           /\ forall c, in_tile AS td c -> stored f c ->
                cell_pos AS td u < cell_pos AS td c ->
                cell_pos AS td v <= cell_pos AS td c)
          \/ (cell_order_cmp AS v tde > 0
              /\ forall c, in_tile AS td c -> stored f c ->
                   cell_pos AS td c <= cell_pos AS td u)).

(** The sparse fragments that contribute the ranges [l] answer as the merge
    expects, and the end of the tile is its last cell. *)
Definition sparse_laws `{Fragment.Ops F} (AS : ArraySchema) (td : list Z)
    (tde : Coords) (fs : list F) (l : FragmentCellRanges) : Prop :=
  forall r f,
    r ∈ l -> fragment_at fs (fst r) = Ret f -> Fragment.dense f = false ->
    in_tile AS td tde
    /\ (forall c, in_tile AS td c -> cell_pos AS td c <= cell_pos AS td tde)
    /\ first_two_spec AS td tde f.

(** A range the merge may hold: a valid range of a fragment of the array;
    the range of a sparse fragment ends at a stored cell, which is the last
    stored cell of the tile unless the range is unary. *)
Definition entry_ok `{Fragment.Ops F} (AS : ArraySchema) (td : list Z)
    (fs : list F) (r : FragmentCellRange) : Prop :=
  valid_range AS td r
  /\ exists f, fragment_at fs (fst r) = Ret f
       /\ (Fragment.dense f = false ->
           stored f (snd (snd r))
           /\ (fst (snd r) <> snd (snd r) ->
               last_stored AS td f (snd (snd r)))).

(** The unsorted ranges of a tile as the merge expects them. *)
Definition well_formed `{Fragment.Ops F} (AS : ArraySchema) (td : list Z)
    (fs : list F) (l : FragmentCellRanges) : Prop :=
  Forall (entry_ok AS td fs) l /\ pairwise (apart_if_same AS td) l.

(** The priority of the queue on ranges of the tile: earlier start first,
    then higher fragment index. *)
Definition le_key (AS : ArraySchema) (td : list Z)
    (x y : FragmentCellRange) : Prop :=
  lo AS td x < lo AS td y \/ (lo AS td x = lo AS td y /\ fst y <= fst x).

(** The range [q] lies within a range of [l] of the same fragment. *)
Definition from_input (AS : ArraySchema) (td : list Z)
    (l : FragmentCellRanges) (q : FragmentCellRange) : Prop :=
  exists r, r ∈ l /\ fst r = fst q
            /\ lo AS td r <= lo AS td q /\ hi AS td q <= hi AS td r.

(** The queue behind a popped range [P]: its ranges are ranges the merge may
    hold, in popping order, [P] would pop before each of them, and
    ranges of one fragment share no cell with each other or with [P]. *)
Definition behind `{Fragment.Ops F} (AS : ArraySchema) (td : list Z)
    (fs : list F) (P : FragmentCellRange) (pq : FragmentCellRanges) : Prop :=
  Forall (entry_ok AS td fs) pq
  /\ pairwise (le_key AS td) pq
  /\ Forall (le_key AS td P) pq
  /\ Forall (apart_if_same AS td P) pq
  /\ pairwise (apart_if_same AS td) pq.

(** The state of the merge loop over the unsorted ranges [input]: the queue
    [pq] holds ranges the merge may hold, in popping order, those of one
    fragment sharing no cell; the ranges produced so far are increasing and
    end before every range of the queue starts; every range lies within a
    range of its fragment in [input]; and, when every fragment of [input] is
    dense, the owners of the cells are those of [input]. *)
Definition merging `{Fragment.Ops F} (AS : ArraySchema) (td : list Z)
    (fs : list F) (input pq out : FragmentCellRanges) : Prop :=
  Forall (entry_ok AS td fs) pq
  /\ pairwise (le_key AS td) pq
  /\ pairwise (apart_if_same AS td) pq
  /\ increasing AS td out
  /\ (forall o q, o ∈ out -> q ∈ pq -> hi AS td o < lo AS td q)
  /\ Forall (from_input AS td input) (out ++ pq)
  /\ ((forall r, r ∈ input -> dense_id fs (fst r)) ->
      forall p f,
        is_owner AS td (out ++ pq) p f <-> is_owner AS td input p f).

(** The plan entry of a merged range of a dense fragment. *)
Definition to_pos (AS : ArraySchema) (td : list Z) (r : FragmentCellRange)
    : FragmentCellPosRange :=
  (fst r, (lo AS td r, hi AS td r)).

(** The first tile of the 10 x 10 array: an old fragment covers it, a newer
    dense one covers rows 2..4 of its columns 2..4. *)
Definition two_dense_fragments : list SimpleFragment :=
  [ dense_fragment [[0; 0]] [];
    partial_fragment [[0; 0]]
      [([2; 2], [2; 4]); ([3; 2], [3; 4]); ([4; 2], [4; 4])] [] ].

Definition overlapping_ranges : FragmentCellRanges :=
  [ (0, ([0; 0], [4; 4]));
    (1, ([2; 2], [2; 4])); (1, ([3; 2], [3; 4])); (1, ([4; 2], [4; 4])) ].

(** The ten-cell line: an old dense fragment covers it, a newer sparse one
    stores the cells 3, 5 and 7. *)
Definition dense_and_sparse : list SimpleFragment :=
  [ dense_fragment [[0]] [];
    sparse_fragment [[0]] [([3], [7])] [[3]; [5]; [7]] [10] [] ].

Definition dense_and_sparse_ranges : FragmentCellRanges :=
  [ (0, ([0], [9])); (1, ([3], [7])) ].

(** The ten-cell line with one fragment that stores the cells 3 to 5 only,
    and the read state once the tile had the plan that leaves the other
    cells to the empty fragment. *)
Definition partly_covered_line : list SimpleFragment :=
  [ partial_fragment [[0]] [([3], [5])] [0; 0; 0; 103; 104; 105] ].

Definition partly_covered_planned : ArrayReadState SimpleFragment :=
  set_range_tile
    (set_fragment_coords
       (set_vec
          (set_overflow (new_ArrayReadState line_array partly_covered_line)
             [false; false])
          [ [(-1, (0, 2)); (0, (3, 5)); (-1, (6, 9))] ])
       [Some [0]])
    (Some [0]) (Some [0; 0]).

(** ** Reads resumed after overflow *)

(** What a call has produced in a buffer: its first [size] cells. *)
Definition output (buffer : Buffer) (size : Z) : list Z :=
  take (Z.to_nat size) buffer.

(** The buffer holds the [off] cells written so far. *)
Definition written (buffer : Buffer) (off : Z) : Prop :=
  0 <= off /\ (Z.to_nat off <= length buffer)%nat.

(** What the read relies on from the copy of a fragment, for the attribute
    [attr].  Modelled from the spec: [Fragment::copy_cell_range] is not part
    of the source file; the spec says that "on overflow, the next call
    resumes at the exact cell position where the previous call stopped" and
    that "state is preserved so the next call resumes exactly".
    [remaining f r] gives the cells of the range [r] the fragment [f] has yet
    to deliver and the fragment once it has delivered them.  A copy delivers
    as many of them as the buffer has room for, sizes counting cells, and
    reports overflow when some are left, in which case the rest is what
    remains once the overflow is reset; a range that has been delivered
    stays so; the overflow flag of the attribute is set by a copy only, and
    a reset changes nothing else. *)
Record ResumableCopy `{Fragment.Ops F} (attr : Z)
    (remaining : F -> CellPosRange -> F * list Z) : Prop := {
  copy_cell_range_spec : forall f buffer buffer_size buffer_offset r,
    Fragment.overflow f attr = false ->
    let cells := snd (remaining f r) in
    let n := Z.min (Z.of_nat (length cells))
               (Z.max 0 (buffer_size - buffer_offset)) in
    exists f1 buffer1,
      Fragment.copy_cell_range f attr buffer buffer_size buffer_offset r
      = Some (f1, buffer1, buffer_offset + n)
      /\ (written buffer buffer_offset ->
          output buffer1 (buffer_offset + n)
          = output buffer buffer_offset ++ take (Z.to_nat n) cells)
      /\ (if n =? Z.of_nat (length cells)
          then f1 = fst (remaining f r)
          else Fragment.overflow f1 attr = true
               /\ remaining (Fragment.reset_overflow f1) r
                  = (fst (remaining f r), drop (Z.to_nat n) cells));
  remaining_no_overflow : forall f r,
    Fragment.overflow f attr = false ->
    Fragment.overflow (fst (remaining f r)) attr = false;
  remaining_done : forall f r,
    remaining (fst (remaining f r)) r = (fst (remaining f r), []);
  done_after_copy : forall f r r' buffer buffer_size buffer_offset
                           f1 buffer1 offset1,
    remaining f r = (f, []) ->
    Fragment.copy_cell_range f attr buffer buffer_size buffer_offset r'
    = Some (f1, buffer1, offset1) ->
    remaining f1 r = (f1, []);
  done_after_reset : forall f r,
    remaining f r = (f, []) ->
    remaining (Fragment.reset_overflow f) r = (Fragment.reset_overflow f, []);
  reset_overflow_clears : forall f,
    Fragment.overflow (Fragment.reset_overflow f) attr = false;
  reset_overflow_clear : forall f,
    Fragment.overflow f attr = false -> Fragment.reset_overflow f = f;
  next_tile_keeps_overflow : forall f,
    Fragment.overflow (Fragment.get_next_overlapping_tile_mult f) attr
    = Fragment.overflow f attr;
  tile_done_keeps_overflow : forall f,
    Fragment.overflow (Fragment.tile_done f attr) attr
    = Fragment.overflow f attr
}.

(** The cells a plan has yet to deliver, in the order of the plan, and the
    fragments once they have delivered them; ranges of the empty fragment
    deliver nothing. *)
Fixpoint remaining_plan {F : Type}
    (remaining : F -> CellPosRange -> F * list Z)
    (plan : FragmentCellPosRanges) (fs : list F)
    : option (list F * list Z) :=
  match plan with
  | [] => Some (fs, [])
  | (fi, r) :: plan' =>
      if fi =? -1 then remaining_plan remaining plan' fs
      else
        match fragment_at fs fi with
        | Ret f =>
            match remaining_plan remaining plan'
                    (<[Z.to_nat fi := fst (remaining f r)]> fs) with
            | Some (fs', cells) => Some (fs', snd (remaining f r) ++ cells)
            | None => None
            end
        | _ => None
        end
  end.

(** Consecutive calls of [read_multiple_fragments] for one buffer of size
    [B], a call being handed the buffer the previous one left: the status,
    the output and the overflow flag of the attribute after each call, and
    the read state after the last. *)
Fixpoint consecutive_reads `{Fragment.Ops F} (fuels : list nat) (A : Array)
    (attr : Z) (st : ArrayReadState F) (buffer : Buffer) (B : Z)
    : Run (list (option Z * list Z * bool) * ArrayReadState F) :=
  match fuels with
  | [] => Ret ([], st)
  | fuel :: fuels' =>
      '(rc, st, buffers, sizes) ←
        read_multiple_fragments fuel coords_int A st [buffer] [B];
      buffer ← vector_at buffers 0;
      size ← vector_at sizes 0;
      ov ← vector_at (overflow_ st) attr;
      '(outs, st) ← consecutive_reads fuels' A attr st buffer B;
      Ret ((rc, output buffer size, ov) :: outs, st)
  end.

(** [sf_copy] with room for the whole range. *)
Definition sf_remaining (f : SimpleFragment) (r : CellPosRange)
    : SimpleFragment * list Z :=
  let first := Z.max (fst r) (sf_next f) in
  let wanted := Z.max 0 (snd r - first + 1) in
  (sf_with f (sf_tile f) (sf_pending f) (sf_overflow f)
     (Z.max (sf_next f) (first + wanted)),
   map (fun k => idx (sf_values f) (Z.to_nat (first + Z.of_nat k)))
     (seq 0 (Z.to_nat wanted))).

(** No fragment reports overflow for the attribute. *)
Definition clean `{Fragment.Ops F} (attr : Z) (fs : list F) : Prop :=
  Forall (fun f => Fragment.overflow f attr = false) fs.

(** The entry of a plan has nothing left to deliver. *)
Definition delivered {F : Type}
    (remaining : F -> CellPosRange -> F * list Z) (fs : list F)
    (e : FragmentCellPosRange) : Prop :=
  fst e = -1
  \/ exists f, fragment_at fs (fst e) = Ret f
               /\ remaining f (snd e) = (f, []).

(** The state [read_multiple_fragments] starts a call from: the overflow
    flags of the read state and of the fragments are reset (lines 108-115). *)
Definition reset_state `{Fragment.Ops F} (A : Array)
    (st : ArrayReadState F) : ArrayReadState F :=
  let st :=
    set_overflow st
      (replicate (S (attribute_num (array_schema A))) false) in
  let st := set_done st false in
  set_fragments st (map Fragment.reset_overflow (fragments st)).

(** The read state [copy_cell_ranges] leaves when the plan is copied
    (lines 220-229): the fragments [fs] have been told that the tile is
    done, the attribute moves on to the next plan. *)
Definition finish_state {F : Type} (attr : Z) (st : ArrayReadState F)
    (fs : list F) (pos : Z) : ArrayReadState F :=
  set_tile_done
    (set_vec_pos (set_fragments st fs)
       (<[Z.to_nat attr := pos + 1]> (fragment_cell_pos_ranges_vec_pos_ st)))
    (<[Z.to_nat attr := true]> (tile_done_ st)).

(** The read state [copy_cell_ranges] leaves when a fragment overflows
    (lines 212-215 and 230-231). *)
Definition overflowed_state {F : Type} (attr : Z) (st : ArrayReadState F)
    (fs : list F) : ArrayReadState F :=
  set_tile_done
    (set_overflow (set_fragments st fs)
       (<[Z.to_nat attr := true]> (overflow_ st)))
    (<[Z.to_nat attr := false]> (tile_done_ st)).

(** The read state of a call that resumes the plan of [st] with the
    fragments [fs]. *)
Definition resume_state {F : Type} (attr : Z) (st : ArrayReadState F)
    (fs : list F) : ArrayReadState F :=
  set_tile_done (set_fragments st fs)
    (<[Z.to_nat attr := false]> (tile_done_ st)).

(** An iteration of the loop of [read_multiple_fragments_dense_attr] from
    its first overflow check on (lines 987-1017), the loop going on with
    [fuel]. *)
Definition read_dense_attr_next `{Fragment.Ops F} (fuel : nat) (A : Array)
    (attribute_id : Z) (buffer_size : Z)
    (st : ArrayReadState F) (buffer : Buffer) (buffer_offset : Z)
    : Run (ReadAttr F) :=
  ov ← vector_at (overflow_ st) attribute_id;
  if ov : bool
  then Ret (TILEDB_ARS_OK, st, buffer, buffer_offset, buffer_offset)
  else
    pos ← vector_at (fragment_cell_pos_ranges_vec_pos_ st) attribute_id;
    '(rc, st) ←
      (if past_the_plans pos st
       then get_next_cell_ranges_dense fuel A st
       else Ret (TILEDB_ARS_OK, st));
    if negb (rc =? TILEDB_ARS_OK)
    then Ret (TILEDB_ARS_ERR, st, buffer, buffer_size, buffer_offset)
    else if done_ st
    then Ret (TILEDB_ARS_OK, st, buffer, buffer_offset, buffer_offset)
    else
      '(rc, st, buffer, buffer_offset) ←
        copy_cell_ranges attribute_id buffer_size st buffer buffer_offset;
      if negb (rc =? TILEDB_ARS_OK)
      then Ret (TILEDB_ARS_ERR, st, buffer, buffer_size, buffer_offset)
      else
        ov ← vector_at (overflow_ st) attribute_id;
        if ov : bool
        then Ret (TILEDB_ARS_OK, st, buffer, buffer_offset, buffer_offset)
        else read_dense_attr_loop fuel A attribute_id buffer_size
               st buffer buffer_offset.

(** The call in progress [first] and the calls that follow it with buffers
    of size [B] deliver the cells [cells] after [prefix]: every call but the
    last ends on overflow, the last leaves the read state [st1]. *)
Definition resumes `{Fragment.Ops F} (A : Array) (attr B : Z)
    (first : Run (ReadAttr F)) (prefix cells : list Z)
    (st1 : ArrayReadState F) : Prop :=
  exists p buffer size off ov fuels outs,
    first = Ret (TILEDB_ARS_OK, p, buffer, size, off)
    /\ vector_at (overflow_ p) attr = Ret ov
    /\ consecutive_reads fuels A attr p buffer B = Ret (outs, st1)
    /\ output buffer size ++ concat (map (fun o => snd (fst o)) outs)
       = prefix ++ cells
    /\ ov :: map snd outs = replicate (length fuels) true ++ [false]
    /\ Forall (fun o => fst (fst o) = Some TILEDB_ARS_OK) outs.

(** An array of two tiles of five cells with one dense fragment, the cells
    of a tile holding the values 100..104. *)
Definition schema_two_tiles : ArraySchema := row_major_schema 1 [0; 9] [5].

Definition two_tile_array : Array :=
  {| array_schema := schema_two_tiles;
     attribute_ids := [0];
     range := [0; 9] |}.

Definition two_tile_fragment : list SimpleFragment :=
  [ dense_fragment [[0]; [1]] [100; 101; 102; 103; 104] ].

(** * The cells a read delivers *)

(** ** The copy requests of a read

    The cells of an attribute reach the buffer through
    [Fragment::copy_cell_range] alone.  A request is recorded with the tile
    the tile cursor stands on, the fragment as it is asked, the range of
    positions asked for, and the buffer offset before and after. *)
Record CopyCall (F : Type) : Type := {
  call_tile : option Coords;
  call_fragment : F;
  call_range : CellPosRange;
  call_from : Z;
  call_to : Z
}.

Arguments call_tile {F} _.
Arguments call_fragment {F} _.
Arguments call_range {F} _.
Arguments call_from {F} _.
Arguments call_to {F} _.

(** [copy_ranges_loop] with the record of its requests. *)
Fixpoint copy_ranges_loop_log `{Fragment.Ops F}
    (fragment_cell_pos_ranges : FragmentCellPosRanges)
    (attribute_id : Z) (buffer_size : Z)
    (st : ArrayReadState F) (buffer : Buffer) (buffer_offset : Z)
    : Run (Copied F * list (CopyCall F)) :=
  match fragment_cell_pos_ranges with
  | [] => Ret ((TILEDB_ARS_OK, st, buffer, buffer_offset), [])
  | (fragment_i, cell_pos_range) :: rest =>
      if fragment_i =? -1 then
        (* Handle empty fragment *)
        let '(st, buffer, buffer_offset) :=
          copy_cell_range_with_empty st attribute_id buffer buffer_size
            buffer_offset cell_pos_range in
        ov ← vector_at (overflow_ st) attribute_id;
        if ov : bool then Ret ((TILEDB_ARS_OK, st, buffer, buffer_offset), [])
        else copy_ranges_loop_log rest attribute_id buffer_size
               st buffer buffer_offset
      else
        (* Handle non-empty fragment *)
        f ← fragment_at (fragments st) fragment_i;
        match Fragment.copy_cell_range f attribute_id buffer buffer_size
                buffer_offset cell_pos_range with
        | None => Ret ((TILEDB_ARS_ERR, st, buffer, buffer_offset), [])
        | Some (f', buffer', buffer_offset') =>
            let call :=
              {| call_tile := range_global_tile_coords_ st;
                 call_fragment := f;
                 call_range := cell_pos_range;
                 call_from := buffer_offset;
                 call_to := buffer_offset' |} in
            let st :=
              set_fragments st (<[Z.to_nat fragment_i := f']> (fragments st)) in
            (* Handle overflow *)
            if Fragment.overflow f' attribute_id then
              Ret ((TILEDB_ARS_OK,
                    set_overflow st
                      (<[Z.to_nat attribute_id := true]> (overflow_ st)),
                    buffer', buffer_offset'),
                   [call])
            else
              '(copied, log) ←
                copy_ranges_loop_log rest attribute_id buffer_size
                  st buffer' buffer_offset';
              Ret (copied, call :: log)
        end
  end.

(** [copy_cell_ranges] with the record of its requests. *)
Definition copy_cell_ranges_log `{Fragment.Ops F} (attribute_id : Z)
    (buffer_size : Z) (st : ArrayReadState F) (buffer : Buffer)
    (buffer_offset : Z) : Run (Copied F * list (CopyCall F)) :=
  pos ← vector_at (fragment_cell_pos_ranges_vec_pos_ st) attribute_id;
  fragment_cell_pos_ranges ←
    vector_at (fragment_cell_pos_ranges_vec_ st) pos;
  '(rc, st, buffer, buffer_offset, log) ←
    copy_ranges_loop_log fragment_cell_pos_ranges attribute_id buffer_size
      st buffer buffer_offset;
  if negb (rc =? TILEDB_ARS_OK)
  then Ret ((TILEDB_ARS_ERR, st, buffer, buffer_offset), log)
  else
    ov ← vector_at (overflow_ st) attribute_id;
    if ov : bool then
      Ret ((TILEDB_ARS_OK,
            set_tile_done st
              (<[Z.to_nat attribute_id := false]> (tile_done_ st)),
            buffer, buffer_offset),
           log)
    else
      (* Handle the case the tile is done for this attribute *)
      fs ← notify_tile_done attribute_id (range_global_tile_coords_ st)
             (fragment_global_tile_coords_ st) (fragments st);
      let st := set_fragments st fs in
      let st :=
        set_vec_pos st
          (<[Z.to_nat attribute_id := pos + 1]>
             (fragment_cell_pos_ranges_vec_pos_ st)) in
      Ret ((TILEDB_ARS_OK,
            set_tile_done st
              (<[Z.to_nat attribute_id := true]> (tile_done_ st)),
            buffer, buffer_offset),
           log).

(** The loop of [read_multiple_fragments_dense_attr] with the record of the
    requests of its copies, in the order they are made. *)
Fixpoint read_dense_attr_loop_log `{Fragment.Ops F} (fuel : nat) (A : Array)
    (attribute_id : Z) (buffer_size : Z)
    (st : ArrayReadState F) (buffer : Buffer) (buffer_offset : Z)
    : Run (ReadAttr F * list (CopyCall F)) :=
  match fuel with
  | O => OutOfFuel
  | S fuel' =>
      (* Continue copying from the previous unfinished tile *)
      tile_done ← vector_at (tile_done_ st) attribute_id;
      '(rc, st, buffer, buffer_offset, log1) ←
        (if negb tile_done
         then copy_cell_ranges_log attribute_id buffer_size st buffer
                buffer_offset
         else Ret ((TILEDB_ARS_OK, st, buffer, buffer_offset), []));
      if negb (rc =? TILEDB_ARS_OK)
      then Ret ((TILEDB_ARS_ERR, st, buffer, buffer_size, buffer_offset),
                log1)
      else
        (* Check for overflow *)
        ov ← vector_at (overflow_ st) attribute_id;
        if ov : bool
        then Ret ((TILEDB_ARS_OK, st, buffer, buffer_offset, buffer_offset),
                  log1)
        else
          (* Prepare the cell ranges for the next tile *)
          pos ← vector_at (fragment_cell_pos_ranges_vec_pos_ st) attribute_id;
          '(rc, st) ←
            (if past_the_plans pos st
             then get_next_cell_ranges_dense fuel' A st
             else Ret (TILEDB_ARS_OK, st));
          if negb (rc =? TILEDB_ARS_OK)
          then Ret ((TILEDB_ARS_ERR, st, buffer, buffer_size, buffer_offset),
                    log1)
          else if done_ st
          then Ret ((TILEDB_ARS_OK, st, buffer, buffer_offset,
                     buffer_offset),
                    log1)
          else
            (* Process the heap and copy cells to buffers *)
            '(rc, st, buffer, buffer_offset, log2) ←
              copy_cell_ranges_log attribute_id buffer_size st buffer
                buffer_offset;
            if negb (rc =? TILEDB_ARS_OK)
            then Ret ((TILEDB_ARS_ERR, st, buffer, buffer_size,
                       buffer_offset),
                      log1 ++ log2)
            else
              ov ← vector_at (overflow_ st) attribute_id;
              if ov : bool
              then Ret ((TILEDB_ARS_OK, st, buffer, buffer_offset,
                         buffer_offset),
                        log1 ++ log2)
              else
                '(read, log3) ←
                  read_dense_attr_loop_log fuel' A attribute_id buffer_size
                    st buffer buffer_offset;
                Ret (read, log1 ++ log2 ++ log3)
  end.

(** [consecutive_reads] of an array whose one requested attribute has cells
    of fixed size, with the record of the requests of all the calls. *)
Fixpoint consecutive_reads_log `{Fragment.Ops F} (fuels : list nat)
    (A : Array) (attr : Z) (st : ArrayReadState F) (buffer : Buffer) (B : Z)
    : Run (list (option Z * list Z * bool) * ArrayReadState F
           * list (CopyCall F)) :=
  match fuels with
  | [] => Ret ([], st, [])
  | fuel :: fuels' =>
      '(rc, st, buffer, size, _, log) ←
        read_dense_attr_loop_log fuel A attr B (reset_state A st) buffer 0;
      ov ← vector_at (overflow_ st) attr;
      '(outs, st, log') ← consecutive_reads_log fuels' A attr st buffer B;
      Ret ((Some rc, output buffer size, ov) :: outs, st, log ++ log')
  end.

(** A run without its record. *)
Definition erase {A B : Type} (m : Run (A * B)) : Run A :=
  match m with
  | Ret (a, _) => Ret a
  | Undefined u => Undefined u
  | OutOfFuel => OutOfFuel
  end.

(** ** The cells of a request

    What the read relies on from the copy of a fragment for the order of
    the cells.  Modelled from the spec: [Fragment::copy_cell_range] is not
    part of the source file; the spec has a cell-position range index the
    "cells within a fixed tile in cell-order linearization" and says that
    "on overflow, the next call resumes at the exact cell position where the
    previous call stopped".  [upto f] is the position up to which the
    fragment [f] has copied the attribute in the tile it stands on.  A copy
    of the range [r] writes the cells from position [max (fst r) (upto f)]
    on, one per unit of the buffer offset, none past the end of [r]; it never
    moves [upto] back, moves it past the cells it wrote, and past the end of
    [r] unless it reports overflow; resetting the overflow flag leaves
    [upto] alone. *)
Record PositionalCopy `{Fragment.Ops F} (attr : Z) (upto : F -> Z)
    : Prop := {
  copy_from_upto : forall f buffer buffer_size buffer_offset r
                          f' buffer' buffer_offset',
    Fragment.copy_cell_range f attr buffer buffer_size buffer_offset r
    = Some (f', buffer', buffer_offset') ->
    buffer_offset <= buffer_offset'
    /\ upto f <= upto f'
    /\ (buffer_offset < buffer_offset' ->
        Z.max (fst r) (upto f) + (buffer_offset' - buffer_offset)
        <= Z.min (snd r + 1) (upto f'))
    /\ (Fragment.overflow f' attr = false -> snd r < upto f');
  reset_keeps_upto : forall f, upto (Fragment.reset_overflow f) = upto f
}.

(** A cell of the array: its tile and its position in the tile. *)
Definition Cell : Type := (option Coords * Z)%type.

(** The cells a request has written: [call_to - call_from] cells of the tile
    of the cursor, from the position the fragment had reached within the
    range. *)
Definition cells_of_call {F : Type} (upto : F -> Z) (c : CopyCall F)
    : list Cell :=
  map (fun k =>
         (call_tile c,
          Z.max (fst (call_range c)) (upto (call_fragment c)) + Z.of_nat k))
    (seq 0 (Z.to_nat (call_to c - call_from c))).

Definition delivered_cells {F : Type} (upto : F -> Z) (log : list (CopyCall F))
    : list Cell :=
  flat_map (cells_of_call upto) log.

(** The global cell order: the tile order, then the position in the tile. *)
Definition cell_before (AS : ArraySchema) (c d : Cell) : Prop :=
  match fst c, fst d with
  | Some t, Some u =>
      tile_order_cmp AS t u < 0 \/ (t = u /\ snd c < snd d)
  | _, _ => False
  end.

(** ** The tiles of the query range *)

(** The range of tiles [init_range_global_tile_coords] computes for the
    query range, and the tile it puts the cursor on. *)
Definition range_tile_domain (A : Array) : list Z :=
  let AS := array_schema A in
  let dims := seq 0 (dim_num AS) in
  let tile_domain :=
    flat_map
      (fun i =>
         let tile_num :=
           ceil_div (idx (domain AS) (2 * i + 1) - idx (domain AS) (2 * i) + 1)
                    (idx (tile_extents AS) i) in
         [0; tile_num - 1])
      dims in
  flat_map
    (fun i =>
       [ Z.max ((idx (range A) (2 * i) - idx (domain AS) (2 * i))
                  `quot` idx (tile_extents AS) i)
               (idx tile_domain (2 * i));
         Z.min ((idx (range A) (2 * i + 1) - idx (domain AS) (2 * i))
                  `quot` idx (tile_extents AS) i)
               (idx tile_domain (2 * i + 1)) ])
    dims.

Definition first_range_tile (A : Array) : Coords :=
  map (fun i => idx (range_tile_domain A) (2 * i))
    (seq 0 (dim_num (array_schema A))).

(** The tiles the cursor may stand on. *)
Definition range_tile (A : Array) (t : Coords) : Prop :=
  t = first_range_tile A
  \/ in_tile (array_schema A) (range_tile_domain A) t.

(** What the read relies on from the schema for the order of the tiles:
    the next tile of the range of tiles [d] has a coordinate per dimension
    and, when it lies in [d], comes after the tile it is computed from; the
    tile order is a strict order. *)
Record TileOrderLaws (AS : ArraySchema) (d : list Z) : Prop := {
  next_tile_length : forall c,
    length c = dim_num AS ->
    length (get_next_tile_coords AS d c) = dim_num AS;
  next_tile_after : forall c,
    length c = dim_num AS ->
    in_tile AS d (get_next_tile_coords AS d c) ->
    tile_order_cmp AS c (get_next_tile_coords AS d c) < 0;
  tile_order_trans : forall a b c,
    tile_order_cmp AS a b < 0 -> tile_order_cmp AS b c < 0 ->
    tile_order_cmp AS a c < 0;
  tile_order_irrefl : forall a, ~ tile_order_cmp AS a a < 0
}.

(** The part of the query range that lies in a tile of the range is cut
    into cell ranges of the tile that are not inverted and share no cell:
    what [compute_max_overlap_fragment_cell_ranges] hands to the merge for
    the fragment that covers the overlap. *)
Definition overlap_ranges_ok (F : Type) (A : Array) : Prop :=
  forall (st : ArrayReadState F) (fuel : nat) (tile : Coords)
         (l : FragmentCellRanges),
    range_tile A tile ->
    range_global_tile_coords_ st = Some tile ->
    max_overlap_range_ st = overlap_range (array_schema A) (range A) tile ->
    max_overlap_type_ st
    = overlap_type (array_schema A) (max_overlap_range_ st) ->
    compute_max_overlap_fragment_cell_ranges fuel A st [] = Ret l ->
    let td := compute_tile_domain (array_schema A) tile in
    Forall (valid_range (array_schema A) td) l
    /\ pairwise (apart (array_schema A) td) l.

(** ** The fragments of a read

    What the read relies on from the fragments of the array.  Modelled from
    the spec: [Fragment] is not part of the source file.  [on f c] says that
    [f] is a fragment of the array in a state the read may meet, positioned
    on the tile [c] of the query range, or past its last tile when [c] is
    [None].  The operations the read calls keep a fragment in such a state,
    and only [get_next_overlapping_tile_mult] moves it.  A fragment on a
    tile contributes "cell ranges" of that tile that are not inverted and
    share no cell, those of a sparse fragment being "tight sparse ranges
    around their actual tile contents"; a sparse fragment answers
    [get_first_two_coords] as the merge expects and converts a range into
    increasing ranges of positions of cells of that range; a fragment that
    reports the maximum overlap is dense. *)
Record FragmentLaws `{Fragment.Ops F} (A : Array) (attr : Z)
    (on : F -> option Coords -> Prop) : Prop := {
  on_next_tile : forall f c,
    on f c ->
    on (Fragment.get_next_overlapping_tile_mult f)
       (Fragment.get_global_tile_coords
          (Fragment.get_next_overlapping_tile_mult f));
  on_reset_overflow : forall f c, on f c -> on (Fragment.reset_overflow f) c;
  on_copy_cell_range : forall f c buffer buffer_size buffer_offset r
                              f' buffer' buffer_offset',
    on f c ->
    Fragment.copy_cell_range f attr buffer buffer_size buffer_offset r
    = Some (f', buffer', buffer_offset') ->
    on f' c;
  on_tile_done : forall f c, on f c -> on (Fragment.tile_done f attr) c;
  on_cell_ranges : forall f t i l,
    on f (Some t) ->
    let AS := array_schema A in
    let td := compute_tile_domain AS t in
    exists new,
      Fragment.compute_fragment_cell_ranges f i l = l ++ new
      /\ Forall
           (fun r =>
              fst r = i /\ valid_range AS td r
              /\ (Fragment.dense f = false ->
                  stored f (snd (snd r))
                  /\ (fst (snd r) <> snd (snd r) ->
                      last_stored AS td f (snd (snd r)))))
           new
      /\ pairwise (apart AS td) new;
  on_sparse : forall f t,
    on f (Some t) -> Fragment.dense f = false ->
    let AS := array_schema A in
    let td := compute_tile_domain AS t in
    let tde := compute_tile_domain_end AS td in
    in_tile AS td tde
    /\ (forall c, in_tile AS td c -> cell_pos AS td c <= cell_pos AS td tde)
    /\ first_two_spec AS td tde f;
  on_cell_pos_ranges : forall f t r l,
    on f (Some t) -> Fragment.dense f = false ->
    let AS := array_schema A in
    let td := compute_tile_domain AS t in
    valid_range AS td r ->
    Fragment.get_cell_pos_ranges_sparse f (fst r) td (snd r) = Some l ->
    increasing_pos l
    /\ Forall (fun e => lo AS td r <= fst (snd e)
                        /\ snd (snd e) <= hi AS td r) l;
  on_max_overlap : forall f c r,
    on f c -> Fragment.max_overlap f r = true -> Fragment.dense f = true
}.

(** ** The empty fragment as a fragment

    A range tagged -1 goes through the queue of the merge like the range of
    a dense fragment older than all the others.  [with_empty_fragment] makes
    a fragment of it: [None] stands for the empty fragment, and
    [and_empty_fragment fs] lists it before the fragments [fs], whose
    indices move up by one ([up]). *)
Definition with_empty_fragment `{Fragment.Ops F} : Fragment.Ops (option F) :=
  {| Fragment.dense o :=
       match o with Some f => Fragment.dense f | None => true end;
     Fragment.reset_overflow o := option_map Fragment.reset_overflow o;
     Fragment.overflow o attr :=
       match o with Some f => Fragment.overflow f attr | None => false end;
     Fragment.get_next_overlapping_tile_mult o :=
       option_map Fragment.get_next_overlapping_tile_mult o;
     Fragment.get_global_tile_coords o :=
       match o with
       | Some f => Fragment.get_global_tile_coords f
       | None => None
       end;
     Fragment.max_overlap o r :=
       match o with Some f => Fragment.max_overlap f r | None => true end;
     Fragment.coords_exist o c :=
       match o with Some f => Fragment.coords_exist f c | None => true end;
     Fragment.get_first_two_coords o c :=
       match o with
       | Some f => Fragment.get_first_two_coords f c
       | None => None
       end;
     Fragment.compute_fragment_cell_ranges o i l :=
       match o with
       | Some f => Fragment.compute_fragment_cell_ranges f i l
       | None => l
       end;
     Fragment.get_cell_pos_ranges_sparse o i td r :=
       match o with
       | Some f => Fragment.get_cell_pos_ranges_sparse f i td r
       | None => None
       end;
     Fragment.copy_cell_range o attr buffer buffer_size buffer_offset r :=
       match o with
       | Some f =>
           match Fragment.copy_cell_range f attr buffer buffer_size
                   buffer_offset r with
           | Some (f', buffer', buffer_offset') =>
               Some (Some f', buffer', buffer_offset')
           | None => None
           end
       | None => None
       end;
     Fragment.tile_done o attr :=
       option_map (fun f => Fragment.tile_done f attr) o |}.

Definition and_empty_fragment {F : Type} (fs : list F) : list (option F) :=
  None :: map Some fs.

Definition up (r : FragmentCellRange) : FragmentCellRange :=
  (fst r + 1, snd r).

(** ** Fragments of the examples that cover their tiles *)

(** A fragment of the examples that is dense, covers every tile it
    overlaps and stands on the tile [c]. *)
Definition covering (f : SimpleFragment) (c : option Coords) : Prop :=
  sf_tile f = c /\ sf_dense f = true /\ sf_max_overlap f = true
  /\ sf_ranges f = [].

(** ** The cells delivered so far and the plan of the tile *)

(** The fragment of the entry [e] of a plan has copied past the end of the
    range of [e]. *)
Definition copied_entry {F : Type} (upto : F -> Z) (fs : list F)
    (e : FragmentCellPosRange) : Prop :=
  forall f, fragment_at fs (fst e) = Ret f -> snd (snd e) < upto f.

(** The cells [cells] delivered so far lie before every cell of the tile
    [tile] that a request for an entry of [plan] may still deliver. *)
Definition ahead {F : Type} (upto : F -> Z) (plan : FragmentCellPosRanges)
    (fs : list F) (tile : Coords) (cells : list Cell) : Prop :=
  forall c e f,
    c ∈ cells -> fst c = Some tile -> e ∈ plan ->
    fragment_at fs (fst e) = Ret f ->
    Z.max (fst (snd e)) (upto f) <= snd (snd e) ->
    snd c < Z.max (fst (snd e)) (upto f).

(** The cells [cells] lie on the tile [tile] or on tiles before it. *)
Definition behind_cursor (AS : ArraySchema) (tile : Coords)
    (cells : list Cell) : Prop :=
  Forall (fun c => exists t, fst c = Some t
                   /\ (t = tile \/ tile_order_cmp AS t tile < 0)) cells.

(** ** The two halves of get_next_cell_ranges_dense *)

(** The first half (lines 516-571): the tile cursor is put on the first
    tile of the range or moved to the next one, and the fragments that stood
    on the previous tile are moved on.  The result tells whether the tiles
    are exhausted. *)
Definition next_tile `{Fragment.Ops F} (A : Array) (st : ArrayReadState F)
    : Run (bool * ArrayReadState F) :=
  if bool_decide (fragment_cell_pos_ranges_vec_ st = []) then
    (* First invocation *)
    let st := init_range_global_tile_coords A st in
    match range_global_tile_coords_ st with
    | None => Ret (true, set_done st true)
    | Some _ =>
        let advanced := map advance_fragment (fragments st) in
        Ret (false,
             set_fragment_coords
               (set_fragments st (map fst advanced))
               (map snd advanced))
    end
  else
    match range_global_tile_coords_ st with
    | None => Undefined NullTileCoords
    | Some previous_range_global_tile_coords =>
        st ← get_next_range_global_tile_coords A st;
        match range_global_tile_coords_ st with
        | None => Ret (true, set_done st true)
        | Some _ =>
            if bool_decide (length (fragment_global_tile_coords_ st)
                            < length (fragments st))%nat
            then Undefined (VectorIndexOutOfRange 0)
            else
              let advanced :=
                zip_with
                  (fun f c =>
                     if on_tile c previous_range_global_tile_coords
                     then advance_fragment f else (f, c))
                  (fragments st) (fragment_global_tile_coords_ st) in
              Ret (false,
                   set_fragment_coords
                     (set_fragments st (map fst advanced))
                     (map snd advanced
                      ++ drop (length (fragments st))
                           (fragment_global_tile_coords_ st)))
        end
    end.

(** The second half (lines 574-645): the plan of the tile [tile] the cursor
    stands on is computed and appended to the plans. *)
Definition plan_tile `{Fragment.Ops F} (fuel : nat) (A : Array)
    (st : ArrayReadState F) (tile : Coords) : Run (Z * ArrayReadState F) :=
  let AS := array_schema A in
  (* Advance properly the sparse fragments *)
  '(fs, cs) ← advance_all_sparse fuel AS tile (fragments st)
               (fragment_global_tile_coords_ st);
  let st := set_fragment_coords (set_fragments st fs) cs in
  (* Compute the maximum overlap range for this tile *)
  st ← compute_max_overlap_range A st;
  (* Find the most recent fragment with a full dense tile *)
  let ifs := indexed (zip (fragments st)
                        (fragment_global_tile_coords_ st)) in
  let st :=
    set_max_overlap_i st
      (find_max_overlap tile (max_overlap_range_ st) (rev ifs)) in
  unsorted ← compute_max_overlap_fragment_cell_ranges fuel A st [];
  let unsorted :=
    rest_cell_ranges tile (max_overlap_i_ st) ifs unsorted in
  (* Compute the fragment cell position ranges *)
  '(rc, fragment_cell_pos_ranges, _) ←
    compute_fragment_cell_pos_ranges fuel AS (fragments st) tile
      unsorted;
  if negb (rc =? TILEDB_ARS_OK) then Ret (TILEDB_ARS_ERR, st)
  else
    let st :=
      set_vec st
        (fragment_cell_pos_ranges_vec_ st
         ++ [fragment_cell_pos_ranges]) in
    Ret (TILEDB_ARS_OK,
         clean_up_processed_fragment_cell_pos_ranges A st).

(** ** The state of a read of one attribute

    What holds of the read state and of the cells [cells] delivered so far
    between the steps of a read of the one attribute [attr]: the cells are
    in order and lie on the tile of the cursor or before it; the cursor
    stands on a tile of the range; the attribute is at its last plan or
    past it; the plan it is at is increasing and the cells it may still
    deliver come after the cells delivered; position [0] of the position
    vector is untouched when it is not the attribute's; and the fragments
    are fragments of the array, on the tiles the read state has them on once
    a plan exists. *)
Definition reading `{Fragment.Ops F} (A : Array) (attr : Z) (upto : F -> Z)
    (on : F -> option Coords -> Prop) (cells : list Cell)
    (st : ArrayReadState F) : Prop :=
  let AS := array_schema A in
  let plans := fragment_cell_pos_ranges_vec_ st in
  pairwise (cell_before AS) cells
  /\ (plans = [] -> cells = [])
  /\ (forall tile, range_global_tile_coords_ st = Some tile ->
        range_tile A tile /\ behind_cursor AS tile cells)
  /\ (forall d, range_global_tile_domain_ st = Some d ->
        d = range_tile_domain A)
  /\ (forall pos,
        vector_at (fragment_cell_pos_ranges_vec_pos_ st) attr = Ret pos ->
        (0 <= pos
         /\ Z.of_nat (length plans) - 1 <= pos <= Z.of_nat (length plans))
        /\ forall plan, vector_at plans pos = Ret plan ->
             exists tile, range_global_tile_coords_ st = Some tile
               /\ increasing_pos plan
               /\ ahead upto plan (fragments st) tile cells)
  /\ (attr <> 0 -> idx (fragment_cell_pos_ranges_vec_pos_ st) 0 = 0)
  /\ Forall (fun f => exists c, on f c) (fragments st)
  /\ (plans <> [] ->
      Forall2 on (fragments st) (fragment_global_tile_coords_ st)).

(** * Further inputs of the examples *)

(** The ten-cell line with two attributes, both requested in order. *)
Definition array_two_attributes : Array :=
  {| array_schema := row_major_schema 2 [0; 9] [10];
     attribute_ids := [0; 1];
     range := [0; 9] |}.

(** A window of the 10 x 10 array and the read state whose tile cursor
    stands on [tile]. *)
Definition window_array : Array :=
  {| array_schema := schema_10x10;
     attribute_ids := [0];
     range := [2; 7; 3; 9] |}.

Definition window_on_tile (tile : Coords) : ArrayReadState SimpleFragment :=
  set_range_tile (new_ArrayReadState window_array [])
    (Some tile) (Some [0; 1; 0; 1]).

(** The schemas on which the tile count of line 856 is the integer ceiling
    [ceil_div]: in every dimension the tile extent is positive, and the
    extent and the number of cells of the domain are below 2^53, so that
    the division in double precision loses nothing. *)
Definition tile_num_exact (AS : ArraySchema) : bool :=
  forallb
    (fun i =>
       let cells := idx (domain AS) (2 * i + 1) - idx (domain AS) (2 * i) + 1 in
       let extent := idx (tile_extents AS) i in
       (0 <? extent) && (extent <? 2 ^ 53)
       && (0 <=? cells) && (cells <? 2 ^ 53))
    (seq 0 (dim_num AS)).

(** * The constructor, statement by statement *)

(** [v[i] = a] on a [std::vector]. *)
Definition vector_set {A : Type} (v : list A) (i : Z) (a : A)
    : Run (list A) :=
  match at_index v i with
  | Some _ => Ret (<[Z.to_nat i := a]> v)
  | None => Undefined (VectorIndexOutOfRange i)
  end.

(** The loop [for(int i=0; i<attribute_num+1; ++i)] of the constructor
    (lines 74-78), [turns] being the turns that are left;
    [fragment_cell_pos_ranges_pos_] is a member the rest of the file never
    reads. *)
Fixpoint constructor_loop (turns : nat) (i : Z)
    (fragment_cell_pos_ranges_pos fragment_cell_pos_ranges_vec_pos : list Z)
    (tile_done : list bool) : Run (list Z * list Z * list bool) :=
  match turns with
  | O => Ret (fragment_cell_pos_ranges_pos, fragment_cell_pos_ranges_vec_pos,
              tile_done)
  | S turns' =>
      fragment_cell_pos_ranges_pos ←
        vector_set fragment_cell_pos_ranges_pos i 0;
      fragment_cell_pos_ranges_vec_pos ←
        vector_set fragment_cell_pos_ranges_vec_pos i 0;
      tile_done ← vector_set tile_done i true;
      constructor_loop turns' (i + 1) fragment_cell_pos_ranges_pos
        fragment_cell_pos_ranges_vec_pos tile_done
  end.

(** The constructor (lines 60-79): [resize] value-initialises the new
    elements.  [done_] is not initialised by the constructor; [done0] is
    the value the member happens to hold. *)
Definition ArrayReadState_constructor {F : Type} (A : Array) (fs : list F)
    (done0 : bool) : Run (ArrayReadState F) :=
  let attribute_num := attribute_num (array_schema A) in
  let tile_done := replicate attribute_num false in
  let fragment_cell_pos_ranges_pos := replicate (S attribute_num) 0 in
  let fragment_cell_pos_ranges_vec_pos := replicate (S attribute_num) 0 in
  '(_, fragment_cell_pos_ranges_vec_pos, tile_done) ←
    constructor_loop (S attribute_num) 0 fragment_cell_pos_ranges_pos
      fragment_cell_pos_ranges_vec_pos tile_done;
  Ret {| done_ := done0;
         fragment_cell_pos_ranges_vec_ := [];
         fragment_cell_pos_ranges_vec_pos_ := fragment_cell_pos_ranges_vec_pos;
         fragment_global_tile_coords_ := [];
         max_overlap_i_ := 0;
         max_overlap_range_ := [];
         max_overlap_type_ := FULL;
         overflow_ := [];
         range_global_tile_coords_ := None;
         range_global_tile_domain_ := None;
         tile_done_ := tile_done;
         fragments := fs |}.

(** * Properties *)

(** ** The comparator and the queue *)

Lemma SmallerFragmentCellRange_spec (AS : ArraySchema)
    (a b : FragmentCellRange) :
  SmallerFragmentCellRange AS a b = true <->
  cell_order_cmp AS (fst (snd a)) (fst (snd b)) > 0
  \/ (cell_order_cmp AS (fst (snd a)) (fst (snd b)) = 0 /\ fst a < fst b).
Proof.
  unfold SmallerFragmentCellRange.
  destruct (Z.ltb_spec (cell_order_cmp AS a.2.1 b.2.1) 0);
    destruct (Z.gtb_spec (cell_order_cmp AS a.2.1 b.2.1) 0);
    rewrite ?Z.ltb_lt; split; intros; try lia; try discriminate.
Qed.

Lemma pq_top_two (AS : ArraySchema) (a b : FragmentCellRange) :
  pq_top (pq_push AS b (pq_push AS a [])) =
  Some (if SmallerFragmentCellRange AS a b then b else a).
Proof. simpl. destruct (SmallerFragmentCellRange AS a b); reflexivity. Qed.

(** C3.  Whichever way two ranges enter the queue, the one whose first
    endpoint is earlier in cell order is served first; when the first
    endpoints compare equal, the one of the higher fragment id is served
    first.  The cell order of the schema is assumed to give opposite signs
    to the two ways of comparing the endpoints. *)
Theorem SmallerFragmentCellRange_realizes_order (AS : ArraySchema)
    (a b : FragmentCellRange) :
  Z.sgn (cell_order_cmp AS (fst (snd b)) (fst (snd a)))
    = - Z.sgn (cell_order_cmp AS (fst (snd a)) (fst (snd b))) ->
  let cmp := cell_order_cmp AS (fst (snd a)) (fst (snd b)) in
  let pushed_a_then_b := pq_push AS b (pq_push AS a []) in
  let pushed_b_then_a := pq_push AS a (pq_push AS b []) in
  (cmp < 0 ->
     pq_top pushed_a_then_b = Some a /\ pq_top pushed_b_then_a = Some a)
  /\ (cmp > 0 ->
     pq_top pushed_a_then_b = Some b /\ pq_top pushed_b_then_a = Some b)
  /\ (cmp = 0 -> fst b < fst a ->
     pq_top pushed_a_then_b = Some a /\ pq_top pushed_b_then_a = Some a)
  /\ (cmp = 0 -> fst a < fst b ->
     pq_top pushed_a_then_b = Some b /\ pq_top pushed_b_then_a = Some b).
Proof.
  intros Hanti cmp q1 q2. subst q1 q2. rewrite !pq_top_two.
  pose proof (SmallerFragmentCellRange_spec AS a b) as Hab.
  pose proof (SmallerFragmentCellRange_spec AS b a) as Hba.
  fold cmp in Hab, Hanti.
  set (cmp' := cell_order_cmp AS b.2.1 a.2.1) in *.
  assert (Hsgn : (cmp < 0 <-> cmp' > 0) /\ (cmp > 0 <-> cmp' < 0)
                 /\ (cmp = 0 <-> cmp' = 0)).
  { clearbody cmp cmp'. clear Hab Hba.
    destruct cmp, cmp'; simpl in Hanti; try discriminate; lia. }
  destruct (SmallerFragmentCellRange AS a b) eqn:Eab;
    destruct (SmallerFragmentCellRange AS b a) eqn:Eba;
    repeat split; intros;
    repeat match goal with
           | H : _ = true <-> _ |- _ =>
               first [ apply proj1 in H; specialize (H eq_refl)
                     | apply proj2 in H;
                       assert (~ (_ : Prop)) by
                         (let K := fresh in intro K; apply H in K;
                          discriminate) ]
           end; try reflexivity; exfalso; lia.
Qed.

Lemma SmallerFragmentCellRange_realizes_order_witness :
  let a : FragmentCellRange := (1, ([2], [5])) in
  let b : FragmentCellRange := (0, ([2], [9])) in
  pq_top (pq_push schema_line b (pq_push schema_line a [])) = Some a
  /\ pq_top (pq_push schema_line a (pq_push schema_line b [])) = Some a.
Proof.
  intros a b.
  apply (SmallerFragmentCellRange_realizes_order schema_line a b);
    [reflexivity | reflexivity | simpl; lia].
Defined.

(** ** compute_max_overlap_range *)

Lemma partial_on_false (AS : ArraySchema) (r : list Z) (i : nat) :
  partial_on AS r i = false <-> spans AS r i.
Proof.
  unfold partial_on, spans.
  rewrite orb_false_iff, !negb_false_iff, !Z.eqb_eq. reflexivity.
Qed.

Lemma existsb_partial_on_false (AS : ArraySchema) (r : list Z)
    (l : list nat) :
  existsb (partial_on AS r) l = false <-> forall i, In i l -> spans AS r i.
Proof.
  induction l as [|j l IH]; simpl.
  - split; [intros _ i [] | reflexivity].
  - rewrite orb_false_iff, IH, partial_on_false. split.
    + intros [Hj Hl] i [<-|Hi]; auto.
    + intros H. split; [apply H; auto | intros i Hi; apply H; auto].
Qed.

Lemma overlap_type_full (AS : ArraySchema) (r : list Z) :
  overlap_type AS r = FULL <->
  forall i, (i < dim_num AS)%nat -> spans AS r i.
Proof.
  unfold overlap_type.
  destruct (existsb (partial_on AS r) (seq 0 (dim_num AS))) eqn:E.
  - split.
    + destruct (cell_order AS);
        repeat match goal with |- context [if ?b then _ else _] =>
                 destruct b end; discriminate.
    + intros H. exfalso.
      assert (E' : existsb (partial_on AS r) (seq 0 (dim_num AS)) = false).
      { apply existsb_partial_on_false. intros i Hi.
        apply in_seq in Hi. apply H. lia. }
      congruence.
  - split; [intros _ i Hi | reflexivity].
    eapply existsb_partial_on_false; [exact E|]. apply in_seq. lia.
Qed.


(** ** clean_up_processed_fragment_cell_pos_ranges *)

(** C7 (the code departs from the claim).  The minimum is taken over the
    position of attribute 0 and of [attribute_ids[1..]]; the position of
    [attribute_ids[0]] is never read.  With the second attribute alone
    requested and its first plan completed, nothing is removed; with both
    requested, the second first, the plan the first attribute has completed
    is removed although the second has not started it. *)
Theorem clean_up_ignores_first_requested_attribute :
  let kept :=
    clean_up_processed_fragment_cell_pos_ranges array_second_attribute
      (state_with_plans array_second_attribute two_plans [0; 1; 0]) in
  let lost :=
    clean_up_processed_fragment_cell_pos_ranges array_second_then_first
      (state_with_plans array_second_then_first two_plans [1; 0; 0]) in
  (fragment_cell_pos_ranges_vec_ kept = two_plans
   /\ fragment_cell_pos_ranges_vec_pos_ kept = [0; 1; 0])
  /\ (fragment_cell_pos_ranges_vec_ lost = [ [(0, (0, 24))] ]
      /\ fragment_cell_pos_ranges_vec_pos_ lost = [0; 0; 0]).
Proof. repeat split. Qed.

(** ** The unimplemented read paths *)




(** ** The per-tile merge: reads of the top of an empty queue *)

(** C8 (the code departs from the claim).  A single unary range of a sparse
    fragment that does not store its coordinate: the range is discarded, but
    only after line 296 has read the top of the queue the pop left empty. *)
Theorem absent_unary_range_reads_empty_top :
  merge_fragment_cell_ranges 4 schema_line empty_sparse_fragment [0]
    absent_unary_range
  = Ret (TILEDB_ARS_OK, [], [TopOfEmptyQueue 296]).
Proof. reflexivity. Qed.

(** C10 (the code departs from the claim).  The newest range covers an
    older one that is the last element of the queue: the discard loop pops
    it and reads the top of the empty queue on line 352 before the loop
    condition is evaluated again. *)
Theorem discard_loop_reads_empty_top :
  merge_fragment_cell_ranges 4 schema_line three_dense_fragments [0]
    nested_ranges
  = Ret (TILEDB_ARS_OK,
         [ (0, ([0], [0])); (2, ([1], [9])) ],
         [TopOfEmptyQueue 352]).
Proof. reflexivity. Qed.

(** ** Overflow while copying a plan *)

Lemma vector_at_length {A : Type} (v : list A) (i : Z) (a : A) :
  vector_at v i = Ret a -> 0 <= i /\ (Z.to_nat i < length v)%nat.
Proof.
  unfold vector_at, at_index. destruct (Z.ltb_spec i 0); [discriminate|].
  destruct (v !! Z.to_nat i) eqn:E; [|discriminate].
  intros _. split; [lia|]. eapply lookup_lt_Some; eauto.
Qed.

Lemma vector_at_insert {A : Type} (v : list A) (i : Z) (a : A) :
  0 <= i /\ (Z.to_nat i < length v)%nat ->
  vector_at (<[Z.to_nat i := a]> v) i = Ret a.
Proof.
  intros [H0 Hlt]. unfold vector_at, at_index.
  destruct (Z.ltb_spec i 0); [lia|].
  rewrite list_lookup_insert_eq by exact Hlt. reflexivity.
Qed.

Lemma vector_at_insert_true (v : list bool) (i : Z) (b : bool) :
  vector_at v i = Ret b ->
  forall b', vector_at (<[Z.to_nat i := b']> v) i = Ret b'.
Proof.
  unfold vector_at, at_index. intros Hv b'.
  destruct (i <? 0); [discriminate|].
  destruct (v !! Z.to_nat i) eqn:E; [|discriminate].
  rewrite list_lookup_insert_eq; [reflexivity|].
  eapply lookup_lt_Some; eauto.
Qed.

Lemma fragment_at_insert {F : Type} (fs : list F) (i : Z) (f f' : F) :
  fragment_at fs i = Ret f -> <[Z.to_nat i := f']> fs !! Z.to_nat i = Some f'.
Proof.
  unfold fragment_at, at_index. intros Hf.
  destruct (i <? 0); [discriminate|].
  destruct (fs !! Z.to_nat i) eqn:E; [|discriminate].
  apply list_lookup_insert_eq. eapply lookup_lt_Some; eauto.
Qed.

(** The loop over the ranges of a plan touches the fragments and the
    overflow flags only; it records overflow exactly when it stops at a
    fragment that reports it. *)
Lemma copy_ranges_loop_effect `{Fragment.Ops F} (plan : FragmentCellPosRanges)
    (attr bsz : Z) :
  forall (st : ArrayReadState F) buf off rc st' buf' off',
  vector_at (overflow_ st) attr = Ret false ->
  copy_ranges_loop plan attr bsz st buf off = Ret (rc, st', buf', off') ->
  fragment_cell_pos_ranges_vec_pos_ st' = fragment_cell_pos_ranges_vec_pos_ st
  /\ fragment_cell_pos_ranges_vec_ st' = fragment_cell_pos_ranges_vec_ st
  /\ tile_done_ st' = tile_done_ st
  /\ done_ st' = done_ st
  /\ range_global_tile_coords_ st' = range_global_tile_coords_ st
  /\ fragment_global_tile_coords_ st' = fragment_global_tile_coords_ st
  /\ (vector_at (overflow_ st') attr = Ret false
      \/ (vector_at (overflow_ st') attr = Ret true
          /\ rc = TILEDB_ARS_OK
          /\ exists i f, fragments st' !! i = Some f
                         /\ Fragment.overflow f attr = true)).
Proof.
  induction plan as [|[fi r] plan IH]; intros st buf off rc st' buf' off' Hov Hrun.
  - simpl in Hrun. inversion Hrun; subst. repeat split; auto.
  - simpl in Hrun. destruct (fi =? -1).
    + unfold copy_cell_range_with_empty in Hrun.
      rewrite Hov in Hrun. unfold mbind, Run_bind in Hrun.
      apply IH in Hrun; auto.
    + destruct (fragment_at (fragments st) fi) as [f| |] eqn:Ef;
        unfold mbind, Run_bind in Hrun; try discriminate.
      destruct (Fragment.copy_cell_range f attr buf bsz off r)
        as [[[f' buf1] off1]|] eqn:Ec.
      * destruct (Fragment.overflow f' attr) eqn:Eo.
        -- inversion Hrun; subst; clear Hrun. simpl.
           repeat split; auto. right. split.
           { eapply vector_at_insert_true; eauto. }
           split; [reflexivity|].
           exists (Z.to_nat fi), f'. split; [|assumption].
           eapply fragment_at_insert; eauto.
        -- apply IH in Hrun; auto.
      * inversion Hrun; subst. repeat split; auto.
Qed.

Lemma copy_cell_ranges_effect `{Fragment.Ops F} (attr bsz : Z)
    (st : ArrayReadState F) buf off rc st' buf' off' :
  vector_at (overflow_ st) attr = Ret false ->
  copy_cell_ranges attr bsz st buf off = Ret (rc, st', buf', off') ->
  fragment_cell_pos_ranges_vec_ st' = fragment_cell_pos_ranges_vec_ st
  /\ done_ st' = done_ st
  /\ length (tile_done_ st') = length (tile_done_ st)
  /\ (vector_at (overflow_ st') attr = Ret false
      \/ (vector_at (overflow_ st') attr = Ret true
          /\ rc = TILEDB_ARS_OK
          /\ fragment_cell_pos_ranges_vec_pos_ st'
             = fragment_cell_pos_ranges_vec_pos_ st
          /\ tile_done_ st' = <[Z.to_nat attr := false]> (tile_done_ st)
          /\ exists i f, fragments st' !! i = Some f
                         /\ Fragment.overflow f attr = true)).
Proof.
  intros Hov Hrun. unfold copy_cell_ranges in Hrun.
  destruct (vector_at (fragment_cell_pos_ranges_vec_pos_ st) attr)
    as [pos| |] eqn:Epos; unfold mbind, Run_bind in Hrun; try discriminate.
  destruct (vector_at (fragment_cell_pos_ranges_vec_ st) pos)
    as [plan| |] eqn:Eplan; try discriminate.
  destruct (copy_ranges_loop plan attr bsz st buf off)
    as [[[[rc1 st1] buf1] off1]| |] eqn:Eloop; try discriminate.
  destruct (copy_ranges_loop_effect plan attr bsz _ _ _ _ _ _ _ Hov Eloop)
    as (Hpos & Hvec & Htd & Hdone & Hrc & Hfc & Hcase).
  destruct (negb (rc1 =? TILEDB_ARS_OK)) eqn:Erc.
  - inversion Hrun; subst; clear Hrun. split; [auto|]. split; [auto|].
    split; [congruence|].
    destruct Hcase as [Hf | (Ht & -> & _)]; [left; exact Hf | discriminate].
  - destruct Hcase as [Hf | (Ht & -> & i & f & Hif & Hof)].
    + rewrite Hf in Hrun.
      destruct (notify_tile_done attr (range_global_tile_coords_ st1)
                  (fragment_global_tile_coords_ st1) (fragments st1))
        as [fs| |]; try discriminate.
      inversion Hrun; subst; clear Hrun. simpl.
      split; [auto|]. split; [auto|].
      split; [rewrite length_insert; congruence|]. left. exact Hf.
    + rewrite Ht in Hrun. inversion Hrun; subst; clear Hrun. simpl.
      split; [auto|]. split; [auto|].
      split; [rewrite length_insert; congruence|]. right.
      repeat split; auto. { rewrite Htd. reflexivity. } eauto.
Qed.

Lemma clean_up_frame {F : Type} (A : Array) (st : ArrayReadState F) :
  overflow_ (clean_up_processed_fragment_cell_pos_ranges A st) = overflow_ st
  /\ tile_done_ (clean_up_processed_fragment_cell_pos_ranges A st)
     = tile_done_ st.
Proof.
  unfold clean_up_processed_fragment_cell_pos_ranges.
  destruct (_ =? 0); split; reflexivity.
Qed.

Lemma get_next_cell_ranges_dense_frame `{Fragment.Ops F} (fuel : nat)
    (A : Array) (st : ArrayReadState F) rc st' :
  get_next_cell_ranges_dense fuel A st = Ret (rc, st') ->
  overflow_ st' = overflow_ st /\ tile_done_ st' = tile_done_ st.
Proof.
  unfold get_next_cell_ranges_dense, compute_max_overlap_range,
    get_next_range_global_tile_coords, init_range_global_tile_coords.
  intros Hrun.
  repeat match type of Hrun with
         | context [mbind _ ?m] =>
             let E := fresh "E" in
             destruct m eqn:E; unfold mbind, Run_bind in Hrun; simpl in Hrun
         | context [match ?x with _ => _ end] =>
             let E := fresh "E" in destruct x eqn:E; simpl in Hrun
         | Ret _ = Ret _ => inversion Hrun; subst; clear Hrun
         | _ => discriminate Hrun
         end.
  all: try (rewrite ?(proj1 (clean_up_frame _ _)), ?(proj2 (clean_up_frame _ _))).
  all: repeat match goal with
         | H : Ret _ = Ret _ |- _ => inversion H; subst; clear H
         | H : Undefined _ = Ret _ |- _ => discriminate H
         | H : OutOfFuel = Ret _ |- _ => discriminate H
         | H : context [match ?x with _ => _ end] |- _ =>
             let E := fresh "E" in destruct x eqn:E; simpl in H
         end.
  all: simpl; auto.
Qed.

Lemma vector_at_insert_not_false (v : list bool) (i : Z) :
  vector_at (<[Z.to_nat i := true]> v) i <> Ret false.
Proof.
  unfold vector_at, at_index. destruct (i <? 0); [discriminate|].
  destruct (decide (Z.to_nat i < length v)%nat) as [Hlt|Hge].
  - rewrite list_lookup_insert_eq by exact Hlt. discriminate.
  - rewrite list_insert_ge by lia.
    rewrite (proj2 (lookup_ge_None v (Z.to_nat i))) by lia. discriminate.
Qed.

(** A prefix of a plan that is copied without overflow and without error
    lets the loop go on with the rest of the plan. *)
Lemma copy_ranges_loop_app `{Fragment.Ops F} (pre rest : FragmentCellPosRanges)
    (attr bsz : Z) :
  forall (st : ArrayReadState F) buf off st1 buf1 off1,
  copy_ranges_loop pre attr bsz st buf off
    = Ret (TILEDB_ARS_OK, st1, buf1, off1) ->
  vector_at (overflow_ st1) attr = Ret false ->
  copy_ranges_loop (pre ++ rest) attr bsz st buf off
  = copy_ranges_loop rest attr bsz st1 buf1 off1.
Proof.
  induction pre as [|[fi r] pre IH]; intros st buf off st1 buf1 off1 Hpre Hov.
  - simpl in Hpre. inversion Hpre; subst. reflexivity.
  - simpl in Hpre |- *. destruct (fi =? -1).
    + unfold copy_cell_range_with_empty in *.
      destruct (vector_at (overflow_ st) attr) as [ov| |] eqn:Eov;
        unfold mbind, Run_bind in Hpre |- *; try discriminate.
      destruct ov.
      * inversion Hpre; subst. congruence.
      * apply IH; assumption.
    + destruct (fragment_at (fragments st) fi) as [f| |];
        unfold mbind, Run_bind in Hpre |- *; try discriminate.
      destruct (Fragment.copy_cell_range f attr buf bsz off r)
        as [[[f' buf'] off']|]; [|discriminate].
      destruct (Fragment.overflow f' attr).
      * inversion Hpre; subst. simpl in Hov.
        exfalso. eapply vector_at_insert_not_false; eauto.
      * apply IH; assumption.
Qed.

(** C4.  (1) When, in the plan an attribute stands on, the ranges before
    some range are copied without overflow and the fragment of that range
    reports overflow after its copy, [copy_cell_ranges] returns success with
    the buffer and offset the fragment left, records the overflow of the
    attribute, marks the tile as not done and leaves every plan position as
    it was.  (2) A read of the attribute that starts with the overflow flag
    cleared and ends with it set returns success with [buffer_size] rewritten
    to the buffer offset reached, the tile still marked as not done, and a
    fragment reporting the overflow. *)
Theorem overflow_is_success_with_partial_progress `{Fragment.Ops F}
    (A : Array) (attr bsz : Z) :
  (forall (st : ArrayReadState F) buf off pos pre fi r post
          st1 buf1 off1 f f' buf2 off2,
     vector_at (fragment_cell_pos_ranges_vec_pos_ st) attr = Ret pos ->
     vector_at (fragment_cell_pos_ranges_vec_ st) pos
       = Ret (pre ++ (fi, r) :: post) ->
     copy_ranges_loop pre attr bsz st buf off
       = Ret (TILEDB_ARS_OK, st1, buf1, off1) ->
     vector_at (overflow_ st1) attr = Ret false ->
     fi <> -1 ->
     fragment_at (fragments st1) fi = Ret f ->
     Fragment.copy_cell_range f attr buf1 bsz off1 r = Some (f', buf2, off2) ->
     Fragment.overflow f' attr = true ->
     exists st2,
       copy_cell_ranges attr bsz st buf off
         = Ret (TILEDB_ARS_OK, st2, buf2, off2)
       /\ vector_at (overflow_ st2) attr = Ret true
       /\ fragment_cell_pos_ranges_vec_pos_ st2
          = fragment_cell_pos_ranges_vec_pos_ st
       /\ fragment_cell_pos_ranges_vec_ st2 = fragment_cell_pos_ranges_vec_ st
       /\ tile_done_ st2 = <[Z.to_nat attr := false]> (tile_done_ st))
  /\ (forall fuel (st : ArrayReadState F) buf off rc st' buf' bsz' off',
     vector_at (overflow_ st) attr = Ret false ->
     read_dense_attr_loop fuel A attr bsz st buf off
       = Ret (rc, st', buf', bsz', off') ->
     vector_at (overflow_ st') attr = Ret true ->
     rc = TILEDB_ARS_OK
     /\ bsz' = off'
     /\ vector_at (tile_done_ st') attr = Ret false
     /\ exists i f, fragments st' !! i = Some f
                    /\ Fragment.overflow f attr = true).
Proof.
  split.
  - intros st buf off pos pre fi r post st1 buf1 off1 f f' buf2 off2
      Hpos Hplan Hpre Hov1 Hfi Hf Hcopy Hrep.
    assert (Hloop :
      copy_ranges_loop (pre ++ (fi, r) :: post) attr bsz st buf off
      = Ret (TILEDB_ARS_OK,
             set_overflow
               (set_fragments st1 (<[Z.to_nat fi := f']> (fragments st1)))
               (<[Z.to_nat attr := true]> (overflow_ st1)),
             buf2, off2)).
    { rewrite (copy_ranges_loop_app pre _ attr bsz _ _ _ _ _ _ Hpre Hov1).
      simpl. destruct (Z.eqb_spec fi (-1)) as [->|_]; [contradiction|].
      rewrite Hf. unfold mbind, Run_bind. rewrite Hcopy, Hrep. reflexivity. }
    assert (Hov0 : vector_at (overflow_ st) attr = Ret false).
    { clear Hloop Hplan. revert st buf off Hpos Hpre.
      induction pre as [|[fj rj] pre IH]; intros st buf off Hpos Hpre.
      - simpl in Hpre. inversion Hpre; subst. assumption.
      - simpl in Hpre. destruct (fj =? -1).
        + unfold copy_cell_range_with_empty in Hpre.
          destruct (vector_at (overflow_ st) attr) as [[]| |] eqn:E;
            unfold mbind, Run_bind in Hpre; try discriminate.
          * inversion Hpre; subst. congruence.
          * reflexivity.
        + destruct (fragment_at (fragments st) fj) as [g| |];
            unfold mbind, Run_bind in Hpre; try discriminate.
          destruct (Fragment.copy_cell_range g attr buf bsz off rj)
            as [[[g' b'] o']|]; [|discriminate].
          destruct (Fragment.overflow g' attr).
          * inversion Hpre; subst. simpl in Hov1.
            exfalso. eapply vector_at_insert_not_false; eauto.
          * apply IH in Hpre; [exact Hpre | exact Hpos]. }
    destruct (copy_ranges_loop_effect _ attr bsz _ _ _ _ _ _ _ Hov0 Hloop)
      as (Hp & Hv & Htd & _).
    simpl in Hp, Hv, Htd.
    eexists. split.
    + unfold copy_cell_ranges. rewrite Hpos. unfold mbind, Run_bind.
      rewrite Hplan, Hloop. simpl.
      rewrite (vector_at_insert_true _ _ _ Hov1 true). reflexivity.
    + simpl. split; [eapply vector_at_insert_true; eauto|].
      rewrite Htd. auto.
  - induction fuel as [|fuel IH];
      intros st buf off rc st' buf' bsz' off' Hov Hrun Hov'; [discriminate|].
    cbn [read_dense_attr_loop] in Hrun.
    destruct (vector_at (tile_done_ st) attr) as [td| |] eqn:Etd;
      unfold mbind, Run_bind in Hrun; try discriminate.
    apply vector_at_length in Etd.
    match type of Hrun with match ?x with _ => _ end = _ =>
      destruct x as [[[[rc1 st1] buf1] off1]| |] eqn:E1; try discriminate
    end.
    assert (H1 : length (tile_done_ st1) = length (tile_done_ st)
                 /\ (vector_at (overflow_ st1) attr = Ret false
                     \/ (vector_at (overflow_ st1) attr = Ret true
                         /\ rc1 = TILEDB_ARS_OK
                         /\ tile_done_ st1
                            = <[Z.to_nat attr := false]> (tile_done_ st)
                         /\ exists i f, fragments st1 !! i = Some f
                                        /\ Fragment.overflow f attr = true))).
    { destruct td; simpl in E1.
      - inversion E1; subst. auto.
      - destruct (copy_cell_ranges_effect _ _ _ _ _ _ _ _ _ Hov E1)
          as (_ & _ & Hl & [Hf | (Ht & Hrc & _ & Htd' & Hex)]); auto 10. }
    destruct H1 as [Hlen1 H1].
    destruct (negb (rc1 =? TILEDB_ARS_OK)) eqn:Erc1.
    { inversion Hrun; subst; clear Hrun.
      destruct H1 as [Hf | (_ & -> & _)]; [congruence | discriminate]. }
    apply negb_false_iff, Z.eqb_eq in Erc1. subst rc1.
    destruct H1 as [Hf1 | (Ht1 & _ & Htd1 & Hex1)].
    2: { rewrite Ht1 in Hrun. inversion Hrun; subst; clear Hrun.
         split; [reflexivity|]. split; [reflexivity|]. split; [|exact Hex1].
         rewrite Htd1. apply vector_at_insert. exact Etd. }
    rewrite Hf1 in Hrun.
    destruct (vector_at (fragment_cell_pos_ranges_vec_pos_ st1) attr)
      as [pos| |]; try discriminate.
    match type of Hrun with match ?x with _ => _ end = _ =>
      destruct x as [[rc2 st2]| |] eqn:E2; try discriminate
    end.
    assert (Hfr2 : overflow_ st2 = overflow_ st1
                   /\ tile_done_ st2 = tile_done_ st1).
    { destruct (past_the_plans _ _).
      - eapply get_next_cell_ranges_dense_frame; eauto.
      - inversion E2; subst. auto. }
    destruct Hfr2 as [Hov2 Htd2].
    destruct (negb (rc2 =? TILEDB_ARS_OK)).
    { inversion Hrun; subst; clear Hrun. congruence. }
    destruct (done_ st2).
    { inversion Hrun; subst; clear Hrun. congruence. }
    destruct (copy_cell_ranges attr bsz st2 buf1 off1)
      as [[[[rc3 st3] buf3] off3]| |] eqn:E3; try discriminate.
    assert (Hov2' : vector_at (overflow_ st2) attr = Ret false)
      by (rewrite Hov2; assumption).
    destruct (copy_cell_ranges_effect _ _ _ _ _ _ _ _ _ Hov2' E3)
      as (_ & _ & Hlen3 & [Hf3 | (Ht3 & Hrc3 & _ & Htd3 & Hex3)]).
    + destruct (negb (rc3 =? TILEDB_ARS_OK)).
      { inversion Hrun; subst; clear Hrun. congruence. }
      rewrite Hf3 in Hrun. eapply IH; eauto.
    + subst rc3. simpl in Hrun. rewrite Ht3 in Hrun.
      inversion Hrun; subst; clear Hrun.
      split; [reflexivity|]. split; [reflexivity|]. split; [|exact Hex3].
      rewrite Htd3. apply vector_at_insert. rewrite Htd2, Hlen1. exact Etd.
Qed.

Lemma overflow_is_success_with_partial_progress_witness :
  match read_dense_attr_loop 20 line_array 0 4 line_state [0; 0; 0; 0] 0 with
  | Ret (rc, st', buf', bsz', off') =>
      rc = TILEDB_ARS_OK /\ bsz' = off'
      /\ vector_at (tile_done_ st') 0 = Ret false
      /\ exists i f, fragments st' !! i = Some f
                     /\ Fragment.overflow f 0 = true
  | _ => False
  end.
Proof.
  destruct (read_dense_attr_loop 20 line_array 0 4 line_state [0; 0; 0; 0] 0)
    as [[[[[rc st'] buf'] bsz'] off']| |] eqn:E.
  - eapply (proj2 (overflow_is_success_with_partial_progress line_array 0 4));
      [ | exact E | ].
    + vm_compute. reflexivity.
    + vm_compute in E. inversion E. vm_compute. reflexivity.
  - vm_compute in E. discriminate E.
  - vm_compute in E. discriminate E.
Defined.

(** ** The per-tile merge *)

Section Merge.

Context `{Fragment.Ops F}.
Context (AS : ArraySchema) (fs : list F) (td : list Z) (tde : Coords).
Hypothesis laws : CellOrderLaws AS td.

Local Abbreviation lo_ := (lo AS td).
Local Abbreviation hi_ := (hi AS td).
Local Abbreviation valid := (valid_range AS td).
Local Abbreviation key_le := (le_key AS td).
Local Abbreviation work_ := (work AS td).
Local Abbreviation Smaller := (SmallerFragmentCellRange AS).
Local Abbreviation behind_ := (behind AS td fs).
Local Abbreviation entry := (entry_ok AS td fs).
Local Abbreviation same_apart := (apart_if_same AS td).
Local Abbreviation merging_ := (merging AS td fs).

Lemma cmp_sign (a b : Coords) :
  in_tile AS td a -> in_tile AS td b ->
  (cell_order_cmp AS a b < 0 <-> cell_pos AS td a < cell_pos AS td b)
  /\ (cell_order_cmp AS a b > 0 <-> cell_pos AS td a > cell_pos AS td b)
  /\ (cell_order_cmp AS a b = 0 <-> cell_pos AS td a = cell_pos AS td b).
Proof.
  intros Ha Hb. pose proof (cell_order_cmp_pos _ _ laws a b Ha Hb) as Hc.
  destruct (Z.compare_spec (cell_order_cmp AS a b) 0);
    destruct (Z.compare_spec (cell_pos AS td a) (cell_pos AS td b));
    try discriminate; lia.
Qed.

Lemma Smaller_true (x y : FragmentCellRange) :
  valid x -> valid y ->
  Smaller x y = true <->
  lo_ x > lo_ y \/ (lo_ x = lo_ y /\ fst x < fst y).
Proof.
  intros (Hx & _ & _) (Hy & _ & _).
  destruct (cmp_sign _ _ Hx Hy) as (Hlt & Hgt & Heq).
  rewrite SmallerFragmentCellRange_spec. unfold lo. tauto.
Qed.

Lemma Smaller_false (x y : FragmentCellRange) :
  valid x -> valid y ->
  Smaller x y = false <-> key_le x y.
Proof.
  intros Hx Hy. rewrite <- not_true_iff_false, (Smaller_true x y Hx Hy).
  unfold le_key. lia.
Qed.

Lemma pq_push_perm (x : FragmentCellRange) (l : FragmentCellRanges) :
  pq_push AS x l ≡ₚ x :: l.
Proof.
  induction l as [|y l IH]; simpl; [reflexivity|].
  destruct (Smaller y x); [reflexivity|].
  rewrite IH. apply Permutation_swap.
Qed.

Lemma pq_push_elem (x y : FragmentCellRange) (l : FragmentCellRanges) :
  x ∈ pq_push AS y l <-> x = y \/ x ∈ l.
Proof. rewrite pq_push_perm. apply elem_of_cons. Qed.

Ltac elem_tac :=
  repeat first [ rewrite elem_of_app | rewrite elem_of_cons
               | rewrite pq_push_elem | rewrite elem_of_nil ];
  tauto.

Ltac solve_elems := intros ?; elem_tac.

Lemma pq_push_Forall (P : FragmentCellRange -> Prop) y l :
  Forall P (pq_push AS y l) <-> P y /\ Forall P l.
Proof. rewrite pq_push_perm. apply list.Forall_cons. Qed.

Lemma work_push (y : FragmentCellRange) l :
  work_ (pq_push AS y l) = 2 * (hi_ y - lo_ y) + 1 + work_ l.
Proof.
  induction l as [|z l IH]; simpl; [reflexivity|].
  destruct (Smaller z y); simpl; [reflexivity|]. rewrite IH. lia.
Qed.

Lemma work_nonneg l : Forall valid l -> 0 <= work_ l.
Proof.
  induction 1 as [|r l (_ & _ & Hr) _ IH]; simpl; lia.
Qed.

Lemma pairwise_push_sym (R : FragmentCellRange -> FragmentCellRange -> Prop)
    y l :
  (forall a b, R a b -> R b a) ->
  Forall (R y) l -> pairwise R l -> pairwise R (pq_push AS y l).
Proof.
  intros Hsym. induction l as [|z l IH]; simpl; intros Hy Hl.
  - split; [constructor | exact I].
  - destruct Hl as [Hz Hl]. apply list.Forall_cons in Hy as [Hyz Hy].
    destruct (Smaller z y); simpl.
    + split; [constructor; assumption|]. split; assumption.
    + split; [|apply IH; assumption].
      apply pq_push_Forall. split; [apply Hsym|]; assumption.
Qed.

Lemma le_key_trans x y z : key_le x y -> key_le y z -> key_le x z.
Proof. unfold le_key. lia. Qed.

Lemma le_key_total x y : key_le x y \/ key_le y x.
Proof. unfold le_key. lia. Qed.

Lemma sorted_push y l :
  valid y -> Forall valid l ->
  pairwise key_le l -> pairwise key_le (pq_push AS y l).
Proof.
  intros Hy. induction l as [|z l IH]; simpl; intros Hv Hl.
  - split; [constructor | exact I].
  - apply list.Forall_cons in Hv as [Hz Hv]. destruct Hl as [Hzl Hl].
    destruct (Smaller z y) eqn:E; simpl.
    + assert (Hyz : key_le y z).
      { destruct (le_key_total y z) as [|Hzy]; [assumption|].
        apply Smaller_false in Hzy; [congruence | assumption..]. }
      split; [|split; assumption].
      constructor; [assumption|].
      eapply Forall_impl; [|exact Hzl]. intros w Hw.
      eapply le_key_trans; eauto.
    + split; [|apply IH; assumption].
      apply pq_push_Forall. split; [|assumption].
      apply Smaller_false; assumption.
Qed.

(** *** Owners are kept when a range is cut where a newer range lies *)

Lemma owner_replace (M M' K pieces : FragmentCellRanges)
    (T : FragmentCellRange) :
  (forall x, x ∈ M <-> x = T \/ x ∈ K) ->
  (forall x, x ∈ M' <-> x ∈ pieces \/ x ∈ K) ->
  (forall q, q ∈ pieces ->
     fst q = fst T /\ forall p, covers AS td q p -> covers AS td T p) ->
  (forall p, covers AS td T p ->
     (exists q, q ∈ pieces /\ covers AS td q p)
     \/ (exists k, k ∈ K /\ fst T < fst k /\ covers AS td k p)) ->
  forall p f, is_owner AS td M p f <-> is_owner AS td M' p f.
Proof.
  intros HM HM' Hpieces Hcut p f. unfold is_owner. split.
  - intros [(r & Hr & Hf & Hc) Hmax]. split.
    + apply HM in Hr as [-> | Hr].
      * destruct (Hcut p Hc) as [(q & Hq & Hqc) | (k & Hk & Hlt & Hkc)].
        -- exists q. split; [apply HM'; auto|].
           split; [|assumption]. rewrite <- Hf. apply Hpieces. assumption.
        -- exfalso. assert (fst k <= f) by (apply Hmax; [apply HM|]; auto).
           lia.
      * exists r. split; [apply HM'; auto|]. auto.
    + intros q Hq Hqc. apply HM' in Hq as [Hq | Hq].
      * destruct (Hpieces q Hq) as [Hfq Hsub].
        rewrite Hfq. apply Hmax; [apply HM; auto | auto].
      * apply Hmax; [apply HM; auto | auto].
  - intros [(r & Hr & Hf & Hc) Hmax]. split.
    + apply HM' in Hr as [Hr | Hr].
      * exists T. destruct (Hpieces r Hr) as [Hfr Hsub].
        split; [apply HM; auto|]. split; [congruence | auto].
      * exists r. split; [apply HM; auto|]. auto.
    + intros q Hq Hqc. apply HM in Hq as [-> | Hq].
      * destruct (Hcut p Hqc) as [(q & Hq & Hqc') | (k & Hk & Hlt & Hkc)].
        -- destruct (Hpieces q Hq) as [Hfq _]. rewrite <- Hfq.
           apply Hmax; [apply HM'; auto | auto].
        -- assert (fst k <= f) by (apply Hmax; [apply HM'; auto | auto]).
           lia.
      * apply Hmax; [apply HM'; auto | auto].
Qed.

(** *** The discard loop *)

Lemma entry_ok_valid r : entry_ok AS td fs r -> valid r.
Proof. intros [Hv _]. exact Hv. Qed.

Lemma Forall_entry_valid l : Forall (entry_ok AS td fs) l -> Forall valid l.
Proof. apply Forall_impl. exact entry_ok_valid. Qed.

Lemma apart_if_same_sym a b :
  apart_if_same AS td a b -> apart_if_same AS td b a.
Proof. unfold apart_if_same, apart. intros Hab Hf. symmetry in Hf. tauto. Qed.

(** The condition of the discard loop, in positions. *)
Lemma discard_condition (P T : FragmentCellRange) :
  valid P -> valid T ->
  (fst T <? fst P)
  && (cell_order_cmp AS (fst (snd T)) (fst (snd P)) >=? 0)
  && (cell_order_cmp AS (fst (snd T)) (snd (snd P)) <=? 0) = true
  <-> fst T < fst P /\ lo_ P <= lo_ T <= hi_ P.
Proof.
  intros (HPs & HPe & _) (HTs & _ & _).
  destruct (cmp_sign _ _ HTs HPs) as (H1 & H2 & H3).
  destruct (cmp_sign _ _ HTs HPe) as (H4 & H5 & H6).
  rewrite !andb_true_iff, Z.ltb_lt, Z.geb_le, Z.leb_le. unfold lo, hi. lia.
Qed.

Lemma trimmed_top_ok (P T : FragmentCellRange) :
  valid P -> entry T -> lo_ P <= lo_ T <= hi_ P -> hi_ P < hi_ T ->
  let T' : FragmentCellRange :=
    (fst T, (get_next_cell_coords AS td (snd (snd P)), snd (snd T))) in
  entry T' /\ lo_ T' = hi_ P + 1 /\ hi_ T' = hi_ T.
Proof.
  intros (HPs & HPe & HP) ((HTs & HTe & HT) & f & Hf & Hsp) Hin Hlt T'.
  destruct (next_cell_pos _ _ laws _ _ HPe HTe Hlt) as [Hn Hpos].
  assert (Hlo : lo_ T' = hi_ P + 1) by exact Hpos.
  assert (Hhi : hi_ T' = hi_ T) by reflexivity.
  split; [|auto]. split.
  - split; [exact Hn|]. split; [exact HTe|]. lia.
  - exists f. split; [exact Hf|]. intros Hd.
    destruct (Hsp Hd) as [Hst Hlast]. split; [exact Hst|].
    intros _. apply Hlast. intros Heq.
    unfold lo, hi in *. rewrite Heq in Hin. lia.
Qed.

Lemma discard_ranges_spec (P : FragmentCellRange) :
  valid P ->
  forall fuel pq log,
  behind_ P pq -> work_ pq < Z.of_nat fuel ->
  exists pq' log',
    discard_ranges fuel AS td P pq log = Ret (pq', log')
    /\ behind_ P pq'
    /\ work_ pq' <= work_ pq
    /\ match pq' with
       | [] => True
       | T :: _ => fst T < fst P -> hi_ P < lo_ T
       end
    /\ (forall X, Forall (from_input AS td X) pq ->
                  Forall (from_input AS td X) pq')
    /\ (forall X p f,
          is_owner AS td (X ++ P :: pq) p f
          <-> is_owner AS td (X ++ P :: pq') p f).
Proof.
  intros HP. induction fuel as [|fuel IH]; intros pq log Hb Hw.
  { destruct Hb as (Hok & _). apply Forall_entry_valid, work_nonneg in Hok.
    lia. }
  destruct pq as [|T rest].
  { exists [], log. split; [reflexivity|]. split; [assumption|].
    split; [lia|]. split; [exact I|]. split; [auto|]. intros; reflexivity. }
  destruct Hb as (Hok & Hsort & Hlo & HaP & Hap).
  apply list.Forall_cons in Hok as [HT Hok].
  destruct Hsort as [HTrest Hsort].
  apply list.Forall_cons in Hlo as [HloT Hlo].
  apply list.Forall_cons in HaP as [HaPT HaP].
  destruct Hap as [HaT Hap].
  pose proof (entry_ok_valid _ HT) as HTv.
  assert (HloT' : lo_ P <= lo_ T) by (unfold le_key in HloT; lia).
  cbn [discard_ranges].
  destruct ((fst T <? fst P)
            && (cell_order_cmp AS (fst (snd T)) (fst (snd P)) >=? 0)
            && (cell_order_cmp AS (fst (snd T)) (snd (snd P)) <=? 0))
    eqn:Econd.
  2: { exists (T :: rest), log. split; [reflexivity|].
       split. { repeat split; auto using Forall_cons. }
       split; [lia|]. split.
       { intros Hlt. destruct (Z.lt_ge_cases (hi_ P) (lo_ T)); [assumption|].
         exfalso. assert (Hc : fst T < fst P /\ lo_ P <= lo_ T <= hi_ P) by lia.
         apply discard_condition in Hc; auto. congruence. }
       split; [auto | intros; reflexivity]. }
  apply discard_condition in Econd as (Hf & Hin); auto.
  destruct (cell_order_cmp AS (snd (snd T)) (snd (snd P)) >? 0) eqn:Ecut.
  - (* the top reaches past the popped range: trim and re-insert *)
    assert (Hlt : hi_ P < hi_ T).
    { destruct HP as (_ & HPe & _). destruct HTv as (_ & HTe & _).
      destruct (cmp_sign _ _ HTe HPe) as (_ & Hgt & _).
      apply Z.gtb_lt in Ecut. unfold hi. lia. }
    destruct (trimmed_top_ok P T HP HT Hin Hlt) as (HT' & HTlo' & HThi').
    set (T' := (fst T, (get_next_cell_coords AS td (snd (snd P)),
                        snd (snd T)))) in *.
    pose proof (entry_ok_valid _ HT') as HT'v.
    assert (Hpush : pq_pop (pq_push AS T' (T :: rest)) = pq_push AS T' rest).
    { simpl. assert (Hs : Smaller T T' = false).
      { apply Smaller_false; auto. left. lia. }
      rewrite Hs. reflexivity. }
    rewrite Hpush.
    assert (Hb' : behind_ P (pq_push AS T' rest)).
    { split; [apply pq_push_Forall; auto|].
      split; [apply sorted_push; auto using Forall_entry_valid|].
      split; [apply pq_push_Forall; split; [|auto];
              destruct HP as (_ & _ & HP); left; lia|].
      split; [apply pq_push_Forall; split; [|auto];
              intros Heq; simpl in Heq; lia|].
      apply pairwise_push_sym; [exact apart_if_same_sym | | exact Hap].
      eapply Forall_impl; [|exact HaT]. intros q Hq Hfq.
      specialize (Hq Hfq). unfold apart in *. lia. }
    assert (Hw' : work_ (pq_push AS T' rest) < work_ (T :: rest)).
    { rewrite work_push. simpl. lia. }
    destruct (IH (pq_push AS T' rest)
                (note_top 352 (pq_push AS T' rest) log) Hb' ltac:(lia))
      as (pq' & log' & Hrun & Hbq & Hwq & Hhead & Hfrom & Hown).
    exists pq', log'. split; [exact Hrun|]. split; [exact Hbq|].
    split; [lia|]. split; [exact Hhead|]. split.
    + intros X HX. apply Hfrom. apply pq_push_Forall.
      apply list.Forall_cons in HX as [(r & Hr & Hfr & Hrl & Hrh) HX].
      split; [|exact HX]. exists r. repeat split; auto; simpl; lia.
    + intros X p f. rewrite <- Hown.
      apply (owner_replace _ _ (X ++ [P] ++ rest) [T'] T).
      * solve_elems.
      * solve_elems.
      * intros q Hq. apply list_elem_of_singleton in Hq as ->.
        split; [reflexivity|]. unfold covers. lia.
      * intros p0 Hp0. unfold covers in *.
        destruct (Z.le_gt_cases p0 (hi_ P)).
        -- right. exists P. split; [|split; [exact Hf|lia]].
           elem_tac.
        -- left. exists T'. split; [apply list_elem_of_singleton; auto|]. lia.
  - (* the top lies inside the popped range: discard it *)
    assert (Hle : hi_ T <= hi_ P).
    { destruct HP as (_ & HPe & _). destruct HTv as (_ & HTe & _).
      destruct (cmp_sign _ _ HTe HPe) as (_ & Hgt & _).
      destruct (Z.gtb_spec (cell_order_cmp AS (snd (snd T)) (snd (snd P))) 0);
        [discriminate|]. unfold hi. lia. }
    simpl pq_pop.
    assert (Hb' : behind_ P rest) by (repeat split; auto).
    assert (Hw' : work_ rest < work_ (T :: rest)).
    { simpl. destruct HTv as (_ & _ & ?). lia. }
    destruct (IH rest (note_top 352 rest log) Hb' ltac:(lia))
      as (pq' & log' & Hrun & Hbq & Hwq & Hhead & Hfrom & Hown).
    exists pq', log'. split; [exact Hrun|]. split; [exact Hbq|].
    split; [lia|]. split; [exact Hhead|]. split.
    + intros X HX. apply Hfrom.
      apply list.Forall_cons in HX as [_ HX]. exact HX.
    + intros X p f. rewrite <- Hown.
      apply (owner_replace _ _ (X ++ [P] ++ rest) [] T).
      * solve_elems.
      * solve_elems.
      * intros q Hq. apply elem_of_nil in Hq as [].
      * intros p0 Hp0. unfold covers in *.
        right. exists P. split; [|split; [exact Hf|lia]].
        elem_tac.
Qed.

(** *** The trim of the popped range *)

Lemma trim_condition (P T : FragmentCellRange) :
  valid P -> valid T ->
  (fst T >? fst P)
  && (cell_order_cmp AS (fst (snd T)) (snd (snd P)) <=? 0) = true
  <-> fst P < fst T /\ lo_ T <= hi_ P.
Proof.
  intros (_ & HPe & _) (HTs & _ & _).
  destruct (cmp_sign _ _ HTs HPe) as (H4 & H5 & H6).
  rewrite !andb_true_iff, Z.gtb_lt, Z.leb_le. unfold lo, hi. lia.
Qed.

Lemma sorted_head_lo (T : FragmentCellRange) rest q :
  pairwise key_le (T :: rest) -> q ∈ T :: rest -> lo_ T <= lo_ q.
Proof.
  intros [HT _] Hq. apply elem_of_cons in Hq as [-> | Hq]; [lia|].
  rewrite list.Forall_forall in HT. specialize (HT q Hq).
  unfold le_key in HT. lia.
Qed.

Lemma trim_popped_spec (P : FragmentCellRange) (fP : F) pq :
  valid P -> fragment_at fs (fst P) = Ret fP ->
  Fragment.dense fP = true \/ fst (snd P) = snd (snd P) ->
  behind_ P pq ->
  match pq with
  | [] => True
  | T :: _ => fst T < fst P -> hi_ P < lo_ T
  end ->
  let '(pq', P') := trim_popped AS td P pq in
  valid P' /\ fst P' = fst P /\ lo_ P' = lo_ P /\ hi_ P' <= hi_ P
  /\ Forall entry pq'
  /\ pairwise key_le pq'
  /\ pairwise same_apart pq'
  /\ Forall (fun q => hi_ P' < lo_ q) pq'
  /\ work_ pq' < work_ (P :: pq)
  /\ (forall X, Forall (from_input AS td X) (P :: pq) ->
                Forall (from_input AS td X) (P' :: pq'))
  /\ (forall X p f,
        is_owner AS td (X ++ P :: pq) p f
        <-> is_owner AS td (X ++ P' :: pq') p f).
Proof.
  intros HP HfP Hdu (Hok & Hsort & Hkey & HaP & Hap) Hhead.
  assert (HPlh : lo_ P <= hi_ P) by apply HP.
  destruct pq as [|T rest].
  { simpl. split; [exact HP|]. split; [reflexivity|]. split; [reflexivity|].
    split; [lia|]. split; [constructor|]. split; [exact I|].
    split; [exact I|]. split; [constructor|]. split; [simpl; lia|].
    split; [auto | intros; reflexivity]. }
  pose proof Hok as Hok0. pose proof Hkey as Hkey0. pose proof HaP as HaP0.
  apply list.Forall_cons in Hok as [HT Hok].
  apply list.Forall_cons in Hkey as [HkT Hkey].
  apply list.Forall_cons in HaP as [HaPT HaP].
  pose proof (entry_ok_valid _ HT) as HTv.
  assert (HTlh : lo_ T <= hi_ T) by apply HTv.
  cbn [trim_popped].
  destruct ((fst T >? fst P)
            && (cell_order_cmp AS (fst (snd T)) (snd (snd P)) <=? 0))
    eqn:Econd.
  2: { (* the popped range stays as it is *)
       assert (HPT : hi_ P < lo_ T).
       { destruct (Z.lt_trichotomy (fst T) (fst P)) as [Hlt | [Heq | Hgt]].
         - auto.
         - symmetry in Heq. specialize (HaPT Heq). unfold apart in HaPT.
           unfold le_key in HkT. lia.
         - destruct (Z.lt_ge_cases (hi_ P) (lo_ T)); [assumption|].
           assert (Hc : fst P < fst T /\ lo_ T <= hi_ P) by lia.
           apply trim_condition in Hc; auto. congruence. }
       split; [exact HP|]. split; [reflexivity|]. split; [reflexivity|].
       split; [lia|]. split; [exact Hok0|]. split; [exact Hsort|].
       split; [exact Hap|]. split.
       { apply list.Forall_forall. intros q Hq.
         pose proof (sorted_head_lo _ _ _ Hsort Hq). lia. }
       split; [simpl; lia|]. split; [auto | intros; reflexivity]. }
  apply trim_condition in Econd as (Hf & Hin); auto.
  assert (Hlo : lo_ P < lo_ T) by (unfold le_key in HkT; lia).
  destruct HP as (HPs & HPe & _). destruct HTv as (HTs & HTe & _).
  destruct (previous_cell_pos _ _ laws _ _ HTs HPs Hlo) as [Hprev Hppos].
  set (P' := (fst P, (fst (snd P),
                      get_previous_cell_coords AS td (fst (snd T))))).
  assert (HP'v : valid P').
  { split; [exact HPs|]. split; [exact Hprev|].
    unfold lo, hi in *. simpl. lia. }
  assert (HP'lo : lo_ P' = lo_ P) by reflexivity.
  assert (HP'hi : hi_ P' = lo_ T - 1) by exact Hppos.
  assert (Hbehind : Forall (fun q => hi_ P' < lo_ q) (T :: rest)).
  { apply list.Forall_forall. intros q Hq.
    pose proof (sorted_head_lo _ _ _ Hsort Hq). lia. }
  destruct (cell_order_cmp AS (snd (snd T)) (snd (snd P)) <? 0) eqn:Ecut.
  - (* the newer top ends inside the popped range: a tail is left *)
    assert (Hlt : hi_ T < hi_ P).
    { destruct (cmp_sign _ _ HTe HPe) as (Hl & _ & _).
      apply Z.ltb_lt in Ecut. unfold hi. lia. }
    destruct (next_cell_pos _ _ laws _ _ HTe HPe Hlt) as [Hnext Hnpos].
    set (extra := (fst P, (get_next_cell_coords AS td (snd (snd T)),
                           snd (snd P)))).
    assert (Hex_lo : lo_ extra = hi_ T + 1) by exact Hnpos.
    assert (Hex_hi : hi_ extra = hi_ P) by reflexivity.
    assert (Hexv : valid extra).
    { split; [exact Hnext|]. split; [exact HPe|]. lia. }
    assert (Hexe : entry extra).
    { split; [exact Hexv|]. exists fP. split; [exact HfP|].
      intros Hd. exfalso. destruct Hdu as [Hd' | Hu]; [congruence|].
      unfold lo, hi in *. rewrite Hu in *. lia. }
    split; [exact HP'v|]. split; [reflexivity|]. split; [exact HP'lo|].
    split; [lia|].
    split; [apply pq_push_Forall; split; [exact Hexe | exact Hok0]|].
    split; [apply sorted_push; auto using Forall_entry_valid|].
    split.
    { apply pairwise_push_sym; [exact apart_if_same_sym | | exact Hap].
      eapply Forall_impl; [|exact HaP0]. intros q Hq Hfq.
      specialize (Hq Hfq). unfold apart in *. lia. }
    split; [apply pq_push_Forall; split; [lia | exact Hbehind]|].
    split; [rewrite work_push; simpl; lia|].
    split.
    { intros X HX. apply list.Forall_cons in HX as [HXP HX].
      assert (Hsub : forall q, fst q = fst P -> lo_ P <= lo_ q ->
                               hi_ q <= hi_ P -> from_input AS td X q).
      { intros q Hfq Hl Hh. destruct HXP as (r & Hr & Hfr & Hrl & Hrh).
        exists r. repeat split; auto; [congruence | lia | lia]. }
      constructor; [apply Hsub; auto; lia|].
      apply pq_push_Forall. split; [apply Hsub; auto; lia | exact HX]. }
    intros X p f.
    apply (owner_replace _ _ (X ++ T :: rest) [P'; extra] P);
      try solve_elems.
    + intros q Hq. apply elem_of_cons in Hq as [-> | Hq];
        [|apply list_elem_of_singleton in Hq as ->];
        (split; [reflexivity | unfold covers; lia]).
    + intros p0 Hp0. unfold covers in *.
      destruct (Z.lt_ge_cases p0 (lo_ T)).
      * left. exists P'. split; [elem_tac | lia].
      * destruct (Z.le_gt_cases p0 (hi_ T)).
        -- right. exists T. split; [elem_tac | split; [exact Hf | lia]].
        -- left. exists extra. split; [elem_tac | lia].
  - (* the newer top reaches the end of the popped range *)
    assert (Hge : hi_ P <= hi_ T).
    { destruct (cmp_sign _ _ HTe HPe) as (Hl & _ & _).
      destruct (Z.ltb_spec (cell_order_cmp AS (snd (snd T)) (snd (snd P))) 0);
        [discriminate|]. unfold hi. lia. }
    split; [exact HP'v|]. split; [reflexivity|]. split; [exact HP'lo|].
    split; [lia|]. split; [exact Hok0|]. split; [exact Hsort|].
    split; [exact Hap|]. split; [exact Hbehind|].
    split; [simpl; lia|].
    split.
    { intros X HX. apply list.Forall_cons in HX as [HXP HX].
      constructor; [|exact HX].
      destruct HXP as (r & Hr & Hfr & Hrl & Hrh).
      exists r. repeat split; auto; lia. }
    intros X p f.
    apply (owner_replace _ _ (X ++ T :: rest) [P'] P); try solve_elems.
    + intros q Hq. apply list_elem_of_singleton in Hq as ->.
      split; [reflexivity | unfold covers; lia].
    + intros p0 Hp0. unfold covers in *.
      destruct (Z.lt_ge_cases p0 (lo_ T)).
      * left. exists P'. split; [elem_tac | lia].
      * right. exists T. split; [elem_tac | split; [exact Hf | lia]].
Qed.

(** *** The loop over the queue *)

Lemma increasing_snoc out (P : FragmentCellRange) :
  increasing AS td out -> valid P ->
  (forall o, o ∈ out -> hi_ o < lo_ P) ->
  increasing AS td (out ++ [P]).
Proof.
  induction out as [|o out IH]; simpl; intros Hinc HP Hlt.
  - split; [exact HP|]. split; [constructor | exact I].
  - destruct Hinc as (Ho & Hrest & Hinc). split; [exact Ho|]. split.
    + apply Forall_app. split; [exact Hrest|].
      constructor; [|constructor]. apply Hlt. left.
    + apply IH; auto. intros o' Ho'. apply Hlt. right. exact Ho'.
Qed.

Lemma unary_false (r : CellRange) : unary r = false <-> fst r <> snd r.
Proof. unfold unary. apply bool_decide_eq_false. Qed.

Lemma unary_true (r : CellRange) : unary r = true <-> fst r = snd r.
Proof. unfold unary. apply bool_decide_eq_true. Qed.

Lemma not_unary_lt (P : FragmentCellRange) :
  valid P -> fst (snd P) <> snd (snd P) -> lo_ P < hi_ P.
Proof.
  intros (Hs & He & Hle) Hne.
  destruct (Z.eq_dec (lo_ P) (hi_ P)) as [Heq|]; [|lia].
  exfalso. apply Hne. eapply cell_pos_inj; eauto.
Qed.

Lemma sorted_head_behind (P : FragmentCellRange) pq :
  Forall entry (P :: pq) -> pairwise key_le (P :: pq) ->
  pairwise same_apart (P :: pq) -> behind_ P pq.
Proof.
  intros Hok [HkP Hsort] [HaP Hap].
  apply list.Forall_cons in Hok as [_ Hok]. repeat split; assumption.
Qed.

Section Loop.

Variable input : FragmentCellRanges.
Hypothesis sparse_ok : sparse_laws AS td tde fs input.

Lemma merging_emit (P : FragmentCellRange) pq out :
  merging_ input (P :: pq) out ->
  Forall (fun q => hi_ P < lo_ q) pq ->
  merging_ input pq (out ++ [P]).
Proof.
  intros (Hok & Hsort & Hap & Hinc & Hcross & Hfrom & Hown) Hlt.
  apply list.Forall_cons in Hok as [HP Hok].
  destruct Hsort as [_ Hsort]. destruct Hap as [_ Hap].
  split; [exact Hok|]. split; [exact Hsort|]. split; [exact Hap|].
  split.
  { apply increasing_snoc; [exact Hinc | apply HP |].
    intros o Ho. apply Hcross; [exact Ho | left]. }
  split.
  { intros o q Ho Hq. apply elem_of_app in Ho as [Ho | Ho].
    - apply Hcross; [exact Ho | right; exact Hq].
    - apply list_elem_of_singleton in Ho as ->.
      rewrite list.Forall_forall in Hlt. auto. }
  rewrite <- app_assoc. simpl. split; [exact Hfrom | exact Hown].
Qed.

Lemma merging_dense_step (P P' : FragmentCellRange) pq1 pq2 pq3 out :
  merging_ input (P :: pq1) out ->
  (forall X, Forall (from_input AS td X) pq1 ->
             Forall (from_input AS td X) pq2) ->
  (forall X p f, is_owner AS td (X ++ P :: pq1) p f
                 <-> is_owner AS td (X ++ P :: pq2) p f) ->
  valid P' -> lo_ P' = lo_ P ->
  Forall entry pq3 -> pairwise key_le pq3 -> pairwise same_apart pq3 ->
  Forall (fun q => hi_ P' < lo_ q) pq3 ->
  (forall X, Forall (from_input AS td X) (P :: pq2) ->
             Forall (from_input AS td X) (P' :: pq3)) ->
  (forall X p f, is_owner AS td (X ++ P :: pq2) p f
                 <-> is_owner AS td (X ++ P' :: pq3) p f) ->
  merging_ input pq3 (out ++ [P']).
Proof.
  intros (Hok & Hsort & Hap & Hinc & Hcross & Hfrom & Hown)
    Hfrom12 Hown12 HP' Hlo Hok3 Hsort3 Hap3 Hlt3 Hfrom23 Hown23.
  split; [exact Hok3|]. split; [exact Hsort3|]. split; [exact Hap3|].
  assert (Hout : forall o, o ∈ out -> hi_ o < lo_ P').
  { intros o Ho. rewrite Hlo. apply Hcross; [exact Ho | left]. }
  split; [apply increasing_snoc; assumption|].
  split.
  { intros o q Ho Hq. rewrite list.Forall_forall in Hlt3.
    specialize (Hlt3 q Hq). apply elem_of_app in Ho as [Ho | Ho].
    - specialize (Hout o Ho). destruct HP' as (_ & _ & ?). lia.
    - apply list_elem_of_singleton in Ho as ->. exact Hlt3. }
  rewrite <- app_assoc. simpl. split.
  - apply Forall_app in Hfrom as [Hfo Hfq]. apply Forall_app. split; [exact Hfo|].
    apply list.Forall_cons in Hfq as [HfP Hfq].
    apply Hfrom23. constructor; [exact HfP|]. apply Hfrom12. exact Hfq.
  - intros Hall p f. rewrite <- Hown23, <- Hown12. apply Hown. exact Hall.
Qed.

Lemma sparse_not_all_dense (P : FragmentCellRange) (fP : F) :
  from_input AS td input P ->
  fragment_at fs (fst P) = Ret fP -> Fragment.dense fP = false ->
  (forall r, r ∈ input -> dense_id fs (fst r)) -> False.
Proof.
  intros (r & Hr & Hfr & _) HfP Hd Hall.
  destruct (Hall r Hr) as (f & Hf & Hdf). rewrite Hfr, HfP in Hf.
  inversion Hf; subst. congruence.
Qed.

(** The ranges pushed when a sparse range is expanded. *)
Lemma merging_expand (P : FragmentCellRange) (fP : F) pq out
    (news : FragmentCellRanges) :
  merging_ input (P :: pq) out ->
  fragment_at fs (fst P) = Ret fP -> Fragment.dense fP = false ->
  Forall entry news ->
  Forall (fun q => fst q = fst P /\ lo_ P <= lo_ q /\ hi_ q <= hi_ P) news ->
  pairwise (apart AS td) news ->
  merging_ input (foldr (pq_push AS) pq news) out.
Proof.
  intros (Hok & Hsort & Hap & Hinc & Hcross & Hfrom & Hown) HfP Hd.
  apply list.Forall_cons in Hok as [HP Hok].
  destruct Hsort as [_ Hsort]. destruct Hap as [HaP Hap].
  assert (HfromP : from_input AS td input P).
  { apply Forall_app in Hfrom as [_ Hfq].
    apply list.Forall_cons in Hfq as [? _]. assumption. }
  assert (Hfrom' : Forall (from_input AS td input) (out ++ pq)).
  { apply Forall_app in Hfrom as [Hfo Hfq]. apply Forall_app.
    apply list.Forall_cons in Hfq as [_ Hfq]. auto. }
  assert (HcrossP : forall o, o ∈ out -> hi_ o < lo_ P).
  { intros o Ho. apply Hcross; [exact Ho | left]. }
  assert (Hcross' : forall o q, o ∈ out -> q ∈ pq -> hi_ o < lo_ q).
  { intros o q Ho Hq. apply Hcross; [exact Ho | right; exact Hq]. }
  clear Hcross Hfrom Hown.
  induction news as [|n news IH]; intros Hnok Hnin Hnap; simpl.
  - split; [exact Hok|]. split; [exact Hsort|]. split; [exact Hap|].
    split; [exact Hinc|]. split; [exact Hcross'|]. split; [exact Hfrom'|].
    intros Hall. exfalso. eapply sparse_not_all_dense; eauto.
  - apply list.Forall_cons in Hnok as [Hn Hnok].
    apply list.Forall_cons in Hnin as [(Hnf & Hnl & Hnh) Hnin].
    destruct Hnap as [Hnn Hnap].
    destruct (IH Hnok Hnin Hnap)
      as (Hok' & Hsort' & Hap' & _ & Hcr' & Hfr' & _).
    split; [apply pq_push_Forall; auto|].
    split; [apply sorted_push; auto using entry_ok_valid, Forall_entry_valid|].
    split.
    { apply pairwise_push_sym; [exact apart_if_same_sym | | exact Hap'].
      apply list.Forall_forall. intros q Hq Hfq.
      assert (Hq' : q ∈ news \/ q ∈ pq).
      { clear - Hq. induction news as [|m news IHn]; simpl in Hq; [auto|].
        apply pq_push_elem in Hq as [-> | Hq]; [left; left|].
        destruct (IHn Hq); [left; right | right]; assumption. }
      destruct Hq' as [Hq' | Hq'].
      - rewrite list.Forall_forall in Hnn. apply Hnn. exact Hq'.
      - rewrite list.Forall_forall in HaP.
        assert (Hpq : apart AS td P q).
        { apply HaP; [exact Hq' | congruence]. }
        unfold apart in *. lia. }
    split; [exact Hinc|].
    split.
    { intros o q Ho Hq. apply pq_push_elem in Hq as [-> | Hq].
      - specialize (HcrossP o Ho). lia.
      - apply Hcr'; assumption. }
    split.
    { apply Forall_app in Hfr' as [Hfo Hfq]. apply Forall_app.
      split; [exact Hfo|]. apply pq_push_Forall. split; [|exact Hfq].
      destruct HfromP as (r & Hr & Hfr & Hrl & Hrh).
      exists r. repeat split; auto; [congruence | lia | lia]. }
    intros Hall. exfalso. eapply sparse_not_all_dense; eauto.
Qed.

Lemma merging_valid pq out : merging_ input pq out -> Forall valid pq.
Proof. intros (Hok & _). apply Forall_entry_valid. exact Hok. Qed.

(** The queue is processed to its end: with fuel beyond the work left, the
    loop returns success, and the ranges it has produced then stand in the
    relation [merging] to the input with an empty queue. *)
Lemma process_queue_spec :
  forall fuel pq out log,
  merging_ input pq out -> work_ pq < Z.of_nat fuel ->
  exists out' log',
    process_queue fuel AS fs td tde pq out log
      = Ret (TILEDB_ARS_OK, out', log')
    /\ merging_ input [] out'.
Proof.
  induction fuel as [|fuel IH]; intros pq out log Hm Hw.
  { apply merging_valid, work_nonneg in Hm. lia. }
  destruct pq as [|P pq1]; cbn [process_queue].
  { eauto. }
  pose proof Hm as (Hok & Hsort & Hap & Hinc & Hcross & Hfrom & Hown).
  pose proof (sorted_head_behind _ _ Hok Hsort Hap) as Hb.
  pose proof (merging_valid _ _ Hm) as Hvalid.
  apply list.Forall_cons in Hok as [(HPv & fP & HfP & Hsp) Hok].
  apply list.Forall_cons in Hvalid as [_ Hvalid1].
  pose proof (work_nonneg _ Hvalid1) as Hw1.
  assert (HPlh : lo_ P <= hi_ P) by apply HPv.
  assert (Hwork : work_ (P :: pq1) = 2 * (hi_ P - lo_ P) + 1 + work_ pq1)
    by reflexivity.
  rewrite HfP. unfold mbind, Run_bind.
  destruct (bool_decide (pq1 = [])
            && (Fragment.dense fP || negb (unary (snd P))
                || Fragment.coords_exist fP (fst (snd P)))) eqn:Etriv.
  { (* the last range of the queue *)
    apply andb_true_iff in Etriv as [Hnil _].
    apply bool_decide_eq_true in Hnil. subst pq1.
    eexists _, _. split; [reflexivity|].
    apply merging_emit; [exact Hm | constructor]. }
  destruct (Fragment.dense fP || unary (snd P)) eqn:Edu.
  - (* dense popped or unary *)
    assert (Hdu : Fragment.dense fP = true \/ fst (snd P) = snd (snd P)).
    { apply orb_true_iff in Edu as [Hd | Hu]; [left; exact Hd|].
      right. apply unary_true. exact Hu. }
    assert (Hnd : negb (Fragment.dense fP)
                  && negb (Fragment.coords_exist fP (fst (snd P))) = false).
    { destruct (Fragment.dense fP) eqn:Ed; [reflexivity|]. simpl.
      destruct Hdu as [Hd | Hu]; [discriminate|].
      destruct (Hsp eq_refl) as [Hst _]. unfold stored in Hst.
      rewrite Hu, Hst. reflexivity. }
    rewrite Hnd.
    destruct (discard_ranges_spec P HPv fuel pq1 (note_top 296 pq1 log) Hb
                ltac:(lia))
      as (pq2 & log2 & Hrun & Hb2 & Hw2 & Hhead & Hfrom2 & Hown2).
    rewrite Hrun.
    pose proof (trim_popped_spec P fP pq2 HPv HfP Hdu Hb2 Hhead) as Htrim.
    destruct (trim_popped AS td P pq2) as [pq3 P'].
    destruct Htrim as (HP'v & HP'f & HP'lo & HP'hi & Hok3 & Hsort3 & Hap3
                       & Hlt3 & Hw3 & Hfrom3 & Hown3).
    apply IH.
    + eapply merging_dense_step; eauto.
    + simpl in Hw3. lia.
  - (* sparse popped *)
    apply orb_false_iff in Edu as [Hd Hu]. apply unary_false in Hu.
    pose proof (not_unary_lt P HPv Hu) as Hlt.
    destruct pq1 as [|T rest].
    { rewrite Hd in Etriv. simpl in Etriv.
      rewrite (proj2 (unary_false _) Hu) in Etriv. discriminate. }
    pose proof (list.Forall_cons_1 _ _ _ Hok) as [HT _].
    pose proof (entry_ok_valid _ HT) as HTv.
    destruct (cell_order_cmp AS (fst (snd T)) (snd (snd P)) >? 0) eqn:Edis.
    + (* no overlap with the top *)
      apply IH; [|lia].
      apply merging_emit; [exact Hm|].
      assert (HPT : hi_ P < lo_ T).
      { destruct HPv as (_ & HPe & _). destruct HTv as (HTs & _ & _).
        destruct (cmp_sign _ _ HTs HPe) as (_ & Hgt & _).
        apply Z.gtb_lt in Edis. unfold lo, hi. lia. }
      apply list.Forall_forall. intros q Hq.
      destruct Hsort as [_ Hsort1].
      pose proof (sorted_head_lo _ _ _ Hsort1 Hq). lia.
    + (* expand the popped range *)
      assert (HfromP : from_input AS td input P).
      { apply Forall_app in Hfrom as [_ Hfq].
        apply list.Forall_cons in Hfq as [? _]. assumption. }
      destruct HfromP as (r & Hr & Hfr & _).
      assert (Hfr' : fragment_at fs (fst r) = Ret fP) by (rewrite Hfr; exact HfP).
      destruct (sparse_ok r fP Hr Hfr' Hd) as (Htde & Hlast & Hspec).
      destruct (Hsp Hd) as [Hst Hls]. specialize (Hls Hu).
      destruct HPv as (HPs & HPe & _).
      destruct (Hspec (fst (snd P)) (snd (snd P)) HPs HPe Hst HPlh)
        as (u & v & Hget & Hu_in & Hu_st & Hu_ge & Hu_least & Hv).
      rewrite Hget.
      assert (Hu_le : cell_pos AS td u <= hi_ P)
        by (apply Hu_least; assumption).
      assert (Hcu : (cell_order_cmp AS u tde >? 0) = false).
      { destruct (cmp_sign _ _ Hu_in Htde) as (_ & Hgt & _).
        specialize (Hlast u Hu_in).
        destruct (Z.gtb_spec (cell_order_cmp AS u tde) 0); [lia | reflexivity]. }
      rewrite Hcu.
      set (U := (fst P, (u, u)) : FragmentCellRange).
      assert (HUe : entry U).
      { split; [split; [exact Hu_in|]; split; [exact Hu_in|]; unfold lo, hi; simpl; lia|].
        exists fP. split; [exact HfP|]. intros _.
        split; [exact Hu_st|]. intros Hne. exfalso. apply Hne. reflexivity. }
      assert (HUin : fst U = fst P /\ lo_ P <= lo_ U /\ hi_ U <= hi_ P).
      { split; [reflexivity|]. unfold lo, hi in *. simpl. lia. }
      destruct (cell_order_cmp AS v tde >? 0) eqn:Ecv.
      * (* no second cell in the tile *)
        apply IH.
        -- apply (merging_expand P fP (T :: rest) out [U]); auto.
           simpl. split; [constructor | exact I].
        -- rewrite work_push. unfold lo, hi in *. simpl in *. lia.
      * (* the rest of the popped range is re-inserted *)
        destruct Hv as [(Hv_in & Hv_st & Hv_gt & Hv_least) | (Hbeyond & _)].
        2: { destruct (Z.gtb_spec (cell_order_cmp AS v tde) 0);
               [discriminate | lia]. }
        assert (Hv_le : cell_pos AS td v <= hi_ P).
        { destruct (Z.eq_dec (cell_pos AS td u) (hi_ P)) as [Heq | Hne].
          - destruct Hls as [_ Hls]. specialize (Hls v Hv_in Hv_st).
            unfold hi in *. lia.
          - apply Hv_least; [exact HPe | exact Hst | unfold hi in *; lia]. }
        set (R := (fst P, (v, snd (snd P))) : FragmentCellRange).
        assert (HRe : entry R).
        { split; [split; [exact Hv_in|]; split; [exact HPe|]; exact Hv_le|].
          exists fP. split; [exact HfP|]. intros _.
          split; [exact Hst|]. intros _. split; [exact Hst | apply Hls]. }
        assert (HRin : fst R = fst P /\ lo_ P <= lo_ R /\ hi_ R <= hi_ P).
        { split; [reflexivity|]. unfold lo, hi in *. simpl. lia. }
        apply IH.
        -- apply (merging_expand P fP (T :: rest) out [R; U]); auto.
           simpl. split; [|split; [constructor | exact I]].
           constructor; [|constructor]. unfold apart, lo, hi. simpl. lia.
        -- rewrite !work_push. unfold lo, hi in *. simpl in *. lia.
Qed.

End Loop.

(** *** The queue of the unsorted ranges *)

Lemma pq_of_list_perm (l acc : FragmentCellRanges) :
  foldl (fun pq x => pq_push AS x pq) acc l ≡ₚ l ++ acc.
Proof.
  revert acc. induction l as [|x l IH]; intros acc; simpl; [reflexivity|].
  rewrite IH, pq_push_perm. symmetry. apply Permutation_middle.
Qed.

Lemma pq_of_list_sorted (l acc : FragmentCellRanges) :
  Forall valid l -> Forall valid acc -> pairwise key_le acc ->
  pairwise key_le (foldl (fun pq x => pq_push AS x pq) acc l).
Proof.
  revert acc. induction l as [|x l IH]; intros acc Hl Hacc Hs; simpl;
    [exact Hs|].
  apply list.Forall_cons in Hl as [Hx Hl].
  apply IH; [exact Hl | apply pq_push_Forall; auto | apply sorted_push; auto].
Qed.

Lemma pairwise_perm (R : FragmentCellRange -> FragmentCellRange -> Prop)
    (l l' : FragmentCellRanges) :
  (forall a b, R a b -> R b a) ->
  l ≡ₚ l' -> pairwise R l -> pairwise R l'.
Proof.
  intros Hsym Hperm. induction Hperm as [|x l l' Hp IH|x y l|l l' l'' _ IH1 _ IH2];
    simpl; auto.
  - intros [Hx Hl]. split; [rewrite <- Hp; exact Hx | auto].
  - intros (Hy & Hx & Hl). apply list.Forall_cons in Hy as [Hyx Hy].
    split; [constructor; [apply Hsym; exact Hyx | exact Hx]|].
    split; assumption.
Qed.

Lemma work_perm (l l' : FragmentCellRanges) :
  l ≡ₚ l' -> work_ l = work_ l'.
Proof.
  induction 1; simpl; lia.
Qed.

Lemma is_owner_elems (l l' : FragmentCellRanges) p f :
  (forall x, x ∈ l <-> x ∈ l') ->
  is_owner AS td l p f <-> is_owner AS td l' p f.
Proof.
  intros Hll. unfold is_owner. split; intros [(r & Hr & Hrest) Hmax].
  - split; [exists r; split; [apply Hll; exact Hr | exact Hrest]|].
    intros q Hq. apply Hmax. apply Hll. exact Hq.
  - split; [exists r; split; [apply Hll; exact Hr | exact Hrest]|].
    intros q Hq. apply Hmax. apply Hll. exact Hq.
Qed.

Lemma merging_start (input : FragmentCellRanges) :
  well_formed AS td fs input ->
  merging_ input (pq_of_list AS input) [].
Proof.
  intros [Hok Hap]. unfold pq_of_list.
  pose proof (pq_of_list_perm input []) as Hperm. rewrite app_nil_r in Hperm.
  split; [rewrite Hperm; exact Hok|].
  split.
  { apply pq_of_list_sorted; [apply Forall_entry_valid; exact Hok | constructor | exact I]. }
  split.
  { eapply pairwise_perm; [exact apart_if_same_sym | symmetry; exact Hperm | exact Hap]. }
  split; [exact I|].
  split; [intros o q Ho; apply elem_of_nil in Ho as []|].
  split.
  { simpl. rewrite Hperm. apply list.Forall_forall. intros q Hq.
    exists q. repeat split; auto; lia. }
  intros _ p f. simpl. apply is_owner_elems. intros x. rewrite Hperm. tauto.
Qed.

(** The merged ranges of a tile. *)
Lemma merged_ranges (input : FragmentCellRanges) (fuel : nat) :
  sparse_laws AS td tde fs input ->
  well_formed AS td fs input ->
  work_ input < Z.of_nat fuel ->
  exists out log,
    process_queue fuel AS fs td tde (pq_of_list AS input) [] []
      = Ret (TILEDB_ARS_OK, out, log)
    /\ increasing AS td out
    /\ Forall (from_input AS td input) out
    /\ ((forall r, r ∈ input -> dense_id fs (fst r)) ->
        forall p f, is_owner AS td out p f <-> is_owner AS td input p f).
Proof.
  intros Hsp Hwf Hw.
  destruct (process_queue_spec input Hsp fuel (pq_of_list AS input) [] []
              (merging_start input Hwf))
    as (out & log & Hrun & Hm).
  { unfold pq_of_list. rewrite (work_perm _ _ (pq_of_list_perm input [])).
    rewrite app_nil_r. exact Hw. }
  exists out, log. split; [exact Hrun|].
  destruct Hm as (_ & _ & _ & Hinc & _ & Hfrom & Hown).
  rewrite app_nil_r in Hfrom, Hown. auto.
Qed.

(** Among increasing ranges, the range that holds a cell is its owner. *)
Lemma increasing_owner (out : FragmentCellRanges) p f :
  increasing AS td out ->
  is_owner AS td out p f
  <-> exists r, r ∈ out /\ fst r = f /\ covers AS td r p.
Proof.
  intros Hinc. unfold is_owner. split; [intros [Hex _]; exact Hex|].
  intros (r & Hr & Hf & Hc). split; [eauto|].
  intros q Hq Hqc. assert (q = r); [|subst; lia].
  clear Hf. induction out as [|o out IH]; [apply elem_of_nil in Hr as []|].
  destruct Hinc as (Ho & Hlt & Hinc). rewrite list.Forall_forall in Hlt.
  unfold covers in *.
  apply elem_of_cons in Hr as [-> | Hr];
    apply elem_of_cons in Hq as [-> | Hq]; auto.
  - specialize (Hlt q Hq). lia.
  - specialize (Hlt r Hr). lia.
Qed.

End Merge.

(** ** The merged ranges and the plan of a tile *)

Lemma increasing_lookup (AS : ArraySchema) (td : list Z)
    (out : FragmentCellRanges) :
  increasing AS td out ->
  forall i j ri rj,
    out !! i = Some ri -> out !! j = Some rj -> (i < j)%nat ->
    hi AS td ri < lo AS td rj.
Proof.
  induction out as [|o out IH]; intros Hinc i j ri rj Hi Hj Hij.
  - destruct i; discriminate.
  - destruct Hinc as (_ & Hlt & Hinc). destruct j as [|j]; [lia|].
    simpl in Hj. destruct i as [|i]; simpl in Hi.
    + inversion Hi; subst. rewrite list.Forall_forall in Hlt.
      apply Hlt. eapply list_elem_of_lookup_2; eauto.
    + eapply IH; eauto. lia.
Qed.

Lemma to_cell_pos_ranges_dense `{Fragment.Ops F} (AS : ArraySchema)
    (fs : list F) (td : list Z) (out : FragmentCellRanges) :
  Forall (fun r => dense_id fs (fst r)) out ->
  forall acc,
    to_cell_pos_ranges AS fs td out acc
    = Ret (TILEDB_ARS_OK, acc ++ map (to_pos AS td) out).
Proof.
  induction 1 as [|r out (f & Hf & Hd) _ IH]; intros acc; simpl.
  - rewrite app_nil_r. reflexivity.
  - destruct (fst r =? -1); unfold mbind, Run_bind;
      [|rewrite Hf, Hd]; rewrite IH, <- app_assoc; reflexivity.
Qed.

Lemma increasing_to_pos (AS : ArraySchema) (td : list Z)
    (out : FragmentCellRanges) :
  increasing AS td out -> increasing_pos (map (to_pos AS td) out).
Proof.
  induction out as [|r out IH]; simpl; [auto|].
  intros ((_ & _ & Hr) & Hlt & Hinc). split; [exact Hr|].
  split; [|auto]. apply Forall_map. exact Hlt.
Qed.


(** ** The laws of the cell order on the tiles of the examples *)

Lemma in_tile_5x5 (c : Coords) :
  in_tile schema_10x10 [0; 4; 0; 4] c
  <-> exists x y, c = [x; y] /\ 0 <= x <= 4 /\ 0 <= y <= 4.
Proof.
  unfold in_tile. simpl. split.
  - intros [Hlen Hb]. destruct c as [|x [|y [|z c]]]; try discriminate.
    exists x, y. split; [reflexivity|].
    pose proof (Hb 0%nat ltac:(lia)) as H0.
    pose proof (Hb 1%nat ltac:(lia)) as H1.
    simpl in H0, H1. unfold idx in H0, H1. simpl in H0, H1. lia.
  - intros (x & y & -> & Hx & Hy). split; [reflexivity|].
    intros i Hi. destruct i as [|[|i]]; unfold idx; simpl; lia.
Qed.

Lemma cell_order_laws_5x5 : CellOrderLaws schema_10x10 [0; 4; 0; 4].
Proof.
  split; intros a b Ha Hb;
    apply in_tile_5x5 in Ha as (x & y & -> & Hx & Hy);
    apply in_tile_5x5 in Hb as (x' & y' & -> & Hx' & Hy').
  - unfold cell_pos, normalize. simpl. unfold idx. simpl.
    intros Heq. assert (x = x' /\ y = y') as [-> ->] by lia. reflexivity.
  - unfold cell_pos, normalize. simpl. unfold idx. simpl.
    destruct (Z.ltb_spec x x'); [simpl; symmetry; apply Z.compare_lt_iff; lia|].
    destruct (Z.gtb_spec x x'); [simpl; symmetry; apply Z.compare_gt_iff; lia|].
    destruct (Z.ltb_spec y y'); [simpl; symmetry; apply Z.compare_lt_iff; lia|].
    destruct (Z.gtb_spec y y'); [simpl; symmetry; apply Z.compare_gt_iff; lia|].
    simpl. symmetry. apply Z.compare_eq_iff. lia.
  - unfold cell_pos, normalize. simpl. unfold idx. simpl. intros Hlt.
    unfold row_major_next. simpl. unfold idx. simpl.
    destruct (Z.gtb_spec (y + 1) 4); simpl.
    + split; [apply in_tile_5x5; exists (x + 1), 0; split; [reflexivity|]; lia|].
      unfold idx. simpl. lia.
    + split; [apply in_tile_5x5; exists x, (y + 1); split; [reflexivity|]; lia|].
      unfold idx. simpl. lia.
  - unfold cell_pos, normalize. simpl. unfold idx. simpl. intros Hlt.
    unfold row_major_prev. simpl. unfold idx. simpl.
    destruct (Z.ltb_spec (y - 1) 0); simpl.
    + split; [apply in_tile_5x5; exists (x - 1), 4; split; [reflexivity|]; lia|].
      unfold idx. simpl. lia.
    + split; [apply in_tile_5x5; exists x, (y - 1); split; [reflexivity|]; lia|].
      unfold idx. simpl. lia.
Qed.

Lemma in_tile_line (c : Coords) :
  in_tile schema_line [0; 9] c <-> exists x, c = [x] /\ 0 <= x <= 9.
Proof.
  unfold in_tile. simpl. split.
  - intros [Hlen Hb]. destruct c as [|x [|y c]]; try discriminate.
    exists x. split; [reflexivity|].
    pose proof (Hb 0%nat ltac:(lia)) as H0. unfold idx in H0. simpl in H0. lia.
  - intros (x & -> & Hx). split; [reflexivity|].
    intros i Hi. destruct i as [|i]; unfold idx; simpl; lia.
Qed.

Lemma cell_pos_line (x : Z) : cell_pos schema_line [0; 9] [x] = x.
Proof. unfold cell_pos, normalize. simpl. unfold idx. simpl. lia. Qed.

Lemma cell_order_laws_line : CellOrderLaws schema_line [0; 9].
Proof.
  split; intros a b Ha Hb;
    apply in_tile_line in Ha as (x & -> & Hx);
    apply in_tile_line in Hb as (x' & -> & Hx');
    rewrite ?cell_pos_line.
  - intros ->. reflexivity.
  - simpl.
    destruct (Z.ltb_spec x x'); [simpl; symmetry; apply Z.compare_lt_iff; lia|].
    destruct (Z.gtb_spec x x'); [simpl; symmetry; apply Z.compare_gt_iff; lia|].
    simpl. symmetry. apply Z.compare_eq_iff. lia.
  - intros Hlt. change (get_next_cell_coords schema_line [0; 9] [x])
      with [idx [x] 0 + 1].
    rewrite cell_pos_line. unfold idx. simpl.
    split; [apply in_tile_line; exists (x + 1); split; [reflexivity|]; lia|lia].
  - intros Hlt. change (get_previous_cell_coords schema_line [0; 9] [x])
      with [idx [x] 0 - 1].
    rewrite cell_pos_line. unfold idx. simpl.
    split; [apply in_tile_line; exists (x - 1); split; [reflexivity|]; lia|lia].
Qed.

(** The cells the sparse fragment of the line stores. *)
Lemma stored_sparse_line (w : Z) :
  stored (sparse_fragment [[0]] [([3], [7])] [[3]; [5]; [7]] [10] []) [w]
  <-> w = 3 \/ w = 5 \/ w = 7.
Proof.
  unfold stored. simpl. rewrite bool_decide_eq_true.
  rewrite !elem_of_cons, elem_of_nil. split.
  - intros [Hw | [Hw | [Hw | []]]]; inversion Hw; auto.
  - intros [-> | [-> | ->]]; auto.
Qed.

(** A bound on the positions of the stored cells of the line. *)
Ltac line_least :=
  let c := fresh "c" in
  let Hc := fresh "Hc" in
  let Hcs := fresh "Hcs" in
  let w := fresh "w" in
  let Hw := fresh "Hw" in
  intros c Hc Hcs; apply in_tile_line in Hc as (w & -> & Hw);
  apply stored_sparse_line in Hcs; rewrite !cell_pos_line; lia.

(** The sparse fragment of the line answers as the merge expects. *)
Lemma sparse_laws_line :
  sparse_laws schema_line [0; 9] [9] dense_and_sparse dense_and_sparse_ranges.
Proof.
  intros r f Hr Hf Hd.
  assert (Hfrag : f = sparse_fragment [[0]] [([3], [7])] [[3]; [5]; [7]] [10] []).
  { unfold dense_and_sparse_ranges in Hr.
    apply elem_of_cons in Hr as [-> | Hr];
      [|apply list_elem_of_singleton in Hr as ->];
      vm_compute in Hf; inversion Hf; subst; [discriminate Hd | reflexivity]. }
  subst f. clear Hr Hf Hd.
  split; [apply in_tile_line; exists 9; split; [reflexivity | lia]|].
  split.
  { intros c Hc. apply in_tile_line in Hc as (x & -> & Hx).
    rewrite !cell_pos_line. lia. }
  intros s e Hs He Hst Hle.
  apply in_tile_line in Hs as (x & -> & Hx).
  apply in_tile_line in He as (z & -> & Hz).
  apply stored_sparse_line in Hst. rewrite !cell_pos_line in Hle.
  assert (Hcases : x = 0 \/ x = 1 \/ x = 2 \/ x = 3 \/ x = 4 \/ x = 5
                    \/ x = 6 \/ x = 7) by lia.
  destruct Hcases as [-> | [-> | [-> | [-> | [-> | [-> | [-> | ->]]]]]]];
    (eexists _, _; split; [reflexivity|]);
    (split; [apply in_tile_line; eexists; split; [reflexivity | lia]|]);
    (split; [apply stored_sparse_line; lia|]);
    (split; [rewrite !cell_pos_line; lia|]);
    (split; [line_least|]);
    first
      [ left;
        split; [apply in_tile_line; eexists; split; [reflexivity | lia]|];
        split; [apply stored_sparse_line; lia|];
        split; [rewrite !cell_pos_line; lia | line_least]
      | right; split; [reflexivity | line_least] ].
Qed.

(** Comparisons of the positions of given cells. *)
Ltac pos_compare :=
  vm_compute; first [reflexivity | discriminate | intro; discriminate].

(** The ranges of the two dense fragments are ranges of the tile. *)
Lemma well_formed_overlapping :
  well_formed schema_10x10 [0; 4; 0; 4] two_dense_fragments
    overlapping_ranges.
Proof.
  split.
  - unfold overlapping_ranges.
    repeat (apply List.Forall_cons; [|]); [..| apply List.Forall_nil];
      (split; [|eexists; split; [reflexivity | intros Hd; discriminate Hd]]);
      (split; [|split]);
      first [ apply in_tile_5x5; eexists _, _; split; [reflexivity | lia]
            | pos_compare ].
  - unfold overlapping_ranges. simpl.
    repeat split;
      repeat (apply List.Forall_cons; [|]); try apply List.Forall_nil;
      intros Hf;
      first [discriminate Hf | left; pos_compare | right; pos_compare].
Qed.

(** The ranges over the line are ranges of the tile; the sparse one ends at
    the last stored cell. *)
Lemma well_formed_line :
  well_formed schema_line [0; 9] dense_and_sparse dense_and_sparse_ranges.
Proof.
  split.
  - unfold dense_and_sparse_ranges.
    repeat (apply List.Forall_cons; [|]); [..| apply List.Forall_nil];
      (split; [split; [|split];
               first [ apply in_tile_line; eexists; split;
                       [reflexivity | lia]
                     | pos_compare ]|]).
    + eexists; split; [reflexivity | intros Hd; discriminate Hd].
    + eexists; split; [reflexivity | intros _]. simpl.
      split; [apply stored_sparse_line; lia|].
      intros _. split; [apply stored_sparse_line; lia | line_least].
  - unfold dense_and_sparse_ranges. simpl.
    repeat split;
      repeat (apply List.Forall_cons; [|]); try apply List.Forall_nil;
      intros Hf; discriminate Hf.
Qed.


(** ** Reads resumed after overflow *)

Lemma take_map_seq {A : Type} (g : nat -> A) (n m : nat) :
  (n <= m)%nat -> take n (map g (seq 0 m)) = map g (seq 0 n).
Proof.
  generalize 0%nat. revert m.
  induction n as [|n IH]; intros m s Hle; [reflexivity|].
  destruct m as [|m]; [lia|]. simpl. f_equal. apply IH. lia.
Qed.

Lemma drop_map_seq {A : Type} (g : nat -> A) (n m : nat) :
  drop n (map g (seq 0 m)) = map (fun k => g (n + k)%nat) (seq 0 (m - n)).
Proof.
  assert (Hgen : forall s,
            drop n (map g (seq s m))
            = map (fun k => g (n + k)%nat) (seq s (m - n))).
  { revert m. induction n as [|n IH]; intros m s.
    - simpl. rewrite Nat.sub_0_r. reflexivity.
    - destruct m as [|m]; [reflexivity|]. simpl. rewrite IH.
      rewrite <- !seq_shift, !map_map. apply map_ext. intros k. f_equal. lia. }
  apply Hgen.
Qed.

(** A fragment of the examples has delivered a range when its cursor is
    past it. *)
Lemma sf_done (f : SimpleFragment) (r : CellPosRange) :
  sf_remaining f r = (f, []) <-> fst r <= sf_next f /\ snd r < sf_next f.
Proof.
  destruct r as [p0 p1]. unfold sf_remaining. simpl. split.
  - intros Hdone. apply pair_equal_spec in Hdone as [Hf Hc].
    apply (f_equal sf_next) in Hf. simpl in Hf.
    apply (f_equal length) in Hc. rewrite length_map, length_seq in Hc.
    simpl in Hc. lia.
  - intros [H0 H1].
    replace (Z.to_nat (Z.max 0 (p1 - Z.max p0 (sf_next f) + 1))) with 0%nat
      by lia.
    simpl. f_equal. destruct f; unfold sf_with; simpl in *. f_equal. lia.
Qed.

(** The fragments of the examples copy resumably. *)
Lemma SimpleFragment_resumable (attr : Z) : ResumableCopy attr sf_remaining.
Proof.
  split.
  - intros f buffer buffer_size buffer_offset r Hov cells n.
    destruct r as [p0 p1]. simpl in Hov.
    unfold Fragment.copy_cell_range, SimpleFragment_ops, sf_copy. simpl fst; simpl snd.
    set (first := Z.max p0 (sf_next f)).
    set (wanted := p1 - first + 1).
    set (room := buffer_size - buffer_offset).
    assert (Hcells : cells
              = map (fun k => idx (sf_values f) (Z.to_nat (first + Z.of_nat k)))
                  (seq 0 (Z.to_nat (Z.max 0 wanted)))) by reflexivity.
    assert (Hlen : Z.of_nat (length cells) = Z.max 0 wanted).
    { rewrite Hcells, length_map, length_seq. lia. }
    assert (Hn : Z.max 0 (Z.min wanted room) = n) by (subst n; fold room; lia).
    rewrite Hn.
    eexists _, _. split; [reflexivity|]. split.
    + intros [H0 Hw]. unfold output.
      rewrite Z2Nat.inj_add by lia.
      rewrite app_assoc, take_app_le.
      2:{ rewrite length_app, length_take, length_map, length_seq. lia. }
      rewrite take_ge.
      2:{ rewrite length_app, length_take, length_map, length_seq. lia. }
      f_equal. rewrite Hcells, take_map_seq by lia. reflexivity.
    + destruct (Z.eqb_spec n (Z.of_nat (length cells))) as [Heq|Hne].
      * unfold sf_remaining. simpl. fold first. fold wanted.
        unfold sf_with. f_equal; [|f_equal; lia].
        rewrite Hov. simpl. lia.
      * assert (Hlt : n < wanted) by lia.
        split; [simpl; rewrite Hov; simpl; lia|].
        unfold sf_remaining, Fragment.reset_overflow. simpl.
        fold first. fold wanted.
        replace (Z.max p0 (Z.max (sf_next f) (first + n))) with (first + n)
          by lia.
        f_equal.
        -- unfold sf_with. simpl. f_equal; [auto | lia].
        -- rewrite Hcells, drop_map_seq.
           replace (Z.to_nat (Z.max 0 (p1 - (first + n) + 1)))
             with (Z.to_nat (Z.max 0 wanted) - Z.to_nat n)%nat by lia.
           apply map_ext. intros k. f_equal. lia.
  - intros f r Hov. exact Hov.
  - intros f [p0 p1]. unfold sf_remaining. simpl.
    set (first := Z.max p0 (sf_next f)).
    set (wanted := Z.max 0 (p1 - first + 1)).
    replace (Z.max p0 (Z.max (sf_next f) (first + wanted)))
      with (first + wanted) by lia.
    replace (Z.to_nat (Z.max 0 (p1 - (first + wanted) + 1))) with 0%nat by lia.
    simpl. f_equal. unfold sf_with. simpl. f_equal. lia.
  - intros f r [q0 q1] buffer buffer_size buffer_offset f1 buffer1
      offset1 Hdone Hcopy.
    unfold Fragment.copy_cell_range, SimpleFragment_ops, sf_copy in Hcopy.
    simpl in Hcopy. inversion Hcopy; subst; clear Hcopy.
    apply sf_done in Hdone. apply sf_done. simpl. lia.
  - intros f r Hdone. apply sf_done in Hdone. apply sf_done. exact Hdone.
  - reflexivity.
  - intros f Hov. simpl in *. destruct f; simpl in *. subst. reflexivity.
  - reflexivity.
  - reflexivity.
Qed.

Lemma read_dense_attr_loop_unfold `{Fragment.Ops F} (fuel : nat) (A : Array)
    (attr bsz : Z) (st : ArrayReadState F) buf off :
  read_dense_attr_loop (S fuel) A attr bsz st buf off
  = (tile_done ← vector_at (tile_done_ st) attr;
     '(rc, st, buf, off) ←
       (if negb tile_done
        then copy_cell_ranges attr bsz st buf off
        else Ret (TILEDB_ARS_OK, st, buf, off));
     if negb (rc =? TILEDB_ARS_OK)
     then Ret (TILEDB_ARS_ERR, st, buf, bsz, off)
     else read_dense_attr_next fuel A attr bsz st buf off).
Proof. reflexivity. Qed.

(** A read of one requested attribute of fixed size is its dense read from
    the reset state. *)
Lemma read_multiple_fragments_single `{Fragment.Ops F} (fuel : nat)
    (A : Array) (attr : Z) (st : ArrayReadState F) (buf : Buffer) (bsz : Z) :
  dense (array_schema A) = true ->
  attribute_ids A = [attr] ->
  var_size (array_schema A) attr = false ->
  read_multiple_fragments fuel coords_int A st [buf] [bsz]
  = match read_dense_attr_loop fuel A attr bsz (reset_state A st) buf 0 with
    | Ret (rc, st', buf', size, _) => Ret (Some rc, st', [buf'], [size])
    | Undefined u => Undefined u
    | OutOfFuel => OutOfFuel
    end.
Proof.
  intros Hd Hids Hvar.
  unfold read_multiple_fragments, read_multiple_fragments_dense.
  rewrite Hd, Hids. simpl. rewrite Hvar. simpl.
  unfold read_multiple_fragments_dense_attr, reset_state.
  destruct (read_dense_attr_loop _ _ _ _ _ _ _)
    as [[[[[rc st'] buf'] size] off]| |];
    unfold mbind, Run_bind; simpl; try reflexivity.
  destruct (negb (rc =? TILEDB_ARS_OK)); reflexivity.
Qed.

Lemma finish_resume {F : Type} (attr : Z) (st : ArrayReadState F)
    (fs fs' : list F) (pos : Z) :
  finish_state attr (resume_state attr st fs) fs' pos
  = finish_state attr st fs' pos.
Proof.
  unfold finish_state, resume_state. simpl.
  rewrite list_insert_insert_eq. reflexivity.
Qed.

Lemma overflowed_resume {F : Type} (attr : Z) (st : ArrayReadState F)
    (fs fsP : list F) :
  overflowed_state attr (resume_state attr st fs) fsP
  = overflowed_state attr st fsP.
Proof.
  unfold overflowed_state, resume_state. simpl.
  rewrite list_insert_insert_eq. reflexivity.
Qed.

Lemma reset_overflowed `{Fragment.Ops F} (A : Array) (attr : Z)
    (st : ArrayReadState F) (fsP : list F) :
  overflow_ st = replicate (S (attribute_num (array_schema A))) false ->
  done_ st = false ->
  reset_state A (overflowed_state attr st fsP)
  = resume_state attr st (map Fragment.reset_overflow fsP).
Proof.
  intros Hov Hdone. destruct st. simpl in Hov, Hdone. subst.
  reflexivity.
Qed.

Lemma fragment_at_Ret {F : Type} (fs : list F) (i : Z) (f : F) :
  fragment_at fs i = Ret f <-> 0 <= i /\ fs !! Z.to_nat i = Some f.
Proof.
  unfold fragment_at, at_index. destruct (Z.ltb_spec i 0).
  - split; [discriminate | lia].
  - destruct (fs !! Z.to_nat i) eqn:E; split.
    + intros Hf. inversion Hf; subst. split; [lia | reflexivity].
    + intros [_ Hf]. inversion Hf; subst. reflexivity.
    + discriminate.
    + intros [_ Hf]. discriminate.
Qed.

Lemma vector_at_Ret {A : Type} (v : list A) (i : Z) (a : A) :
  vector_at v i = Ret a <-> 0 <= i /\ v !! Z.to_nat i = Some a.
Proof.
  unfold vector_at, at_index. destruct (Z.ltb_spec i 0).
  - split; [discriminate | lia].
  - destruct (v !! Z.to_nat i) eqn:E; split.
    + intros Hf. inversion Hf; subst. split; [lia | reflexivity].
    + intros [_ Hf]. inversion Hf; subst. reflexivity.
    + discriminate.
    + intros [_ Hf]. discriminate.
Qed.

Lemma written_output (buffer : Buffer) (off : Z) :
  written buffer off <->
  0 <= off /\ Z.of_nat (length (output buffer off)) = off.
Proof.
  unfold written, output. rewrite length_take. lia.
Qed.

Lemma written_app (buffer buffer1 : Buffer) (off n : Z) (cells : list Z) :
  written buffer off -> 0 <= n -> n = Z.of_nat (length cells) ->
  output buffer1 (off + n) = output buffer off ++ cells ->
  written buffer1 (off + n).
Proof.
  intros Hw Hn Hlen Hout. apply written_output. split; [destruct Hw; lia|].
  apply written_output in Hw as [H0 Hl].
  rewrite Hout, length_app. lia.
Qed.

Lemma map_insert {A B : Type} (g : A -> B) (l : list A) (i : nat) (x : A) :
  map g (<[i := x]> l) = <[i := g x]> (map g l).
Proof.
  revert i. induction l as [|a l IH]; intros [|i]; simpl; try reflexivity.
  f_equal. apply IH.
Qed.

Section Resume.
Context `{Fragment.Ops F}.
Variable attr : Z.
Variable remaining : F -> CellPosRange -> F * list Z.
Hypothesis copy_laws : ResumableCopy attr remaining.

Local Abbreviation clean_ := (clean attr).
Local Abbreviation delivered_ := (delivered remaining).
Local Abbreviation remaining_plan_ := (remaining_plan remaining).

Lemma clean_insert (fs : list F) (i : nat) (f : F) :
  clean_ fs -> Fragment.overflow f attr = false -> clean_ (<[i := f]> fs).
Proof.
  intros Hfs Hf. unfold clean. apply Forall_insert; assumption.
Qed.

Lemma clean_lookup (fs : list F) (i : Z) (f : F) :
  clean_ fs -> fragment_at fs i = Ret f -> Fragment.overflow f attr = false.
Proof.
  intros Hfs Hf. apply fragment_at_Ret in Hf as [_ Hf].
  unfold clean in Hfs. rewrite list.Forall_forall in Hfs. apply Hfs.
  eapply list_elem_of_lookup_2; eauto.
Qed.

Lemma reset_clean (fs : list F) :
  clean_ fs -> map Fragment.reset_overflow fs = fs.
Proof.
  induction 1 as [|f fs Hf _ IH]; [reflexivity|].
  simpl. rewrite IH, (reset_overflow_clear _ _ copy_laws f Hf). reflexivity.
Qed.

Lemma clean_reset (fs : list F) : clean_ (map Fragment.reset_overflow fs).
Proof.
  unfold clean. induction fs as [|f fs IH]; simpl; constructor; auto.
  apply (reset_overflow_clears _ _ copy_laws).
Qed.

(** The entries that have been delivered are passed over. *)
Lemma remaining_plan_delivered (pre rest : FragmentCellPosRanges)
    (fs : list F) :
  Forall (delivered_ fs) pre ->
  remaining_plan_ (pre ++ rest) fs = remaining_plan_ rest fs.
Proof.
  induction 1 as [|[fi r] pre Hd _ IH]; [reflexivity|].
  simpl. destruct (Z.eqb_spec fi (-1)) as [|Hne]; [exact IH|].
  destruct Hd as [Hd | (f & Hf & Hr)]; [simpl in Hd; contradiction|].
  simpl in Hf, Hr. rewrite Hf, Hr. simpl.
  apply fragment_at_Ret in Hf as [_ Hf].
  rewrite list_insert_id by exact Hf. rewrite IH.
  destruct (remaining_plan_ rest fs) as [[fs' cells]|]; reflexivity.
Qed.

(** What has been delivered stays so when a fragment moves on. *)
Lemma delivered_insert (fs : list F) (fi : Z) (f g : F)
    (e : FragmentCellPosRange) :
  fragment_at fs fi = Ret f ->
  (forall r, remaining f r = (f, []) -> remaining g r = (g, [])) ->
  delivered_ fs e -> delivered_ (<[Z.to_nat fi := g]> fs) e.
Proof.
  intros Hf Hg [He | (f' & Hf' & Hr)]; [left; exact He | right].
  apply fragment_at_Ret in Hf as [Hfi Hf].
  apply fragment_at_Ret in Hf' as [Hei Hf'].
  destruct (decide (Z.to_nat (fst e) = Z.to_nat fi)) as [Heq|Hne].
  - rewrite Heq in Hf'. assert (f' = f) by congruence. subst f'.
    exists g. split; [|apply Hg; exact Hr].
    apply fragment_at_Ret. split; [lia|]. rewrite Heq.
    apply list_lookup_insert_eq. eapply lookup_lt_Some; eauto.
  - exists f'. split; [|exact Hr].
    apply fragment_at_Ret. split; [lia|].
    rewrite list_lookup_insert_ne by congruence. exact Hf'.
Qed.

(** A copy of a plan that ends without overflow has delivered all that
    remained of the plan. *)
Lemma copy_ranges_loop_all (plan : FragmentCellPosRanges) (bsz : Z) :
  forall (st : ArrayReadState F) buf off rc st' buf' off',
  clean_ (fragments st) ->
  vector_at (overflow_ st) attr = Ret false ->
  written buf off ->
  copy_ranges_loop plan attr bsz st buf off = Ret (rc, st', buf', off') ->
  vector_at (overflow_ st') attr = Ret false ->
  exists fsT cells,
    remaining_plan_ plan (fragments st) = Some (fsT, cells)
    /\ rc = TILEDB_ARS_OK
    /\ st' = set_fragments st fsT
    /\ clean_ fsT
    /\ off' = off + Z.of_nat (length cells)
    /\ output buf' off' = output buf off ++ cells.
Proof.
  induction plan as [|[fi r] plan IH];
    intros st buf off rc st' buf' off' Hclean Hov Hw Hrun Hov'.
  - simpl in Hrun. inversion Hrun; subst; clear Hrun.
    exists (fragments st'), []. simpl.
    split; [reflexivity|]. split; [reflexivity|].
    split; [destruct st'; reflexivity|]. split; [assumption|].
    split; [lia|]. rewrite app_nil_r. reflexivity.
  - simpl in Hrun |- *. destruct (Z.eqb_spec fi (-1)) as [Hfi|Hfi].
    + unfold copy_cell_range_with_empty in Hrun. rewrite Hov in Hrun.
      unfold mbind, Run_bind in Hrun. eapply IH; eauto.
    + destruct (fragment_at (fragments st) fi) as [f| |] eqn:Ef;
        unfold mbind, Run_bind in Hrun; try discriminate.
      pose proof (clean_lookup _ _ _ Hclean Ef) as Hf.
      destruct (copy_cell_range_spec _ _ copy_laws f buf bsz off r Hf)
        as (f1 & buf1 & Hcopy & Hout & Hcase).
      rewrite Hcopy in Hrun.
      set (cells := snd (remaining f r)) in *.
      set (n := Z.min (Z.of_nat (length cells)) (Z.max 0 (bsz - off))) in *.
      destruct (Z.eqb_spec n (Z.of_nat (length cells))) as [Hn|Hn].
      * subst f1.
        pose proof (remaining_no_overflow _ _ copy_laws f r Hf) as Hf'.
        rewrite Hf' in Hrun.
        specialize (Hout Hw).
        rewrite (take_ge cells (Z.to_nat n)) in Hout by lia.
        assert (Hw1 : written buf1 (off + n)).
        { apply (written_app buf buf1 off n cells Hw); [lia | lia | exact Hout]. }
        apply IH in Hrun; auto.
        2:{ simpl. apply clean_insert; assumption. }
        destruct Hrun as (fsT & cells' & Hplan & Hrc & Hst & HcT & Hoff & Ho).
        simpl in Hplan. rewrite Hplan.
        exists fsT, (cells ++ cells').
        split; [reflexivity|]. split; [assumption|].
        split; [rewrite Hst; reflexivity|]. split; [assumption|].
        split; [rewrite length_app; lia|].
        rewrite Ho, Hout, app_assoc. reflexivity.
      * destruct Hcase as [Hf1 _]. rewrite Hf1 in Hrun.
        inversion Hrun; subst; clear Hrun. simpl in Hov'.
        exfalso. eapply vector_at_insert_not_false; eauto.
Qed.

(** A copy of a plan into a buffer of any size delivers what remains of the
    plan as far as the buffer has room.  When it stops on overflow, what
    remains once the overflow is reset is the rest, from the first entry of
    the plan on. *)
Lemma copy_ranges_loop_room (rest : FragmentCellPosRanges) (bsz : Z) :
  forall (pre : FragmentCellPosRanges) (st : ArrayReadState F) buf off
         fsT cells,
  clean_ (fragments st) ->
  vector_at (overflow_ st) attr = Ret false ->
  written buf off ->
  Forall (delivered_ (fragments st)) pre ->
  remaining_plan_ rest (fragments st) = Some (fsT, cells) ->
  let n := Z.min (Z.of_nat (length cells)) (Z.max 0 (bsz - off)) in
  exists st' buf',
    copy_ranges_loop rest attr bsz st buf off
    = Ret (TILEDB_ARS_OK, st', buf', off + n)
    /\ output buf' (off + n) = output buf off ++ take (Z.to_nat n) cells
    /\ (if n =? Z.of_nat (length cells)
        then st' = set_fragments st fsT /\ clean_ fsT
        else exists fsP,
               st' = set_overflow (set_fragments st fsP)
                       (<[Z.to_nat attr := true]> (overflow_ st))
               /\ remaining_plan_ (pre ++ rest)
                    (map Fragment.reset_overflow fsP)
                  = Some (fsT, drop (Z.to_nat n) cells)).
Proof.
  induction rest as [|[fi r] rest IH];
    intros pre st buf off fsT cells Hclean Hov Hw Hpre Hplan n.
  - simpl in Hplan. inversion Hplan; subst; clear Hplan.
    assert (Hn : n = 0) by (subst n; simpl; lia).
    rewrite Hn, Z.add_0_r. simpl.
    exists st, buf. split; [reflexivity|].
    split; [rewrite app_nil_r; reflexivity|].
    split; [destruct st; reflexivity | assumption].
  - simpl in Hplan |- *. destruct (Z.eqb_spec fi (-1)) as [Hfi|Hfi].
    + unfold copy_cell_range_with_empty. rewrite Hov.
      unfold mbind, Run_bind.
      destruct (IH (pre ++ [(fi, r)]) st buf off fsT cells)
        as (st' & buf' & Hrun & Hout & Hcase); auto.
      { apply Forall_app. split; [assumption|].
        constructor; [left; exact Hfi | constructor]. }
      exists st', buf'. split; [exact Hrun|]. split; [exact Hout|].
      fold n in Hcase. destruct (n =? Z.of_nat (length cells)); [exact Hcase|].
      destruct Hcase as (fsP & Hst & Hrem). exists fsP.
      split; [exact Hst|]. rewrite <- app_assoc in Hrem. exact Hrem.
    + destruct (fragment_at (fragments st) fi) as [f| |] eqn:Ef;
        try discriminate.
      unfold mbind, Run_bind.
      destruct (remaining_plan_ rest
                  (<[Z.to_nat fi := fst (remaining f r)]> (fragments st)))
        as [[fsT' cells']|] eqn:Erest; [|discriminate].
      inversion Hplan; subst fsT' cells; clear Hplan.
      pose proof (clean_lookup _ _ _ Hclean Ef) as Hf.
      destruct (copy_cell_range_spec _ _ copy_laws f buf bsz off r Hf)
        as (f1 & buf1 & Hcopy & Hout & Hcase).
      rewrite Hcopy.
      set (cells := snd (remaining f r)) in *.
      set (nr := Z.min (Z.of_nat (length cells)) (Z.max 0 (bsz - off))) in *.
      specialize (Hout Hw).
      assert (Hlen : Z.of_nat (length (cells ++ cells'))
                     = Z.of_nat (length cells) + Z.of_nat (length cells'))
        by (rewrite length_app; lia).
      destruct (Z.eqb_spec nr (Z.of_nat (length cells))) as [Hnr|Hnr].
      * subst f1.
        pose proof (remaining_no_overflow _ _ copy_laws f r Hf) as Hf'.
        rewrite Hf'.
        rewrite (take_ge cells (Z.to_nat nr)) in Hout by lia.
        assert (Hw1 : written buf1 (off + nr)).
        { apply (written_app buf buf1 off nr cells Hw); [lia | lia | exact Hout]. }
        destruct (IH (pre ++ [(fi, r)])
                    (set_fragments st
                       (<[Z.to_nat fi := fst (remaining f r)]> (fragments st)))
                    buf1 (off + nr) fsT cells')
          as (st' & buf' & Hrun & Hout' & Hcase'); auto.
        { simpl. apply clean_insert; assumption. }
        { simpl. apply Forall_app. split.
          - eapply Forall_impl; [|exact Hpre]. intros e He.
            eapply delivered_insert; eauto.
            intros r' Hr'.
            eapply (done_after_copy _ _ copy_laws); eauto.
          - constructor; [|constructor]. right.
            exists (fst (remaining f r)). simpl. split.
            + apply fragment_at_Ret. apply fragment_at_Ret in Ef as [Hfi0 Ef].
              split; [lia|]. apply list_lookup_insert_eq.
              eapply lookup_lt_Some; eauto.
            + apply (remaining_done _ _ copy_laws). }
        set (n' := Z.min (Z.of_nat (length cells'))
                     (Z.max 0 (bsz - (off + nr)))) in *.
        assert (Hnn : n = nr + n') by (subst n nr n'; lia).
        exists st', buf'.
        split; [rewrite Hnn, Z.add_assoc; exact Hrun|].
        split.
        { rewrite Hnn, Z.add_assoc, Hout', Hout, <- app_assoc. f_equal.
          rewrite take_app_ge by lia. f_equal. f_equal. lia. }
        simpl in Hcase'.
        destruct (Z.eqb_spec n' (Z.of_nat (length cells'))) as [Hn'|Hn'];
          destruct (Z.eqb_spec n (Z.of_nat (length (cells ++ cells'))))
            as [Hn|Hn]; try lia.
        -- destruct Hcase' as [-> HcT]. split; [reflexivity | assumption].
        -- destruct Hcase' as (fsP & -> & Hrem). exists fsP.
           split; [reflexivity|].
           rewrite <- app_assoc in Hrem. simpl in Hrem. rewrite Hrem.
           f_equal. f_equal. rewrite drop_app_ge by lia. f_equal. lia.
      * destruct Hcase as [Hf1 Hrem]. rewrite Hf1.
        assert (Hnn : n = nr) by (subst n nr; lia).
        exists (set_overflow
                  (set_fragments st (<[Z.to_nat fi := f1]> (fragments st)))
                  (<[Z.to_nat attr := true]> (overflow_ st))), buf1.
        split; [rewrite Hnn; reflexivity|].
        split.
        { rewrite Hnn, Hout. f_equal. rewrite take_app_le by lia. reflexivity. }
        destruct (Z.eqb_spec n (Z.of_nat (length (cells ++ cells'))))
          as [Hn|Hn]; [lia|].
        exists (<[Z.to_nat fi := f1]> (fragments st)).
        split; [reflexivity|].
        rewrite map_insert, (reset_clean _ Hclean).
        rewrite remaining_plan_delivered.
        2:{ eapply Forall_impl; [|exact Hpre]. intros e He.
            eapply delivered_insert; eauto.
            intros r' Hr'. apply (done_after_reset _ _ copy_laws).
            eapply (done_after_copy _ _ copy_laws); eauto. }
        simpl. destruct (Z.eqb_spec fi (-1)) as [|_]; [contradiction|].
        assert (Hat : fragment_at
                        (<[Z.to_nat fi := Fragment.reset_overflow f1]>
                           (fragments st)) fi
                      = Ret (Fragment.reset_overflow f1)).
        { apply fragment_at_Ret. apply fragment_at_Ret in Ef as [Hfi0 Ef].
          split; [lia|]. apply list_lookup_insert_eq.
          eapply lookup_lt_Some; eauto. }
        rewrite Hat, Hrem. simpl. rewrite list_insert_insert_eq, Erest.
        f_equal. f_equal. rewrite drop_app_le by lia. f_equal. f_equal. lia.
Qed.

Lemma notify_tile_done_clean (rc : option Coords)
    (coords : list (option Coords)) :
  forall (fs fs' : list F),
  notify_tile_done attr rc coords fs = Ret fs' -> clean_ fs -> clean_ fs'.
Proof.
  revert rc. induction coords as [|c coords IH]; intros rc fs fs' Hrun Hfs.
  - destruct fs; simpl in Hrun; [|discriminate].
    inversion Hrun; subst. constructor.
  - destruct fs as [|f fs]; simpl in Hrun.
    { inversion Hrun; subst. constructor. }
    unfold mbind, Run_bind in Hrun. inversion Hfs as [|? ? Hf Hfs']; subst.
    destruct c as [c|].
    + destruct rc as [rc|]; [|discriminate].
      destruct (notify_tile_done attr (Some rc) coords fs) as [fs''| |] eqn:E;
        try discriminate.
      inversion Hrun; subst; clear Hrun. constructor.
      * destruct (bool_decide (c = rc)); [|exact Hf].
        rewrite (tile_done_keeps_overflow _ _ copy_laws). exact Hf.
      * eapply IH; eauto.
    + destruct (notify_tile_done attr rc coords fs) as [fs''| |] eqn:E;
        try discriminate.
      inversion Hrun; subst; clear Hrun. constructor; [exact Hf|].
      eapply IH; eauto.
Qed.

(** [copy_cell_ranges] that ends without overflow: the plan the attribute
    stands on has been delivered, the tile is done. *)
Lemma copy_cell_ranges_all (bsz : Z) (st : ArrayReadState F) buf off
    rc st' buf' off' :
  clean_ (fragments st) ->
  vector_at (overflow_ st) attr = Ret false ->
  written buf off ->
  copy_cell_ranges attr bsz st buf off = Ret (rc, st', buf', off') ->
  vector_at (overflow_ st') attr = Ret false ->
  exists pos plan fsT cells fs',
    vector_at (fragment_cell_pos_ranges_vec_pos_ st) attr = Ret pos
    /\ vector_at (fragment_cell_pos_ranges_vec_ st) pos = Ret plan
    /\ remaining_plan_ plan (fragments st) = Some (fsT, cells)
    /\ clean_ fsT
    /\ notify_tile_done attr (range_global_tile_coords_ st)
         (fragment_global_tile_coords_ st) fsT = Ret fs'
    /\ rc = TILEDB_ARS_OK
    /\ st' = finish_state attr st fs' pos
    /\ off' = off + Z.of_nat (length cells)
    /\ output buf' off' = output buf off ++ cells.
Proof.
  intros Hclean Hov Hw Hrun Hov'. unfold copy_cell_ranges in Hrun.
  destruct (vector_at (fragment_cell_pos_ranges_vec_pos_ st) attr)
    as [pos| |] eqn:Epos; unfold mbind, Run_bind in Hrun; try discriminate.
  destruct (vector_at (fragment_cell_pos_ranges_vec_ st) pos)
    as [plan| |] eqn:Eplan; try discriminate.
  destruct (copy_ranges_loop plan attr bsz st buf off)
    as [[[[rc1 st1] buf1] off1]| |] eqn:Eloop; try discriminate.
  assert (Hov1 : vector_at (overflow_ st1) attr = Ret false).
  { destruct (copy_ranges_loop_effect plan attr bsz _ _ _ _ _ _ _ Hov Eloop)
      as (_ & _ & _ & _ & _ & _ & [Hf | (Ht & -> & _)]); [exact Hf|].
    simpl in Hrun. rewrite Ht in Hrun. inversion Hrun; subst; clear Hrun.
    simpl in Hov'. congruence. }
  destruct (copy_ranges_loop_all plan bsz st buf off rc1 st1 buf1 off1)
    as (fsT & cells & Hplan & -> & -> & HcT & -> & Hout); auto.
  simpl in Hrun. rewrite Hov in Hrun. simpl in Hrun.
  destruct (notify_tile_done attr (range_global_tile_coords_ st)
              (fragment_global_tile_coords_ st) fsT) as [fs'| |] eqn:En;
    try discriminate.
  inversion Hrun; subst; clear Hrun.
  exists pos, plan, fsT, cells, fs'. repeat split; auto.
Qed.

(** [copy_cell_ranges] into a buffer of any size: the plan is delivered as
    far as the buffer has room. *)
Lemma copy_cell_ranges_room (bsz : Z) (st : ArrayReadState F) buf off
    pos plan fsT cells :
  clean_ (fragments st) ->
  vector_at (overflow_ st) attr = Ret false ->
  written buf off ->
  vector_at (fragment_cell_pos_ranges_vec_pos_ st) attr = Ret pos ->
  vector_at (fragment_cell_pos_ranges_vec_ st) pos = Ret plan ->
  remaining_plan_ plan (fragments st) = Some (fsT, cells) ->
  let n := Z.min (Z.of_nat (length cells)) (Z.max 0 (bsz - off)) in
  exists buf',
    output buf' (off + n) = output buf off ++ take (Z.to_nat n) cells
    /\ (if n =? Z.of_nat (length cells)
        then forall fs',
               notify_tile_done attr (range_global_tile_coords_ st)
                 (fragment_global_tile_coords_ st) fsT = Ret fs' ->
               copy_cell_ranges attr bsz st buf off
               = Ret (TILEDB_ARS_OK, finish_state attr st fs' pos, buf',
                      off + n)
        else exists fsP,
               copy_cell_ranges attr bsz st buf off
               = Ret (TILEDB_ARS_OK, overflowed_state attr st fsP, buf',
                      off + n)
               /\ remaining_plan_ plan (map Fragment.reset_overflow fsP)
                  = Some (fsT, drop (Z.to_nat n) cells)).
Proof.
  intros Hclean Hov Hw Hpos Hplan Hrem n.
  destruct (copy_ranges_loop_room plan bsz [] st buf off fsT cells)
    as (st1 & buf1 & Hloop & Hout & Hcase); auto.
  fold n in Hloop, Hout, Hcase.
  exists buf1. split; [exact Hout|].
  unfold copy_cell_ranges. rewrite Hpos. unfold mbind, Run_bind.
  rewrite Hplan, Hloop. simpl.
  destruct (n =? Z.of_nat (length cells)).
  - destruct Hcase as [-> HcT]. intros fs' Hn. simpl.
    rewrite Hov, Hn. reflexivity.
  - destruct Hcase as (fsP & -> & Hrest). exists fsP.
    split; [|exact Hrest]. simpl.
    rewrite (vector_at_insert_true _ _ _ Hov). reflexivity.
Qed.

Lemma advance_sparse_clean (fuel : nat) (AS : ArraySchema) (tile : Coords) :
  forall (f : F) c f' c',
  advance_sparse fuel AS tile f c = Ret (f', c') ->
  Fragment.overflow f' attr = Fragment.overflow f attr.
Proof.
  induction fuel as [|fuel IH]; intros f c f' c' Hrun; [discriminate|].
  simpl in Hrun. destruct c as [coords|]; [|inversion Hrun; subst; reflexivity].
  destruct (negb (Fragment.dense f) && (tile_order_cmp AS coords tile <? 0)).
  - unfold advance_fragment in Hrun. apply IH in Hrun. rewrite Hrun.
    apply (next_tile_keeps_overflow _ _ copy_laws).
  - inversion Hrun; subst; reflexivity.
Qed.

Lemma advance_all_sparse_clean (fuel : nat) (AS : ArraySchema)
    (tile : Coords) :
  forall (fs : list F) cs fs' cs',
  advance_all_sparse fuel AS tile fs cs = Ret (fs', cs') ->
  clean_ fs -> clean_ fs'.
Proof.
  induction fs as [|f fs IH]; intros cs fs' cs' Hrun Hfs.
  - simpl in Hrun. inversion Hrun; subst. constructor.
  - destruct cs as [|c cs]; simpl in Hrun; [discriminate|].
    unfold mbind, Run_bind in Hrun.
    destruct (advance_sparse fuel AS tile f c) as [[f1 c1]| |] eqn:E1;
      try discriminate.
    destruct (advance_all_sparse fuel AS tile fs cs) as [[fs1 cs1]| |] eqn:E2;
      try discriminate.
    inversion Hrun; subst; clear Hrun.
    inversion Hfs as [|? ? Hf Hfs']; subst. constructor.
    + rewrite (advance_sparse_clean _ _ _ _ _ _ _ E1). exact Hf.
    + eapply IH; eauto.
Qed.

Lemma advance_fragments_clean (fs : list F) :
  clean_ fs -> clean_ (map fst (map advance_fragment fs)).
Proof.
  induction 1 as [|f fs Hf _ IH]; simpl; constructor; auto.
  rewrite (next_tile_keeps_overflow _ _ copy_laws). exact Hf.
Qed.

Lemma advance_on_tile_clean (tile : Coords) (fs : list F)
    (cs : list (option Coords)) :
  clean_ fs ->
  clean_ (map fst
            (zip_with
               (fun f c => if on_tile c tile then advance_fragment f
                           else (f, c)) fs cs)).
Proof.
  intros Hfs. revert cs.
  induction Hfs as [|f fs Hf _ IH]; intros [|c cs]; simpl; try constructor.
  - destruct (on_tile c tile); simpl; [|exact Hf].
    rewrite (next_tile_keeps_overflow _ _ copy_laws). exact Hf.
  - apply IH.
Qed.

Lemma clean_up_fragments (A : Array) (st : ArrayReadState F) :
  fragments (clean_up_processed_fragment_cell_pos_ranges A st) = fragments st
  /\ done_ (clean_up_processed_fragment_cell_pos_ranges A st) = done_ st.
Proof.
  unfold clean_up_processed_fragment_cell_pos_ranges.
  destruct (_ =? 0); split; reflexivity.
Qed.

(** The next tile is computed without a fragment reporting overflow. *)
Lemma get_next_cell_ranges_dense_clean (fuel : nat) (A : Array)
    (st : ArrayReadState F) rc st' :
  get_next_cell_ranges_dense fuel A st = Ret (rc, st') ->
  clean_ (fragments st) -> clean_ (fragments st').
Proof.
  unfold get_next_cell_ranges_dense, compute_max_overlap_range,
    get_next_range_global_tile_coords, init_range_global_tile_coords.
  intros Hrun Hclean.
  repeat match type of Hrun with
         | context [mbind _ ?m] =>
             let E := fresh "E" in
             destruct m eqn:E; unfold mbind, Run_bind in Hrun; simpl in Hrun
         | context [match ?x with _ => _ end] =>
             let E := fresh "E" in destruct x eqn:E; simpl in Hrun
         | Ret _ = Ret _ => inversion Hrun; subst; clear Hrun
         | _ => discriminate Hrun
         end.
  all: try rewrite (proj1 (clean_up_fragments _ _)).
  all: repeat match goal with
         | H : Ret _ = Ret _ |- _ => inversion H; subst; clear H
         | H : Undefined _ = Ret _ |- _ => discriminate H
         | H : OutOfFuel = Ret _ |- _ => discriminate H
         | H : context [match ?x with _ => _ end] |- _ =>
             let E := fresh "E" in destruct x eqn:E; simpl in H
         end.
  all: simpl; auto.
  all: match goal with
       | E : advance_all_sparse _ _ _ _ _ = Ret (?l, _) |- clean_ ?l =>
           eapply advance_all_sparse_clean; [exact E|]; simpl
       end.
  all: first [ apply advance_fragments_clean; assumption
             | apply advance_on_tile_clean; assumption
             | idtac "REMAINING";  match goal with |- ?G => idtac G end ].
Qed.

Variable A : Array.
Variable B : Z.
Hypothesis room : 0 < B.
Hypothesis dense_array : dense (array_schema A) = true.
Hypothesis one_attribute : attribute_ids A = [attr].
Hypothesis fixed_size : var_size (array_schema A) attr = false.

Local Abbreviation resumes_ := (resumes A attr B).
Local Abbreviation flags_reset :=
  (replicate (S (attribute_num (array_schema A))) false).

Lemma vector_at_replicate (n : nat) (b c : bool) (i : Z) :
  vector_at (replicate n b) i = Ret c -> c = b.
Proof.
  intros Hv. apply vector_at_Ret in Hv as [_ Hv].
  apply lookup_replicate in Hv as [-> _]. reflexivity.
Qed.

Lemma resumes_prefix (first : Run (ReadAttr F)) (prefix c1 c2 : list Z)
    (st1 : ArrayReadState F) :
  resumes_ first (prefix ++ c1) c2 st1 -> resumes_ first prefix (c1 ++ c2) st1.
Proof.
  intros (p & buf & size & off & ov & fuels & outs & Hf & Hov & Hr & Hc & Hfl).
  exists p, buf, size, off, ov, fuels, outs.
  rewrite app_assoc. auto.
Qed.

(** A call in progress that is a call of its own. *)
Lemma resumes_call (fuel : nat) (p : ArrayReadState F) (buf : Buffer)
    (cells : list Z) (st1 : ArrayReadState F) :
  resumes_ (read_dense_attr_loop fuel A attr B (reset_state A p) buf 0)
    [] cells st1 ->
  exists fuels outs,
    consecutive_reads fuels A attr p buf B = Ret (outs, st1)
    /\ concat (map (fun o => snd (fst o)) outs) = cells
    /\ map snd outs = replicate (pred (length fuels)) true ++ [false]
    /\ fuels <> []
    /\ Forall (fun o => fst (fst o) = Some TILEDB_ARS_OK) outs.
Proof.
  intros (p' & buf' & size & off & ov & fuels & outs
          & Hf & Hov & Hr & Hc & Hfl & Hok).
  exists (fuel :: fuels), ((Some TILEDB_ARS_OK, output buf' size, ov) :: outs).
  split.
  { simpl. rewrite (read_multiple_fragments_single _ _ attr) by assumption.
    rewrite Hf. unfold mbind, Run_bind. simpl.
    change (vector_at [buf'] 0) with (Ret (A := Buffer) buf').
    change (vector_at [size] 0) with (Ret (A := Z) size).
    simpl. rewrite Hov, Hr. reflexivity. }
  split; [exact Hc|]. split; [exact Hfl|]. split; [discriminate|].
  constructor; [reflexivity | exact Hok].
Qed.

Lemma read_dense_attr_next_copy (k : nat) (bsz : Z)
    (s s1 : ArrayReadState F) (pos : Z) buf off :
  vector_at (overflow_ s) attr = Ret false ->
  vector_at (fragment_cell_pos_ranges_vec_pos_ s) attr = Ret pos ->
  (if past_the_plans pos s
   then get_next_cell_ranges_dense k A s
   else Ret (TILEDB_ARS_OK, s)) = Ret (TILEDB_ARS_OK, s1) ->
  read_dense_attr_next k A attr bsz s buf off
  = if done_ s1
    then Ret (TILEDB_ARS_OK, s1, buf, off, off)
    else
      '(rc, st, buffer, buffer_offset) ←
        copy_cell_ranges attr bsz s1 buf off;
      if negb (rc =? TILEDB_ARS_OK)
      then Ret (TILEDB_ARS_ERR, st, buffer, bsz, buffer_offset)
      else
        ov ← vector_at (overflow_ st) attr;
        if ov : bool
        then Ret (TILEDB_ARS_OK, st, buffer, buffer_offset, buffer_offset)
        else read_dense_attr_loop k A attr bsz st buffer buffer_offset.
Proof.
  intros Hov Hpos Hnext. unfold read_dense_attr_next.
  rewrite Hov. unfold mbind at 1, Run_bind at 1.
  rewrite Hpos. unfold mbind at 1, Run_bind at 1.
  rewrite Hnext. reflexivity.
Qed.

Lemma read_dense_attr_loop_synced (k : nat) (bsz : Z)
    (s : ArrayReadState F) buf off :
  vector_at (tile_done_ s) attr = Ret true ->
  read_dense_attr_loop (S k) A attr bsz s buf off
  = read_dense_attr_next k A attr bsz s buf off.
Proof.
  intros Htd. rewrite read_dense_attr_loop_unfold, Htd. reflexivity.
Qed.

Lemma read_dense_attr_loop_resumed (k : nat) (bsz : Z)
    (s s' : ArrayReadState F) buf off buf' off' :
  vector_at (tile_done_ s) attr = Ret false ->
  copy_cell_ranges attr bsz s buf off = Ret (TILEDB_ARS_OK, s', buf', off') ->
  read_dense_attr_loop (S k) A attr bsz s buf off
  = read_dense_attr_next k A attr bsz s' buf' off'.
Proof.
  intros Htd Hcopy. rewrite read_dense_attr_loop_unfold, Htd.
  unfold mbind at 1, Run_bind at 1. simpl negb. cbv iota.
  rewrite Hcopy. reflexivity.
Qed.

Lemma read_dense_attr_next_overflow (k : nat) (bsz : Z)
    (s : ArrayReadState F) buf off :
  vector_at (overflow_ s) attr = Ret true ->
  read_dense_attr_next k A attr bsz s buf off
  = Ret (TILEDB_ARS_OK, s, buf, off, off).
Proof.
  intros Hov. unfold read_dense_attr_next. rewrite Hov. reflexivity.
Qed.

(** The calls that resume a plan after an overflow deliver the rest of the
    plan, then what the read delivers from the end of the plan on. *)
Lemma resumed_calls (j : nat) (s1 : ArrayReadState F) (pos : Z)
    (plan : FragmentCellPosRanges) (fsT fs' : list F)
    (cells_rest : list Z) (st1 : ArrayReadState F) (b : bool) :
  overflow_ s1 = flags_reset ->
  done_ s1 = false ->
  vector_at (overflow_ s1) attr = Ret false ->
  vector_at (tile_done_ s1) attr = Ret b ->
  vector_at (fragment_cell_pos_ranges_vec_pos_ s1) attr = Ret pos ->
  vector_at (fragment_cell_pos_ranges_vec_ s1) pos = Ret plan ->
  notify_tile_done attr (range_global_tile_coords_ s1)
    (fragment_global_tile_coords_ s1) fsT = Ret fs' ->
  (forall bufX offX,
     written bufX offX ->
     resumes_ (read_dense_attr_loop (S j) A attr B
                 (finish_state attr s1 fs' pos) bufX offX)
       (output bufX offX) cells_rest st1) ->
  forall (m : nat) cellsP fsQ buf,
    (length cellsP <= m)%nat ->
    clean_ fsQ ->
    remaining_plan_ plan fsQ = Some (fsT, cellsP) ->
    resumes_ (read_dense_attr_loop (S j) A attr B
                (resume_state attr s1 fsQ) buf 0)
      [] (cellsP ++ cells_rest) st1.
Proof.
  intros Hflags Hdone Hov Htd Hpos Hplan Hnotify Hcont.
  assert (Htrue : vector_at (tile_done_ (finish_state attr s1 fs' pos)) attr
                  = Ret true).
  { simpl. eapply vector_at_insert_true; eauto. }
  assert (Hfits : forall cellsP fsQ buf,
            clean_ fsQ ->
            remaining_plan_ plan fsQ = Some (fsT, cellsP) ->
            Z.of_nat (length cellsP) <= B ->
            resumes_ (read_dense_attr_loop (S j) A attr B
                        (resume_state attr s1 fsQ) buf 0)
              [] (cellsP ++ cells_rest) st1).
  { intros cellsP fsQ buf Hclean Hrem Hle.
    assert (Hfalse : vector_at (tile_done_ (resume_state attr s1 fsQ)) attr
                     = Ret false)
      by (simpl; eapply vector_at_insert_true; eauto).
    destruct (copy_cell_ranges_room B
                (resume_state attr s1 fsQ) buf 0 pos plan fsT cellsP)
      as (buf' & Hout & Hcase); auto; [split; simpl; lia|].
    set (n := Z.min (Z.of_nat (length cellsP)) (Z.max 0 (B - 0))) in *.
    destruct (Z.eqb_spec n (Z.of_nat (length cellsP))) as [Hn|Hn];
      [|subst n; lia].
    rewrite (read_dense_attr_loop_resumed j B _ _ buf 0 buf' (0 + n) Hfalse
               (Hcase fs' Hnotify)).
    rewrite finish_resume.
    rewrite <- (read_dense_attr_loop_synced j B _ buf' (0 + n) Htrue).
    apply (resumes_prefix _ [] cellsP). simpl app.
    assert (Hall : output buf' (0 + n) = cellsP).
    { rewrite Hout. unfold output at 1. simpl. apply take_ge. lia. }
    rewrite <- Hall at 1. apply Hcont.
    apply written_output. split; [lia|]. rewrite Hall. lia. }
  induction m as [|m IH]; intros cellsP fsQ buf Hlen Hclean Hrem.
  { apply Hfits; auto. lia. }
  destruct (Z.le_gt_cases (Z.of_nat (length cellsP)) B) as [Hle|Hgt].
  { apply Hfits; auto. }
  assert (Hfalse : vector_at (tile_done_ (resume_state attr s1 fsQ)) attr
                   = Ret false)
    by (simpl; eapply vector_at_insert_true; eauto).
  destruct (copy_cell_ranges_room B
              (resume_state attr s1 fsQ) buf 0 pos plan fsT cellsP)
    as (buf' & Hout & Hcase); auto; [split; simpl; lia|].
  set (n := Z.min (Z.of_nat (length cellsP)) (Z.max 0 (B - 0))) in *.
  assert (HnB : n = B) by (subst n; lia).
  destruct (Z.eqb_spec n (Z.of_nat (length cellsP))) as [Hn|Hn]; [lia|].
  destruct Hcase as (fsP & Hcopy & Hrem').
  rewrite (read_dense_attr_loop_resumed j B _ _ buf 0 buf' (0 + n) Hfalse
             Hcopy).
  rewrite overflowed_resume.
  assert (Hovp : vector_at (overflow_ (overflowed_state attr s1 fsP)) attr
                 = Ret true).
  { simpl. eapply vector_at_insert_true; eauto. }
  rewrite (read_dense_attr_next_overflow _ _ _ _ _ Hovp).
  specialize (IH (drop (Z.to_nat n) cellsP)
                (map Fragment.reset_overflow fsP) buf').
  rewrite <- (reset_overflowed A attr s1 fsP Hflags Hdone) in IH.
  destruct (resumes_call
              (S j) (overflowed_state attr s1 fsP) buf'
              (drop (Z.to_nat n) cellsP ++ cells_rest) st1)
    as (fuels & outs & Hr & Hc & Hfl & Hne & Hok).
  { apply IH; [rewrite length_drop; lia | apply clean_reset; assumption
               | exact Hrem']. }
  exists (overflowed_state attr s1 fsP), buf', (0 + n), (0 + n), true,
    fuels, outs.
  split; [reflexivity|]. split; [exact Hovp|]. split; [exact Hr|].
  split.
  { rewrite Hout, Hc. unfold output at 1. simpl.
    rewrite app_assoc, take_drop. reflexivity. }
  split; [|exact Hok].
  rewrite Hfl. destruct fuels; [contradiction|]. reflexivity.
Qed.

Lemma read_dense_attr_next_copied (k : nat) (bsz : Z)
    (s s1 s2 : ArrayReadState F) (pos : Z) buf off buf2 off2 (ov : bool) :
  vector_at (overflow_ s) attr = Ret false ->
  vector_at (fragment_cell_pos_ranges_vec_pos_ s) attr = Ret pos ->
  (if past_the_plans pos s
   then get_next_cell_ranges_dense k A s
   else Ret (TILEDB_ARS_OK, s)) = Ret (TILEDB_ARS_OK, s1) ->
  done_ s1 = false ->
  copy_cell_ranges attr bsz s1 buf off = Ret (TILEDB_ARS_OK, s2, buf2, off2) ->
  vector_at (overflow_ s2) attr = Ret ov ->
  read_dense_attr_next k A attr bsz s buf off
  = if ov then Ret (TILEDB_ARS_OK, s2, buf2, off2, off2)
    else read_dense_attr_loop k A attr bsz s2 buf2 off2.
Proof.
  intros Hov Hpos Hnext Hdone Hcopy Hov2.
  rewrite (read_dense_attr_next_copy k bsz s s1 pos buf off Hov Hpos Hnext).
  rewrite Hdone, Hcopy. unfold mbind at 1, Run_bind at 1. cbv beta iota.
  change (negb (TILEDB_ARS_OK =? TILEDB_ARS_OK)) with false. cbv iota.
  rewrite Hov2. reflexivity.
Qed.

(** The read of an attribute from a state in which no plan is half copied:
    what one call delivers without overflow, the calls with buffers of size
    [B] deliver in pieces. *)
Lemma read_dense_attr_loop_resumes (k : nat) (bsz : Z) :
  forall (s : ArrayReadState F) bufS offS st1 buf1 n1 x,
  overflow_ s = flags_reset ->
  done_ s = false ->
  clean_ (fragments s) ->
  vector_at (tile_done_ s) attr = Ret true ->
  written bufS offS ->
  read_dense_attr_loop k A attr bsz s bufS offS
  = Ret (TILEDB_ARS_OK, st1, buf1, n1, x) ->
  vector_at (overflow_ st1) attr = Ret false ->
  exists cells,
    output buf1 n1 = output bufS offS ++ cells
    /\ forall bufB offB,
         written bufB offB ->
         resumes_ (read_dense_attr_loop k A attr B s bufB offB)
           (output bufB offB) cells st1.
Proof.
  induction k as [|k IH];
    intros s bufS offS st1 buf1 n1 x Hflags Hdone Hclean Htd Hw Hrun Hov1;
    [discriminate|].
  rewrite (read_dense_attr_loop_synced k bsz s bufS offS Htd) in Hrun.
  assert (Hfacts : exists pos s1,
            vector_at (overflow_ s) attr = Ret false
            /\ vector_at (fragment_cell_pos_ranges_vec_pos_ s) attr = Ret pos
            /\ (if past_the_plans pos s
                then get_next_cell_ranges_dense k A s
                else Ret (TILEDB_ARS_OK, s)) = Ret (TILEDB_ARS_OK, s1)).
  { unfold read_dense_attr_next in Hrun.
    destruct (vector_at (overflow_ s) attr) as [ov| |] eqn:Eov;
      unfold mbind at 1, Run_bind at 1 in Hrun; try discriminate.
    assert (ov = false)
      by (rewrite Hflags in Eov; eapply vector_at_replicate; eauto).
    subst ov.
    destruct (vector_at (fragment_cell_pos_ranges_vec_pos_ s) attr)
      as [pos| |] eqn:Epos;
      unfold mbind at 1, Run_bind at 1 in Hrun; try discriminate.
    destruct (if past_the_plans pos s
              then get_next_cell_ranges_dense k A s
              else Ret (TILEDB_ARS_OK, s)) as [[rc s1]| |] eqn:Eg;
      unfold mbind at 1, Run_bind at 1 in Hrun; try discriminate.
    destruct (Z.eqb_spec rc TILEDB_ARS_OK) as [->|Hrc];
      [|simpl in Hrun; inversion Hrun].
    exists pos, s1. auto. }
  destruct Hfacts as (pos & s1 & Eov & Epos & Eg).
  assert (Hs1 : overflow_ s1 = overflow_ s /\ tile_done_ s1 = tile_done_ s
                /\ clean_ (fragments s1)).
  { destruct (past_the_plans pos s).
    - destruct (get_next_cell_ranges_dense_frame _ _ _ _ _ Eg) as [Ho Ht].
      split; [exact Ho|]. split; [exact Ht|].
      eapply get_next_cell_ranges_dense_clean; eauto.
    - inversion Eg; subst. auto. }
  destruct Hs1 as (Hov_eq & Htd_eq & Hclean1).
  rewrite (read_dense_attr_next_copy k bsz s s1 pos bufS offS Eov Epos Eg)
    in Hrun.
  destruct (done_ s1) eqn:Ed.
  - inversion Hrun; subst; clear Hrun. exists []. split.
    { rewrite app_nil_r. reflexivity. }
    intros bufB offB HwB.
    rewrite (read_dense_attr_loop_synced k B s bufB offB Htd).
    rewrite (read_dense_attr_next_copy k B s st1 pos bufB offB Eov Epos Eg).
    rewrite Ed.
    exists st1, bufB, offB, offB, false, [], [].
    split; [reflexivity|]. split; [exact Hov1|]. split; [reflexivity|].
    split; [reflexivity|]. split; [reflexivity | constructor].
  - destruct (copy_cell_ranges attr bsz s1 bufS offS)
      as [[[[rc2 s2] buf2] off2]| |] eqn:Ec;
      unfold mbind at 1, Run_bind at 1 in Hrun; try discriminate.
    cbv beta iota in Hrun.
    destruct (Z.eqb_spec rc2 TILEDB_ARS_OK) as [->|Hrc];
      [|simpl in Hrun; inversion Hrun].
    simpl negb in Hrun. cbv iota in Hrun.
    destruct (vector_at (overflow_ s2) attr) as [ov2| |] eqn:Eov2;
      unfold mbind at 1, Run_bind at 1 in Hrun; try discriminate.
    destruct ov2.
    { inversion Hrun; subst. rewrite Eov2 in Hov1. discriminate. }
    assert (Hov_s1 : vector_at (overflow_ s1) attr = Ret false)
      by (rewrite Hov_eq; exact Eov).
    destruct (copy_cell_ranges_all bsz s1 bufS offS TILEDB_ARS_OK s2 buf2
                off2)
      as (pos1 & plan & fsT & cellsP & fs' & Hpos1 & Hplan & Hrem & HcT
          & Hnot & _ & -> & -> & Hout2); auto.
    assert (Htd2 : vector_at (tile_done_ (finish_state attr s1 fs' pos1)) attr
                   = Ret true).
    { simpl. rewrite Htd_eq. eapply vector_at_insert_true; eauto. }
    destruct (IH (finish_state attr s1 fs' pos1) buf2
                (offS + Z.of_nat (length cellsP)) st1 buf1 n1 x)
      as (cells_rest & Hout_rest & Hcont); auto.
    { exact (eq_trans Hov_eq Hflags). }
    { simpl. eapply notify_tile_done_clean; eauto. }
    { eapply written_app; eauto; lia. }
    exists (cellsP ++ cells_rest). split.
    { rewrite Hout_rest, Hout2, app_assoc. reflexivity. }
    intros bufB offB HwB.
    rewrite (read_dense_attr_loop_synced k B s bufB offB Htd).
    destruct (copy_cell_ranges_room B s1 bufB offB pos1 plan fsT cellsP)
      as (buf' & Hout & Hcase); auto.
    set (n := Z.min (Z.of_nat (length cellsP)) (Z.max 0 (B - offB))) in *.
    destruct (Z.eqb_spec n (Z.of_nat (length cellsP))) as [Hn|Hn].
    + rewrite (read_dense_attr_next_copied k B s s1 _ pos bufB offB buf'
                 (offB + n) false Eov Epos Eg Ed (Hcase fs' Hnot) Eov2).
      rewrite (take_ge cellsP (Z.to_nat n)) in Hout by lia.
      apply resumes_prefix. rewrite <- Hout. apply Hcont.
      eapply written_app; eauto; lia.
    + destruct Hcase as (fsP & Hcopy & Hrem').
      assert (Hovp : vector_at (overflow_ (overflowed_state attr s1 fsP)) attr
                     = Ret true).
      { simpl. eapply vector_at_insert_true; eauto. }
      rewrite (read_dense_attr_next_copied k B s s1 _ pos bufB offB buf'
                 (offB + n) true Eov Epos Eg Ed Hcopy Hovp).
      destruct k as [|j]; [discriminate|].
      assert (Hflags1 : overflow_ s1 = flags_reset) by congruence.
      assert (Htd1 : vector_at (tile_done_ s1) attr = Ret true)
        by (rewrite Htd_eq; exact Htd).
      pose proof (resumed_calls j s1 pos1 plan fsT fs' cells_rest st1 true
                    Hflags1 Ed Hov_s1 Htd1 Hpos1 Hplan Hnot Hcont
                    (length (drop (Z.to_nat n) cellsP))
                    (drop (Z.to_nat n) cellsP)
                    (map Fragment.reset_overflow fsP) buf'
                    (Nat.le_refl _) (clean_reset fsP) Hrem') as Hres.
      rewrite <- (reset_overflowed A attr s1 fsP Hflags1 Ed) in Hres.
      apply resumes_call in Hres as (fuels & outs & Hr & Hc & Hfl & Hne & Hok).
      exists (overflowed_state attr s1 fsP), buf', (offB + n), (offB + n),
        true, fuels, outs.
      split; [reflexivity|]. split; [exact Hovp|]. split; [exact Hr|].
      split.
      { rewrite Hout, Hc, <- app_assoc. f_equal.
        rewrite app_assoc, take_drop. reflexivity. }
      split; [|exact Hok].
      rewrite Hfl. destruct fuels; [contradiction|]. reflexivity.
Qed.

Lemma resume_state_id (s : ArrayReadState F) :
  vector_at (tile_done_ s) attr = Ret false ->
  resume_state attr s (fragments s) = s.
Proof.
  intros Htd. apply vector_at_Ret in Htd as [_ Htd].
  destruct s. unfold resume_state. simpl in *.
  rewrite list_insert_id by exact Htd. reflexivity.
Qed.

Lemma copy_ranges_loop_flags (plan : FragmentCellPosRanges) (bsz : Z) :
  forall (st : ArrayReadState F) buf off rc st' buf' off',
  copy_ranges_loop plan attr bsz st buf off = Ret (rc, st', buf', off') ->
  length (overflow_ st') = length (overflow_ st).
Proof.
  induction plan as [|[fi r] plan IH]; intros st buf off rc st' buf' off' Hrun.
  - inversion Hrun; subst. reflexivity.
  - simpl in Hrun. destruct (fi =? -1).
    + unfold copy_cell_range_with_empty in Hrun.
      destruct (vector_at (overflow_ st) attr) as [[|]| |];
        unfold mbind, Run_bind in Hrun; try discriminate.
      * inversion Hrun; subst. reflexivity.
      * eapply IH; eauto.
    + destruct (fragment_at (fragments st) fi) as [f| |];
        unfold mbind, Run_bind in Hrun; try discriminate.
      destruct (Fragment.copy_cell_range f attr buf bsz off r)
        as [[[f' buf1] off1]|].
      * destruct (Fragment.overflow f' attr).
        -- inversion Hrun; subst. simpl. apply length_insert.
        -- apply IH in Hrun. exact Hrun.
      * inversion Hrun; subst. reflexivity.
Qed.

Lemma copy_cell_ranges_flags (bsz : Z) (st : ArrayReadState F) buf off
    rc st' buf' off' :
  copy_cell_ranges attr bsz st buf off = Ret (rc, st', buf', off') ->
  length (overflow_ st') = length (overflow_ st).
Proof.
  intros Hrun. unfold copy_cell_ranges in Hrun.
  destruct (vector_at (fragment_cell_pos_ranges_vec_pos_ st) attr)
    as [pos| |]; unfold mbind, Run_bind in Hrun; try discriminate.
  destruct (vector_at (fragment_cell_pos_ranges_vec_ st) pos)
    as [plan| |]; try discriminate.
  destruct (copy_ranges_loop plan attr bsz st buf off)
    as [[[[rc1 st1] buf1] off1]| |] eqn:Eloop; try discriminate.
  apply copy_ranges_loop_flags in Eloop.
  destruct (negb (rc1 =? TILEDB_ARS_OK)).
  { inversion Hrun; subst. exact Eloop. }
  destruct (vector_at (overflow_ st1) attr) as [[|]| |]; try discriminate.
  - inversion Hrun; subst. exact Eloop.
  - destruct (notify_tile_done _ _ _ _); try discriminate.
    inversion Hrun; subst. exact Eloop.
Qed.

(** Reads of one attribute of fixed size: what a call delivers without
    overflow, consecutive calls with buffers of size [B] deliver in pieces,
    all but the last ending on overflow, and leave the same read state. *)
Lemma consecutive_reads_resume (fuel : nat) (st : ArrayReadState F)
    (buffer : Buffer) (bsz : Z) st1 buffer1 size1 (bufferB : Buffer) :
  read_multiple_fragments fuel coords_int A st [buffer] [bsz]
  = Ret (Some TILEDB_ARS_OK, st1, [buffer1], [size1]) ->
  vector_at (overflow_ st1) attr = Ret false ->
  exists fuels outs,
    consecutive_reads fuels A attr st bufferB B = Ret (outs, st1)
    /\ concat (map (fun o => snd (fst o)) outs) = output buffer1 size1
    /\ map snd outs = replicate (pred (length fuels)) true ++ [false]
    /\ Forall (fun o => fst (fst o) = Some TILEDB_ARS_OK) outs.
Proof.
  intros Hread Hov1.
  rewrite (read_multiple_fragments_single _ _ attr) in Hread by assumption.
  destruct (read_dense_attr_loop fuel A attr bsz (reset_state A st) buffer 0)
    as [[[[[rc st'] buf'] size] x]| |] eqn:Hrun; try discriminate.
  inversion Hread; subst; clear Hread.
  set (s0 := reset_state A st) in *.
  assert (Hflags : overflow_ s0 = flags_reset) by reflexivity.
  assert (Hdone : done_ s0 = false) by reflexivity.
  assert (Hclean : clean_ (fragments s0)) by apply clean_reset.
  assert (Hw0 : forall buf : Buffer, written buf 0)
    by (intros buf; split; simpl; lia).
  destruct fuel as [|k]; [discriminate|].
  assert (Hres : resumes_ (read_dense_attr_loop (S k) A attr B s0 bufferB 0)
                   [] (output buffer1 size1) st1).
  { destruct (vector_at (tile_done_ s0) attr) as [[|]| |] eqn:Etd.
    - destruct (read_dense_attr_loop_resumes (S k) bsz s0 buffer 0 st1
                  buffer1 size1 x) as (cells & Hout & Hres); auto.
      change (output buffer 0) with (@nil Z) in Hout. simpl in Hout.
      rewrite Hout. apply (Hres bufferB 0 (Hw0 bufferB)).
    - rewrite read_dense_attr_loop_unfold, Etd in Hrun.
      unfold mbind at 1, Run_bind at 1 in Hrun. simpl negb in Hrun.
      cbv iota in Hrun.
      destruct (copy_cell_ranges attr bsz s0 buffer 0)
        as [[[[rc2 s2] buf2] off2]| |] eqn:Ec;
        unfold mbind at 1, Run_bind at 1 in Hrun; try discriminate.
      cbv beta iota in Hrun.
      destruct (Z.eqb_spec rc2 TILEDB_ARS_OK) as [->|Hrc];
        [|simpl in Hrun; inversion Hrun].
      simpl negb in Hrun. cbv iota in Hrun.
      assert (Hov2 : vector_at (overflow_ s2) attr = Ret false).
      { unfold read_dense_attr_next in Hrun.
        destruct (vector_at (overflow_ s2) attr) as [[|]| |] eqn:Eov2;
          unfold mbind at 1, Run_bind at 1 in Hrun; try discriminate.
        - inversion Hrun; subst. congruence.
        - reflexivity. }
      assert (Hov0 : vector_at (overflow_ s0) attr = Ret false).
      { apply copy_cell_ranges_flags in Ec.
        apply vector_at_Ret in Hov2 as [Hi Hl].
        apply lookup_lt_Some in Hl. rewrite Ec in Hl.
        apply vector_at_Ret. split; [exact Hi|].
        rewrite Hflags in Hl |- *. rewrite length_replicate in Hl.
        apply lookup_replicate_2. exact Hl. }
      destruct (copy_cell_ranges_all bsz s0 buffer 0 TILEDB_ARS_OK s2 buf2
                  off2)
        as (pos1 & plan & fsT & cellsP & fs' & Hpos1 & Hplan & Hrem & HcT
            & Hnot & _ & -> & -> & Hout2); auto.
      assert (Htd2 : vector_at (tile_done_ (finish_state attr s0 fs' pos1))
                       attr = Ret true).
      { simpl. eapply vector_at_insert_true; eauto. }
      rewrite <- (read_dense_attr_loop_synced k bsz _ _ _ Htd2) in Hrun.
      destruct (read_dense_attr_loop_resumes (S k) bsz
                  (finish_state attr s0 fs' pos1) buf2
                  (0 + Z.of_nat (length cellsP)) st1 buffer1 size1 x)
        as (cells_rest & Hout_rest & Hcont); auto.
      { simpl. eapply notify_tile_done_clean; eauto. }
      { eapply written_app; eauto; lia. }
      pose proof (resumed_calls k s0 pos1 plan fsT fs' cells_rest st1 false
                    Hflags Hdone Hov0 Etd Hpos1 Hplan Hnot Hcont
                    (length cellsP) cellsP (fragments s0) bufferB
                    (Nat.le_refl _) Hclean Hrem) as Hres.
      rewrite (resume_state_id s0 Etd) in Hres.
      rewrite Hout_rest, Hout2.
      change (output buffer 0) with (@nil Z). exact Hres.
    - rewrite read_dense_attr_loop_unfold, Etd in Hrun. discriminate.
    - rewrite read_dense_attr_loop_unfold, Etd in Hrun. discriminate. }
  apply resumes_call in Hres as (fuels & outs & Hr & Hc & Hfl & Hne & Hok).
  exists fuels, outs. auto.
Qed.

End Resume.

(** C5 (counterexample).  A buffer of size 0 triggers overflow, and goes on
    doing so: the second call leaves the read state as the first left it,
    and so does every call after it, each with an empty output, whereas one
    call with a buffer of 40 cells delivers the ten cells of the array. *)
Lemma buffer_without_room_never_delivers :
  exists p st1,
    consecutive_reads [10; 10]%nat two_tile_array 0
      (new_ArrayReadState two_tile_array two_tile_fragment) [] 0
    = Ret ([(Some TILEDB_ARS_OK, [], true); (Some TILEDB_ARS_OK, [], true)],
           p)
    /\ consecutive_reads [10]%nat two_tile_array 0 p [] 0
       = Ret ([(Some TILEDB_ARS_OK, [], true)], p)
    /\ read_multiple_fragments 10 coords_int two_tile_array
         (new_ArrayReadState two_tile_array two_tile_fragment) [[]] [40]
       = Ret (Some TILEDB_ARS_OK, st1,
              [[100; 101; 102; 103; 104; 100; 101; 102; 103; 104]], [10])
    /\ vector_at (overflow_ st1) 0 = Ret false.
Proof.
  destruct (consecutive_reads [10; 10]%nat two_tile_array 0
              (new_ArrayReadState two_tile_array two_tile_fragment) [] 0)
    as [[outs p]| |] eqn:E; vm_compute in E; try discriminate E.
  injection E as <- <-.
  destruct (read_multiple_fragments 10 coords_int two_tile_array
              (new_ArrayReadState two_tile_array two_tile_fragment) [[]] [40])
    as [[[[rc st1] bufs] sizes]| |] eqn:E1; vm_compute in E1;
    try discriminate E1.
  injection E1 as <- <- <- <-.
  eexists _, _. split; [reflexivity|].
  split; [vm_compute; reflexivity|]. split; [reflexivity|].
  vm_compute. reflexivity.
Qed.

(** C5 (amended).  A read of one attribute of fixed size, over fragments
    whose copy resumes where it stopped: what one call delivers without
    overflow, consecutive calls with a buffer of size [B], of one cell at
    least, deliver in pieces.  Every call returns success, all but the last
    end on overflow, the outputs put end to end are the output of the one
    call, and the read state is left as the one call leaves it. *)
Theorem overflowed_reads_resume `{Fragment.Ops F} (A : Array) (attr B : Z)
    (remaining : F -> CellPosRange -> F * list Z) (fuel : nat)
    (st : ArrayReadState F) (buffer : Buffer) (buffer_size : Z)
    (st1 : ArrayReadState F) (buffer1 : Buffer) (size1 : Z)
    (bufferB : Buffer) :
  ResumableCopy attr remaining ->
  0 < B ->
  dense (array_schema A) = true ->
  attribute_ids A = [attr] ->
  var_size (array_schema A) attr = false ->
  read_multiple_fragments fuel coords_int A st [buffer] [buffer_size]
  = Ret (Some TILEDB_ARS_OK, st1, [buffer1], [size1]) ->
  vector_at (overflow_ st1) attr = Ret false ->
  exists fuels outs,
    consecutive_reads fuels A attr st bufferB B = Ret (outs, st1)
    /\ concat (map (fun o => snd (fst o)) outs) = output buffer1 size1
    /\ map snd outs = replicate (pred (length fuels)) true ++ [false]
    /\ Forall (fun o => fst (fst o) = Some TILEDB_ARS_OK) outs.
Proof.
  intros Hlaws HB Hdense Hids Hvar Hread Hov.
  eapply consecutive_reads_resume; eauto.
Qed.

(** The two tiles read with a buffer of three cells: the second call
    resumes the plan of the first tile and goes on into the second tile. *)
Lemma overflowed_reads_resume_witness :
  exists fuels outs st1,
    consecutive_reads fuels two_tile_array 0
      (new_ArrayReadState two_tile_array two_tile_fragment) [] 3
    = Ret (outs, st1)
    /\ concat (map (fun o => snd (fst o)) outs)
       = [100; 101; 102; 103; 104; 100; 101; 102; 103; 104]
    /\ map snd outs = replicate (pred (length fuels)) true ++ [false].
Proof.
  destruct (read_multiple_fragments 10 coords_int two_tile_array
              (new_ArrayReadState two_tile_array two_tile_fragment) [[]] [40])
    as [[[[rc st1] bufs] sizes]| |] eqn:E.
  - pose proof E as E'. vm_compute in E'.
    injection E' as Hrc Hst Hbufs Hsizes. subst rc bufs sizes.
    destruct (overflowed_reads_resume two_tile_array 0 3 sf_remaining 10
                (new_ArrayReadState two_tile_array two_tile_fragment)
                [] 40 st1 [100; 101; 102; 103; 104; 100; 101; 102; 103; 104]
                10 [] (SimpleFragment_resumable 0))
      as (fuels & outs & Hr & Hc & Hfl & _);
      [lia | reflexivity | reflexivity | reflexivity | exact E | |].
    + rewrite <- Hst. vm_compute. reflexivity.
    + exists fuels, outs, st1. split; [exact Hr|].
      split; [rewrite Hc; vm_compute; reflexivity | exact Hfl].
  - vm_compute in E. discriminate E.
  - vm_compute in E. discriminate E.
Defined.

(** * Further properties of the read state *)

(** ** get_next_cell_ranges_dense *)

Lemma clean_up_done {F : Type} (A : Array) (st : ArrayReadState F) :
  done_ (clean_up_processed_fragment_cell_pos_ranges A st) = done_ st.
Proof.
  unfold clean_up_processed_fragment_cell_pos_ranges.
  destruct (_ =? 0); reflexivity.
Qed.

(** What a call of [get_next_cell_ranges_dense] does to the plans: it
    reports the end of the tiles and leaves them alone, or fails and leaves
    them alone, or appends one plan and cleans up. *)
Lemma get_next_cell_ranges_dense_plans `{Fragment.Ops F} (fuel : nat)
    (A : Array) (st : ArrayReadState F) rc st' :
  get_next_cell_ranges_dense fuel A st = Ret (rc, st') ->
  (rc = TILEDB_ARS_OK /\ done_ st' = true
   /\ range_global_tile_coords_ st' = None
   /\ fragment_cell_pos_ranges_vec_ st' = fragment_cell_pos_ranges_vec_ st
   /\ fragment_cell_pos_ranges_vec_pos_ st'
      = fragment_cell_pos_ranges_vec_pos_ st)
  \/ (rc = TILEDB_ARS_ERR /\ done_ st' = done_ st
      /\ fragment_cell_pos_ranges_vec_ st' = fragment_cell_pos_ranges_vec_ st
      /\ fragment_cell_pos_ranges_vec_pos_ st'
         = fragment_cell_pos_ranges_vec_pos_ st)
  \/ (rc = TILEDB_ARS_OK /\ done_ st' = done_ st
      /\ exists plan st0,
           st' = clean_up_processed_fragment_cell_pos_ranges A
                   (set_vec st0 (fragment_cell_pos_ranges_vec_ st ++ [plan]))
           /\ fragment_cell_pos_ranges_vec_pos_ st0
              = fragment_cell_pos_ranges_vec_pos_ st
           /\ exists tile, range_global_tile_coords_ st0 = Some tile).
Proof.
  unfold get_next_cell_ranges_dense, compute_max_overlap_range,
    get_next_range_global_tile_coords, init_range_global_tile_coords.
  intros Hrun.
  repeat match type of Hrun with
         | context [mbind _ ?m] =>
             let E := fresh "E" in
             destruct m eqn:E; unfold mbind, Run_bind in Hrun; simpl in Hrun
         | context [match ?x with _ => _ end] =>
             let E := fresh "E" in destruct x eqn:E; simpl in Hrun
         | Ret _ = Ret _ => inversion Hrun; subst; clear Hrun
         | _ => discriminate Hrun
         end.
  all: repeat match goal with
         | H : Ret _ = Ret _ |- _ => inversion H; subst; clear H
         | H : Undefined _ = Ret _ |- _ => discriminate H
         | H : OutOfFuel = Ret _ |- _ => discriminate H
         | H : context [match ?x with _ => _ end] |- _ =>
             let E := fresh "E" in destruct x eqn:E; simpl in H
         end.
  all: try (simpl in *; congruence).
  all: try (left; simpl; repeat split; solve [auto | congruence]).
  all: try (right; left; repeat split; reflexivity).
  all: try (right; right; split; [reflexivity|];
            split; [rewrite clean_up_done; reflexivity|];
            eexists _, _; split; [reflexivity|]; split; [reflexivity|];
            simpl; eauto).

Qed.

(** ** copy_cell_ranges *)

(** A plan that is copied to its end without overflow: the attribute moves
    on to the next plan and its tile is marked as done; nothing else of the
    bookkeeping changes. *)
Lemma copy_cell_ranges_complete `{Fragment.Ops F} (attr bsz : Z)
    (st : ArrayReadState F) buf off st' buf' off' :
  vector_at (overflow_ st) attr = Ret false ->
  copy_cell_ranges attr bsz st buf off
    = Ret (TILEDB_ARS_OK, st', buf', off') ->
  vector_at (overflow_ st') attr = Ret false ->
  exists pos,
    vector_at (fragment_cell_pos_ranges_vec_pos_ st) attr = Ret pos
    /\ fragment_cell_pos_ranges_vec_pos_ st'
       = <[Z.to_nat attr := pos + 1]> (fragment_cell_pos_ranges_vec_pos_ st)
    /\ tile_done_ st' = <[Z.to_nat attr := true]> (tile_done_ st)
    /\ fragment_cell_pos_ranges_vec_ st' = fragment_cell_pos_ranges_vec_ st
    /\ done_ st' = done_ st
    /\ range_global_tile_coords_ st' = range_global_tile_coords_ st.
Proof.
  intros Hov Hrun Hov'. unfold copy_cell_ranges in Hrun.
  destruct (vector_at (fragment_cell_pos_ranges_vec_pos_ st) attr)
    as [pos| |] eqn:Epos; unfold mbind, Run_bind in Hrun; try discriminate.
  destruct (vector_at (fragment_cell_pos_ranges_vec_ st) pos)
    as [plan| |] eqn:Eplan; try discriminate.
  destruct (copy_ranges_loop plan attr bsz st buf off)
    as [[[[rc1 st1] buf1] off1]| |] eqn:Eloop; try discriminate.
  destruct (copy_ranges_loop_effect plan attr bsz _ _ _ _ _ _ _ Hov Eloop)
    as (Hpos & Hvec & Htd & Hdone & Hrc & Hfc & Hcase).
  destruct (negb (rc1 =? TILEDB_ARS_OK)); [discriminate|].
  destruct Hcase as [Hf | (Ht & _)].
  - rewrite Hf in Hrun.
    destruct (notify_tile_done attr (range_global_tile_coords_ st1)
                (fragment_global_tile_coords_ st1) (fragments st1))
      as [fs| |]; try discriminate.
    inversion Hrun; subst; clear Hrun. simpl.
    exists pos. rewrite Hpos, Htd. auto 10.
  - rewrite Ht in Hrun. inversion Hrun; subst; clear Hrun.
    simpl in Hov'. congruence.
Qed.

(** ** The loop of read_multiple_fragments_dense_attr *)

(** How a read of one attribute that starts with the read not done and
    the overflow flag of the attribute cleared ends: with an error and
    [buffer_size] as it was; or on overflow, the read not done; or with the
    read done, the attribute past its plans and the tile cursor cleared. *)
Lemma read_dense_attr_loop_exit `{Fragment.Ops F} (A : Array)
    (attr bsz : Z) (fuel : nat) :
  forall (st : ArrayReadState F) buf off rc st' buf' bsz' off',
  done_ st = false ->
  vector_at (overflow_ st) attr = Ret false ->
  read_dense_attr_loop fuel A attr bsz st buf off
    = Ret (rc, st', buf', bsz', off') ->
  (rc = TILEDB_ARS_ERR /\ bsz' = bsz)
  \/ (rc = TILEDB_ARS_OK /\ bsz' = off'
      /\ vector_at (overflow_ st') attr = Ret true /\ done_ st' = false)
  \/ (rc = TILEDB_ARS_OK /\ bsz' = off'
      /\ vector_at (overflow_ st') attr = Ret false /\ done_ st' = true
      /\ vector_at (tile_done_ st') attr = Ret true
      /\ range_global_tile_coords_ st' = None
      /\ exists pos,
           vector_at (fragment_cell_pos_ranges_vec_pos_ st') attr = Ret pos
           /\ past_the_plans pos st' = true).
Proof.
  induction fuel as [|fuel IH];
    intros st buf off rc st' buf' bsz' off' Hdone Hov Hrun; [discriminate|].
  cbn [read_dense_attr_loop] in Hrun.
  destruct (vector_at (tile_done_ st) attr) as [td| |] eqn:Etd;
    unfold mbind, Run_bind in Hrun; try discriminate.
  match type of Hrun with match ?x with _ => _ end = _ =>
    destruct x as [[[[rc1 st1] buf1] off1]| |] eqn:E1; try discriminate
  end.
  destruct (negb (rc1 =? TILEDB_ARS_OK)) eqn:Erc1.
  { inversion Hrun; subst; clear Hrun. left. auto. }
  apply negb_false_iff, Z.eqb_eq in Erc1. subst rc1.
  assert (H1 : done_ st1 = false
               /\ (vector_at (overflow_ st1) attr = Ret true
                   \/ (vector_at (overflow_ st1) attr = Ret false
                       /\ vector_at (tile_done_ st1) attr = Ret true))).
  { destruct td; simpl in E1.
    - inversion E1; subst. auto.
    - destruct (copy_cell_ranges_effect _ _ _ _ _ _ _ _ _ Hov E1)
        as (_ & Hd & _ & [Hf | (Ht & _)]).
      + split; [congruence|]. right. split; [exact Hf|].
        destruct (copy_cell_ranges_complete _ _ _ _ _ _ _ _ Hov E1 Hf)
          as (pos & _ & _ & Htd & _).
        rewrite Htd. apply vector_at_insert.
        eapply vector_at_length; eauto.
      + split; [congruence|]. left. exact Ht. }
  destruct H1 as [Hdone1 [Ht1 | [Hf1 Htd1]]].
  { rewrite Ht1 in Hrun. inversion Hrun; subst; clear Hrun.
    right. left. auto. }
  rewrite Hf1 in Hrun.
  destruct (vector_at (fragment_cell_pos_ranges_vec_pos_ st1) attr)
    as [pos| |] eqn:Epos; try discriminate.
  match type of Hrun with match ?x with _ => _ end = _ =>
    destruct x as [[rc2 st2]| |] eqn:E2; try discriminate
  end.
  destruct (negb (rc2 =? TILEDB_ARS_OK)) eqn:Erc2.
  { inversion Hrun; subst; clear Hrun. left. auto. }
  apply negb_false_iff, Z.eqb_eq in Erc2. subst rc2.
  assert (H2 : overflow_ st2 = overflow_ st1
               /\ tile_done_ st2 = tile_done_ st1
               /\ (done_ st2 = false
                   \/ (done_ st2 = true
                       /\ range_global_tile_coords_ st2 = None
                       /\ fragment_cell_pos_ranges_vec_pos_ st2
                          = fragment_cell_pos_ranges_vec_pos_ st1
                       /\ past_the_plans pos st2 = true))).
  { destruct (past_the_plans pos st1) eqn:Epast.
    - destruct (get_next_cell_ranges_dense_frame _ _ _ _ _ E2) as [Ho Ht].
      split; [exact Ho|]. split; [exact Ht|].
      destruct (get_next_cell_ranges_dense_plans _ _ _ _ _ E2)
        as [(_ & Hd & Hc & Hv & Hp) | [(Hrc & _) | (_ & Hd & _)]].
      + right. split; [exact Hd|]. split; [exact Hc|]. split; [exact Hp|].
        unfold past_the_plans in *. rewrite Hv. exact Epast.
      + discriminate Hrc.
      + left. congruence.
    - inversion E2; subst. auto. }
  destruct H2 as (Hov2 & Htd2 & [Hd2 | (Hd2 & Hc2 & Hp2 & Hpast2)]).
  2: { rewrite Hd2 in Hrun. inversion Hrun; subst; clear Hrun.
       right. right. split; [reflexivity|]. split; [reflexivity|].
       split; [congruence|]. split; [exact Hd2|]. split; [congruence|].
       split; [exact Hc2|]. exists pos. split; [congruence | exact Hpast2]. }
  rewrite Hd2 in Hrun.
  destruct (copy_cell_ranges attr bsz st2 buf1 off1)
    as [[[[rc3 st3] buf3] off3]| |] eqn:E3; try discriminate.
  destruct (negb (rc3 =? TILEDB_ARS_OK)) eqn:Erc3.
  { inversion Hrun; subst; clear Hrun. left. auto. }
  assert (Hov2' : vector_at (overflow_ st2) attr = Ret false)
    by (rewrite Hov2; assumption).
  destruct (copy_cell_ranges_effect _ _ _ _ _ _ _ _ _ Hov2' E3)
    as (_ & Hd3 & _ & [Hf3 | (Ht3 & _)]).
  - rewrite Hf3 in Hrun. eapply IH; [| exact Hf3 | exact Hrun]. congruence.
  - rewrite Ht3 in Hrun. inversion Hrun; subst; clear Hrun.
    right. left. split; [reflexivity|]. split; [reflexivity|].
    split; [exact Ht3 | congruence].
Qed.

(** The overflow flags a call starts from. *)
Lemma reset_state_overflow `{Fragment.Ops F} (A : Array)
    (st : ArrayReadState F) (attr : Z) :
  0 <= attr <= Z.of_nat (attribute_num (array_schema A)) ->
  vector_at (overflow_ (reset_state A st)) attr = Ret false.
Proof.
  intros Hattr.
  change (overflow_ (reset_state A st))
    with (replicate (S (attribute_num (array_schema A))) false).
  apply vector_at_Ret. split; [lia|].
  apply lookup_replicate. split; [reflexivity | lia].
Qed.

(** ** The overlap of the query range with a tile *)

(** Reading a vector that was filled two elements per dimension. *)
Lemma idx_flat_map_pairs (f g : nat -> Z) (n i : nat) :
  (i < n)%nat ->
  idx (flat_map (fun i => [f i; g i]) (seq 0 n)) (2 * i) = f i
  /\ idx (flat_map (fun i => [f i; g i]) (seq 0 n)) (2 * i + 1) = g i.
Proof.
  assert (Hgen : forall n s i, (i < n)%nat ->
            idx (flat_map (fun i => [f i; g i]) (seq s n)) (2 * i)
              = f (s + i)%nat
            /\ idx (flat_map (fun i => [f i; g i]) (seq s n)) (2 * i + 1)
               = g (s + i)%nat).
  { clear n i. induction n as [|n IH]; intros s i Hi; [lia|].
    destruct i as [|i].
    - simpl. rewrite Nat.add_0_r. auto.
    - destruct (IH (S s) i ltac:(lia)) as [H1 H2].
      replace (2 * S i)%nat with (S (S (2 * i))) by lia.
      replace (S (S (2 * i)) + 1)%nat with (S (S (2 * i + 1))) by lia.
      replace (s + S i)%nat with (S s + i)%nat by lia.
      simpl seq. simpl flat_map. unfold idx in *. simpl nth. auto. }
  intros Hi. apply (Hgen n 0%nat i Hi).
Qed.

Lemma map_seq_ext {A : Type} (f g : nat -> A) (s n : nat) :
  (forall i, (s <= i < s + n)%nat -> f i = g i) ->
  map f (seq s n) = map g (seq s n).
Proof.
  intros Hfg. apply map_ext_in. intros i Hi. apply in_seq in Hi.
  apply Hfg. lia.
Qed.

Lemma overlap_range_idx (AS : ArraySchema) (range : list Z) (tile : Coords)
    (i : nat) :
  (i < dim_num AS)%nat ->
  let tile_coords :=
    idx tile i * idx (tile_extents AS) i + idx (domain AS) (2 * i) in
  idx (overlap_range AS range tile) (2 * i)
    = Z.max (idx range (2 * i) - tile_coords) 0
  /\ idx (overlap_range AS range tile) (2 * i + 1)
     = Z.min (idx range (2 * i + 1) - tile_coords)
         (idx (tile_extents AS) i - 1).
Proof.
  intros Hi.
  exact (idx_flat_map_pairs
           (fun i => Z.max (idx range (2 * i)
                            - (idx tile i * idx (tile_extents AS) i
                               + idx (domain AS) (2 * i))) 0)
           (fun i => Z.min (idx range (2 * i + 1)
                            - (idx tile i * idx (tile_extents AS) i
                               + idx (domain AS) (2 * i)))
                       (idx (tile_extents AS) i - 1))
           (dim_num AS) i Hi).
Qed.

Lemma global_overlap_range_idx (AS : ArraySchema) (tile : Coords)
    (r : list Z) (i : nat) :
  (i < dim_num AS)%nat ->
  idx (global_overlap_range AS tile r) (2 * i)
    = idx tile i * idx (tile_extents AS) i + idx r (2 * i)
      + idx (domain AS) (2 * i)
  /\ idx (global_overlap_range AS tile r) (2 * i + 1)
     = idx tile i * idx (tile_extents AS) i + idx r (2 * i + 1)
       + idx (domain AS) (2 * i).
Proof.
  intros Hi.
  exact (idx_flat_map_pairs
           (fun i => idx tile i * idx (tile_extents AS) i + idx r (2 * i)
                     + idx (domain AS) (2 * i))
           (fun i => idx tile i * idx (tile_extents AS) i + idx r (2 * i + 1)
                     + idx (domain AS) (2 * i))
           (dim_num AS) i Hi).
Qed.

Lemma compute_tile_domain_idx (AS : ArraySchema) (tile : Coords) (i : nat) :
  (i < dim_num AS)%nat ->
  idx (compute_tile_domain AS tile) (2 * i)
    = idx (domain AS) (2 * i) + idx tile i * idx (tile_extents AS) i
  /\ idx (compute_tile_domain AS tile) (2 * i + 1)
     = idx (domain AS) (2 * i) + idx tile i * idx (tile_extents AS) i
       + idx (tile_extents AS) i - 1.
Proof.
  intros Hi.
  exact (idx_flat_map_pairs
           (fun i => idx (domain AS) (2 * i)
                     + idx tile i * idx (tile_extents AS) i)
           (fun i => idx (domain AS) (2 * i)
                     + idx tile i * idx (tile_extents AS) i
                     + idx (tile_extents AS) i - 1)
           (dim_num AS) i Hi).
Qed.

(** ** The fragments behind the merged ranges *)

Lemma trim_popped_fragment (AS : ArraySchema) (td : list Z)
    (popped : FragmentCellRange) (pq : FragmentCellRanges) :
  fst (snd (trim_popped AS td popped pq)) = fst popped.
Proof.
  unfold trim_popped. destruct pq as [|top pq]; [reflexivity|].
  destruct (_ && _); reflexivity.
Qed.

(** Every range the merge loop emits is one it popped, and the fragment of
    a popped range is looked up among the fragments of the array. *)
Lemma process_queue_fragments `{Fragment.Ops F} (AS : ArraySchema)
    (fs : list F) (td : list Z) (tde : Coords) (fuel : nat) :
  forall pq out log rc out' log',
  process_queue fuel AS fs td tde pq out log = Ret (rc, out', log') ->
  Forall (fun r => exists f, fragment_at fs (fst r) = Ret f) out ->
  Forall (fun r => exists f, fragment_at fs (fst r) = Ret f) out'.
Proof.
  induction fuel as [|fuel IH]; intros pq out log rc out' log' Hrun Hout;
    [discriminate|].
  cbn [process_queue] in Hrun.
  destruct pq as [|popped pq]; [inversion Hrun; subst; exact Hout|].
  destruct (fragment_at fs (fst popped)) as [f| |] eqn:Ef;
    unfold mbind at 1, Run_bind at 1 in Hrun; try discriminate.
  assert (Hsnoc : forall q : FragmentCellRange, fst q = fst popped ->
            Forall (fun r => exists f, fragment_at fs (fst r) = Ret f)
              (out ++ [q])).
  { intros q Hq. apply Forall_app. split; [exact Hout|].
    apply List.Forall_cons; [|apply List.Forall_nil].
    rewrite Hq. eauto. }
  destruct (_ && _) in Hrun.
  { inversion Hrun; subst. apply Hsnoc. reflexivity. }
  destruct (_ || _) in Hrun.
  - destruct (_ && _) in Hrun; [eapply IH; eauto|].
    destruct (discard_ranges fuel AS td popped pq (note_top 296 pq log))
      as [[pq1 log1]| |]; unfold mbind, Run_bind in Hrun; try discriminate.
    pose proof (trim_popped_fragment AS td popped pq1) as Hfst.
    destruct (trim_popped AS td popped pq1) as [pq2 popped'].
    eapply IH; [exact Hrun|]. apply Hsnoc. exact Hfst.
  - match type of Hrun with (if ?b then _ else _) = _ => destruct b end.
    { eapply IH; [exact Hrun|]. apply Hsnoc. reflexivity. }
    destruct (Fragment.get_first_two_coords f (fst (snd popped)))
      as [[first second]|].
    + repeat match type of Hrun with (if ?b then _ else _) = _ =>
               destruct b end; eapply IH; eauto.
    + inversion Hrun; subst. apply List.Forall_nil.
Qed.

(** ** The fragment with the maximum overlap *)

Lemma indexed_snoc {A : Type} (l : list A) (x : A) :
  indexed (l ++ [x]) = indexed l ++ [(length l, x)].
Proof.
  unfold indexed. rewrite length_app. simpl length.
  rewrite Nat.add_1_r, seq_S. simpl.
  rewrite zip_with_app by (rewrite length_seq; reflexivity).
  reflexivity.
Qed.

(** The downward search over the fragments paired with their tile
    coordinates: it yields the last fragment that stands on the tile and
    covers the overlap, or -1. *)
Lemma find_max_overlap_spec `{Fragment.Ops F} (tile : Coords) (r : list Z)
    (l : list (F * option Coords)) :
  let k := find_max_overlap tile r (rev (indexed l)) in
  let covering (p : F * option Coords) :=
    on_tile (snd p) tile && Fragment.max_overlap (fst p) r in
  (k = -1 /\ forall i p, l !! i = Some p -> covering p = false)
  \/ (0 <= k
      /\ (exists p, l !! Z.to_nat k = Some p /\ covering p = true)
      /\ forall j p, (Z.to_nat k < j)%nat -> l !! j = Some p ->
           covering p = false).
Proof.
  induction l as [|[f c] l IH] using rev_ind; intros k covering.
  - left. split; [reflexivity|]. intros i p Hi. discriminate Hi.
  - subst k. rewrite indexed_snoc, rev_app_distr. cbn [rev app].
    cbn [find_max_overlap].
    destruct (on_tile c tile && Fragment.max_overlap f r) eqn:E.
    + right. split; [lia|]. rewrite Nat2Z.id. split.
      * exists (f, c). split; [|exact E].
        rewrite lookup_app_r by lia. rewrite Nat.sub_diag. reflexivity.
      * intros j p Hj Hp. apply lookup_lt_Some in Hp.
        rewrite length_app in Hp. simpl in Hp. lia.
    + destruct IH as [(Hk & Hnone) | (Hk & (p & Hp & Hc) & Hlast)].
      * left. split; [exact Hk|]. intros i p Hi.
        apply lookup_app_Some in Hi as [Hi | [_ Hi]]; [eauto|].
        destruct (i - length l)%nat; [|discriminate Hi].
        inversion Hi; subst. exact E.
      * right. split; [exact Hk|]. split.
        -- exists p. split; [|exact Hc]. apply lookup_app_l_Some. exact Hp.
        -- intros j q Hj Hq.
           apply lookup_app_Some in Hq as [Hq | [_ Hq]]; [eauto|].
           destruct (j - length l)%nat; [|discriminate Hq].
           inversion Hq; subst. exact E.
Qed.

(** ** The clean-up of the processed plans *)

Lemma idx_lookup (a : list Z) (i : nat) : idx a i = default 0 (a !! i).
Proof. unfold idx. apply nth_lookup. Qed.

Lemma idx_update_positions (n : nat) (m : Z) (pos : list Z) (i : nat) :
  (i < n)%nat ->
  idx (update_positions n m pos) i
  = if idx pos i =? 0 then idx pos i else idx pos i - m.
Proof.
  intros Hi. unfold update_positions. rewrite !idx_lookup.
  destruct (decide (i < length pos)%nat) as [Hlt|Hge].
  - rewrite lookup_app_l
      by (rewrite length_map, length_take; lia).
    rewrite list_lookup_fmap, lookup_take_lt by lia.
    destruct (lookup_lt_is_Some_2 pos i Hlt) as [p Hp].
    rewrite Hp. reflexivity.
  - rewrite (proj2 (lookup_ge_None pos i)) by lia.
    rewrite (proj2 (lookup_ge_None _ i)); [reflexivity|].
    rewrite length_app, length_map, length_take, length_drop. lia.
Qed.

(** The minimum search, as a minimum: it is below the position of
    attribute 0 and of every attribute of [attribute_ids[1..]], and it is
    one of them. *)
Lemma min_pos_of_spec (ids : list Z) (pos : list Z) :
  let m := min_pos_of ids pos in
  m <= idx pos 0
  /\ (forall a, a ∈ drop 1 ids -> m <= idx pos (Z.to_nat a))
  /\ (m = idx pos 0 \/ exists a, a ∈ drop 1 ids /\ m = idx pos (Z.to_nat a)).
Proof.
  unfold min_pos_of. generalize (drop 1 ids) as l. intros l.
  assert (Hgen : forall l m0,
            let m := foldl (fun min_pos id =>
                              if idx pos (Z.to_nat id) <? min_pos
                              then idx pos (Z.to_nat id) else min_pos) m0 l in
            m <= m0
            /\ (forall a, a ∈ l -> m <= idx pos (Z.to_nat a))
            /\ (m = m0 \/ exists a, a ∈ l /\ m = idx pos (Z.to_nat a))).
  { clear l. induction l as [|a l IH]; intros m0; simpl.
    - split; [lia|]. split; [|auto]. intros a Ha. inversion Ha.
    - specialize (IH (if idx pos (Z.to_nat a) <? m0
                      then idx pos (Z.to_nat a) else m0)).
      simpl in IH. destruct IH as (Hle & Hall & Hex).
      destruct (Z.ltb_spec (idx pos (Z.to_nat a)) m0).
      + split; [lia|]. split.
        * intros b Hb. apply elem_of_cons in Hb as [->|Hb]; [lia | auto].
        * right. destruct Hex as [Hm | (b & Hb & Hm)].
          -- exists a. split; [apply elem_of_cons; auto | exact Hm].
          -- exists b. split; [apply elem_of_cons; auto | exact Hm].
      + split; [lia|]. split.
        * intros b Hb. apply elem_of_cons in Hb as [->|Hb]; [lia | auto].
        * destruct Hex as [Hm | (b & Hb & Hm)]; [auto|].
          right. exists b. split; [apply elem_of_cons; auto | exact Hm]. }
  apply Hgen.
Qed.

(** ** Writing an element of a vector *)

Lemma vector_set_inside {A : Type} (v : list A) (i : nat) (a : A) :
  (i < length v)%nat ->
  vector_set v (Z.of_nat i) a = Ret (<[i := a]> v).
Proof.
  intros Hi. unfold vector_set, at_index.
  destruct (Z.ltb_spec (Z.of_nat i) 0); [lia|]. rewrite Nat2Z.id.
  destruct (lookup_lt_is_Some_2 v i Hi) as [x ->]. reflexivity.
Qed.

Lemma vector_set_outside {A : Type} (v : list A) (i : nat) (a : A) :
  (length v <= i)%nat ->
  vector_set v (Z.of_nat i) a
  = Undefined (VectorIndexOutOfRange (Z.of_nat i)).
Proof.
  intros Hi. unfold vector_set, at_index.
  destruct (Z.ltb_spec (Z.of_nat i) 0); [lia|]. rewrite Nat2Z.id.
  rewrite (proj2 (lookup_ge_None v i)) by lia. reflexivity.
Qed.

(** ** Loops over the dimensions *)

Lemma existsb_seq_false (p : nat -> bool) (n : nat) :
  existsb p (seq 0 n) = false -> forall i, (i < n)%nat -> p i = false.
Proof.
  intros E i Hi. destruct (p i) eqn:Ep; [|reflexivity].
  assert (Ht : existsb p (seq 0 n) = true).
  { apply existsb_exists. exists i. split; [apply in_seq; lia | exact Ep]. }
  congruence.
Qed.

Lemma idx_map_seq (f : nat -> Z) (n i : nat) :
  (i < n)%nat -> idx (map f (seq 0 n)) i = f i.
Proof.
  intros Hi. unfold idx.
  rewrite (nth_indep _ 0 (f 0%nat)) by (rewrite length_map, length_seq; lia).
  rewrite map_nth, seq_nth by lia. reflexivity.
Qed.

(** * Properties of the reads beyond the overflow protocol *)

(** The status a read of one attribute returns is [TILEDB_ARS_OK] or
    [TILEDB_ARS_ERR], whatever the coordinate type and the read state:
    on success [buffer_size] is rewritten to the buffer offset reached, on
    error it is left as the caller passed it. *)
Theorem attribute_read_rewrites_size_on_success_only `{Fragment.Ops F}
    (fuel : nat) (coords_type : CoordsType) (A : Array) (attr : Z)
    (st : ArrayReadState F) (buf : Buffer) (bsz : Z) rc st' buf' bsz' off' :
  read_multiple_fragments_dense_attr_dispatch fuel coords_type A attr st
    buf bsz = Ret (rc, st', buf', bsz', off') ->
  (rc = TILEDB_ARS_OK /\ bsz' = off') \/ (rc = TILEDB_ARS_ERR /\ bsz' = bsz).
Proof.
  assert (Hloop : forall fuel (st : ArrayReadState F) buf off,
            read_dense_attr_loop fuel A attr bsz st buf off
              = Ret (rc, st', buf', bsz', off') ->
            (rc = TILEDB_ARS_OK /\ bsz' = off')
            \/ (rc = TILEDB_ARS_ERR /\ bsz' = bsz)).
  { clear fuel st buf. induction fuel as [|fuel IH]; intros st buf off Hrun;
      [discriminate|].
    cbn [read_dense_attr_loop] in Hrun.
    destruct (vector_at (tile_done_ st) attr) as [td| |];
      unfold mbind, Run_bind in Hrun; try discriminate.
    match type of Hrun with match ?x with _ => _ end = _ =>
      destruct x as [[[[rc1 st1] buf1] off1]| |]; try discriminate
    end.
    destruct (negb (rc1 =? TILEDB_ARS_OK)).
    { inversion Hrun; subst. auto. }
    destruct (vector_at (overflow_ st1) attr) as [[]| |]; try discriminate.
    { inversion Hrun; subst. auto. }
    destruct (vector_at (fragment_cell_pos_ranges_vec_pos_ st1) attr)
      as [pos| |]; try discriminate.
    match type of Hrun with match ?x with _ => _ end = _ =>
      destruct x as [[rc2 st2]| |]; try discriminate
    end.
    destruct (negb (rc2 =? TILEDB_ARS_OK)).
    { inversion Hrun; subst. auto. }
    destruct (done_ st2).
    { inversion Hrun; subst. auto. }
    destruct (copy_cell_ranges attr bsz st2 buf1 off1)
      as [[[[rc3 st3] buf3] off3]| |]; try discriminate.
    destruct (negb (rc3 =? TILEDB_ARS_OK)).
    { inversion Hrun; subst. auto. }
    destruct (vector_at (overflow_ st3) attr) as [[]| |]; try discriminate.
    { inversion Hrun; subst. auto. }
    eapply IH; eauto. }
  unfold read_multiple_fragments_dense_attr_dispatch,
    read_multiple_fragments_dense_attr.
  destruct coords_type; intros Hrun; try (eapply Hloop; eauto; fail).
  all: inversion Hrun; subst; auto.
Qed.

Lemma attribute_read_rewrites_size_on_success_only_witness :
  exists st' buf' bsz' off',
    read_multiple_fragments_dense_attr_dispatch 20 coords_int line_array 0
      line_state [0; 0; 0; 0] 4 = Ret (TILEDB_ARS_OK, st', buf', bsz', off')
    /\ bsz' = off'.
Proof.
  destruct (read_multiple_fragments_dense_attr_dispatch 20 coords_int
              line_array 0 line_state [0; 0; 0; 0] 4)
    as [[[[[rc st'] buf'] bsz'] off']| |] eqn:E.
  - destruct (attribute_read_rewrites_size_on_success_only
                _ _ _ _ _ _ _ _ _ _ _ _ E) as [[Hrc Hsz] | [Hrc _]].
    + exists st', buf', bsz', off'. subst rc. split; [reflexivity | exact Hsz].
    + vm_compute in E. injection E as Hrc' _. rewrite Hrc in Hrc'.
      discriminate Hrc'.
  - vm_compute in E. discriminate E.
  - vm_compute in E. discriminate E.
Defined.

(** A successful read of the one requested attribute of a dense array
    with fragments (the sanity check of line 100) ends in exactly one of two
    ways: the buffer overflowed and the read is not done, or the read is
    done and nothing overflowed. *)
Theorem successful_read_overflows_or_is_done `{Fragment.Ops F}
    (fuel : nat) (A : Array) (attr : Z) (st : ArrayReadState F)
    (buf : Buffer) (bsz : Z) st' bufs sizes :
  fragments st <> [] ->
  dense (array_schema A) = true ->
  attribute_ids A = [attr] ->
  var_size (array_schema A) attr = false ->
  0 <= attr <= Z.of_nat (attribute_num (array_schema A)) ->
  read_multiple_fragments fuel coords_int A st [buf] [bsz]
    = Ret (Some TILEDB_ARS_OK, st', bufs, sizes) ->
  (vector_at (overflow_ st') attr = Ret true /\ done_ st' = false)
  \/ (vector_at (overflow_ st') attr = Ret false /\ done_ st' = true).
Proof.
  intros _ Hd Hids Hvar Hattr Hrun.
  rewrite (read_multiple_fragments_single _ _ attr) in Hrun by assumption.
  destruct (read_dense_attr_loop fuel A attr bsz (reset_state A st) buf 0)
    as [[[[[rc st1] buf1] bsz1] off1]| |] eqn:E; try discriminate.
  inversion Hrun; subst; clear Hrun.
  apply read_dense_attr_loop_exit in E.
  - destruct E as [[Hrc _] | [(_ & _ & Ht & Hn) | (_ & _ & Hf & Hy & _)]];
      [discriminate Hrc | left; auto | right; auto].
  - reflexivity.
  - apply reset_state_overflow. exact Hattr.
Qed.

Lemma successful_read_overflows_or_is_done_witness :
  exists st' bufs sizes,
    read_multiple_fragments 20 coords_int line_array
      (new_ArrayReadState line_array ten_cells) [[0; 0; 0; 0]] [4]
    = Ret (Some TILEDB_ARS_OK, st', bufs, sizes)
    /\ ((vector_at (overflow_ st') 0 = Ret true /\ done_ st' = false)
        \/ (vector_at (overflow_ st') 0 = Ret false /\ done_ st' = true)).
Proof.
  destruct (read_multiple_fragments 20 coords_int line_array
              (new_ArrayReadState line_array ten_cells) [[0; 0; 0; 0]] [4])
    as [[[[rc st'] bufs] sizes]| |] eqn:E.
  - pose proof E as E'. vm_compute in E'. injection E' as Hrc _ _ _.
    subst rc. exists st', bufs, sizes. split; [reflexivity|].
    apply (successful_read_overflows_or_is_done 20 line_array 0
             (new_ArrayReadState line_array ten_cells) [0; 0; 0; 0] 4
             st' bufs sizes);
      [discriminate | reflexivity | reflexivity | reflexivity | simpl; lia
      | exact E].
  - vm_compute in E. discriminate E.
  - vm_compute in E. discriminate E.
Defined.

(** Reading on after the end.  When a read of the one requested attribute
    of a dense array with fragments reported that the read is done while
    plans are still stored, the next call of [read_multiple_fragments] on
    the state it left is undefined:
    [get_next_cell_ranges_dense] is entered with the tile cursor cleared
    (the assertion of line 540, the [memcpy] of lines 542-545). *)
Theorem read_after_done_is_undefined `{Fragment.Ops F}
    (fuel : nat) (A : Array) (attr : Z) (st : ArrayReadState F)
    (buf : Buffer) (bsz : Z) st' bufs sizes :
  fragments st <> [] ->
  dense (array_schema A) = true ->
  attribute_ids A = [attr] ->
  var_size (array_schema A) attr = false ->
  0 <= attr <= Z.of_nat (attribute_num (array_schema A)) ->
  read_multiple_fragments fuel coords_int A st [buf] [bsz]
    = Ret (Some TILEDB_ARS_OK, st', bufs, sizes) ->
  done_ st' = true ->
  fragment_cell_pos_ranges_vec_ st' <> [] ->
  forall fuel2 buf2 bsz2,
    read_multiple_fragments (S fuel2) coords_int A st' [buf2] [bsz2]
    = Undefined NullTileCoords.
Proof.
  intros _ Hd Hids Hvar Hattr Hrun Hdone Hvec fuel2 buf2 bsz2.
  rewrite (read_multiple_fragments_single _ _ attr) in Hrun by assumption.
  destruct (read_dense_attr_loop fuel A attr bsz (reset_state A st) buf 0)
    as [[[[[rc st1] buf1] bsz1] off1]| |] eqn:E; try discriminate.
  inversion Hrun; subst; clear Hrun.
  assert (Hov0 : forall s : ArrayReadState F,
            vector_at (overflow_ (reset_state A s)) attr = Ret false).
  { intros s. apply reset_state_overflow. exact Hattr. }
  apply read_dense_attr_loop_exit in E; [| reflexivity | apply Hov0].
  destruct E as [[Hrc _] | [(_ & _ & _ & Hn) | (_ & _ & _ & _ & Htd & Hc & pos & Hpos & Hpast)]];
    [discriminate Hrc | congruence |].
  rewrite (read_multiple_fragments_single _ _ attr) by assumption.
  cbn [read_dense_attr_loop].
  replace (tile_done_ (reset_state A st')) with (tile_done_ st')
    by reflexivity.
  rewrite Htd. unfold mbind at 1, Run_bind at 1. simpl negb. cbv iota.
  unfold mbind at 1, Run_bind at 1. simpl negb. cbv iota.
  rewrite Hov0. unfold mbind at 1, Run_bind at 1.
  replace (fragment_cell_pos_ranges_vec_pos_ (reset_state A st'))
    with (fragment_cell_pos_ranges_vec_pos_ st') by reflexivity.
  rewrite Hpos. unfold mbind at 1, Run_bind at 1.
  replace (past_the_plans pos (reset_state A st'))
    with (past_the_plans pos st') by reflexivity.
  rewrite Hpast.
  assert (Hnext : get_next_cell_ranges_dense fuel2 A (reset_state A st')
                  = Undefined NullTileCoords).
  { unfold get_next_cell_ranges_dense.
    replace (fragment_cell_pos_ranges_vec_ (reset_state A st'))
      with (fragment_cell_pos_ranges_vec_ st') by reflexivity.
    rewrite bool_decide_eq_false_2 by exact Hvec.
    replace (range_global_tile_coords_ (reset_state A st'))
      with (range_global_tile_coords_ st') by reflexivity.
    rewrite Hc. reflexivity. }
  rewrite Hnext. reflexivity.
Qed.

Lemma read_after_done_is_undefined_witness :
  exists st' bufs sizes,
    read_multiple_fragments 20 coords_int line_array
      (new_ArrayReadState line_array ten_cells) [[]] [40]
    = Ret (Some TILEDB_ARS_OK, st', bufs, sizes)
    /\ read_multiple_fragments 1 coords_int line_array st' [[]] [40]
       = Undefined NullTileCoords.
Proof.
  destruct (read_multiple_fragments 20 coords_int line_array
              (new_ArrayReadState line_array ten_cells) [[]] [40])
    as [[[[rc st'] bufs] sizes]| |] eqn:E.
  - pose proof E as E'. vm_compute in E'. injection E' as Hrc Hst _ _.
    subst rc. exists st', bufs, sizes. split; [reflexivity|].
    apply (read_after_done_is_undefined 20 line_array 0
             (new_ArrayReadState line_array ten_cells) [] 40 st' bufs sizes);
      [discriminate | reflexivity | reflexivity | reflexivity | simpl; lia
      | exact E | |].
    + rewrite <- Hst. reflexivity.
    + rewrite <- Hst. discriminate.
  - vm_compute in E. discriminate E.
  - vm_compute in E. discriminate E.
Defined.

(** The read of an attribute that finds the read done returns at once. *)
Lemma read_dense_attr_loop_done `{Fragment.Ops F} (fuel : nat) (A : Array)
    (attr bsz : Z) (st : ArrayReadState F) buf off pos :
  done_ st = true ->
  vector_at (tile_done_ st) attr = Ret true ->
  vector_at (overflow_ st) attr = Ret false ->
  vector_at (fragment_cell_pos_ranges_vec_pos_ st) attr = Ret pos ->
  past_the_plans pos st = false ->
  read_dense_attr_loop (S fuel) A attr bsz st buf off
  = Ret (TILEDB_ARS_OK, st, buf, off, off).
Proof.
  intros Hdone Htd Hov Hpos Hpast. cbn [read_dense_attr_loop].
  rewrite Htd. unfold mbind, Run_bind. simpl negb. cbv iota.
  rewrite Hov, Hpos, Hpast. simpl negb. cbv iota. rewrite Hdone.
  reflexivity.
Qed.

(** The end of the read is shared by the attributes.  In a read of two
    fixed-size attributes of a dense array with fragments, when the read of
    the first one ends with the
    read done, the read of the second one meets the same flag (line 1000)
    before it copies anything: the call returns success with the second
    buffer untouched and its size rewritten to 0, although the attribute
    stands on a stored plan it has not copied. *)
Theorem second_attribute_reads_nothing_once_done `{Fragment.Ops F}
    (fuel : nat) (A : Array) (a1 a2 : Z) (st : ArrayReadState F)
    (buf1 buf2 : Buffer) (b1 b2 : Z) st1 buf1' size1 off1 pos :
  fragments st <> [] ->
  dense (array_schema A) = true ->
  attribute_ids A = [a1; a2] ->
  var_size (array_schema A) a1 = false ->
  var_size (array_schema A) a2 = false ->
  read_multiple_fragments_dense_attr (S fuel) A a1 (reset_state A st)
    buf1 b1 = Ret (TILEDB_ARS_OK, st1, buf1', size1, off1) ->
  done_ st1 = true ->
  vector_at (tile_done_ st1) a2 = Ret true ->
  vector_at (overflow_ st1) a2 = Ret false ->
  vector_at (fragment_cell_pos_ranges_vec_pos_ st1) a2 = Ret pos ->
  past_the_plans pos st1 = false ->
  read_multiple_fragments (S fuel) coords_int A st [buf1; buf2] [b1; b2]
  = Ret (Some TILEDB_ARS_OK, st1, [buf1'; buf2], [size1; 0]).
Proof.
  intros _ Hd Hids Hv1 Hv2 Hrun Hdone Htd Hov Hpos Hpast.
  unfold read_multiple_fragments_dense_attr, reset_state in Hrun.
  unfold read_multiple_fragments, read_multiple_fragments_dense.
  rewrite Hd, Hids. cbn [read_dense_attrs]. rewrite Hv1, Hv2.
  unfold read_multiple_fragments_dense_attr_dispatch,
    read_multiple_fragments_dense_attr.
  simpl negb. cbv iota.
  change (vector_at [buf1; buf2] (Z.of_nat 0)) with (Ret buf1).
  change (vector_at [b1; b2] (Z.of_nat 0)) with (Ret b1).
  unfold mbind at 1, Run_bind at 1. unfold mbind at 1, Run_bind at 1.
  rewrite Hrun.
  unfold mbind at 1, Run_bind at 1. simpl negb. cbv iota.
  change (vector_at (<[0%nat := buf1']> [buf1; buf2]) (Z.of_nat 1))
    with (Ret buf2).
  change (vector_at (<[0%nat := size1]> [b1; b2]) (Z.of_nat 1)) with (Ret b2).
  unfold mbind at 1, Run_bind at 1. unfold mbind at 1, Run_bind at 1.
  rewrite (read_dense_attr_loop_done fuel A a2 b2 st1 buf2 0 pos)
    by assumption.
  reflexivity.
Qed.

Lemma second_attribute_reads_nothing_once_done_witness :
  exists st1,
    read_multiple_fragments 20 coords_int array_two_attributes
      (new_ArrayReadState array_two_attributes ten_cells) [[]; []] [40; 40]
    = Ret (Some TILEDB_ARS_OK, st1,
           [[100; 101; 102; 103; 104; 105; 106; 107; 108; 109]; []], [10; 0])
    /\ vector_at (fragment_cell_pos_ranges_vec_ st1) 0 = Ret [(0, (0, 9))]
    /\ vector_at (fragment_cell_pos_ranges_vec_pos_ st1) 1 = Ret 0.
Proof.
  destruct (read_multiple_fragments_dense_attr 20 array_two_attributes 0
              (reset_state array_two_attributes
                 (new_ArrayReadState array_two_attributes ten_cells)) [] 40)
    as [[[[[rc st1] buf1'] size1] off1]| |] eqn:E.
  - pose proof E as E'. vm_compute in E'.
    injection E' as Hrc Hst Hbuf Hsize Hoff. subst rc.
    exists st1. split.
    + rewrite Hbuf, Hsize.
      apply (second_attribute_reads_nothing_once_done 19
               array_two_attributes 0 1
               (new_ArrayReadState array_two_attributes ten_cells)
               [] [] 40 40 st1 buf1' size1 off1 0);
        [ discriminate | reflexivity | reflexivity | reflexivity
        | reflexivity | exact E
        | rewrite <- Hst; reflexivity | rewrite <- Hst; reflexivity
        | rewrite <- Hst; reflexivity | rewrite <- Hst; reflexivity
        | rewrite <- Hst; reflexivity ].
    + rewrite <- Hst. split; reflexivity.
  - vm_compute in E. discriminate E.
  - vm_compute in E. discriminate E.
Defined.

(** The plan an attribute stands on, copied to its end without overflow:
    the attribute alone moves on, by one plan, and its tile alone is marked
    as done; the plans, the end of the read and the tile cursor stay as they
    were. *)
Theorem copied_plan_advances_its_attribute_only `{Fragment.Ops F}
    (attr bsz : Z) (st : ArrayReadState F) buf off st' buf' off' :
  vector_at (overflow_ st) attr = Ret false ->
  copy_cell_ranges attr bsz st buf off
    = Ret (TILEDB_ARS_OK, st', buf', off') ->
  vector_at (overflow_ st') attr = Ret false ->
  (exists pos,
     vector_at (fragment_cell_pos_ranges_vec_pos_ st) attr = Ret pos
     /\ vector_at (fragment_cell_pos_ranges_vec_pos_ st') attr
        = Ret (pos + 1))
  /\ (forall a, a <> attr -> 0 <= a ->
        vector_at (fragment_cell_pos_ranges_vec_pos_ st') a
        = vector_at (fragment_cell_pos_ranges_vec_pos_ st) a
        /\ vector_at (tile_done_ st') a = vector_at (tile_done_ st) a)
  /\ length (fragment_cell_pos_ranges_vec_pos_ st')
     = length (fragment_cell_pos_ranges_vec_pos_ st)
  /\ tile_done_ st' = <[Z.to_nat attr := true]> (tile_done_ st)
  /\ fragment_cell_pos_ranges_vec_ st' = fragment_cell_pos_ranges_vec_ st
  /\ done_ st' = done_ st
  /\ range_global_tile_coords_ st' = range_global_tile_coords_ st.
Proof.
  intros Hov Hrun Hov'.
  destruct (copy_cell_ranges_complete _ _ _ _ _ _ _ _ Hov Hrun Hov')
    as (pos & Hpos & Hp & Htd & Hvec & Hdone & Hc).
  split.
  { exists pos. split; [exact Hpos|]. rewrite Hp.
    apply vector_at_insert. eapply vector_at_length; eauto. }
  split.
  { intros a Ha H0. rewrite Hp, Htd. unfold vector_at, at_index.
    destruct (Z.ltb_spec a 0); [lia|].
    assert (Hne : Z.to_nat attr <> Z.to_nat a).
    { apply vector_at_length in Hpos. lia. }
    rewrite !list_lookup_insert_ne by exact Hne. auto. }
  split; [rewrite Hp; apply length_insert|]. auto.
Qed.

Lemma copied_plan_advances_its_attribute_only_witness :
  exists st' buf' off',
    copy_cell_ranges 0 40 partly_covered_planned [] 0
    = Ret (TILEDB_ARS_OK, st', buf', off')
    /\ vector_at (fragment_cell_pos_ranges_vec_pos_ st') 0 = Ret 1
    /\ tile_done_ st' = [true].
Proof.
  destruct (copy_cell_ranges 0 40 partly_covered_planned [] 0)
    as [[[[rc st'] buf'] off']| |] eqn:E.
  - pose proof E as E'. vm_compute in E'. injection E' as Hrc Hst _ _.
    subst rc. exists st', buf', off'. split; [reflexivity|].
    destruct (copied_plan_advances_its_attribute_only 0 40
                partly_covered_planned [] 0 st' buf' off')
      as ((pos & Hpos & Hpos') & _ & _ & Htd & _);
      [reflexivity | exact E | rewrite <- Hst; reflexivity |].
    vm_compute in Hpos. injection Hpos as <-.
    split; [exact Hpos' | exact Htd].
  - vm_compute in E. discriminate E.
  - vm_compute in E. discriminate E.
Defined.

(** The overlap of the query range with the current tile, once it is
    brought back to global coordinates, is the query range clipped to the
    tile: in every dimension it starts at the larger of the two lower ends
    and stops at the smaller of the two upper ends; relative to the tile it
    never leaves the extent of the tile. *)
Theorem overlap_is_the_query_range_clipped_to_the_tile {F : Type}
    (A : Array) (st st' : ArrayReadState F) (tile : Coords) (i : nat) :
  range_global_tile_coords_ st = Some tile ->
  compute_max_overlap_range A st = Ret st' ->
  (i < dim_num (array_schema A))%nat ->
  let AS := array_schema A in
  let g := global_overlap_range AS tile (max_overlap_range_ st') in
  let td := compute_tile_domain AS tile in
  idx g (2 * i) = Z.max (idx (range A) (2 * i)) (idx td (2 * i))
  /\ idx g (2 * i + 1) = Z.min (idx (range A) (2 * i + 1)) (idx td (2 * i + 1))
  /\ 0 <= idx (max_overlap_range_ st') (2 * i)
  /\ idx (max_overlap_range_ st') (2 * i + 1) <= idx (tile_extents AS) i - 1.
Proof.
  intros Htile Hrun Hi AS g td. unfold compute_max_overlap_range in Hrun.
  rewrite Htile in Hrun. inversion Hrun; subst st'; clear Hrun.
  subst AS g td. cbn [max_overlap_range_ set_max_overlap].
  destruct (global_overlap_range_idx (array_schema A) tile
              (overlap_range (array_schema A) (range A) tile) i Hi)
    as [-> ->].
  destruct (compute_tile_domain_idx (array_schema A) tile i Hi) as [-> ->].
  destruct (overlap_range_idx (array_schema A) (range A) tile i Hi)
    as [-> ->].
  lia.
Qed.

Lemma overlap_is_the_query_range_clipped_to_the_tile_witness :
  exists st',
    compute_max_overlap_range window_array (window_on_tile [1; 0])
    = Ret st'
    /\ idx (global_overlap_range schema_10x10 [1; 0]
              (max_overlap_range_ st')) 0 = 5
    /\ idx (global_overlap_range schema_10x10 [1; 0]
              (max_overlap_range_ st')) 1 = 7.
Proof.
  eexists. split; [reflexivity|].
  destruct (overlap_is_the_query_range_clipped_to_the_tile
              window_array (window_on_tile [1; 0])
              _ [1; 0] 0%nat eq_refl eq_refl ltac:(simpl; lia))
    as (Hlo & Hhi & _ & _).
  split; [exact Hlo | exact Hhi].
Defined.

(** ** The slabs of a non-contiguous overlap *)

Lemma row_slabs_2d (g : list Z) (mi : Z) (n : nat) :
  forall (fuel : nat) (x y : Z) (acc : FragmentCellRanges),
  Z.to_nat (idx g 1 - x + 1) = n -> (n < fuel)%nat ->
  row_slabs fuel 2 g mi [x; y] acc
  = Ret (acc ++ map (fun k => (mi, ([x + Z.of_nat k; idx g 2],
                                    [x + Z.of_nat k; idx g 3])))
                  (seq 0 n)).
Proof.
  induction n as [|n IH]; intros fuel x y acc Hn Hfuel;
    (destruct fuel as [|fuel]; [lia|]); cbn [row_slabs].
  - change (idx [x; y] 0) with x.
    destruct (Z.leb_spec x (idx g 1)); [lia|].
    simpl. rewrite app_nil_r. reflexivity.
  - change (idx [x; y] 0) with x.
    destruct (Z.leb_spec x (idx g 1)); [|lia].
    change (carry_row g (2 - 2) (<[(2 - 2)%nat := idx [x; y] (2 - 2) + 1]> [x; y]))
      with [x + 1; y].
    rewrite (IH fuel (x + 1) y) by lia.
    rewrite <- app_assoc. f_equal. f_equal.
    cbn [seq map app]. rewrite Z.add_0_r.
    f_equal. rewrite <- seq_shift, map_map.
    apply map_ext. intros k. rewrite Nat2Z.inj_succ.
    replace (x + Z.succ (Z.of_nat k)) with (x + 1 + Z.of_nat k) by lia.
    reflexivity.
Qed.

Lemma col_slabs_2d (g : list Z) (mi : Z) (n : nat) :
  forall (fuel : nat) (x y : Z) (acc : FragmentCellRanges),
  Z.to_nat (idx g 3 - y + 1) = n -> (n < fuel)%nat ->
  col_slabs fuel 2 g mi [x; y] acc
  = Ret (acc ++ map (fun k => (mi, ([idx g 0; y + Z.of_nat k],
                                    [idx g 1; y + Z.of_nat k])))
                  (seq 0 n)).
Proof.
  induction n as [|n IH]; intros fuel x y acc Hn Hfuel;
    (destruct fuel as [|fuel]; [lia|]); cbn [col_slabs].
  - change (idx [x; y] (2 - 1)) with y.
    change (idx g (2 * (2 - 1) + 1)) with (idx g 3).
    destruct (Z.leb_spec y (idx g 3)); [lia|].
    simpl. rewrite app_nil_r. reflexivity.
  - change (idx [x; y] (2 - 1)) with y.
    change (idx g (2 * (2 - 1) + 1)) with (idx g 3).
    destruct (Z.leb_spec y (idx g 3)); [|lia].
    change (carry_col g (2 - 2) 1 (<[1%nat := idx [x; y] 1 + 1]> [x; y]))
      with [x; y + 1].
    rewrite (IH fuel x (y + 1)) by lia.
    rewrite <- app_assoc. f_equal. f_equal.
    cbn [seq map app]. rewrite Z.add_0_r.
    f_equal. rewrite <- seq_shift, map_map.
    apply map_ext. intros k. rewrite Nat2Z.inj_succ.
    replace (y + Z.succ (Z.of_nat k)) with (y + 1 + Z.of_nat k) by lia.
    reflexivity.
Qed.

(** A non-contiguous overlap in two dimensions is cut into slabs along the
    cell order.  Row-major: one cell range per row of the overlap, from its
    first to its last column, the rows in increasing order.  Column-major:
    one cell range per column, from its first to its last row, the columns
    in increasing order.  Every slab carries [max_overlap_i_], and the loop
    ends after as many turns as there are slabs. *)
Theorem non_contiguous_overlap_is_cut_into_slabs {F : Type} (fuel : nat)
    (A : Array) (st : ArrayReadState F) (tile : Coords)
    (acc : FragmentCellRanges) :
  let AS := array_schema A in
  let g := global_overlap_range AS tile (max_overlap_range_ st) in
  let rows := Z.to_nat (idx g 1 - idx g 0 + 1) in
  let columns := Z.to_nat (idx g 3 - idx g 2 + 1) in
  dim_num AS = 2%nat ->
  range_global_tile_coords_ st = Some tile ->
  max_overlap_type_ st = PARTIAL_NON_CONTIG ->
  (cell_order AS = TILEDB_AS_CO_ROW_MAJOR -> (rows < fuel)%nat ->
   compute_max_overlap_fragment_cell_ranges fuel A st acc
   = Ret (acc ++ map (fun k =>
                        (max_overlap_i_ st,
                         ([idx g 0 + Z.of_nat k; idx g 2],
                          [idx g 0 + Z.of_nat k; idx g 3])))
                   (seq 0 rows)))
  /\ (cell_order AS = TILEDB_AS_CO_COLUMN_MAJOR -> (columns < fuel)%nat ->
      compute_max_overlap_fragment_cell_ranges fuel A st acc
      = Ret (acc ++ map (fun k =>
                           (max_overlap_i_ st,
                            ([idx g 0; idx g 2 + Z.of_nat k],
                             [idx g 1; idx g 2 + Z.of_nat k])))
                      (seq 0 columns))).
Proof.
  intros AS g rows columns Hdim Htile Htype.
  unfold compute_max_overlap_fragment_cell_ranges.
  rewrite Htile, Htype. fold AS. fold g. rewrite Hdim.
  change (map (fun i => idx g (2 * i)) (seq 0 2)) with [idx g 0; idx g 2].
  split; intros -> Hfuel.
  - apply row_slabs_2d; [reflexivity | exact Hfuel].
  - apply col_slabs_2d; [reflexivity | exact Hfuel].
Qed.

Lemma non_contiguous_overlap_is_cut_into_slabs_witness :
  compute_max_overlap_fragment_cell_ranges 4 window_array
    (set_max_overlap (window_on_tile [0; 0]) [2; 4; 3; 4] PARTIAL_NON_CONTIG)
    []
  = Ret [ (0, ([2; 3], [2; 4])); (0, ([3; 3], [3; 4]));
          (0, ([4; 3], [4; 4])) ].
Proof.
  exact (proj1 (non_contiguous_overlap_is_cut_into_slabs 4 window_array
                  (set_max_overlap (window_on_tile [0; 0]) [2; 4; 3; 4]
                     PARTIAL_NON_CONTIG)
                  [0; 0] [] eq_refl eq_refl eq_refl)
           eq_refl ltac:(vm_compute; lia)).
Defined.

(** The merge never emits a range of the empty fragment.  Every range of
    the result of the queue processing carries the index of a fragment of
    the array: the fragment of each popped range is dereferenced (lines 284
    and 301) before the range can be emitted, so that a range tagged -1, as
    [compute_max_overlap_fragment_cell_ranges] pushes when no fragment
    covers the overlap, either is discarded or ends the run in an access
    outside the fragment vector.  When all fragments are dense, the entries
    of the plan carry the indices of the merged ranges. *)
Theorem merged_ranges_name_fragments_of_the_array `{Fragment.Ops F}
    (fuel : nat) (AS : ArraySchema) (fs : list F) (tile : Coords)
    (unsorted : FragmentCellRanges) :
  (forall rc out log,
     merge_fragment_cell_ranges fuel AS fs tile unsorted
       = Ret (rc, out, log) ->
     Forall (fun r => 0 <= fst r < Z.of_nat (length fs)) out)
  /\ (forall rc plan log,
        compute_fragment_cell_pos_ranges fuel AS fs tile unsorted
          = Ret (rc, plan, log) ->
        Forall (fun f => Fragment.dense f = true) fs ->
        Forall (fun e => 0 <= fst e < Z.of_nat (length fs)) plan).
Proof.
  assert (Hmerge : forall rc out log,
            merge_fragment_cell_ranges fuel AS fs tile unsorted
              = Ret (rc, out, log) ->
            Forall (fun r => exists f, fragment_at fs (fst r) = Ret f) out).
  { intros rc out log Hrun. unfold merge_fragment_cell_ranges in Hrun.
    eapply process_queue_fragments; [exact Hrun | apply List.Forall_nil]. }
  assert (Hrange : forall i (f : F), fragment_at fs i = Ret f ->
            0 <= i < Z.of_nat (length fs)).
  { intros i f Hf. apply fragment_at_Ret in Hf as [H0 Hf].
    apply lookup_lt_Some in Hf. lia. }
  split.
  - intros rc out log Hrun. eapply Forall_impl; [|exact (Hmerge _ _ _ Hrun)].
    intros r [f Hf]. eauto.
  - intros rc plan log Hrun Hdense.
    unfold compute_fragment_cell_pos_ranges in Hrun.
    destruct (merge_fragment_cell_ranges fuel AS fs tile unsorted)
      as [[[rc1 out] log1]| |] eqn:Em; unfold mbind, Run_bind in Hrun;
      try discriminate.
    destruct (rc1 =? TILEDB_ARS_OK).
    2: { inversion Hrun; subst. apply List.Forall_nil. }
    pose proof (Hmerge _ _ _ eq_refl) as Hout.
    rewrite (to_cell_pos_ranges_dense AS fs _ out) in Hrun.
    + inversion Hrun; subst. simpl. apply Forall_map.
      eapply Forall_impl; [|exact Hout]. intros r [f Hf]. simpl. eauto.
    + eapply Forall_impl; [|exact Hout]. intros r [f Hf]. exists f.
      split; [exact Hf|].
      apply fragment_at_Ret in Hf as [_ Hf].
      rewrite list.Forall_forall in Hdense. apply Hdense.
      eapply list_elem_of_lookup_2; eauto.
Qed.

Lemma merged_ranges_name_fragments_of_the_array_witness :
  exists plan log,
    compute_fragment_cell_pos_ranges 20 schema_line three_dense_fragments
      [0] nested_ranges = Ret (TILEDB_ARS_OK, plan, log)
    /\ Forall (fun e => 0 <= fst e < 3) plan.
Proof.
  destruct (compute_fragment_cell_pos_ranges 20 schema_line
              three_dense_fragments [0] nested_ranges)
    as [[[rc plan] log]| |] eqn:E.
  - pose proof E as E'. vm_compute in E'. injection E' as Hrc _ _.
    subst rc. exists plan, log. split; [reflexivity|].
    apply (proj2 (merged_ranges_name_fragments_of_the_array 20 schema_line
                    three_dense_fragments [0] nested_ranges)
             _ _ _ E).
    repeat (apply List.Forall_cons; [reflexivity|]). apply List.Forall_nil.
  - vm_compute in E. discriminate E.
  - vm_compute in E. discriminate E.
Defined.

(** The fragment chosen for the overlap of a tile is the most recent one
    that stands on the tile and covers the overlap: [max_overlap_i_] is the
    index of such a fragment and no fragment after it is one, or it is -1
    and no fragment at all is one. *)
Theorem most_recent_covering_fragment_is_chosen `{Fragment.Ops F}
    (tile : Coords) (r : list Z) (fs : list F) (cs : list (option Coords)) :
  let k := find_max_overlap tile r (rev (indexed (zip fs cs))) in
  let covering (i : nat) :=
    exists f c, fs !! i = Some f /\ cs !! i = Some c
                /\ on_tile c tile = true /\ Fragment.max_overlap f r = true in
  (k = -1 /\ forall i, ~ covering i)
  \/ (0 <= k < Z.of_nat (length fs) /\ covering (Z.to_nat k)
      /\ forall j, (Z.to_nat k < j)%nat -> ~ covering j).
Proof.
  intros k covering.
  assert (Hzip : forall i f c, fs !! i = Some f -> cs !! i = Some c ->
            zip fs cs !! i = Some (f, c)).
  { intros i f c Hf Hc. apply lookup_zip_with_Some. eauto. }
  destruct (find_max_overlap_spec tile r (zip fs cs))
    as [(Hk & Hnone) | (Hk & ([f c] & Hp & Hc) & Hlast)].
  - left. split; [exact Hk|]. intros i (f & c & Hf & Hci & Hon & Hmax).
    specialize (Hnone i (f, c) (Hzip _ _ _ Hf Hci)). simpl in Hnone.
    rewrite Hon, Hmax in Hnone. discriminate Hnone.
  - right. fold k in Hk, Hp, Hlast.
    apply lookup_zip_with_Some in Hp as (f' & c' & Heq & Hf & Hci).
    inversion Heq; subst f' c'. simpl in Hc.
    apply andb_true_iff in Hc as [Hon Hmax].
    split; [|split].
    + apply lookup_lt_Some in Hf. lia.
    + exists f, c. auto.
    + intros j Hj (f' & c' & Hf' & Hc' & Hon' & Hmax').
      specialize (Hlast j (f', c') Hj (Hzip _ _ _ Hf' Hc')). simpl in Hlast.
      rewrite Hon', Hmax' in Hlast. discriminate Hlast.
Qed.

(** ** Sparse fragments catching up with the tile cursor *)

(** A sparse fragment that lags behind the tile cursor is moved on tile by
    tile: every tile it leaves lies before the cursor in tile order, and it
    stops at the first tile that does not, or when it has no tile left.  A
    dense fragment is not moved. *)
Theorem lagging_sparse_fragment_skips_earlier_tiles_only `{Fragment.Ops F}
    (fuel : nat) (AS : ArraySchema) (tile : Coords) (f : F)
    (c : option Coords) f' c' :
  advance_sparse fuel AS tile f c = Ret (f', c') ->
  let next := Fragment.get_next_overlapping_tile_mult in
  let pos (m : nat) :=
    match m with
    | O => c
    | S _ => Fragment.get_global_tile_coords (Nat.iter m next f)
    end in
  exists n : nat,
    f' = Nat.iter n next f /\ c' = pos n
    /\ (forall m, (m < n)%nat ->
          Fragment.dense (Nat.iter m next f) = false
          /\ exists x, pos m = Some x /\ tile_order_cmp AS x tile < 0)
    /\ match c' with
       | None => True
       | Some x => Fragment.dense f' = true \/ tile_order_cmp AS x tile >= 0
       end.
Proof.
  revert f c. induction fuel as [|fuel IH]; intros f c Hrun; [discriminate|].
  cbn [advance_sparse] in Hrun. intros next pos.
  destruct c as [x|].
  2: { inversion Hrun; subst. exists 0%nat. simpl. split; [reflexivity|].
       split; [reflexivity|]. split; [intros m Hm; lia | exact I]. }
  destruct (negb (Fragment.dense f) && (tile_order_cmp AS x tile <? 0)) eqn:E.
  - unfold advance_fragment in Hrun.
    apply IH in Hrun. cbv zeta in Hrun.
    destruct Hrun as (n & Hf & Hc & Hskip & Hstop).
    apply andb_true_iff in E as [Hd Hlt].
    apply negb_true_iff in Hd. apply Z.ltb_lt in Hlt.
    assert (Hiter : forall m, Nat.iter m next (next f)
                              = Nat.iter (S m) next f).
    { intros m. induction m as [|m IHm]; [reflexivity|].
      simpl in *. rewrite IHm. reflexivity. }
    exists (S n). split; [rewrite <- Hiter; exact Hf|].
    split.
    { rewrite Hc. subst pos. cbv beta. rewrite <- Hiter.
      destruct n; reflexivity. }
    split; [|exact Hstop].
    intros [|m] Hm.
    + split; [exact Hd|]. exists x. split; [reflexivity | exact Hlt].
    + destruct (Hskip m ltac:(lia)) as (Hdm & y & Hy & Hcmp).
      rewrite Hiter in Hdm. split; [exact Hdm|]. exists y.
      split; [|exact Hcmp]. subst pos. cbv beta. rewrite <- Hiter.
      destruct m; exact Hy.
  - inversion Hrun; subst. exists 0%nat. simpl.
    split; [reflexivity|]. split; [reflexivity|].
    split; [intros m Hm; lia|].
    apply andb_false_iff in E as [Hd | Hge].
    + left. apply negb_false_iff in Hd. exact Hd.
    + right. apply Z.ltb_ge in Hge. lia.
Qed.

Lemma lagging_sparse_fragment_skips_earlier_tiles_only_witness :
  exists f' c',
    advance_sparse 5 schema_two_tiles [2]
      (Fragment.get_next_overlapping_tile_mult
         (sparse_fragment [[0]; [1]; [2]; [3]] [] [] [9] []))
      (Some [0])
    = Ret (f', c')
    /\ match c' with
       | None => True
       | Some x =>
           Fragment.dense f' = true
           \/ tile_order_cmp schema_two_tiles x [2] >= 0
       end.
Proof.
  destruct (advance_sparse 5 schema_two_tiles [2]
              (Fragment.get_next_overlapping_tile_mult
                 (sparse_fragment [[0]; [1]; [2]; [3]] [] [] [9] []))
              (Some [0]))
    as [[f' c']| |] eqn:E.
  - exists f', c'. split; [reflexivity|].
    destruct (lagging_sparse_fragment_skips_earlier_tiles_only _ _ _ _ _ _ _ E)
      as (n & _ & _ & _ & Hstop).
    exact Hstop.
  - vm_compute in E. discriminate E.
  - vm_compute in E. discriminate E.
Defined.

(** When attribute 0 is the first requested attribute, the clean-up is
    sound for a read state whose requested attributes stand at positions
    within the stored plans: the plans it removes are plans every requested
    attribute has completed, every requested attribute still stands on the
    plan it stood on and within the plans that are left, and some requested
    attribute stands on the first plan that is left. *)
Theorem clean_up_is_sound_when_attribute_0_comes_first {F : Type}
    (A : Array) (st : ArrayReadState F) (ids : list Z) :
  let pos := fragment_cell_pos_ranges_vec_pos_ st in
  let plans := fragment_cell_pos_ranges_vec_ st in
  let st' := clean_up_processed_fragment_cell_pos_ranges A st in
  let pos' := fragment_cell_pos_ranges_vec_pos_ st' in
  let plans' := fragment_cell_pos_ranges_vec_ st' in
  attribute_ids A = 0 :: ids ->
  Forall (fun a => 0 <= a <= Z.of_nat (attribute_num (array_schema A))
                   /\ 0 <= idx pos (Z.to_nat a) <= Z.of_nat (length plans))
    (attribute_ids A) ->
  (exists removed : nat,
     plans' = drop removed plans /\ (removed <= length plans)%nat
     /\ Forall (fun a => Z.of_nat removed <= idx pos (Z.to_nat a))
          (attribute_ids A))
  /\ Forall (fun a =>
               at_index plans' (idx pos' (Z.to_nat a))
               = at_index plans (idx pos (Z.to_nat a))
               /\ 0 <= idx pos' (Z.to_nat a) <= Z.of_nat (length plans'))
       (attribute_ids A)
  /\ Exists (fun a => idx pos' (Z.to_nat a) = 0) (attribute_ids A).
Proof.
  intros pos plans st' pos' plans' Hids Hok.
  pose proof (min_pos_of_spec (attribute_ids A) pos) as Hmin.
  cbv zeta in Hmin. set (m := min_pos_of (attribute_ids A) pos) in *.
  destruct Hmin as (Hfirst & Hrest & Hmin).
  assert (Hle : forall a, a ∈ attribute_ids A -> m <= idx pos (Z.to_nat a)).
  { intros a Ha. rewrite Hids in Ha. apply elem_of_cons in Ha as [->|Ha].
    - exact Hfirst.
    - apply Hrest. rewrite Hids. exact Ha. }
  assert (Hin : exists a, a ∈ attribute_ids A /\ m = idx pos (Z.to_nat a)).
  { destruct Hmin as [Hm | (a & Ha & Hm)].
    - exists 0. split; [rewrite Hids; apply elem_of_cons; auto | exact Hm].
    - exists a. split; [|exact Hm]. rewrite Hids in Ha |- *.
      apply elem_of_cons. right. exact Ha. }
  rewrite list.Forall_forall in Hok.
  assert (Hm0 : 0 <= m <= Z.of_nat (length plans)).
  { destruct Hin as (a & Ha & ->). apply (Hok a Ha). }
  subst st' pos' plans'. unfold clean_up_processed_fragment_cell_pos_ranges.
  fold pos. fold m. fold plans. destruct (Z.eqb_spec m 0) as [Hz|Hnz].
  - fold pos. fold plans. split; [|split].
    + exists 0%nat. split; [reflexivity|]. split; [lia|].
      apply list.Forall_forall. intros a Ha. apply (Hok a Ha).
    + apply list.Forall_forall. intros a Ha.
      split; [reflexivity | apply (Hok a Ha)].
    + apply list.Exists_exists. destruct Hin as (a & Ha & Hm).
      exists a. split; [exact Ha | lia].
  - cbn [fragment_cell_pos_ranges_vec_ fragment_cell_pos_ranges_vec_pos_].
    split; [|split].
    + exists (Z.to_nat m). split; [reflexivity|]. split; [lia|].
      apply list.Forall_forall. intros a Ha. specialize (Hle a Ha). lia.
    + apply list.Forall_forall. intros a Ha.
      destruct (Hok a Ha) as [Ha0 Hp0]. specialize (Hle a Ha).
      rewrite idx_update_positions by lia.
      destruct (Z.eqb_spec (idx pos (Z.to_nat a)) 0) as [Hp|Hp]; [lia|].
      rewrite length_drop. split; [|lia].
      unfold at_index.
      destruct (Z.ltb_spec (idx pos (Z.to_nat a) - m) 0); [lia|].
      destruct (Z.ltb_spec (idx pos (Z.to_nat a)) 0); [lia|].
      rewrite lookup_drop. f_equal. lia.
    + apply list.Exists_exists. destruct Hin as (a & Ha & Hm).
      exists a. split; [exact Ha|].
      destruct (Hok a Ha) as [Ha0 _].
      rewrite idx_update_positions by lia.
      destruct (Z.eqb_spec (idx pos (Z.to_nat a)) 0); lia.
Qed.

Lemma clean_up_is_sound_when_attribute_0_comes_first_witness :
  let st' :=
    clean_up_processed_fragment_cell_pos_ranges array_two_attributes
      (state_with_plans array_two_attributes two_plans [1; 2; 0]) in
  fragment_cell_pos_ranges_vec_ st' = [ [(0, (0, 24))] ]
  /\ Exists (fun a => idx (fragment_cell_pos_ranges_vec_pos_ st') (Z.to_nat a)
                      = 0) [0; 1].
Proof.
  split; [reflexivity|].
  apply (clean_up_is_sound_when_attribute_0_comes_first array_two_attributes
           (state_with_plans array_two_attributes two_plans [1; 2; 0]) [1]).
  - reflexivity.
  - simpl attribute_ids.
    repeat (apply List.Forall_cons;
            [vm_compute; repeat split; discriminate|]).
    apply List.Forall_nil.
Defined.

(** ** The constructor *)

(** The constructor writes one element past the end of [tile_done_]: the
    vector is resized to [attribute_num] elements (line 68) and the
    initialisation loop runs [attribute_num + 1] turns (lines 74-78), so
    that its last turn writes [tile_done_[attribute_num]].  Every
    construction ends in that access, whatever the array. *)
Theorem constructor_writes_past_tile_done {F : Type} (A : Array)
    (fs : list F) (done0 : bool) :
  ArrayReadState_constructor A fs done0
  = Undefined
      (VectorIndexOutOfRange (Z.of_nat (attribute_num (array_schema A)))).
Proof.
  unfold ArrayReadState_constructor.
  generalize (attribute_num (array_schema A)) as n. intros n.
  assert (Hloop : forall turns i (p q : list Z) (t : list bool),
            length p = S n -> length q = S n -> length t = n ->
            (i + turns = n)%nat ->
            constructor_loop (S turns) (Z.of_nat i) p q t
            = Undefined (VectorIndexOutOfRange (Z.of_nat n))).
  { induction turns as [|turns IH]; intros i p q t Hp Hq Ht Hi;
      cbn [constructor_loop];
      rewrite (vector_set_inside p) by lia;
      unfold mbind at 1, Run_bind at 1;
      rewrite (vector_set_inside q) by lia;
      unfold mbind at 1, Run_bind at 1.
    - rewrite (vector_set_outside t) by lia.
      replace i with n by lia. reflexivity.
    - rewrite (vector_set_inside t) by lia.
      unfold mbind at 1, Run_bind at 1.
      replace (Z.of_nat i + 1) with (Z.of_nat (S i)) by lia.
      apply IH; rewrite ?length_insert; lia. }
  change 0 with (Z.of_nat 0).
  rewrite (Hloop n 0%nat); [reflexivity | | | | lia];
    rewrite length_replicate; reflexivity.
Qed.

(** ** The comparator of the merge queue *)

(** [SmallerFragmentCellRange] is a strict weak ordering, as
    [std::priority_queue] requires of its comparator, on the ranges whose
    first coordinates the cell order of the schema orders: there it is
    irreflexive, asymmetric and transitive, and so is the equivalence of
    the ranges it does not tell apart, which are those that start at cells
    of the same rank and come from the same fragment. *)
Theorem SmallerFragmentCellRange_is_a_strict_weak_ordering
    (AS : ArraySchema) (ordered : Coords -> Prop) :
  (forall a, ordered a -> cell_order_cmp AS a a = 0) ->
  (forall a b, ordered a -> ordered b ->
     (cell_order_cmp AS a b < 0 <-> cell_order_cmp AS b a > 0)) ->
  (forall a b c, ordered a -> ordered b -> ordered c ->
     cell_order_cmp AS a b <= 0 -> cell_order_cmp AS b c <= 0 ->
     cell_order_cmp AS a c <= 0) ->
  let smaller x y := SmallerFragmentCellRange AS x y = true in
  let equivalent x y := ~ smaller x y /\ ~ smaller y x in
  let known (x : FragmentCellRange) := ordered (fst (snd x)) in
  (forall x, known x -> ~ smaller x x)
  /\ (forall x y, known x -> known y -> smaller x y -> ~ smaller y x)
  /\ (forall x y z, known x -> known y -> known z ->
        smaller x y -> smaller y z -> smaller x z)
  /\ (forall x y z, known x -> known y -> known z ->
        equivalent x y -> equivalent y z -> equivalent x z)
  /\ (forall x y, known x -> known y ->
        (equivalent x y <->
         cell_order_cmp AS (fst (snd x)) (fst (snd y)) = 0
         /\ fst x = fst y)).
Proof.
  intros Hrefl Hanti Htrans smaller equivalent known.
  subst smaller equivalent known. cbv beta.
  split; [|split; [|split; [|split]]].
  - intros x Hx. rewrite SmallerFragmentCellRange_spec.
    specialize (Hrefl _ Hx). lia.
  - intros x y Hx Hy. rewrite !SmallerFragmentCellRange_spec.
    pose proof (Hanti _ _ Hx Hy). pose proof (Hanti _ _ Hy Hx). lia.
  - intros x y z Hx Hy Hz. rewrite !SmallerFragmentCellRange_spec.
    pose proof (Hanti _ _ Hx Hy). pose proof (Hanti _ _ Hy Hx).
    pose proof (Hanti _ _ Hy Hz). pose proof (Hanti _ _ Hz Hy).
    pose proof (Hanti _ _ Hx Hz). pose proof (Hanti _ _ Hz Hx).
    pose proof (Htrans _ _ _ Hx Hz Hy). pose proof (Htrans _ _ _ Hz Hy Hx).
    pose proof (Htrans _ _ _ Hy Hx Hz). pose proof (Htrans _ _ _ Hx Hy Hz).
    pose proof (Htrans _ _ _ Hz Hx Hy). pose proof (Htrans _ _ _ Hy Hz Hx).
    lia.
  - intros x y z Hx Hy Hz. rewrite !SmallerFragmentCellRange_spec.
    pose proof (Hanti _ _ Hx Hy). pose proof (Hanti _ _ Hy Hx).
    pose proof (Hanti _ _ Hy Hz). pose proof (Hanti _ _ Hz Hy).
    pose proof (Hanti _ _ Hx Hz). pose proof (Hanti _ _ Hz Hx).
    pose proof (Htrans _ _ _ Hx Hz Hy). pose proof (Htrans _ _ _ Hz Hy Hx).
    pose proof (Htrans _ _ _ Hy Hx Hz). pose proof (Htrans _ _ _ Hx Hy Hz).
    pose proof (Htrans _ _ _ Hz Hx Hy). pose proof (Htrans _ _ _ Hy Hz Hx).
    lia.
  - intros x y Hx Hy. rewrite !SmallerFragmentCellRange_spec.
    pose proof (Hanti _ _ Hx Hy). pose proof (Hanti _ _ Hy Hx). lia.
Qed.

Lemma SmallerFragmentCellRange_is_a_strict_weak_ordering_witness :
  SmallerFragmentCellRange schema_line (1, ([3], [5])) (0, ([2], [9])) = true
  /\ SmallerFragmentCellRange schema_line (0, ([2], [9])) (1, ([3], [5]))
     <> true.
Proof.
  split; [reflexivity|].
  destruct (SmallerFragmentCellRange_is_a_strict_weak_ordering schema_line
              (fun c => exists x, c = [x])) as (_ & Hasym & _).
  - intros a [x ->]. simpl. destruct (Z.ltb_spec x x); [lia|].
    destruct (Z.gtb_spec x x); [lia | reflexivity].
  - intros a b [x ->] [y ->]. simpl.
    destruct (Z.ltb_spec x y); destruct (Z.gtb_spec x y);
      destruct (Z.ltb_spec y x); destruct (Z.gtb_spec y x); lia.
  - intros a b c [x ->] [y ->] [z ->]. simpl.
    destruct (Z.ltb_spec x y); destruct (Z.gtb_spec x y);
      destruct (Z.ltb_spec y z); destruct (Z.gtb_spec y z);
      destruct (Z.ltb_spec x z); destruct (Z.gtb_spec x z); lia.
  - apply (Hasym (1, ([3], [5])) (0, ([2], [9]))); simpl; eauto.
Defined.

(** ** Reads that stop before any fragment is read *)

(** Two reads of a dense array with fragments that copy nothing.  A read
    that requests
    no attribute runs no turn of the loop over the attributes and returns
    the status variable as declared, without a value (line 913).  A read
    over coordinates that are neither [int] nor [int64_t] fails at the
    first attribute, when that one has a fixed size, with
    [TILEDB_ARS_ERR].  In both, the buffers and their sizes are as the
    caller passed them, and the overflow flags have been reset. *)
Theorem reads_without_attribute_or_coordinate_type `{Fragment.Ops F}
    (fuel : nat) (coords_type : CoordsType) (A : Array)
    (st : ArrayReadState F) (buffers : list Buffer) (buffer_sizes : list Z) :
  fragments st <> [] ->
  dense (array_schema A) = true ->
  (attribute_ids A = [] ->
   read_multiple_fragments fuel coords_type A st buffers buffer_sizes
   = Ret (None, reset_state A st, buffers, buffer_sizes))
  /\ (forall id ids,
        attribute_ids A = id :: ids ->
        var_size (array_schema A) id = false ->
        coords_type = coords_float \/ coords_type = coords_double ->
        buffers <> [] -> buffer_sizes <> [] ->
        read_multiple_fragments fuel coords_type A st buffers buffer_sizes
        = Ret (Some TILEDB_ARS_ERR, reset_state A st, buffers,
               buffer_sizes)).
Proof.
  intros _ Hd.
  unfold read_multiple_fragments, read_multiple_fragments_dense.
  rewrite Hd. fold (reset_state A st). split.
  - intros ->. reflexivity.
  - intros id ids -> Hvar Hct Hb Hs. cbn [read_dense_attrs]. rewrite Hvar.
    destruct buffers as [|buf bufs]; [contradiction|].
    destruct buffer_sizes as [|bsz sizes]; [contradiction|].
    destruct Hct as [-> | ->]; reflexivity.
Qed.

Lemma reads_without_attribute_or_coordinate_type_witness :
  read_multiple_fragments 20 coords_double line_array
    (new_ArrayReadState line_array ten_cells) [[0; 0; 0; 0]] [4]
  = Ret (Some TILEDB_ARS_ERR,
         reset_state line_array (new_ArrayReadState line_array ten_cells),
         [[0; 0; 0; 0]], [4]).
Proof.
  apply (proj2 (reads_without_attribute_or_coordinate_type 20 coords_double
                  line_array (new_ArrayReadState line_array ten_cells)
                  [[0; 0; 0; 0]] [4] ltac:(discriminate) eq_refl) 0 []);
    [reflexivity | reflexivity | right; reflexivity | discriminate
    | discriminate].
Defined.

(** ** The plans a call for the next tile leaves *)

(** A call of [get_next_cell_ranges_dense] never touches the overflow
    flags nor the tile-done flags, and it leaves the stored plans in one of
    two ways: unchanged, with the plan positions, when it fails or reports
    the end of the tiles (the tile cursor is then cleared); or with exactly
    one plan added at the end, after which the clean-up may remove plans
    from the front. *)
Theorem next_tile_adds_one_plan_or_none `{Fragment.Ops F} (fuel : nat)
    (A : Array) (st : ArrayReadState F) rc st' :
  get_next_cell_ranges_dense fuel A st = Ret (rc, st') ->
  overflow_ st' = overflow_ st
  /\ tile_done_ st' = tile_done_ st
  /\ ((fragment_cell_pos_ranges_vec_ st' = fragment_cell_pos_ranges_vec_ st
       /\ fragment_cell_pos_ranges_vec_pos_ st'
          = fragment_cell_pos_ranges_vec_pos_ st
       /\ (rc = TILEDB_ARS_ERR
           \/ (rc = TILEDB_ARS_OK /\ done_ st' = true
               /\ range_global_tile_coords_ st' = None)))
      \/ (rc = TILEDB_ARS_OK /\ done_ st' = done_ st
          /\ exists plan (removed : nat),
               fragment_cell_pos_ranges_vec_ st'
               = drop removed (fragment_cell_pos_ranges_vec_ st ++ [plan]))).
Proof.
  intros Hrun.
  destruct (get_next_cell_ranges_dense_frame _ _ _ _ _ Hrun) as [Hov Htd].
  split; [exact Hov|]. split; [exact Htd|].
  destruct (get_next_cell_ranges_dense_plans _ _ _ _ _ Hrun)
    as [(Hrc & Hd & Hc & Hv & Hp) | [(Hrc & _ & Hv & Hp)
        | (Hrc & Hd & plan & st0 & Hst & _)]].
  - left. auto 10.
  - left. auto.
  - right. split; [exact Hrc|]. split; [exact Hd|]. exists plan.
    rewrite Hst. unfold clean_up_processed_fragment_cell_pos_ranges.
    destruct (_ =? 0).
    + exists 0%nat. reflexivity.
    + eexists. reflexivity.
Qed.

Lemma next_tile_adds_one_plan_or_none_witness :
  exists st',
    get_next_cell_ranges_dense 20 line_array line_state
    = Ret (TILEDB_ARS_OK, st')
    /\ fragment_cell_pos_ranges_vec_ st' = [ [(0, (0, 9))] ]
    /\ tile_done_ st' = tile_done_ line_state.
Proof.
  destruct (get_next_cell_ranges_dense 20 line_array line_state)
    as [[rc st']| |] eqn:E.
  - pose proof E as E'. vm_compute in E'. injection E' as Hrc Hst.
    subst rc. exists st'. split; [reflexivity|].
    destruct (next_tile_adds_one_plan_or_none 20 line_array line_state _ _ E)
      as (_ & Htd & _).
    split; [rewrite <- Hst; reflexivity | exact Htd].
  - vm_compute in E. discriminate E.
  - vm_compute in E. discriminate E.
Defined.

(** ** Telling the fragments that a tile is done *)

(** [notify_tile_done] with the tile cursor on [tile]: the fragments
    positioned on [tile] get [tile_done], the others stay as they are. *)
Lemma notify_tile_done_spec `{Fragment.Ops F}
    (attr : Z) (tile : Coords) (cs : list (option Coords)) (fs fs' : list F) :
  notify_tile_done attr (Some tile) cs fs = Ret fs' ->
  length fs' = length fs
  /\ forall i f, fs !! i = Some f ->
       exists c, cs !! i = Some c
                 /\ fs' !! i = Some (if on_tile c tile
                                     then Fragment.tile_done f attr else f).
Proof.
  revert cs fs'. induction fs as [|f fs IH]; intros cs fs' Hrun.
  - destruct cs; simpl in Hrun; inversion Hrun; subst;
      (split; [reflexivity|]); intros i g Hg; discriminate Hg.
  - destruct cs as [|c cs]; cbn [notify_tile_done] in Hrun; [discriminate|].
    assert (Hf : (match c with
                  | Some c0 =>
                      Ret (if bool_decide (c0 = tile)
                           then Fragment.tile_done f attr else f)
                  | None => Ret f
                  end)
                 = Ret (if on_tile c tile
                        then Fragment.tile_done f attr else f)).
    { destruct c; reflexivity. }
    rewrite Hf in Hrun. unfold mbind at 1, Run_bind at 1 in Hrun.
    destruct (notify_tile_done attr (Some tile) cs fs) as [fs1| |] eqn:E;
      unfold mbind, Run_bind in Hrun; try discriminate.
    inversion Hrun; subst; clear Hrun.
    destruct (IH cs fs1 E) as [Hlen Hall].
    split; [simpl; congruence|].
    intros [|i] g Hg.
    + inversion Hg; subst. exists c. split; reflexivity.
    + simpl in Hg. destruct (Hall i g Hg) as (c' & Hc' & Hg').
      exists c'. split; assumption.
Qed.

(** The loop over the ranges of a plan leaves the tile cursor and the
    positions of the fragments alone. *)
Lemma copy_ranges_loop_cursor `{Fragment.Ops F} (plan : FragmentCellPosRanges)
    (attr bsz : Z) :
  forall (st : ArrayReadState F) buf off rc st' buf' off',
  copy_ranges_loop plan attr bsz st buf off = Ret (rc, st', buf', off') ->
  range_global_tile_coords_ st' = range_global_tile_coords_ st
  /\ fragment_global_tile_coords_ st' = fragment_global_tile_coords_ st.
Proof.
  induction plan as [|[fi r] plan IH];
    intros st buf off rc st' buf' off' Hrun.
  - simpl in Hrun. inversion Hrun; subst. split; reflexivity.
  - simpl in Hrun. destruct (fi =? -1).
    + unfold copy_cell_range_with_empty in Hrun.
      destruct (vector_at (overflow_ st) attr) as [[|]| |];
        unfold mbind, Run_bind in Hrun; try discriminate.
      * inversion Hrun; subst. split; reflexivity.
      * apply IH in Hrun. exact Hrun.
    + destruct (fragment_at (fragments st) fi) as [f| |];
        unfold mbind, Run_bind in Hrun; try discriminate.
      destruct (Fragment.copy_cell_range f attr buf bsz off r)
        as [[[f' buf1] off1]|].
      * destruct (Fragment.overflow f' attr).
        -- inversion Hrun; subst. split; reflexivity.
        -- apply IH in Hrun. exact Hrun.
      * inversion Hrun; subst. split; reflexivity.
Qed.

(** A call of [copy_cell_ranges] with the tile cursor on [tile] copies the
    plan of the attribute and then, when the copy succeeded without overflow
    (the guard of line 221), signals [tile_done] to exactly the fragments
    that stand on [tile]: in the state it returns, every other fragment is
    as the copy left it, and no fragment is added or dropped.  When the copy
    failed or overflowed, all fragments are as the copy left them. *)
Theorem tile_done_goes_to_the_fragments_on_the_cursor `{Fragment.Ops F}
    (attr bsz : Z) (st : ArrayReadState F) (buf : Buffer) (off : Z)
    (tile : Coords) (rc : Z) (st' : ArrayReadState F) (buf' : Buffer)
    (off' : Z) :
  range_global_tile_coords_ st = Some tile ->
  copy_cell_ranges attr bsz st buf off = Ret (rc, st', buf', off') ->
  exists pos plan rc1 st1,
    vector_at (fragment_cell_pos_ranges_vec_pos_ st) attr = Ret pos
    /\ vector_at (fragment_cell_pos_ranges_vec_ st) pos = Ret plan
    /\ copy_ranges_loop plan attr bsz st buf off = Ret (rc1, st1, buf', off')
    /\ (rc = TILEDB_ARS_OK ->
        vector_at (overflow_ st') attr = Ret false ->
        length (fragments st') = length (fragments st1)
        /\ forall i f, fragments st1 !! i = Some f ->
             exists c, fragment_global_tile_coords_ st !! i = Some c
               /\ fragments st' !! i
                  = Some (if on_tile c tile
                          then Fragment.tile_done f attr else f))
    /\ (rc <> TILEDB_ARS_OK \/ vector_at (overflow_ st') attr = Ret true ->
        fragments st' = fragments st1).
Proof.
  intros Htile Hrun. unfold copy_cell_ranges in Hrun.
  destruct (vector_at (fragment_cell_pos_ranges_vec_pos_ st) attr)
    as [pos| |] eqn:Epos; unfold mbind, Run_bind in Hrun; try discriminate.
  destruct (vector_at (fragment_cell_pos_ranges_vec_ st) pos)
    as [plan| |] eqn:Eplan; try discriminate.
  destruct (copy_ranges_loop plan attr bsz st buf off)
    as [[[[rc1 st1] buf1] off1]| |] eqn:Eloop; try discriminate.
  destruct (copy_ranges_loop_cursor plan attr bsz _ _ _ _ _ _ _ Eloop)
    as [Hcur Hfc].
  destruct (negb (rc1 =? TILEDB_ARS_OK)) eqn:Erc.
  - inversion Hrun; subst; clear Hrun.
    exists pos, plan, rc1, st'.
    split; [reflexivity|]. split; [exact Eplan|]. split; [exact Eloop|].
    split; [intros Hok; discriminate Hok | intros _; reflexivity].
  - destruct (vector_at (overflow_ st1) attr) as [[|]| |] eqn:Eov;
      try discriminate.
    + inversion Hrun; subst; clear Hrun.
      exists pos, plan, rc1, st1.
      split; [reflexivity|]. split; [exact Eplan|]. split; [exact Eloop|].
      split; [|intros _; reflexivity].
      simpl. intros _ Hov. congruence.
    + rewrite Hcur, Htile, Hfc in Hrun.
      destruct (notify_tile_done attr (Some tile)
                  (fragment_global_tile_coords_ st) (fragments st1))
        as [fs| |] eqn:En; try discriminate.
      inversion Hrun; subst; clear Hrun.
      exists pos, plan, rc1, st1.
      split; [reflexivity|]. split; [exact Eplan|]. split; [exact Eloop|].
      split.
      * intros _ _. simpl. exact (notify_tile_done_spec _ _ _ _ _ En).
      * simpl. intros [Hne | Hov]; congruence.
Qed.

(** The copy of the plan of the partly covered line: its one fragment
    stands on the tile of the cursor and is told that the tile is done. *)
Lemma tile_done_goes_to_the_fragments_on_the_cursor_witness :
  exists st' buf' off' pos plan rc1 st1,
    copy_cell_ranges 0 40 partly_covered_planned [] 0
    = Ret (TILEDB_ARS_OK, st', buf', off')
    /\ copy_ranges_loop plan 0 40 partly_covered_planned [] 0
       = Ret (rc1, st1, buf', off')
    /\ (pos = 0 /\ plan = [(-1, (0, 2)); (0, (3, 5)); (-1, (6, 9))])
    /\ map sf_next (fragments st1) = [6]
    /\ fragments st' = map (fun f => Fragment.tile_done f 0) (fragments st1).
Proof.
  destruct (copy_cell_ranges 0 40 partly_covered_planned [] 0)
    as [[[[rc st'] buf'] off']| |] eqn:E.
  - pose proof E as E'. vm_compute in E'. injection E' as Hrc Hst Hbuf Hoff.
    subst rc.
    destruct (tile_done_goes_to_the_fragments_on_the_cursor 0 40
                partly_covered_planned [] 0 [0] _ st' buf' off' eq_refl E)
      as (pos & plan & rc1 & st1 & Hpos & Hplan & Hloop & Htold & _).
    vm_compute in Hpos. injection Hpos as <-.
    vm_compute in Hplan. injection Hplan as <-.
    exists st', buf', off', 0, [(-1, (0, 2)); (0, (3, 5)); (-1, (6, 9))],
      rc1, st1.
    split; [reflexivity|]. split; [exact Hloop|].
    split; [split; reflexivity|].
    pose proof Hloop as Hl. rewrite <- Hbuf, <- Hoff in Hl.
    vm_compute in Hl. injection Hl as _ Hst1.
    rewrite <- Hst1, <- Hst. split; reflexivity.
  - vm_compute in E. discriminate E.
  - vm_compute in E. discriminate E.
Defined.

(** ** The tile cursor of the query range *)

(** The tile cursor stays on tiles of the array.  On a schema whose tile
    counts the code computes exactly ([tile_num_exact]: positive tile
    extents, extents and domain sizes below 2^53), the initialisation,
    entered with no range of tiles allocated (the assertion of line 862),
    leaves the cursor as it was and the range of tiles cleared when no tile
    meets the query range; otherwise it puts the cursor on the first
    corner of a range of tiles that lies within the tiles of the array.
    Every later step keeps the range of tiles and leaves the cursor inside
    it, or clears both. *)
Theorem tile_cursor_stays_on_tiles_of_the_array {F : Type} (A : Array)
    (st : ArrayReadState F) :
  let AS := array_schema A in
  let tile_num i :=
    ceil_div (idx (domain AS) (2 * i + 1) - idx (domain AS) (2 * i) + 1)
      (idx (tile_extents AS) i) in
  let within (d : list Z) :=
    forall i, (i < dim_num AS)%nat ->
      0 <= idx d (2 * i) /\ idx d (2 * i + 1) <= tile_num i - 1 in
  (tile_num_exact AS = true ->
   range_global_tile_domain_ st = None ->
   let st' := init_range_global_tile_coords A st in
   match range_global_tile_domain_ st' with
   | None => range_global_tile_coords_ st' = range_global_tile_coords_ st
   | Some d =>
       within d
       /\ exists c, range_global_tile_coords_ st' = Some c
            /\ length c = dim_num AS
            /\ forall i, (i < dim_num AS)%nat ->
                 idx c i = idx d (2 * i) /\ 0 <= idx c i <= tile_num i - 1
   end)
  /\ (forall c d st',
        range_global_tile_coords_ st = Some c ->
        range_global_tile_domain_ st = Some d ->
        get_next_range_global_tile_coords A st = Ret st' ->
        (range_global_tile_coords_ st' = None
         /\ range_global_tile_domain_ st' = None)
        \/ (range_global_tile_domain_ st' = Some d
            /\ exists c', range_global_tile_coords_ st' = Some c'
                 /\ forall i, (i < dim_num AS)%nat ->
                      idx d (2 * i) <= idx c' i <= idx d (2 * i + 1))).
Proof.
  intros AS tile_num within. split.
  - intros _ _.
    pose (lo := fun i : nat =>
               (idx (range A) (2 * i) - idx (domain AS) (2 * i))
                 `quot` idx (tile_extents AS) i).
    pose (hi := fun i : nat =>
               (idx (range A) (2 * i + 1) - idx (domain AS) (2 * i))
                 `quot` idx (tile_extents AS) i).
    pose (td := flat_map (fun i => [(fun _ : nat => 0) i;
                                    (fun i => tile_num i - 1) i])
                  (seq 0 (dim_num AS))).
    pose (d := flat_map
                 (fun i => [(fun i => Z.max (lo i) (idx td (2 * i))) i;
                            (fun i => Z.min (hi i) (idx td (2 * i + 1))) i])
                 (seq 0 (dim_num AS))).
    change (init_range_global_tile_coords A st)
      with (if negb (existsb
                       (fun i => (idx d (2 * i) >? idx td (2 * i + 1))
                                 || (idx d (2 * i + 1) <? idx td (2 * i)))
                       (seq 0 (dim_num AS)))
            then set_range_tile st
                   (Some (map (fun i => idx d (2 * i)) (seq 0 (dim_num AS))))
                   (Some d)
            else set_range_tile st (range_global_tile_coords_ st) None).
    destruct (existsb _ (seq 0 (dim_num AS))) eqn:E; cbn [negb]; cbv iota;
      cbn [range_global_tile_domain_ range_global_tile_coords_ set_range_tile];
      [reflexivity|].
    pose proof (existsb_seq_false _ _ E) as Hov. cbv beta in Hov.
    assert (Htd : forall i, (i < dim_num AS)%nat ->
              idx td (2 * i) = 0 /\ idx td (2 * i + 1) = tile_num i - 1).
    { intros i Hi. exact (idx_flat_map_pairs _ _ _ i Hi). }
    assert (Hd : forall i, (i < dim_num AS)%nat ->
              idx d (2 * i) = Z.max (lo i) (idx td (2 * i))
              /\ idx d (2 * i + 1) = Z.min (hi i) (idx td (2 * i + 1))).
    { intros i Hi. exact (idx_flat_map_pairs _ _ _ i Hi). }
    split.
    + intros i Hi. destruct (Hd i Hi) as [-> ->].
      destruct (Htd i Hi) as [-> ->]. lia.
    + eexists. split; [reflexivity|].
      split; [rewrite length_map, length_seq; reflexivity|].
      intros i Hi. rewrite idx_map_seq by exact Hi.
      split; [reflexivity|].
      specialize (Hov i Hi). apply orb_false_iff in Hov as [Hgt _].
      destruct (Hd i Hi) as [Hd0 _]. destruct (Htd i Hi) as [Ht0 Ht1].
      rewrite Z.gtb_ltb in Hgt. apply Z.ltb_ge in Hgt. lia.
  - intros c d st' Hc Hdom Hrun.
    unfold get_next_range_global_tile_coords in Hrun.
    rewrite Hdom, Hc in Hrun. fold AS in Hrun.
    destruct (existsb _ (seq 0 (dim_num AS))) eqn:E in Hrun;
      cbn [negb] in Hrun; inversion Hrun; subst st'; clear Hrun;
      cbn [range_global_tile_domain_ range_global_tile_coords_ set_range_tile].
    + left. auto.
    + right. split; [reflexivity|]. eexists. split; [reflexivity|].
      intros i Hi. pose proof (existsb_seq_false _ _ E i Hi) as Hin.
      cbv beta in Hin. apply orb_false_iff in Hin as [Hlt Hgt].
      apply Z.ltb_ge in Hlt. rewrite Z.gtb_ltb in Hgt.
      apply Z.ltb_ge in Hgt. lia.
Qed.

Lemma tile_cursor_stays_on_tiles_of_the_array_witness :
  range_global_tile_coords_
    (init_range_global_tile_coords window_array
       (new_ArrayReadState window_array ([] : list SimpleFragment)))
  = Some [0; 0]
  /\ exists st',
       get_next_range_global_tile_coords window_array
         (window_on_tile [0; 1])
       = Ret st'
       /\ range_global_tile_coords_ st' = Some [1; 0].
Proof.
  split.
  - pose proof (proj1 (tile_cursor_stays_on_tiles_of_the_array window_array
                         (new_ArrayReadState window_array
                            ([] : list SimpleFragment)))
                  eq_refl eq_refl) as Hinit.
    simpl in Hinit. destruct Hinit as (_ & c & Hc & _). reflexivity.
  - eexists. split; [reflexivity|].
    destruct (proj2 (tile_cursor_stays_on_tiles_of_the_array window_array
                       (window_on_tile [0; 1]))
                [0; 1] [0; 1; 0; 1] _ eq_refl eq_refl eq_refl)
      as [[Hnone _] | [_ (c' & Hc' & _)]]; [discriminate Hnone|].
    reflexivity.
Defined.

(** ** Where the slab loops run *)

(** The slab loops of [compute_max_overlap_fragment_cell_ranges] index the
    coordinates with [dim_num-2] (line 709) and with [1] (line 732), and
    every cell order but the row-major and the column-major one falls to
    [assert(0)] (line 743).  The type [compute_max_overlap_range] leaves
    sends the run there only for a row-major or column-major array of at
    least two dimensions. *)
Theorem slab_loops_run_on_two_dimensions_or_more {F : Type} (A : Array)
    (st st' : ArrayReadState F) :
  compute_max_overlap_range A st = Ret st' ->
  max_overlap_type_ st' = PARTIAL_NON_CONTIG ->
  (2 <= dim_num (array_schema A))%nat
  /\ cell_order (array_schema A) <> TILEDB_AS_CO_HILBERT.
Proof.
  unfold compute_max_overlap_range.
  destruct (range_global_tile_coords_ st) as [tile|]; [|discriminate].
  intros Hrun. inversion Hrun; subst st'; clear Hrun.
  cbn [max_overlap_type_ set_max_overlap]. unfold overlap_type.
  destruct (existsb _ (seq 0 _)); [|discriminate].
  destruct (cell_order (array_schema A)); [| |discriminate].
  - destruct (dim_num (array_schema A)) as [|[|n]];
      [discriminate | discriminate |].
    intros _. split; [lia | discriminate].
  - destruct (dim_num (array_schema A)) as [|[|n]];
      [discriminate | discriminate |].
    intros _. split; [lia | discriminate].
Qed.

Lemma slab_loops_run_on_two_dimensions_or_more_witness :
  exists st',
    compute_max_overlap_range window_array (window_on_tile [0; 0]) = Ret st'
    /\ max_overlap_type_ st' = PARTIAL_NON_CONTIG
    /\ (2 <= dim_num schema_10x10)%nat.
Proof.
  eexists. split; [reflexivity|]. split; [reflexivity|].
  exact (proj1 (slab_loops_run_on_two_dimensions_or_more window_array
                  (window_on_tile [0; 0]) _ eq_refl eq_refl)).
Defined.

(** ** A tile no fragment covers *)

Lemma row_slabs_tagged (d : nat) (g : list Z) (mi : Z) (fuel : nat) :
  forall coords acc out,
  row_slabs fuel d g mi coords acc = Ret out ->
  Forall (fun r : FragmentCellRange => fst r = mi) acc ->
  Forall (fun r : FragmentCellRange => fst r = mi) out.
Proof.
  induction fuel as [|fuel IH]; intros coords acc out Hrun Hacc;
    [discriminate|].
  cbn [row_slabs] in Hrun. destruct (_ <=? _) in Hrun.
  - eapply IH; [exact Hrun|]. apply Forall_app. split; [exact Hacc|].
    apply List.Forall_cons; [reflexivity | apply List.Forall_nil].
  - inversion Hrun; subst. exact Hacc.
Qed.

Lemma col_slabs_tagged (d : nat) (g : list Z) (mi : Z) (fuel : nat) :
  forall coords acc out,
  col_slabs fuel d g mi coords acc = Ret out ->
  Forall (fun r : FragmentCellRange => fst r = mi) acc ->
  Forall (fun r : FragmentCellRange => fst r = mi) out.
Proof.
  induction fuel as [|fuel IH]; intros coords acc out Hrun Hacc;
    [discriminate|].
  cbn [col_slabs] in Hrun. destruct (_ <=? _) in Hrun.
  - eapply IH; [exact Hrun|]. apply Forall_app. split; [exact Hacc|].
    apply List.Forall_cons; [reflexivity | apply List.Forall_nil].
  - inversion Hrun; subst. exact Hacc.
Qed.

(** A tile no fragment covers cannot be planned.  When no fragment covers
    the overlap, [max_overlap_i_] is -1 and the cell ranges
    [compute_max_overlap_fragment_cell_ranges] computes all carry -1; when
    no other fragment adds a range, the merge pops one of them and indexes
    the fragment vector with -1 (line 284, or line 301 when ranges are
    left in the queue). *)
Theorem uncovered_tile_indexes_fragment_minus_one `{Fragment.Ops F}
    (fuel : nat) (A : Array) (st : ArrayReadState F)
    (unsorted : FragmentCellRanges) :
  max_overlap_i_ st = -1 ->
  compute_max_overlap_fragment_cell_ranges fuel A st [] = Ret unsorted ->
  unsorted <> [] ->
  forall (fuel' : nat) (fs : list F) (tile : Coords),
    compute_fragment_cell_pos_ranges (S fuel') (array_schema A) fs tile
      unsorted
    = Undefined (FragmentIndexOutOfRange (-1)).
Proof.
  intros Hmi Hrun Hne fuel' fs tile.
  assert (Htag : Forall (fun r : FragmentCellRange => fst r = -1) unsorted).
  { unfold compute_max_overlap_fragment_cell_ranges in Hrun.
    rewrite Hmi in Hrun.
    destruct (range_global_tile_coords_ st); [|discriminate].
    destruct (max_overlap_type_ st).
    - inversion Hrun; subst.
      apply List.Forall_cons; [reflexivity | apply List.Forall_nil].
    - inversion Hrun; subst.
      apply List.Forall_cons; [reflexivity | apply List.Forall_nil].
    - destruct (cell_order (array_schema A)).
      + eapply row_slabs_tagged; [exact Hrun | apply List.Forall_nil].
      + eapply col_slabs_tagged; [exact Hrun | apply List.Forall_nil].
      + inversion Hrun; subst. apply List.Forall_nil. }
  unfold compute_fragment_cell_pos_ranges, merge_fragment_cell_ranges.
  pose proof (pq_of_list_perm (array_schema A) unsorted []) as Hperm.
  fold (pq_of_list (array_schema A) unsorted) in Hperm.
  rewrite app_nil_r in Hperm.
  destruct (pq_of_list (array_schema A) unsorted) as [|popped pq] eqn:Epq.
  { apply Permutation_nil_l in Hperm. congruence. }
  rewrite <- Hperm in Htag. apply list.Forall_cons in Htag as [Hpopped _].
  cbn [process_queue]. rewrite Hpopped.
  reflexivity.
Qed.

Lemma uncovered_tile_indexes_fragment_minus_one_witness :
  compute_fragment_cell_pos_ranges 1 schema_10x10
    ([] : list SimpleFragment) [1; 0]
    [(-1, ([5; 3], [7; 4]))]
  = Undefined (FragmentIndexOutOfRange (-1)).
Proof.
  apply (uncovered_tile_indexes_fragment_minus_one 1 window_array
           (set_max_overlap_i
              (set_max_overlap (window_on_tile [1; 0]) [0; 2; 3; 4]
                 PARTIAL_CONTIG) (-1))
           [(-1, ([5; 3], [7; 4]))]);
    [reflexivity | reflexivity | discriminate].
Defined.

(** ** A query range that meets no tile *)



(** * The order of the delivered cells *)

(** ** Runs and their records *)

Lemma erase_Ret {A B : Type} (m : Run (A * B)) (a : A) :
  erase m = Ret a <-> exists b, m = Ret (a, b).
Proof.
  destruct m as [[a' b]| |]; simpl; split.
  - intros E. inversion E; subst. eauto.
  - intros [b' E]. inversion E; subst. reflexivity.
  - discriminate.
  - intros [b E]. discriminate E.
  - discriminate.
  - intros [b E]. discriminate E.
Qed.

Lemma copy_ranges_loop_erase `{Fragment.Ops F}
    (plan : FragmentCellPosRanges) (attr bsz : Z) :
  forall (st : ArrayReadState F) buf off,
  erase (copy_ranges_loop_log plan attr bsz st buf off)
  = copy_ranges_loop plan attr bsz st buf off.
Proof.
  induction plan as [|[fi r] plan IH]; intros st buf off; [reflexivity|].
  cbn [copy_ranges_loop_log copy_ranges_loop].
  destruct (fi =? -1).
  - unfold copy_cell_range_with_empty.
    destruct (vector_at (overflow_ st) attr) as [[|]| |];
      unfold mbind, Run_bind; try reflexivity.
    apply IH.
  - destruct (fragment_at (fragments st) fi) as [f| |];
      unfold mbind at 1 3, Run_bind at 1 3; try reflexivity.
    destruct (Fragment.copy_cell_range f attr buf bsz off r)
      as [[[f' buf'] off']|]; [|reflexivity].
    destruct (Fragment.overflow f' attr); [reflexivity|].
    rewrite <- IH.
    destruct (copy_ranges_loop_log plan attr bsz _ buf' off')
      as [[res log]| |]; reflexivity.
Qed.

Lemma copy_cell_ranges_erase `{Fragment.Ops F} (attr bsz : Z)
    (st : ArrayReadState F) buf off :
  erase (copy_cell_ranges_log attr bsz st buf off)
  = copy_cell_ranges attr bsz st buf off.
Proof.
  unfold copy_cell_ranges_log, copy_cell_ranges, mbind, Run_bind.
  destruct (vector_at (fragment_cell_pos_ranges_vec_pos_ st) attr)
    as [pos| |]; try reflexivity.
  destruct (vector_at (fragment_cell_pos_ranges_vec_ st) pos)
    as [plan| |]; try reflexivity.
  rewrite <- (copy_ranges_loop_erase plan attr bsz st buf off).
  destruct (copy_ranges_loop_log plan attr bsz st buf off)
    as [[[[[rc st1] buf1] off1] log]| |]; cbn [erase]; try reflexivity.
  destruct (negb (rc =? TILEDB_ARS_OK)); [reflexivity|].
  destruct (vector_at (overflow_ st1) attr) as [[|]| |]; try reflexivity.
  destruct (notify_tile_done attr _ _ _); reflexivity.
Qed.

Lemma read_dense_attr_loop_erase `{Fragment.Ops F} (fuel : nat) (A : Array)
    (attr bsz : Z) :
  forall (st : ArrayReadState F) buf off,
  erase (read_dense_attr_loop_log fuel A attr bsz st buf off)
  = read_dense_attr_loop fuel A attr bsz st buf off.
Proof.
  induction fuel as [|fuel IH]; intros st buf off; [reflexivity|].
  cbn [read_dense_attr_loop_log read_dense_attr_loop].
  unfold mbind, Run_bind.
  repeat match goal with
         | |- erase (Ret _) = _ => reflexivity
         | |- erase (Undefined _) = _ => reflexivity
         | |- erase OutOfFuel = _ => reflexivity
         | |- context [negb ?b] => destruct b; cbn [negb]
         | |- context [copy_cell_ranges ?a ?b ?s ?bu ?o] =>
             rewrite <- (copy_cell_ranges_erase a b s bu o);
             destruct (copy_cell_ranges_log a b s bu o)
               as [[[[[? ?] ?] ?] ?]| |]; cbn [erase]
         | |- context [read_dense_attr_loop ?f ?a ?b ?c ?s ?bu ?o] =>
             rewrite <- (IH s bu o);
             destruct (read_dense_attr_loop_log f a b c s bu o)
               as [[? ?]| |]; cbn [erase]
         | |- erase (match ?x with _ => _ end) = _ => destruct x
         end.
Qed.

(** The calls of [consecutive_reads] are calls of the loop of the one
    attribute. *)
Lemma consecutive_reads_erase `{Fragment.Ops F} (A : Array) (attr B : Z) :
  dense (array_schema A) = true ->
  attribute_ids A = [attr] ->
  var_size (array_schema A) attr = false ->
  forall fuels (st : ArrayReadState F) buffer,
  erase (consecutive_reads_log fuels A attr st buffer B)
  = consecutive_reads fuels A attr st buffer B.
Proof.
  intros Hd Hids Hvar.
  induction fuels as [|fuel fuels IH]; intros st buffer; [reflexivity|].
  cbn [consecutive_reads_log consecutive_reads].
  rewrite (read_multiple_fragments_single fuel A attr st buffer B Hd Hids
             Hvar).
  rewrite <- (read_dense_attr_loop_erase fuel A attr B (reset_state A st)
                buffer 0).
  unfold mbind, Run_bind.
  destruct (read_dense_attr_loop_log fuel A attr B (reset_state A st)
              buffer 0) as [[[[[[rc st1] buf1] size1] off1] log1]| |];
    cbn [erase]; try reflexivity.
  change (vector_at [buf1] 0) with (Ret (A:=Buffer) buf1).
  change (vector_at [size1] 0) with (Ret (A:=Z) size1). cbv iota.
  destruct (vector_at (overflow_ st1) attr) as [ov| |]; try reflexivity.
  rewrite <- (IH st1 buf1).
  destruct (consecutive_reads_log fuels A attr st1 buf1 B)
    as [[[outs st2] log2]| |]; reflexivity.
Qed.

(** Arithmetic on the ends of position ranges. *)
Ltac pos_lia :=
  unfold CellPosRange, FragmentCellPosRange in *; cbn [fst snd] in *; lia.

(** ** Lists in order *)

Lemma pairwise_app {A : Type} (R : A -> A -> Prop) (l1 l2 : list A) :
  pairwise R (l1 ++ l2)
  <-> pairwise R l1 /\ pairwise R l2 /\ Forall (fun x => Forall (R x) l2) l1.
Proof.
  induction l1 as [|a l1 IH]; simpl.
  - split; [intros Hl; repeat split; auto | intros (_ & Hl & _); exact Hl].
  - rewrite list.Forall_app, IH. split.
    + intros ((Ha1 & Ha2) & H1 & H2 & H3). repeat split; auto.
    + intros ((Ha1 & H1) & H2 & H3).
      apply list.Forall_cons in H3 as [Ha2 H3]. repeat split; auto.
Qed.

Lemma app_cons_snoc {A : Type} (l1 l2 : list A) (x : A) :
  l1 ++ x :: l2 = (l1 ++ [x]) ++ l2.
Proof. rewrite <- app_assoc. reflexivity. Qed.

Lemma pairwise_map_seq {A : Type} (R : A -> A -> Prop) (g : nat -> A)
    (n : nat) :
  forall a,
  (forall i j, (a <= i)%nat -> (i < j)%nat -> (j < a + n)%nat ->
     R (g i) (g j)) ->
  pairwise R (map g (seq a n)).
Proof.
  induction n as [|n IH]; intros a Hg; simpl; [exact I|].
  split.
  - apply list.Forall_forall. intros y Hy.
    apply list_elem_of_In, in_map_iff in Hy as (j & <- & Hj).
    apply in_seq in Hj. apply Hg; lia.
  - apply IH. intros i j Hi Hij Hj. apply Hg; lia.
Qed.

Lemma pairwise_lookup {A : Type} (R : A -> A -> Prop) (l : list A) :
  pairwise R l ->
  forall i j x y, l !! i = Some x -> l !! j = Some y -> (i < j)%nat -> R x y.
Proof.
  induction l as [|a l IH]; intros Hl i j x y Hi Hj Hij.
  - destruct i; discriminate.
  - destruct Hl as [Ha Hl]. destruct j as [|j]; [lia|]. simpl in Hj.
    destruct i as [|i]; simpl in Hi.
    + inversion Hi; subst. rewrite list.Forall_forall in Ha. apply Ha.
      eapply list_elem_of_lookup_2; eauto.
    + eapply IH; eauto. lia.
Qed.

Lemma increasing_pos_app (l1 l2 : FragmentCellPosRanges) :
  increasing_pos (l1 ++ l2) ->
  increasing_pos l1 /\ increasing_pos l2
  /\ Forall (fun e1 =>
               Forall (fun e2 => snd (snd e1) < fst (snd e2)) l2) l1.
Proof.
  induction l1 as [|a l1 IH]; simpl.
  - intros Hl. repeat split; auto.
  - intros (Ha & Hlt & Hl). apply list.Forall_app in Hlt as [Hlt1 Hlt2].
    destruct (IH Hl) as (H1 & H2 & H3). repeat split; auto.
Qed.

(** The position of an entry in an increasing plan. *)
Lemma increasing_pos_split (done rest : FragmentCellPosRanges)
    (e0 e : FragmentCellPosRange) :
  increasing_pos (done ++ e0 :: rest) ->
  e ∈ done ++ e0 :: rest ->
  fst (snd e0) <= snd (snd e0)
  /\ ((e ∈ done /\ snd (snd e) < fst (snd e0))
      \/ e = e0
      \/ (e ∈ rest /\ snd (snd e0) < fst (snd e))).
Proof.
  intros Hinc He.
  apply increasing_pos_app in Hinc as (_ & (H0 & Hlater & _) & Hearlier).
  split; [exact H0|].
  apply elem_of_app in He as [He | He].
  - left. split; [exact He|].
    rewrite list.Forall_forall in Hearlier.
    specialize (Hearlier e He). apply list.Forall_cons in Hearlier as [Hlt _].
    exact Hlt.
  - apply elem_of_cons in He as [-> | He]; [auto|].
    right. right. split; [exact He|].
    rewrite list.Forall_forall in Hlater. auto.
Qed.

Lemma fragment_at_insert_cases {F : Type} (fs : list F) (fi fj : Z)
    (f f' g : F) :
  fragment_at fs fi = Ret f ->
  fragment_at (<[Z.to_nat fi := f']> fs) fj = Ret g ->
  (fj = fi /\ g = f') \/ (fj <> fi /\ fragment_at fs fj = Ret g).
Proof.
  intros Hf Hg. apply fragment_at_Ret in Hf as [Hi Hf].
  apply fragment_at_Ret in Hg as [Hj Hg].
  destruct (decide (fj = fi)) as [-> | Hne].
  - left. split; [reflexivity|].
    rewrite list_lookup_insert_eq in Hg by (eapply lookup_lt_Some; eauto).
    congruence.
  - right. split; [exact Hne|].
    rewrite list_lookup_insert_ne in Hg by lia.
    apply fragment_at_Ret. auto.
Qed.

Lemma fragment_at_insert_same {F : Type} (fs : list F) (fi : Z) (f f' : F) :
  fragment_at fs fi = Ret f ->
  fragment_at (<[Z.to_nat fi := f']> fs) fi = Ret f'.
Proof.
  intros Hf. apply fragment_at_Ret. split.
  - apply fragment_at_Ret in Hf. tauto.
  - eapply fragment_at_insert; eauto.
Qed.

(** ** The cells of the requests *)

Lemma elem_of_cells_of_call {F : Type} (upto : F -> Z) (call : CopyCall F)
    (c : Cell) :
  c ∈ cells_of_call upto call
  <-> exists k, 0 <= k < call_to call - call_from call
        /\ c = (call_tile call,
                Z.max (fst (call_range call)) (upto (call_fragment call))
                + k).
Proof.
  unfold cells_of_call. rewrite list_elem_of_In, in_map_iff. split.
  - intros (k & <- & Hk). apply in_seq in Hk. exists (Z.of_nat k).
    split; [lia | reflexivity].
  - intros (k & Hk & ->). exists (Z.to_nat k). split.
    + rewrite Z2Nat.id by lia. reflexivity.
    + apply in_seq. lia.
Qed.

Lemma delivered_cells_app {F : Type} (upto : F -> Z)
    (l1 l2 : list (CopyCall F)) :
  delivered_cells upto (l1 ++ l2)
  = delivered_cells upto l1 ++ delivered_cells upto l2.
Proof. unfold delivered_cells. apply flat_map_app. Qed.

Lemma delivered_cells_cons {F : Type} (upto : F -> Z) (c : CopyCall F)
    (l : list (CopyCall F)) :
  delivered_cells upto (c :: l)
  = cells_of_call upto c ++ delivered_cells upto l.
Proof. reflexivity. Qed.

Lemma behind_cursor_app (AS : ArraySchema) (tile : Coords)
    (l1 l2 : list Cell) :
  behind_cursor AS tile (l1 ++ l2)
  <-> behind_cursor AS tile l1 /\ behind_cursor AS tile l2.
Proof. unfold behind_cursor. apply list.Forall_app. Qed.

Lemma on_tile_behind_cursor (AS : ArraySchema) (tile : Coords)
    (l : list Cell) :
  Forall (fun c => fst c = Some tile) l -> behind_cursor AS tile l.
Proof.
  intros Hl. eapply Forall_impl; [|exact Hl]. intros c Hc.
  exists tile. split; [exact Hc | left; reflexivity].
Qed.

Section Order.

Context `{Fragment.Ops F}.
Variable A : Array.
Variable attr : Z.
Variable upto : F -> Z.
Variable on : F -> option Coords -> Prop.
Hypothesis positional : PositionalCopy attr upto.
Hypothesis fragment_laws : FragmentLaws A attr on.

Local Abbreviation AS := (array_schema A).
Local Abbreviation sorted := (pairwise (cell_before AS)).

(** One request of the copy loop: the cells it writes come after the cells
    delivered so far, and before every cell the plan may still deliver. *)
Lemma copy_call_order (done rest : FragmentCellPosRanges) (fi : Z)
    (r : CellPosRange) (fs : list F) (f f' : F) buf bsz off buf' off'
    (tile : Coords) (cells : list Cell) :
  fragment_at fs fi = Ret f ->
  Fragment.copy_cell_range f attr buf bsz off r = Some (f', buf', off') ->
  increasing_pos (done ++ (fi, r) :: rest) ->
  Forall (copied_entry upto fs) done ->
  ahead upto (done ++ (fi, r) :: rest) fs tile cells ->
  sorted cells ->
  behind_cursor AS tile cells ->
  let call :=
    {| call_tile := Some tile; call_fragment := f; call_range := r;
       call_from := off; call_to := off' |} in
  let fs1 := <[Z.to_nat fi := f']> fs in
  let new := cells_of_call upto call in
  sorted (cells ++ new)
  /\ ahead upto (done ++ (fi, r) :: rest) fs1 tile (cells ++ new)
  /\ Forall (fun c => fst c = Some tile) new
  /\ Forall (copied_entry upto fs1) done
  /\ (Fragment.overflow f' attr = false -> copied_entry upto fs1 (fi, r)).
Proof.
  intros Hf Hcopy Hinc Hdone Hahead Hsorted Hbehind call fs1 new.
  destruct (copy_from_upto _ _ positional _ _ _ _ _ _ _ _ Hcopy)
    as (Hoff & Hup & Hcells & Hov).
  assert (Hnew : forall c, c ∈ new ->
            exists k, 0 <= k < off' - off
                      /\ c = (Some tile, Z.max (fst r) (upto f) + k)).
  { intros c Hc. apply elem_of_cells_of_call in Hc. exact Hc. }
  assert (Hhere : (fi, r) ∈ done ++ (fi, r) :: rest).
  { apply elem_of_app. right. apply list_elem_of_here. }
  split; [|split; [|split; [|split]]].
  - apply pairwise_app. split; [exact Hsorted|]. split.
    + unfold new, cells_of_call. apply pairwise_map_seq.
      intros i j _ Hij _. unfold cell_before. simpl. right.
      split; [reflexivity | lia].
    + apply list.Forall_forall. intros c Hc.
      apply list.Forall_forall. intros d Hd.
      apply Hnew in Hd as (k & Hk & ->).
      unfold behind_cursor in Hbehind.
      rewrite list.Forall_forall in Hbehind.
      destruct (Hbehind c Hc) as (t & Ht & Hcase).
      unfold cell_before. rewrite Ht. simpl.
      destruct Hcase as [-> | Hlt]; [right | left; exact Hlt].
      split; [reflexivity|].
      specialize (Hahead c (fi, r) f Hc Ht Hhere Hf). simpl in Hahead.
      lia.
  - intros c e g Hc Hct He Hg Hlive.
    apply elem_of_app in Hc as [Hc | Hc].
    + destruct (fragment_at_insert_cases fs fi (fst e) f f' g Hf Hg)
        as [[Hfe ->] | [Hfe Hg']].
      * destruct (Z_le_gt_dec (Z.max (fst (snd e)) (upto f)) (snd (snd e)))
          as [Hl | Hl].
        -- rewrite <- Hfe in Hf.
           specialize (Hahead c e f Hc Hct He Hf Hl). lia.
        -- lia.
      * exact (Hahead c e g Hc Hct He Hg' Hlive).
    + apply Hnew in Hc as (k & Hk & ->). simpl.
      destruct (fragment_at_insert_cases fs fi (fst e) f f' g Hf Hg)
        as [[Hfe ->] | [Hfe Hg']].
      * lia.
      * destruct (increasing_pos_split done rest (fi, r) e Hinc He)
          as (Hr & [[Hed Hlt] | [-> | [Her Hlt]]]).
        -- rewrite list.Forall_forall in Hdone.
           specialize (Hdone e Hed g Hg'). pos_lia.
        -- simpl in Hfe. congruence.
        -- pos_lia.
  - apply list.Forall_forall. intros c Hc.
    apply Hnew in Hc as (k & _ & ->). reflexivity.
  - apply list.Forall_forall. intros e He g Hg.
    rewrite list.Forall_forall in Hdone.
    destruct (fragment_at_insert_cases fs fi (fst e) f f' g Hf Hg)
      as [[Hfe ->] | [Hfe Hg']].
    + rewrite <- Hfe in Hf. specialize (Hdone e He f Hf). lia.
    + exact (Hdone e He g Hg').
  - intros Hno g Hg. unfold fs1 in Hg. cbn [fst snd] in Hg |- *.
    rewrite (fragment_at_insert_same fs fi f f' Hf) in Hg.
    inversion Hg; subst. auto.
Qed.

Lemma Forall2_insert_l {X Y : Type} (P : X -> Y -> Prop) (l : list X)
    (k : list Y) (i : nat) (x x' : X) :
  Forall2 P l k -> l !! i = Some x ->
  (forall y, k !! i = Some y -> P x' y) ->
  Forall2 P (<[i := x']> l) k.
Proof.
  intros Hlk Hx Hy.
  destruct (Forall2_lookup_l P l k i x Hlk Hx) as (y & Hk & _).
  rewrite <- (list_insert_id k i y Hk).
  apply Forall2_insert; auto.
Qed.

(** The copy loop over the rest of a plan whose entries [done] are copied:
    the cells it delivers lie on the tile of the cursor; put after the cells
    delivered so far they are in order, and they lie before every cell the
    plan may still deliver.  The loop keeps the fragments on their tiles and
    touches nothing of the plans or of the cursor. *)
Lemma copy_ranges_loop_order (rest : FragmentCellPosRanges) (bsz : Z) :
  forall done (st : ArrayReadState F) buf off rc st' buf' off' log tile cells,
  copy_ranges_loop_log rest attr bsz st buf off
  = Ret ((rc, st', buf', off'), log) ->
  range_global_tile_coords_ st = Some tile ->
  increasing_pos (done ++ rest) ->
  Forall (copied_entry upto (fragments st)) done ->
  ahead upto (done ++ rest) (fragments st) tile cells ->
  sorted cells ->
  behind_cursor AS tile cells ->
  Forall2 on (fragments st) (fragment_global_tile_coords_ st) ->
  (sorted (cells ++ delivered_cells upto log)
   /\ ahead upto (done ++ rest) (fragments st') tile
        (cells ++ delivered_cells upto log)
   /\ Forall (fun c => fst c = Some tile) (delivered_cells upto log)
   /\ Forall2 on (fragments st') (fragment_global_tile_coords_ st'))
  /\ fragment_cell_pos_ranges_vec_ st' = fragment_cell_pos_ranges_vec_ st
  /\ fragment_cell_pos_ranges_vec_pos_ st'
     = fragment_cell_pos_ranges_vec_pos_ st
  /\ range_global_tile_coords_ st' = range_global_tile_coords_ st
  /\ range_global_tile_domain_ st' = range_global_tile_domain_ st
  /\ fragment_global_tile_coords_ st' = fragment_global_tile_coords_ st.
Proof.
  induction rest as [|[fi r] rest IH];
    intros done st buf off rc st' buf' off' log tile cells Hrun Hcur Hinc
      Hdone Hahead Hsorted Hbehind Hon.
  - simpl in Hrun. inversion Hrun; subst. simpl. rewrite app_nil_r.
    repeat split; auto.
  - cbn [copy_ranges_loop_log] in Hrun. destruct (fi =? -1) eqn:Efi.
    + unfold copy_cell_range_with_empty in Hrun.
      destruct (vector_at (overflow_ st) attr) as [[|]| |];
        unfold mbind, Run_bind in Hrun; try discriminate.
      * inversion Hrun; subst. simpl. rewrite app_nil_r.
        repeat split; auto.
      * apply Z.eqb_eq in Efi. subst fi.
        rewrite app_cons_snoc in Hinc, Hahead |- *.
        eapply IH; eauto.
        apply list.Forall_app. split; [exact Hdone|].
        apply list.Forall_cons. split; [|constructor].
        intros f Hf. apply fragment_at_Ret in Hf as [Hneg _].
        simpl in Hneg. lia.
    + destruct (fragment_at (fragments st) fi) as [f| |] eqn:Ef;
        unfold mbind at 1, Run_bind at 1 in Hrun; try discriminate.
      destruct (Fragment.copy_cell_range f attr buf bsz off r)
        as [[[f' buf1] off1]|] eqn:Ecopy.
      2: { inversion Hrun; subst. simpl. rewrite app_nil_r.
           repeat split; auto. }
      rewrite Hcur in Hrun.
      destruct (copy_call_order done rest fi r (fragments st) f f'
                  buf bsz off buf1 off1 tile cells Ef Ecopy Hinc Hdone
                  Hahead Hsorted Hbehind)
        as (Hs1 & Ha1 & Ht1 & Hd1 & Hc1).
      assert (Hon1 : Forall2 on (<[Z.to_nat fi := f']> (fragments st))
                       (fragment_global_tile_coords_ st)).
      { apply fragment_at_Ret in Ef as [_ Ef].
        eapply Forall2_insert_l; [exact Hon | exact Ef |].
        intros c Hc.
        eapply (on_copy_cell_range _ _ _ fragment_laws); [|exact Ecopy].
        eapply Forall2_lookup_lr; eauto. }
      destruct (Fragment.overflow f' attr) eqn:Eov.
      * inversion Hrun; subst. simpl. rewrite app_nil_r.
        repeat split; auto.
      * destruct (copy_ranges_loop_log rest attr bsz _ buf1 off1)
          as [[[[[rc2 st2] buf2] off2] log2]| |] eqn:Eloop;
          unfold mbind, Run_bind in Hrun; try discriminate.
        inversion Hrun; subst; clear Hrun.
        rewrite app_cons_snoc in Hinc, Ha1 |- *.
        destruct (IH (done ++ [(fi, r)]) _ _ _ _ _ _ _ _ tile
                    (cells
                     ++ cells_of_call upto
                          {| call_tile := Some tile; call_fragment := f;
                             call_range := r; call_from := off;
                             call_to := off1 |})
                    Eloop)
          as ((Hs2 & Ha2 & Ht2 & Hon2) & Hframe).
        -- exact Hcur.
        -- exact Hinc.
        -- apply list.Forall_app. split; [exact Hd1|].
           apply list.Forall_cons. split; [auto | constructor].
        -- exact Ha1.
        -- exact Hs1.
        -- apply behind_cursor_app. split; [exact Hbehind|].
           apply on_tile_behind_cursor. exact Ht1.
        -- exact Hon1.
        -- rewrite delivered_cells_cons, app_assoc.
           split; [|exact Hframe].
           split; [exact Hs2|]. split; [exact Ha2|].
           split; [|exact Hon2].
           apply list.Forall_app. split; assumption.
Qed.

End Order.

(** ** The merge with the empty fragment among the fragments *)

Lemma ltb_up (a b : Z) : (a + 1 <? b + 1) = (a <? b).
Proof.
  destruct (Z.ltb_spec a b), (Z.ltb_spec (a + 1) (b + 1)); auto; lia.
Qed.

Lemma gtb_up (a b : Z) : (a + 1 >? b + 1) = (a >? b).
Proof. rewrite !Z.gtb_ltb. apply ltb_up. Qed.

Lemma Smaller_up (AS : ArraySchema) (a b : FragmentCellRange) :
  SmallerFragmentCellRange AS (up a) (up b) = SmallerFragmentCellRange AS a b.
Proof.
  unfold SmallerFragmentCellRange, up. cbn [fst snd].
  rewrite ltb_up. reflexivity.
Qed.

Lemma pq_push_up (AS : ArraySchema) (x : FragmentCellRange)
    (pq : FragmentCellRanges) :
  pq_push AS (up x) (map up pq) = map up (pq_push AS x pq).
Proof.
  induction pq as [|y pq IH]; [reflexivity|].
  cbn [map pq_push]. rewrite Smaller_up.
  destruct (SmallerFragmentCellRange AS y x); [reflexivity|].
  rewrite IH. reflexivity.
Qed.

Lemma pq_of_list_up (AS : ArraySchema) (l : FragmentCellRanges) :
  pq_of_list AS (map up l) = map up (pq_of_list AS l).
Proof.
  unfold pq_of_list.
  change (@nil FragmentCellRange) with (map up []) at 1.
  generalize (@nil FragmentCellRange) as acc.
  induction l as [|x l IH]; intros acc; [reflexivity|].
  cbn [map foldl]. rewrite pq_push_up. apply IH.
Qed.

Lemma note_top_up (line : Z) (pq : FragmentCellRanges) (log : list Event) :
  note_top line (map up pq) log = note_top line pq log.
Proof. destruct pq; reflexivity. Qed.

Lemma lookup_map {X Y : Type} (g : X -> Y) (l : list X) (i : nat) :
  map g l !! i = option_map g (l !! i).
Proof.
  revert i. induction l as [|x l IH]; intros [|i]; try reflexivity.
  apply IH.
Qed.

Lemma tail_map {X Y : Type} (g : X -> Y) (l : list X) :
  tail (map g l) = map g (tail l).
Proof. destruct l; reflexivity. Qed.

Lemma fragment_at_up {F : Type} (fs : list F) (i : Z) (f : F) :
  fragment_at fs i = Ret f ->
  fragment_at (and_empty_fragment fs) (i + 1) = Ret (Some f).
Proof.
  intros Hf. apply fragment_at_Ret in Hf as [Hi Hf].
  apply fragment_at_Ret. split; [lia|].
  unfold and_empty_fragment.
  replace (Z.to_nat (i + 1)) with (S (Z.to_nat i)) by lia.
  change ((None :: map Some fs) !! S (Z.to_nat i))
    with (map Some fs !! Z.to_nat i).
  rewrite lookup_map, Hf. reflexivity.
Qed.

Lemma fragment_at_empty {F : Type} (fs : list F) :
  fragment_at (and_empty_fragment fs) 0 = Ret None.
Proof. reflexivity. Qed.

Lemma discard_ranges_up (AS : ArraySchema) (td : list Z) (fuel : nat) :
  forall popped pq log,
  discard_ranges fuel AS td (up popped) (map up pq) log
  = match discard_ranges fuel AS td popped pq log with
    | Ret (pq', log') => Ret (map up pq', log')
    | Undefined u => Undefined u
    | OutOfFuel => OutOfFuel
    end.
Proof.
  induction fuel as [|fuel IH]; intros popped pq log; [reflexivity|].
  destruct pq as [|top pq]; [reflexivity|].
  cbn [discard_ranges map]. cbn [up fst snd]. rewrite ltb_up.
  destruct (_ && _); [|reflexivity].
  destruct (cell_order_cmp AS (snd (snd top)) (snd (snd popped)) >? 0).
  - change (fst top + 1,
            (get_next_cell_coords AS td (snd (snd popped)), snd (snd top)))
      with (up (fst top,
                (get_next_cell_coords AS td (snd (snd popped)),
                 snd (snd top)))).
    change (?x :: map up pq) with (map up (top :: pq)).
    rewrite pq_push_up.
    unfold pq_pop. rewrite tail_map, note_top_up.
    change (fst popped + 1, snd popped) with (up popped). apply IH.
  - unfold pq_pop. cbn [tail]. rewrite note_top_up.
    change (fst popped + 1, snd popped) with (up popped). apply IH.
Qed.

Lemma trim_popped_up (AS : ArraySchema) (td : list Z)
    (popped : FragmentCellRange) (pq : FragmentCellRanges) :
  trim_popped AS td (up popped) (map up pq)
  = (map up (fst (trim_popped AS td popped pq)),
     up (snd (trim_popped AS td popped pq))).
Proof.
  destruct pq as [|top pq]; [reflexivity|].
  cbn [trim_popped map]. cbn [up fst snd]. rewrite gtb_up.
  destruct (_ && _); [|reflexivity].
  destruct (cell_order_cmp AS (snd (snd top)) (snd (snd popped)) <? 0);
    [|reflexivity].
  cbn [fst snd]. f_equal.
  change (fst popped + 1,
          (get_next_cell_coords AS td (snd (snd top)), snd (snd popped)))
    with (up (fst popped,
              (get_next_cell_coords AS td (snd (snd top)),
               snd (snd popped)))).
  change (?x :: map up pq) with (map up (top :: pq)).
  apply pq_push_up.
Qed.

Lemma bool_decide_map_nil (pq : FragmentCellRanges) :
  bool_decide (map up pq = []) = bool_decide (pq = []).
Proof. destruct pq; reflexivity. Qed.

(** A run of the merge loop is a run of the same loop over the fragments
    with the empty fragment put before them. *)
Lemma process_queue_up `{Fragment.Ops F} (AS : ArraySchema) (fs : list F)
    (td : list Z) (tde : Coords) (fuel : nat) :
  forall pq out log rc out' log',
  process_queue fuel AS fs td tde pq out log = Ret (rc, out', log') ->
  process_queue (H := with_empty_fragment) fuel AS (and_empty_fragment fs)
    td tde (map up pq) (map up out) log
  = Ret (rc, map up out', log').
Proof.
  induction fuel as [|fuel IH]; intros pq out log rc out' log' Hrun;
    [discriminate|].
  destruct pq as [|popped pq].
  { simpl in Hrun. inversion Hrun; subst. reflexivity. }
  cbn [process_queue] in Hrun. cbn [process_queue map].
  destruct (fragment_at fs (fst popped)) as [f| |] eqn:Ef;
    unfold mbind at 1, Run_bind at 1 in Hrun; try discriminate.
  change (fst (up popped)) with (fst popped + 1).
  rewrite (fragment_at_up fs (fst popped) f Ef).
  unfold mbind at 1, Run_bind at 1.
  change (snd (up popped)) with (snd popped).
  change (Fragment.dense (Some f)) with (Fragment.dense f).
  change (Fragment.coords_exist (Some f)) with (Fragment.coords_exist f).
  change (Fragment.get_first_two_coords (Some f))
    with (Fragment.get_first_two_coords f).
  rewrite bool_decide_map_nil, note_top_up.
  destruct (_ && _).
  { inversion Hrun; subst. rewrite map_app. reflexivity. }
  destruct (_ || _).
  - destruct (_ && _); [apply IH; exact Hrun|].
    rewrite discard_ranges_up.
    destruct (discard_ranges fuel AS td popped pq (note_top 296 pq log))
      as [[pq1 log1]| |]; unfold mbind, Run_bind in Hrun |- *;
      try discriminate.
    rewrite trim_popped_up.
    destruct (trim_popped AS td popped pq1) as [pq2 popped'].
    cbn [fst snd].
    change (map up out ++ [up popped']) with (map up out ++ map up [popped']).
    rewrite <- map_app. apply IH. exact Hrun.
  - assert (Htop :
      match map up pq with
      | [] => false
      | top :: _ => cell_order_cmp AS (fst (snd top)) (snd (snd popped)) >? 0
      end
      = match pq with
        | [] => false
        | top :: _ =>
            cell_order_cmp AS (fst (snd top)) (snd (snd popped)) >? 0
        end).
    { destruct pq; reflexivity. }
    rewrite Htop.
    match type of Hrun with (if ?b then _ else _) = _ => destruct b end.
    { change (map up out ++ [up popped])
        with (map up out ++ map up [popped]).
      rewrite <- map_app. apply IH. exact Hrun. }
    destruct (Fragment.get_first_two_coords f (fst (snd popped)))
      as [[first second]|].
    2: { inversion Hrun; subst. reflexivity. }
    destruct (cell_order_cmp AS first tde >? 0); [apply IH; exact Hrun|].
    change (fst popped + 1, (first, first))
      with (up (fst popped, (first, first))).
    rewrite pq_push_up.
    destruct (cell_order_cmp AS second tde >? 0); [apply IH; exact Hrun|].
    change (fst popped + 1, (second, snd (snd popped)))
      with (up (fst popped, (second, snd (snd popped)))).
    rewrite pq_push_up. apply IH. exact Hrun.
Qed.

(** More fuel does not change what a run of the merge returns. *)
Lemma discard_ranges_fuel (AS : ArraySchema) (td : list Z) (n : nat) :
  forall m popped pq log x,
  discard_ranges n AS td popped pq log = Ret x -> (n <= m)%nat ->
  discard_ranges m AS td popped pq log = Ret x.
Proof.
  induction n as [|n IH]; intros m popped pq log x Hrun Hnm; [discriminate|].
  destruct m as [|m]; [lia|].
  cbn [discard_ranges] in Hrun |- *.
  destruct pq as [|top pq]; [exact Hrun|].
  destruct (_ && _); [|exact Hrun].
  apply IH; [exact Hrun | lia].
Qed.

Lemma process_queue_fuel `{Fragment.Ops F} (AS : ArraySchema) (fs : list F)
    (td : list Z) (tde : Coords) (n : nat) :
  forall m pq out log x,
  process_queue n AS fs td tde pq out log = Ret x -> (n <= m)%nat ->
  process_queue m AS fs td tde pq out log = Ret x.
Proof.
  induction n as [|n IH]; intros m pq out log x Hrun Hnm; [discriminate|].
  destruct m as [|m]; [lia|].
  cbn [process_queue] in Hrun |- *.
  destruct pq as [|popped pq]; [exact Hrun|].
  destruct (fragment_at fs (fst popped)) as [f| |];
    unfold mbind at 1, Run_bind at 1 in Hrun; try discriminate.
  unfold mbind at 1, Run_bind at 1.
  destruct (_ && _); [exact Hrun|].
  destruct (_ || _).
  - destruct (_ && _); [apply IH; [exact Hrun | lia]|].
    destruct (discard_ranges n AS td popped pq (note_top 296 pq log))
      as [[pq1 log1]| |] eqn:Ed; unfold mbind, Run_bind in Hrun;
      try discriminate.
    rewrite (discard_ranges_fuel AS td n m _ _ _ _ Ed) by lia.
    unfold mbind, Run_bind.
    destruct (trim_popped AS td popped pq1) as [pq2 popped'].
    apply IH; [exact Hrun | lia].
  - match type of Hrun with (if ?b then _ else _) = _ => destruct b end.
    { apply IH; [exact Hrun | lia]. }
    destruct (Fragment.get_first_two_coords f (fst (snd popped)))
      as [[first second]|]; [|exact Hrun].
    repeat match type of Hrun with (if ?b then _ else _) = _ =>
             destruct b end; (apply IH; [exact Hrun | lia]).
Qed.

Lemma fragment_at_up_inv {F : Type} (fs : list F) (i : Z) (o : option F) :
  fragment_at (and_empty_fragment fs) (i + 1) = Ret o ->
  (i = -1 /\ o = None) \/ (exists f, o = Some f /\ fragment_at fs i = Ret f).
Proof.
  intros Ho. apply fragment_at_Ret in Ho as [Hi Ho].
  destruct (Z.eq_dec i (-1)) as [-> | Hne].
  - left. split; [reflexivity|]. simpl in Ho. congruence.
  - right. unfold and_empty_fragment in Ho.
    replace (Z.to_nat (i + 1)) with (S (Z.to_nat i)) in Ho by lia.
    change ((None :: map Some fs) !! S (Z.to_nat i))
      with (map Some fs !! Z.to_nat i) in Ho.
    rewrite lookup_map in Ho.
    destruct (fs !! Z.to_nat i) as [f|] eqn:Ef; [|discriminate].
    exists f. split; [simpl in Ho; congruence|].
    apply fragment_at_Ret. split; [lia | exact Ef].
Qed.

Lemma increasing_up (AS : ArraySchema) (td : list Z)
    (l : FragmentCellRanges) :
  increasing AS td (map up l) <-> increasing AS td l.
Proof.
  induction l as [|r l IH]; [reflexivity|].
  cbn [map increasing]. rewrite IH, Forall_map. reflexivity.
Qed.

Lemma pairwise_apart_up (AS : ArraySchema) (td : list Z)
    (l : FragmentCellRanges) :
  pairwise (apart_if_same AS td) l ->
  pairwise (apart_if_same AS td) (map up l).
Proof.
  induction l as [|r l IH]; [auto|].
  cbn [map pairwise]. intros [Hr Hl]. split; [|auto].
  apply Forall_map. eapply Forall_impl; [|exact Hr].
  intros q Hq Hsame. apply Hq. unfold up in Hsame. simpl in Hsame. lia.
Qed.

(** What the merge is handed for a tile: ranges of the tile that are not
    inverted, each of the empty fragment or of a fragment of the array, a
    sparse fragment answering as the merge expects. *)
Lemma merged_ranges_with_empty `{Fragment.Ops F} (AS : ArraySchema)
    (fs : list F) (td : list Z) (tde : Coords) (input : FragmentCellRanges)
    (fuel : nat) (rc : Z) (out : FragmentCellRanges) (log : list Event) :
  CellOrderLaws AS td ->
  Forall
    (fun r =>
       valid_range AS td r
       /\ (fst r = -1
           \/ exists f,
                fragment_at fs (fst r) = Ret f
                /\ (Fragment.dense f = false ->
                    (stored f (snd (snd r))
                     /\ (fst (snd r) <> snd (snd r) ->
                         last_stored AS td f (snd (snd r))))
                    /\ in_tile AS td tde
                    /\ (forall c, in_tile AS td c ->
                          cell_pos AS td c <= cell_pos AS td tde)
                    /\ first_two_spec AS td tde f)))
    input ->
  pairwise (apart_if_same AS td) input ->
  process_queue fuel AS fs td tde (pq_of_list AS input) [] []
  = Ret (rc, out, log) ->
  increasing AS td out /\ Forall (from_input AS td input) out.
Proof.
  intros Hlaws Hin Hapart Hrun.
  apply process_queue_up in Hrun. rewrite <- pq_of_list_up in Hrun.
  cbn [map] in Hrun.
  rewrite list.Forall_forall in Hin.
  assert (Hsp : sparse_laws (H := with_empty_fragment) AS td tde
                  (and_empty_fragment fs) (map up input)).
  { intros r o Hr Ho Hsparse.
    apply list_elem_of_In, in_map_iff in Hr as (r0 & <- & Hr0).
    apply list_elem_of_In in Hr0. destruct (Hin r0 Hr0) as (_ & Hcase).
    apply fragment_at_up_inv in Ho as [[_ ->] | (f & -> & Hf)];
      [discriminate Hsparse|].
    destruct Hcase as [Hneg | (f' & Hf' & Hs)].
    - apply fragment_at_Ret in Hf. lia.
    - rewrite Hf in Hf'. inversion Hf'; subst f'.
      destruct (Hs Hsparse) as (_ & Ht & Hmax & Hftc).
      split; [exact Ht|]. split; [exact Hmax | exact Hftc]. }
  assert (Hwf : well_formed (H := with_empty_fragment) AS td
                  (and_empty_fragment fs) (map up input)).
  { split; [|apply pairwise_apart_up; exact Hapart].
    apply Forall_map. apply list.Forall_forall. intros r Hr.
    destruct (Hin r Hr) as (Hv & Hcase). split; [exact Hv|].
    destruct Hcase as [Hneg | (f & Hf & Hs)].
    - exists None. split; [|discriminate].
      unfold up. simpl. rewrite Hneg. reflexivity.
    - exists (Some f). split; [apply fragment_at_up; exact Hf|].
      intros Hsparse. exact (proj1 (Hs Hsparse)). }
  set (m := Nat.max fuel (S (Z.to_nat (work AS td (map up input))))).
  destruct (merged_ranges (H := with_empty_fragment) AS
              (and_empty_fragment fs) td tde Hlaws (map up input) m Hsp Hwf)
    as (out2 & log2 & Hrun2 & Hinc & Hfrom & _); [lia|].
  rewrite (process_queue_fuel (H := with_empty_fragment) AS _ td tde fuel m
             _ _ _ _ Hrun) in Hrun2 by lia.
  inversion Hrun2; subst. split; [apply increasing_up; exact Hinc|].
  rewrite Forall_map in Hfrom. eapply Forall_impl; [|exact Hfrom].
  intros q (r & Hr & Hid & Hlo & Hhi).
  apply list_elem_of_In, in_map_iff in Hr as (r0 & <- & Hr0).
  exists r0. split; [apply list_elem_of_In; exact Hr0|].
  unfold up in Hid. simpl in Hid. split; [lia|]. split; assumption.
Qed.

(** ** The plan of a tile *)

Lemma increasing_pos_app_intro (l1 l2 : FragmentCellPosRanges) :
  increasing_pos l1 -> increasing_pos l2 ->
  (forall e1 e2, e1 ∈ l1 -> e2 ∈ l2 -> snd (snd e1) < fst (snd e2)) ->
  increasing_pos (l1 ++ l2).
Proof.
  induction l1 as [|a l1 IH]; intros H1 H2 H12; [exact H2|].
  destruct H1 as (Ha & Hlt & H1). cbn [app increasing_pos].
  split; [exact Ha|]. split.
  - apply list.Forall_app. split; [exact Hlt|].
    apply list.Forall_forall. intros e He. apply H12; [|exact He].
    apply list_elem_of_here.
  - apply IH; auto. intros e1 e2 He1 He2. apply H12; [|exact He2].
    apply list_elem_of_further. exact He1.
Qed.

Lemma compute_max_overlap_fragment_cell_ranges_tagged {F : Type}
    (fuel : nat) (A : Array) (st : ArrayReadState F)
    (l : FragmentCellRanges) :
  compute_max_overlap_fragment_cell_ranges fuel A st [] = Ret l ->
  Forall (fun r : FragmentCellRange => fst r = max_overlap_i_ st) l.
Proof.
  unfold compute_max_overlap_fragment_cell_ranges.
  destruct (range_global_tile_coords_ st) as [tile|]; [|discriminate].
  destruct (max_overlap_type_ st).
  - intros Hrun. inversion Hrun; subst.
    apply List.Forall_cons; [reflexivity | apply List.Forall_nil].
  - intros Hrun. inversion Hrun; subst.
    apply List.Forall_cons; [reflexivity | apply List.Forall_nil].
  - destruct (cell_order (array_schema A)); intros Hrun.
    + eapply row_slabs_tagged; [exact Hrun | apply List.Forall_nil].
    + eapply col_slabs_tagged; [exact Hrun | apply List.Forall_nil].
    + inversion Hrun; subst. apply List.Forall_nil.
Qed.

Section Plans.

Context `{Fragment.Ops F}.
Variable A : Array.
Variable attr : Z.
Variable on : F -> option Coords -> Prop.
Hypothesis fragment_laws : FragmentLaws A attr on.

Local Abbreviation AS := (array_schema A).

(** A range the merge of the tile [tile] may be handed: a range of the tile
    that is not inverted, of the empty fragment or of a fragment that
    stands on the tile. *)
Local Abbreviation tile_range fs tile :=
  (fun r : FragmentCellRange =>
     valid_range AS (compute_tile_domain AS tile) r
     /\ (fst r = -1
         \/ exists f,
              fragment_at fs (fst r) = Ret f /\ on f (Some tile)
              /\ (Fragment.dense f = false ->
                  stored f (snd (snd r))
                  /\ (fst (snd r) <> snd (snd r) ->
                      last_stored AS (compute_tile_domain AS tile) f
                        (snd (snd r)))))).

Lemma rest_cell_ranges_ok (fs : list F) (tile : Coords) (moi : Z) :
  forall (l : list (F * option Coords)) (k : nat) (acc : FragmentCellRanges),
  (forall j p, l !! j = Some p ->
     fragment_at fs (Z.of_nat (k + j)) = Ret (fst p)
     /\ on (fst p) (snd p)) ->
  Forall (tile_range fs tile) acc ->
  pairwise (apart_if_same AS (compute_tile_domain AS tile)) acc ->
  Forall (fun r => fst r < Z.of_nat k \/ fst r <= moi) acc ->
  Forall (tile_range fs tile)
    (rest_cell_ranges tile moi (zip (seq k (length l)) l) acc)
  /\ pairwise (apart_if_same AS (compute_tile_domain AS tile))
       (rest_cell_ranges tile moi (zip (seq k (length l)) l) acc).
Proof.
  induction l as [|[f c] l IH]; intros k acc Hl Hacc Hapart Hids.
  - simpl. auto.
  - cbn [length seq zip zip_with rest_cell_ranges].
    destruct (Hl O (f, c) eq_refl) as [Hf Hon]. cbn [fst snd] in Hf, Hon.
    rewrite Nat.add_0_r in Hf.
    assert (Hl' : forall j p, l !! j = Some p ->
              fragment_at fs (Z.of_nat (S k + j)) = Ret (fst p)
              /\ on (fst p) (snd p)).
    { intros j p Hp. specialize (Hl (S j) p Hp).
      replace (S k + j)%nat with (k + S j)%nat by lia. exact Hl. }
    destruct ((moi <? Z.of_nat k) && on_tile c tile) eqn:E.
    + apply andb_true_iff in E as [Hmoi Htile]. apply Z.ltb_lt in Hmoi.
      unfold on_tile in Htile. destruct c as [c|]; [|discriminate].
      apply bool_decide_eq_true in Htile. subst c.
      destruct (on_cell_ranges _ _ _ fragment_laws f tile (Z.of_nat k) acc
                  Hon) as (new & -> & Hnew & Hnapart).
      rewrite list.Forall_forall in Hnew.
      apply IH; [exact Hl' | | |].
      * apply list.Forall_app. split; [exact Hacc|].
        apply list.Forall_forall. intros r Hr.
        destruct (Hnew r Hr) as (Hid & Hv & Hs). split; [exact Hv|].
        right. exists f. rewrite Hid. auto.
      * apply pairwise_app. split; [exact Hapart|]. split.
        -- clear - Hnapart. induction new as [|r new IH]; [exact I|].
           destruct Hnapart as [Hr Hn]. split; [|auto].
           eapply Forall_impl; [|exact Hr]. intros q Hq _. exact Hq.
        -- rewrite list.Forall_forall in Hids.
           apply list.Forall_forall. intros x Hx.
           apply list.Forall_forall. intros y Hy Hsame.
           destruct (Hnew y Hy) as (Hid & _). specialize (Hids x Hx). lia.
      * apply list.Forall_app. split.
        -- eapply Forall_impl; [|exact Hids]. intros r Hr. simpl in Hr. lia.
        -- apply list.Forall_forall. intros r Hr.
           destruct (Hnew r Hr) as (Hid & _). lia.
    + apply IH; [exact Hl' | exact Hacc | exact Hapart |].
      eapply Forall_impl; [|exact Hids]. intros r Hr. simpl in Hr. lia.
Qed.

(** The conversion of increasing ranges of a tile yields increasing ranges
    of positions. *)
Lemma to_cell_pos_ranges_increasing (fs : list F) (tile : Coords) :
  forall (out : FragmentCellRanges) (acc : FragmentCellPosRanges) rc plan,
  increasing AS (compute_tile_domain AS tile) out ->
  Forall (fun r => fst r = -1
                   \/ exists f, fragment_at fs (fst r) = Ret f
                                /\ on f (Some tile)) out ->
  increasing_pos acc ->
  (forall e r, e ∈ acc -> r ∈ out ->
     snd (snd e) < lo AS (compute_tile_domain AS tile) r) ->
  to_cell_pos_ranges AS fs (compute_tile_domain AS tile) out acc
  = Ret (rc, plan) ->
  increasing_pos plan.
Proof.
  set (td := compute_tile_domain AS tile).
  induction out as [|r out IH]; intros acc rc plan Hinc Hfs Hacc Hlt Hrun.
  - simpl in Hrun. inversion Hrun; subst. exact Hacc.
  - destruct Hinc as ((Hv1 & Hv2 & Hr) & Hlater & Hinc).
    apply list.Forall_cons in Hfs as [Hf Hfs].
    rewrite list.Forall_forall in Hlater.
    cbn [to_cell_pos_ranges] in Hrun.
    assert (Hdense : forall new,
              increasing_pos new ->
              Forall (fun e => lo AS td r <= fst (snd e)
                               /\ snd (snd e) <= hi AS td r) new ->
              increasing_pos (acc ++ new)
              /\ forall e r', e ∈ acc ++ new -> r' ∈ out ->
                   snd (snd e) < lo AS td r').
    { intros new Hnew Hin. rewrite list.Forall_forall in Hin. split.
      - apply increasing_pos_app_intro; auto.
        intros e1 e2 He1 He2. specialize (Hin e2 He2).
        specialize (Hlt e1 r He1 (list_elem_of_here _ _)). lia.
      - intros e r' He Hr'. apply elem_of_app in He as [He | He].
        + apply Hlt; [exact He|]. apply list_elem_of_further. exact Hr'.
        + specialize (Hin e He). specialize (Hlater r' Hr'). lia. }
    assert (Hone : increasing_pos [(fst r, (lo AS td r, hi AS td r))]
                   /\ Forall (fun e => lo AS td r <= fst (snd e)
                                       /\ snd (snd e) <= hi AS td r)
                        [(fst r, (lo AS td r, hi AS td r))]).
    { split.
      - simpl. split; [exact Hr|]. split; [constructor | exact I].
      - apply list.Forall_cons. split; [simpl; lia | constructor]. }
    destruct (fst r =? -1) eqn:E.
    + unfold mbind, Run_bind in Hrun.
      destruct (Hdense _ (proj1 Hone) (proj2 Hone)) as [Ha Hb].
      eapply IH; eauto.
    + destruct Hf as [Hneg | (f & Hf & Hon)];
        [apply Z.eqb_neq in E; contradiction|].
      rewrite Hf in Hrun. unfold mbind, Run_bind in Hrun.
      destruct (Fragment.dense f) eqn:Ed.
      * destruct (Hdense _ (proj1 Hone) (proj2 Hone)) as [Ha Hb].
        eapply IH; eauto.
      * destruct (Fragment.get_cell_pos_ranges_sparse f (fst r) td (snd r))
          as [new|] eqn:Es.
        -- destruct (on_cell_pos_ranges _ _ _ fragment_laws f tile r new
                       Hon Ed (conj Hv1 (conj Hv2 Hr)) Es) as [Hn1 Hn2].
           destruct (Hdense _ Hn1 Hn2) as [Ha Hb].
           eapply IH; eauto.
        -- inversion Hrun; subst. exact Hacc.
Qed.

End Plans.

Section Tiles.

Context `{Fragment.Ops F}.
Variable A : Array.
Variable attr : Z.
Variable on : F -> option Coords -> Prop.
Hypothesis fragment_laws : FragmentLaws A attr on.
Hypothesis cell_laws : forall t,
  range_tile A t ->
  CellOrderLaws (array_schema A) (compute_tile_domain (array_schema A) t).
Hypothesis overlap_ok : overlap_ranges_ok F A.

Local Abbreviation AS := (array_schema A).

(** The plan the merge and the conversion compute for a tile of the range,
    from the cell ranges of the fragments that stand on it, is made of
    increasing ranges of positions. *)
Lemma tile_plan_increasing (fuel fuel' : nat) (st : ArrayReadState F)
    (tile : Coords) (backbone : FragmentCellRanges) rc plan log :
  range_tile A tile ->
  Forall2 on (fragments st) (fragment_global_tile_coords_ st) ->
  range_global_tile_coords_ st = Some tile ->
  max_overlap_range_ st = overlap_range AS (range A) tile ->
  max_overlap_type_ st = overlap_type AS (max_overlap_range_ st) ->
  max_overlap_i_ st
  = find_max_overlap tile (max_overlap_range_ st)
      (rev (indexed (zip (fragments st) (fragment_global_tile_coords_ st)))) ->
  compute_max_overlap_fragment_cell_ranges fuel A st [] = Ret backbone ->
  compute_fragment_cell_pos_ranges fuel' AS (fragments st) tile
    (rest_cell_ranges tile (max_overlap_i_ st)
       (indexed (zip (fragments st) (fragment_global_tile_coords_ st)))
       backbone)
  = Ret (rc, plan, log) ->
  increasing_pos plan.
Proof.
  intros Htile Hon Hcur Hmor Htype Hmoi Hback Hrun.
  set (fs := fragments st) in *. set (cs := fragment_global_tile_coords_ st) in *.
  set (td := compute_tile_domain AS tile).
  set (moi := max_overlap_i_ st) in *.
  destruct (overlap_ok st fuel tile backbone Htile Hcur Hmor Htype Hback)
    as [Hvalid Hapart]. fold td in Hvalid, Hapart.
  pose proof (compute_max_overlap_fragment_cell_ranges_tagged fuel A st
                backbone Hback) as Htag. fold moi in Htag.
  assert (Hzip : forall j p, zip fs cs !! j = Some p ->
            fragment_at fs (Z.of_nat j) = Ret (fst p)
            /\ on (fst p) (snd p)).
  { intros j [f c] Hp. apply lookup_zip_with_Some in Hp
      as (f' & c' & E & Hf & Hc). inversion E; subst f' c'. simpl.
    split.
    - apply fragment_at_Ret. split; [lia|]. rewrite Nat2Z.id. exact Hf.
    - eapply Forall2_lookup_lr; eauto. }
  assert (Hcover : moi = -1
            \/ exists f, fragment_at fs moi = Ret f /\ on f (Some tile)
                         /\ Fragment.dense f = true).
  { pose proof (find_max_overlap_spec tile (max_overlap_range_ st)
                  (zip fs cs)) as Hspec. cbv zeta in Hspec.
    rewrite <- Hmoi in Hspec.
    destruct Hspec as [[Hm _] | (Hm & ([f c] & Hp & Hc) & _)];
      [left; exact Hm | right].
    cbn [fst snd] in Hc. apply andb_true_iff in Hc as [Hc1 Hc2].
    destruct (Hzip _ _ Hp) as [Hf Ho]. cbn [fst snd] in Hf, Ho.
    rewrite Z2Nat.id in Hf by lia.
    unfold on_tile in Hc1. destruct c as [c|]; [|discriminate].
    apply bool_decide_eq_true in Hc1. subst c.
    exists f. split; [exact Hf|]. split; [exact Ho|].
    eapply (on_max_overlap _ _ _ fragment_laws); eauto. }
  assert (Hback_ok : Forall (fun r : FragmentCellRange =>
            valid_range AS td r
            /\ (fst r = -1
                \/ exists f,
                     fragment_at fs (fst r) = Ret f /\ on f (Some tile)
                     /\ (Fragment.dense f = false ->
                         stored f (snd (snd r))
                         /\ (fst (snd r) <> snd (snd r) ->
                             last_stored AS td f (snd (snd r))))))
            backbone).
  { rewrite list.Forall_forall in Hvalid, Htag.
    apply list.Forall_forall. intros r Hr. split; [auto|].
    rewrite (Htag r Hr).
    destruct Hcover as [Hm | (f & Hf & Ho & Hd)]; [left; exact Hm | right].
    exists f. split; [exact Hf|]. split; [exact Ho|]. congruence. }
  assert (Hback_apart : pairwise (apart_if_same AS td) backbone).
  { clear - Hapart. induction backbone as [|r l IH]; [exact I|].
    destruct Hapart as [Hr Hl]. split; [|auto].
    eapply Forall_impl; [|exact Hr]. intros q Hq _. exact Hq. }
  assert (Hback_ids : Forall (fun r : FragmentCellRange =>
                        fst r < Z.of_nat 0 \/ fst r <= moi) backbone).
  { eapply Forall_impl; [|exact Htag]. intros r Hr. simpl in Hr. lia. }
  destruct (rest_cell_ranges_ok A attr on fragment_laws fs tile moi
              (zip fs cs) 0 backbone Hzip Hback_ok Hback_apart Hback_ids)
    as [Hun Hun_apart].
  fold (indexed (zip fs cs)) in Hun, Hun_apart.
  set (unsorted := rest_cell_ranges tile moi (indexed (zip fs cs)) backbone)
    in *.
  unfold compute_fragment_cell_pos_ranges, merge_fragment_cell_ranges
    in Hrun. fold td in Hrun.
  destruct (process_queue fuel' AS fs td (compute_tile_domain_end AS td)
              (pq_of_list AS unsorted) [] [])
    as [[[rc1 out] log1]| |] eqn:Emerge;
    unfold mbind at 1, Run_bind at 1 in Hrun; try discriminate.
  destruct (rc1 =? TILEDB_ARS_OK).
  2: { inversion Hrun; subst. exact I. }
  destruct (merged_ranges_with_empty AS fs td
              (compute_tile_domain_end AS td) unsorted fuel' rc1 out log1
              (cell_laws tile Htile))
    as [Hinc Hfrom]; [| exact Hun_apart | exact Emerge |].
  { eapply Forall_impl; [|exact Hun].
    intros r (Hv & [Hneg | (f & Hf & Ho & Hs)]); (split; [exact Hv|]);
      [left; exact Hneg | right].
    exists f. split; [exact Hf|]. intros Hd. split; [exact (Hs Hd)|].
    exact (on_sparse _ _ _ fragment_laws f tile Ho Hd). }
  destruct (to_cell_pos_ranges AS fs td out [])
    as [[rc2 plan2]| |] eqn:Econv; unfold mbind, Run_bind in Hrun;
    try discriminate.
  inversion Hrun; subst.
  eapply (to_cell_pos_ranges_increasing A attr on fragment_laws fs tile out
            [] _ _ Hinc); [| exact I | | exact Econv].
  - rewrite list.Forall_forall in Hun, Hfrom.
    apply list.Forall_forall. intros q Hq.
    destruct (Hfrom q Hq) as (r & Hr & Hid & _).
    destruct (Hun r Hr) as (_ & [Hneg | (f & Hf & Ho & _)]);
      [left; lia | right].
    exists f. rewrite <- Hid. auto.
  - intros e r He. apply elem_of_nil in He as [].
Qed.

End Tiles.

(** ** The next tile *)

Lemma get_next_cell_ranges_dense_halves `{Fragment.Ops F} (fuel : nat)
    (A : Array) (st : ArrayReadState F) :
  get_next_cell_ranges_dense fuel A st
  = ('(finished, st) ← next_tile A st;
     if finished : bool then Ret (TILEDB_ARS_OK, st)
     else
       match range_global_tile_coords_ st with
       | None => Undefined NullTileCoords
       | Some tile => plan_tile fuel A st tile
       end).
Proof. reflexivity. Qed.

Lemma init_range_global_tile_coords_cursor {F : Type} (A : Array)
    (st : ArrayReadState F) :
  let st0 := init_range_global_tile_coords A st in
  (fragment_cell_pos_ranges_vec_ st0 = fragment_cell_pos_ranges_vec_ st
   /\ fragment_cell_pos_ranges_vec_pos_ st0
      = fragment_cell_pos_ranges_vec_pos_ st
   /\ fragments st0 = fragments st
   /\ fragment_global_tile_coords_ st0 = fragment_global_tile_coords_ st)
  /\ ((range_global_tile_coords_ st0 = Some (first_range_tile A)
       /\ range_global_tile_domain_ st0 = Some (range_tile_domain A))
      \/ (range_global_tile_coords_ st0 = range_global_tile_coords_ st
          /\ range_global_tile_domain_ st0 = None)).
Proof.
  unfold init_range_global_tile_coords.
  destruct (negb _); simpl; (split; [repeat split|]);
    [left | right]; split; reflexivity.
Qed.

Lemma get_next_range_global_tile_coords_cursor {F : Type} (A : Array)
    (st stn : ArrayReadState F) (c : Coords) (d : list Z) :
  range_global_tile_coords_ st = Some c ->
  range_global_tile_domain_ st = Some d ->
  get_next_range_global_tile_coords A st = Ret stn ->
  (fragment_cell_pos_ranges_vec_ stn = fragment_cell_pos_ranges_vec_ st
   /\ fragment_cell_pos_ranges_vec_pos_ stn
      = fragment_cell_pos_ranges_vec_pos_ st
   /\ fragments stn = fragments st
   /\ fragment_global_tile_coords_ stn = fragment_global_tile_coords_ st)
  /\ ((range_global_tile_coords_ stn = None
       /\ range_global_tile_domain_ stn = None)
      \/ (range_global_tile_coords_ stn
          = Some (get_next_tile_coords (array_schema A) d c)
          /\ range_global_tile_domain_ stn = Some d
          /\ forall i, (i < dim_num (array_schema A))%nat ->
               idx d (2 * i)
               <= idx (get_next_tile_coords (array_schema A) d c) i
               <= idx d (2 * i + 1))).
Proof.
  intros Hc Hd Hrun. unfold get_next_range_global_tile_coords in Hrun.
  rewrite Hd, Hc in Hrun.
  destruct (existsb _ (seq 0 (dim_num (array_schema A)))) eqn:E in Hrun;
    cbn [negb] in Hrun; inversion Hrun; subst stn; clear Hrun;
    (split; [repeat split|]);
    cbn [range_global_tile_coords_ range_global_tile_domain_
         set_range_tile].
  - left. auto.
  - right. split; [reflexivity|]. split; [reflexivity|].
    intros i Hi. pose proof (existsb_seq_false _ _ E i Hi) as Hin.
    cbv beta in Hin. apply orb_false_iff in Hin as [Hlt Hgt].
    apply Z.ltb_ge in Hlt. rewrite Z.gtb_ltb in Hgt.
    apply Z.ltb_ge in Hgt. lia.
Qed.

Lemma range_tile_length (A : Array) (t : Coords) :
  range_tile A t -> length t = dim_num (array_schema A).
Proof.
  intros [-> | [Hlen _]]; [|exact Hlen].
  unfold first_range_tile. rewrite length_map, length_seq. reflexivity.
Qed.

Section Cursor.

Context `{Fragment.Ops F}.
Variable A : Array.
Variable attr : Z.
Variable on : F -> option Coords -> Prop.
Hypothesis fragment_laws : FragmentLaws A attr on.

Local Abbreviation good := (fun f : F => exists c, on f c).

Lemma Forall2_on_good (fs : list F) (cs : list (option Coords)) :
  Forall2 on fs cs -> Forall good fs.
Proof.
  induction 1 as [|f c fs cs Hf _ IH]; constructor; eauto.
Qed.

Lemma advance_fragments_on (fs : list F) :
  Forall good fs ->
  Forall2 on (map fst (map advance_fragment fs))
    (map snd (map advance_fragment fs)).
Proof.
  induction 1 as [|f fs [c Hf] _ IH]; simpl; constructor; [|exact IH].
  exact (on_next_tile _ _ _ fragment_laws f c Hf).
Qed.

Lemma advance_on_tile_on (tile : Coords) (fs : list F)
    (cs : list (option Coords)) :
  Forall2 on fs cs ->
  let advanced :=
    zip_with (fun f c => if on_tile c tile then advance_fragment f
                         else (f, c)) fs cs in
  Forall2 on (map fst advanced) (map snd advanced ++ drop (length fs) cs).
Proof.
  intros Hfs. simpl.
  rewrite (drop_ge cs (length fs))
    by (apply Forall2_length in Hfs; lia).
  rewrite app_nil_r.
  induction Hfs as [|f c fs cs Hf _ IH]; simpl; constructor; [|exact IH].
  destruct (on_tile c tile); simpl; [|exact Hf].
  exact (on_next_tile _ _ _ fragment_laws f c Hf).
Qed.

Lemma advance_sparse_on (fuel : nat) (AS : ArraySchema) (tile : Coords) :
  forall (f : F) c f' c',
  advance_sparse fuel AS tile f c = Ret (f', c') -> on f c -> on f' c'.
Proof.
  induction fuel as [|fuel IH]; intros f c f' c' Hrun Hf; [discriminate|].
  simpl in Hrun. destruct c as [coords|]; [|inversion Hrun; subst; exact Hf].
  destruct (negb (Fragment.dense f) && (tile_order_cmp AS coords tile <? 0)).
  - unfold advance_fragment in Hrun. eapply IH; [exact Hrun|].
    exact (on_next_tile _ _ _ fragment_laws f _ Hf).
  - inversion Hrun; subst. exact Hf.
Qed.

Lemma advance_all_sparse_on (fuel : nat) (AS : ArraySchema) (tile : Coords) :
  forall (fs : list F) cs fs' cs',
  advance_all_sparse fuel AS tile fs cs = Ret (fs', cs') ->
  Forall2 on fs cs -> Forall2 on fs' cs'.
Proof.
  induction fs as [|f fs IH]; intros cs fs' cs' Hrun Hfs.
  - inversion Hfs; subst. simpl in Hrun. inversion Hrun; subst. constructor.
  - inversion Hfs as [|? c ? cs0 Hf Hfs']; subst. simpl in Hrun.
    unfold mbind, Run_bind in Hrun.
    destruct (advance_sparse fuel AS tile f c) as [[f1 c1]| |] eqn:E1;
      try discriminate.
    destruct (advance_all_sparse fuel AS tile fs cs0) as [[fs1 cs1]| |] eqn:E2;
      try discriminate.
    inversion Hrun; subst; clear Hrun. constructor.
    + eapply advance_sparse_on; eauto.
    + eapply IH; eauto.
Qed.

End Cursor.

(** ** The state of a read between its steps *)

Lemma fragment_at_map {F : Type} (g : F -> F) (fs : list F) (i : Z) (x : F) :
  fragment_at (map g fs) i = Ret x ->
  exists f, fragment_at fs i = Ret f /\ x = g f.
Proof.
  intros Hx. apply fragment_at_Ret in Hx as [Hi Hx].
  rewrite lookup_map in Hx.
  destruct (fs !! Z.to_nat i) as [f|] eqn:Ef; [|discriminate].
  exists f. split; [apply fragment_at_Ret; auto|].
  simpl in Hx. congruence.
Qed.

Lemma idx_insert_0 (l : list Z) (i : nat) (x : Z) :
  i <> 0%nat -> idx (<[i := x]> l) 0 = idx l 0.
Proof. destruct l, i; simpl; auto; congruence. Qed.

(** The members of a read state that was updated. *)
Ltac state_cbn :=
  cbn [done_ fragment_cell_pos_ranges_vec_ fragment_cell_pos_ranges_vec_pos_
       fragment_global_tile_coords_ max_overlap_i_ max_overlap_range_
       max_overlap_type_ overflow_ range_global_tile_coords_
       range_global_tile_domain_ tile_done_ fragments
       set_done set_vec set_vec_pos set_fragment_coords set_max_overlap
       set_max_overlap_i set_overflow set_range_tile set_tile_done
       set_fragments] in *.

Section Read.

Context `{Fragment.Ops F}.
Variable A : Array.
Variable attr : Z.
Variable upto : F -> Z.
Variable on : F -> option Coords -> Prop.
Hypothesis positional : PositionalCopy attr upto.
Hypothesis fragment_laws : FragmentLaws A attr on.
Hypothesis cell_laws : forall t,
  range_tile A t ->
  CellOrderLaws (array_schema A) (compute_tile_domain (array_schema A) t).
Hypothesis overlap_ok : overlap_ranges_ok F A.
Hypothesis tile_laws :
  TileOrderLaws (array_schema A) (range_tile_domain A).
Hypothesis one_attribute : attribute_ids A = [attr].

Local Abbreviation AS := (array_schema A).
Local Abbreviation reading_ := (reading A attr upto on).

Lemma reading_reset (cells : list Cell) (st : ArrayReadState F) :
  reading_ cells st -> reading_ cells (reset_state A st).
Proof.
  intros (Hs & Hnil & Hcur & Hdom & Hpos & H0 & Hgood & Hon).
  unfold reading, reset_state. simpl.
  split; [exact Hs|]. split; [exact Hnil|]. split; [exact Hcur|].
  split; [exact Hdom|]. split; [|split; [exact H0|split]].
  - intros pos Ep. destruct (Hpos pos Ep) as [Hb Hplan].
    split; [exact Hb|]. intros plan Eplan.
    destruct (Hplan plan Eplan) as (tile & Ht & Hinc & Hahead).
    exists tile. split; [exact Ht|]. split; [exact Hinc|].
    intros c e g Hc Hct He Hg.
    apply fragment_at_map in Hg as (f & Hf & ->).
    rewrite (reset_keeps_upto _ _ positional).
    exact (Hahead c e f Hc Hct He Hf).
  - apply Forall_map. eapply Forall_impl; [|exact Hgood].
    intros f [c Hf]. exists c.
    exact (on_reset_overflow _ _ _ fragment_laws f c Hf).
  - intros Hne. specialize (Hon Hne). clear - Hon fragment_laws.
    induction Hon as [|f c fs cs Hf _ IH]; simpl; constructor; [|exact IH].
    exact (on_reset_overflow _ _ _ fragment_laws f c Hf).
Qed.

(** Setting the flag of a tile changes nothing the order depends on. *)
Lemma reading_set_tile_done (cells : list Cell) (st : ArrayReadState F)
    (v : list bool) :
  reading_ cells st -> reading_ cells (set_tile_done st v).
Proof. intros Hr. exact Hr. Qed.

Lemma reading_set_done (cells : list Cell) (st : ArrayReadState F)
    (b : bool) :
  reading_ cells st -> reading_ cells (set_done st b).
Proof. intros Hr. exact Hr. Qed.

(** A call of [copy_cell_ranges]: the cells it delivers go after the cells
    delivered so far. *)
Lemma copy_cell_ranges_reading (bsz : Z) (cells : list Cell)
    (st : ArrayReadState F) buf off rc st' buf' off' log :
  reading_ cells st ->
  copy_cell_ranges_log attr bsz st buf off
  = Ret ((rc, st', buf', off'), log) ->
  reading_ (cells ++ delivered_cells upto log) st'.
Proof.
  intros Hr Hrun.
  unfold copy_cell_ranges_log in Hrun.
  destruct (vector_at (fragment_cell_pos_ranges_vec_pos_ st) attr)
    as [pos| |] eqn:Epos; unfold mbind at 1, Run_bind at 1 in Hrun;
    try discriminate.
  destruct (vector_at (fragment_cell_pos_ranges_vec_ st) pos)
    as [plan| |] eqn:Eplan; unfold mbind at 1, Run_bind at 1 in Hrun;
    try discriminate.
  destruct (copy_ranges_loop_log plan attr bsz st buf off)
    as [[[[[rc1 st1] buf1] off1] log1]| |] eqn:Eloop;
    unfold mbind at 1, Run_bind at 1 in Hrun; try discriminate.
  destruct Hr as (Hs & Hnil & Hcur & Hdom & Hpos & H0 & Hgood & Hon).
  destruct (Hpos pos Epos) as [Hb Hplan].
  destruct (Hplan plan Eplan) as (tile & Ht & Hinc & Hahead).
  destruct (Hcur tile Ht) as [Hrt Hbehind].
  pose proof (vector_at_length _ _ _ Eplan) as [_ Hlen].
  pose proof (vector_at_length _ _ _ Epos) as [Hattr Hattr'].
  assert (Hne : fragment_cell_pos_ranges_vec_ st <> []).
  { intros E. rewrite E in Hlen. simpl in Hlen. lia. }
  destruct (copy_ranges_loop_order A attr upto on positional fragment_laws
              plan bsz [] st buf off rc1 st1 buf1 off1 log1 tile cells
              Eloop Ht Hinc (List.Forall_nil _) Hahead Hs Hbehind (Hon Hne))
    as ((Hs1 & Ha1 & Ht1 & Hon1) & Hvec & Hposv & Hcur1 & Hdom1 & Hcs1).
  simpl app in Ha1.
  assert (R1 : reading_ (cells ++ delivered_cells upto log1) st1).
  { unfold reading. cbv zeta. rewrite Hvec, Hposv, Hcur1, Hdom1.
    split; [exact Hs1|]. split; [intros E; contradiction|].
    split; [|split; [exact Hdom|split; [|split; [exact H0|split]]]].
    - intros tile' Ht'. rewrite Ht in Ht'. inversion Ht'; subst tile'.
      split; [exact Hrt|]. apply behind_cursor_app. split; [exact Hbehind|].
      apply on_tile_behind_cursor. exact Ht1.
    - intros pos' Ep'. rewrite Epos in Ep'. inversion Ep'; subst pos'.
      split; [exact Hb|]. intros plan' Eplan'. rewrite Eplan in Eplan'.
      inversion Eplan'; subst plan'. exists tile. auto.
    - eapply Forall2_on_good. exact Hon1.
    - intros _. exact Hon1. }
  destruct (negb (rc1 =? TILEDB_ARS_OK)).
  { inversion Hrun; subst. exact R1. }
  destruct (vector_at (overflow_ st1) attr) as [[|]| |];
    unfold mbind at 1, Run_bind at 1 in Hrun; try discriminate.
  { inversion Hrun; subst. exact R1. }
  rewrite Hcur1, Ht in Hrun.
  destruct (notify_tile_done attr (Some tile)
              (fragment_global_tile_coords_ st1) (fragments st1))
    as [fs'| |] eqn:En; unfold mbind, Run_bind in Hrun; try discriminate.
  inversion Hrun; subst; clear Hrun.
  destruct (notify_tile_done_spec attr tile _ _ _ En) as [Hlen' Hall].
  assert (Hon' : Forall2 on fs' (fragment_global_tile_coords_ st1)).
  { apply Forall2_same_length_lookup. split.
    - rewrite Hlen'. eapply Forall2_length. exact Hon1.
    - intros i x y Hx Hy.
      destruct (lookup_lt_is_Some_2 (fragments st1) i) as [f Hf].
      { rewrite <- Hlen'. eapply lookup_lt_Some. exact Hx. }
      destruct (Hall i f Hf) as (c & Hc & Hx').
      rewrite Hx in Hx'. inversion Hx'; subst x.
      rewrite Hy in Hc. inversion Hc; subst c.
      pose proof (Forall2_lookup_lr _ _ _ _ _ _ Hon1 Hf Hy) as Hfy.
      destruct (on_tile y tile); [|exact Hfy].
      exact (on_tile_done _ _ _ fragment_laws f y Hfy). }
  unfold reading. state_cbn. cbv zeta. rewrite Hvec, Hposv, Hcur1, Hdom1.
  split; [exact Hs1|]. split; [intros E; contradiction|].
  split; [|split; [exact Hdom|split; [|split; [|split]]]].
  - intros tile' Ht'. rewrite Ht in Ht'. inversion Ht'; subst tile'.
    split; [exact Hrt|]. apply behind_cursor_app. split; [exact Hbehind|].
    apply on_tile_behind_cursor. exact Ht1.
  - intros pos' Ep'.
    rewrite vector_at_insert in Ep' by (split; assumption).
    inversion Ep'; subst pos'. split; [lia|].
    intros plan' Eplan'. apply vector_at_length in Eplan' as [_ Hlt]. lia.
  - intros Hne0. rewrite idx_insert_0 by lia. auto.
  - eapply Forall2_on_good. exact Hon'.
  - intros _. exact Hon'.
Qed.

(** The clean-up after a plan was appended for the one attribute, which was
    past the plans: the attribute is at the new plan, the last one. *)
Lemma clean_up_single (st : ArrayReadState F)
    (plans : FragmentCellPosRangesVec) (plan : FragmentCellPosRanges)
    (pos : Z) :
  fragment_cell_pos_ranges_vec_ st = plans ++ [plan] ->
  vector_at (fragment_cell_pos_ranges_vec_pos_ st) attr = Ret pos ->
  pos = Z.of_nat (length plans) ->
  (attr <> 0 -> idx (fragment_cell_pos_ranges_vec_pos_ st) 0 = 0) ->
  let st' := clean_up_processed_fragment_cell_pos_ranges A st in
  (fragments st' = fragments st
   /\ fragment_global_tile_coords_ st' = fragment_global_tile_coords_ st
   /\ range_global_tile_coords_ st' = range_global_tile_coords_ st
   /\ range_global_tile_domain_ st' = range_global_tile_domain_ st)
  /\ fragment_cell_pos_ranges_vec_ st' <> []
  /\ (attr <> 0 -> idx (fragment_cell_pos_ranges_vec_pos_ st') 0 = 0)
  /\ exists pos',
       vector_at (fragment_cell_pos_ranges_vec_pos_ st') attr = Ret pos'
       /\ vector_at (fragment_cell_pos_ranges_vec_ st') pos' = Ret plan
       /\ 0 <= pos'
       /\ pos' = Z.of_nat (length (fragment_cell_pos_ranges_vec_ st')) - 1.
Proof.
  intros Hvec Hpos Hlen H0.
  unfold clean_up_processed_fragment_cell_pos_ranges.
  assert (Hmin : min_pos_of (attribute_ids A)
                   (fragment_cell_pos_ranges_vec_pos_ st)
                 = idx (fragment_cell_pos_ranges_vec_pos_ st) 0).
  { rewrite one_attribute. reflexivity. }
  rewrite Hmin.
  destruct (Z.eqb_spec (idx (fragment_cell_pos_ranges_vec_pos_ st) 0) 0)
    as [Hz | Hnz]; cbv zeta.
  - split; [repeat split|]. rewrite Hvec.
    split; [destruct plans; discriminate|]. split; [exact H0|].
    exists pos. split; [exact Hpos|]. split.
    + apply vector_at_Ret. split; [lia|]. subst pos. rewrite Nat2Z.id.
      rewrite lookup_app_r by lia. rewrite Nat.sub_diag. reflexivity.
    + rewrite length_app. simpl. lia.
  - assert (Hattr : attr = 0).
    { destruct (Z.eq_dec attr 0); [assumption|]. exfalso. auto. }
    subst attr. state_cbn.
    apply vector_at_Ret in Hpos as [_ Hpos].
    change (Z.to_nat 0) with 0%nat in Hpos.
    assert (Hidx : idx (fragment_cell_pos_ranges_vec_pos_ st) 0 = pos).
    { rewrite idx_lookup, Hpos. reflexivity. }
    rewrite Hidx in Hnz |- *. rewrite Hvec, Hlen, Nat2Z.id.
    rewrite drop_app_length.
    split; [repeat split|]. split; [discriminate|].
    split; [intros E; contradiction|].
    exists 0. split.
    + destruct (fragment_cell_pos_ranges_vec_pos_ st) as [|p0 rest];
        [discriminate|].
      inversion Hpos; subst p0. unfold update_positions. cbn [take map app].
      rewrite <- Hlen.
      destruct (Z.eqb_spec pos 0) as [E | _]; [contradiction|].
      rewrite Z.sub_diag. reflexivity.
    + split; [reflexivity|]. simpl. lia.
Qed.

(** The cells delivered so far lie on tiles before the tile [tile]. *)
Local Abbreviation before_tile tile :=
  (Forall (fun c : Cell =>
             exists t, fst c = Some t /\ tile_order_cmp AS t tile < 0)).

Lemma before_tile_behind (tile : Coords) (cells : list Cell) :
  before_tile tile cells -> behind_cursor AS tile cells.
Proof.
  intros Hc. eapply Forall_impl; [|exact Hc].
  intros c (t & Ht & Hlt). exists t. auto.
Qed.

Lemma before_tile_ahead (tile : Coords) (cells : list Cell)
    (plan : FragmentCellPosRanges) (fs : list F) :
  before_tile tile cells -> ahead upto plan fs tile cells.
Proof.
  intros Hc c e f Hin Hct. rewrite list.Forall_forall in Hc.
  destruct (Hc c Hin) as (t & Ht & Hlt). rewrite Ht in Hct.
  inversion Hct; subst t.
  destruct (tile_order_irrefl _ _ tile_laws tile Hlt).
Qed.

(** The second half of [get_next_cell_ranges_dense], entered with the
    cursor on a tile that comes after the tiles of the cells delivered so
    far and with the attribute past the plans. *)
Lemma plan_tile_reading (fuel : nat) (cells : list Cell)
    (st : ArrayReadState F) (tile : Coords) (pos : Z) rc st' :
  range_global_tile_coords_ st = Some tile ->
  range_tile A tile ->
  Forall2 on (fragments st) (fragment_global_tile_coords_ st) ->
  pairwise (cell_before AS) cells ->
  (fragment_cell_pos_ranges_vec_ st = [] -> cells = []) ->
  before_tile tile cells ->
  (forall d, range_global_tile_domain_ st = Some d ->
     d = range_tile_domain A) ->
  vector_at (fragment_cell_pos_ranges_vec_pos_ st) attr = Ret pos ->
  pos = Z.of_nat (length (fragment_cell_pos_ranges_vec_ st)) ->
  (attr <> 0 -> idx (fragment_cell_pos_ranges_vec_pos_ st) 0 = 0) ->
  plan_tile fuel A st tile = Ret (rc, st') ->
  reading_ cells st'.
Proof.
  intros Hcur Hrt Hon Hs Hnil Hbefore Hdom Hpos Hlen H0 Hrun.
  unfold plan_tile in Hrun. cbv zeta in Hrun.
  destruct (advance_all_sparse fuel AS tile (fragments st)
              (fragment_global_tile_coords_ st)) as [[fs cs]| |] eqn:Eadv;
    unfold mbind at 1, Run_bind at 1 in Hrun; try discriminate.
  pose proof (advance_all_sparse_on A attr on fragment_laws fuel AS tile
                _ _ _ _ Eadv Hon) as Hon2.
  unfold compute_max_overlap_range in Hrun. state_cbn.
  rewrite Hcur in Hrun. unfold mbind at 1, Run_bind at 1 in Hrun.
  state_cbn.
  match type of Hrun with
  | context [compute_max_overlap_fragment_cell_ranges fuel A ?s []] =>
      set (st4 := s) in *
  end.
  destruct (compute_max_overlap_fragment_cell_ranges fuel A st4 [])
    as [backbone| |] eqn:Eback;
    unfold mbind at 1, Run_bind at 1 in Hrun; try discriminate.
  assert (Hst4 : fragments st4 = fs
                 /\ fragment_global_tile_coords_ st4 = cs
                 /\ range_global_tile_coords_ st4 = Some tile
                 /\ range_global_tile_domain_ st4
                    = range_global_tile_domain_ st
                 /\ fragment_cell_pos_ranges_vec_ st4
                    = fragment_cell_pos_ranges_vec_ st
                 /\ fragment_cell_pos_ranges_vec_pos_ st4
                    = fragment_cell_pos_ranges_vec_pos_ st).
  { unfold st4. state_cbn. repeat split; try reflexivity. exact Hcur. }
  destruct Hst4 as (Hfs4 & Hcs4 & Hcur4 & Hdom4 & Hvec4 & Hpos4).
  destruct (compute_fragment_cell_pos_ranges fuel AS fs tile _)
    as [[[rc1 plan] log1]| |] eqn:Eplan;
    unfold mbind at 1, Run_bind at 1 in Hrun; try discriminate.
  assert (Hinc : increasing_pos plan).
  { assert (Hmoi4 : max_overlap_i_ st4
                    = find_max_overlap tile (max_overlap_range_ st4)
                        (rev (indexed (zip fs cs)))).
    { unfold st4. state_cbn. reflexivity. }
    assert (Hmor4 : max_overlap_range_ st4 = overlap_range AS (range A) tile).
    { unfold st4. state_cbn. reflexivity. }
    assert (Htype4 : max_overlap_type_ st4
                     = overlap_type AS (max_overlap_range_ st4)).
    { unfold st4. state_cbn. reflexivity. }
    assert (Hon4 : Forall2 on (fragments st4)
                     (fragment_global_tile_coords_ st4)).
    { rewrite Hfs4, Hcs4. exact Hon2. }
    rewrite <- Hfs4, <- Hcs4 in Hmoi4.
    apply (tile_plan_increasing A attr on fragment_laws cell_laws
             overlap_ok fuel fuel st4 tile backbone rc1 plan log1 Hrt
             Hon4 Hcur4 Hmor4 Htype4 Hmoi4 Eback).
    rewrite Hfs4, Hcs4. exact Eplan. }
  assert (Rerr : reading_ cells st4).
  { unfold reading. cbv zeta. rewrite Hfs4, Hcs4, Hcur4, Hdom4, Hvec4, Hpos4.
    split; [exact Hs|]. split; [exact Hnil|].
    split; [|split; [exact Hdom|split; [|split; [exact H0|split]]]].
    - intros t Ht. inversion Ht; subst t. split; [exact Hrt|].
      apply before_tile_behind. exact Hbefore.
    - intros pos' Ep'. rewrite Hpos in Ep'. inversion Ep'; subst pos'.
      split; [lia|]. intros plan' Ep. apply vector_at_length in Ep. lia.
    - eapply Forall2_on_good. exact Hon2.
    - intros _. exact Hon2. }
  destruct (negb (rc1 =? TILEDB_ARS_OK)).
  { inversion Hrun; subst rc st'. exact Rerr. }
  inversion Hrun; subst rc st'; clear Hrun.
  match goal with
  | |- reading_ cells (clean_up_processed_fragment_cell_pos_ranges A ?s) =>
      set (st5 := s)
  end.
  destruct (clean_up_single st5 (fragment_cell_pos_ranges_vec_ st) plan pos)
    as ((Hf6 & Hc6 & Hcur6 & Hdom6) & Hne6 & H06 & pos' & Hp6 & Hplan6
        & Hpos6 & Hlen6).
  { unfold st5. state_cbn. reflexivity. }
  { unfold st5. state_cbn. rewrite Hpos4. exact Hpos. }
  { exact Hlen. }
  { unfold st5. state_cbn. rewrite Hpos4. exact H0. }
  cbv zeta in Hf6, Hc6, Hcur6, Hdom6, Hne6, H06, Hp6, Hplan6, Hlen6.
  unfold reading. cbv zeta. rewrite Hf6, Hc6, Hcur6, Hdom6.
  assert (Hst5 : fragments st5 = fs
                 /\ fragment_global_tile_coords_ st5 = cs
                 /\ range_global_tile_coords_ st5 = Some tile
                 /\ range_global_tile_domain_ st5
                    = range_global_tile_domain_ st).
  { unfold st5. state_cbn. repeat split; try reflexivity. exact Hcur. }
  destruct Hst5 as (Hfs5 & Hcs5 & Hcur5 & Hdom5).
  rewrite Hfs5, Hcs5, Hcur5, Hdom5.
  split; [exact Hs|]. split; [intros E; contradiction|].
  split; [|split; [exact Hdom|split; [|split; [exact H06|split]]]].
  - intros t Ht. inversion Ht; subst t. split; [exact Hrt|].
    apply before_tile_behind. exact Hbefore.
  - intros pos0 Ep0. rewrite Hp6 in Ep0. inversion Ep0; subst pos0.
    split; [lia|]. intros plan' Ep. rewrite Hplan6 in Ep.
    inversion Ep; subst plan'. exists tile. split; [reflexivity|].
    split; [exact Hinc|]. apply before_tile_ahead. exact Hbefore.
  - eapply Forall2_on_good. exact Hon2.
  - intros _. exact Hon2.
Qed.

Lemma behind_before (t tile : Coords) (cells : list Cell) :
  behind_cursor AS t cells -> tile_order_cmp AS t tile < 0 ->
  before_tile tile cells.
Proof.
  intros Hb Hlt. eapply Forall_impl; [|exact Hb].
  intros c (t' & Ht' & Hcase). exists t'. split; [exact Ht'|].
  destruct Hcase as [E | Hlt']; [rewrite E; exact Hlt|].
  exact (tile_order_trans _ _ tile_laws _ _ _ Hlt' Hlt).
Qed.

(** A call of [get_next_cell_ranges_dense] made with the attribute past the
    plans keeps the state of the read in order. *)
Lemma get_next_cell_ranges_dense_reading (fuel : nat) (cells : list Cell)
    (st : ArrayReadState F) (pos : Z) rc st' :
  reading_ cells st ->
  vector_at (fragment_cell_pos_ranges_vec_pos_ st) attr = Ret pos ->
  past_the_plans pos st = true ->
  get_next_cell_ranges_dense fuel A st = Ret (rc, st') ->
  reading_ cells st'.
Proof.
  intros Hr Hpos Hpast Hrun.
  destruct Hr as (Hs & Hnil & Hcur & Hdom & Hposc & H0 & Hgood & Hon).
  destruct (Hposc pos Hpos) as [Hb _].
  assert (Hlen : pos = Z.of_nat (length (fragment_cell_pos_ranges_vec_ st))).
  { unfold past_the_plans in Hpast. apply orb_true_iff in Hpast as [Hp | Hp].
    - apply Z.ltb_lt in Hp. lia.
    - rewrite Z.geb_leb in Hp. apply Z.leb_le in Hp. lia. }
  rewrite get_next_cell_ranges_dense_halves in Hrun.
  unfold next_tile in Hrun.
  destruct (bool_decide (fragment_cell_pos_ranges_vec_ st = [])) eqn:Efirst.
  - (* First invocation *)
    apply bool_decide_eq_true in Efirst.
    pose proof (Hnil Efirst) as Hcells.
    destruct (init_range_global_tile_coords_cursor A st)
      as ((Hvec0 & Hpos0 & Hfs0 & Hcs0) & Hinit).
    cbv zeta in Hvec0, Hpos0, Hfs0, Hcs0, Hinit, Hrun.
    set (st0 := init_range_global_tile_coords A st) in *.
    assert (Hdom0 : forall d, range_global_tile_domain_ st0 = Some d ->
              d = range_tile_domain A).
    { intros d Hd. destruct Hinit as [[_ E] | [_ E]]; congruence. }
    destruct (range_global_tile_coords_ st0) as [tile|] eqn:Ec0.
    + unfold mbind at 1, Run_bind at 1 in Hrun. cbv iota beta in Hrun.
      state_cbn. rewrite Ec0 in Hrun.
      assert (Hrt : range_tile A tile).
      { destruct Hinit as [[E _] | [E _]].
        - inversion E. left. reflexivity.
        - symmetry in E. exact (proj1 (Hcur tile E)). }
      eapply (plan_tile_reading fuel cells _ tile pos rc st');
        [ | exact Hrt | | exact Hs | | | | | | | exact Hrun]; state_cbn.
      * exact Ec0.
      * rewrite Hfs0.
        apply (advance_fragments_on A attr on fragment_laws). exact Hgood.
      * intros _. exact Hcells.
      * rewrite Hcells. constructor.
      * exact Hdom0.
      * rewrite Hpos0. exact Hpos.
      * rewrite Hvec0. exact Hlen.
      * rewrite Hpos0. exact H0.
    + unfold mbind at 1, Run_bind at 1 in Hrun. cbv iota beta in Hrun.
      inversion Hrun; subst rc st'; clear Hrun.
      unfold reading. state_cbn. cbv zeta.
      rewrite Hvec0, Hpos0, Hfs0, Hcs0, Ec0, Hcells.
      split; [exact I|]. split; [reflexivity|].
      split; [intros t Ht; discriminate Ht|].
      split; [exact Hdom0|]. split; [|split; [exact H0|split]].
      * intros pos' Ep'. rewrite Hpos in Ep'. inversion Ep'; subst pos'.
        split; [exact Hb|]. intros plan Ep.
        apply vector_at_length in Ep. lia.
      * exact Hgood.
      * intros Hne. contradiction.
  - (* The next tile *)
    apply bool_decide_eq_false in Efirst.
    destruct (range_global_tile_coords_ st) as [prev|] eqn:Eprev;
      [|discriminate].
    destruct (Hcur prev eq_refl) as [Hrprev Hbehind].
    destruct (range_global_tile_domain_ st) as [d|] eqn:Ed.
    2: { unfold get_next_range_global_tile_coords in Hrun.
         rewrite Ed in Hrun. discriminate Hrun. }
    pose proof (Hdom d eq_refl) as Hd. subst d.
    destruct (get_next_range_global_tile_coords A st) as [stn| |] eqn:En;
      unfold mbind at 1 2, Run_bind at 1 2 in Hrun; try discriminate.
    destruct (get_next_range_global_tile_coords_cursor A st stn prev _
                Eprev Ed En)
      as ((Hvecn & Hposn & Hfsn & Hcsn) & Hstep).
    destruct Hstep as [[Ecn Edn] | (Ecn & Edn & Hin)].
    + rewrite Ecn in Hrun. cbv iota beta in Hrun.
      inversion Hrun; subst rc st'; clear Hrun.
      unfold reading. state_cbn. cbv zeta.
      rewrite Hvecn, Hposn, Hfsn, Hcsn, Ecn, Edn.
      split; [exact Hs|]. split; [exact Hnil|].
      split; [intros t Ht; discriminate Ht|].
      split; [intros d' Hd'; discriminate Hd'|].
      split; [|split; [exact H0|split; [exact Hgood | exact Hon]]].
      intros pos' Ep'. rewrite Hpos in Ep'. inversion Ep'; subst pos'.
      split; [exact Hb|]. intros plan Ep.
      apply vector_at_length in Ep. lia.
    + rewrite Ecn in Hrun.
      set (tile := get_next_tile_coords AS (range_tile_domain A) prev) in *.
      destruct (bool_decide (length (fragment_global_tile_coords_ stn)
                             < length (fragments stn))%nat);
        [discriminate|].
      cbv iota beta in Hrun. state_cbn. rewrite Ecn in Hrun.
      assert (Htile : in_tile AS (range_tile_domain A) tile).
      { split; [|exact Hin].
        apply (next_tile_length _ _ tile_laws).
        apply range_tile_length. exact Hrprev. }
      assert (Hafter : tile_order_cmp AS prev tile < 0).
      { apply (next_tile_after _ _ tile_laws); [|exact Htile].
        apply range_tile_length. exact Hrprev. }
      eapply (plan_tile_reading fuel cells _ tile pos rc st');
        [ | right; exact Htile | | exact Hs | | | | | | | exact Hrun];
        state_cbn.
      * exact Ecn.
      * rewrite Hfsn, Hcsn.
        apply (advance_on_tile_on A attr on fragment_laws prev).
        exact (Hon Efirst).
      * rewrite Hvecn. exact Hnil.
      * eapply behind_before; eauto.
      * intros d' Hd'. rewrite Edn in Hd'. congruence.
      * rewrite Hposn. exact Hpos.
      * rewrite Hvecn. exact Hlen.
      * rewrite Hposn. exact H0.
Qed.

(** The loop of the read of the attribute: the cells it delivers go after
    the cells delivered so far, in order. *)
Lemma read_dense_attr_loop_reading (bsz : Z) (fuel : nat) :
  forall (cells : list Cell) (st : ArrayReadState F) buf off
         rc st' buf' size off' log,
  reading_ cells st ->
  read_dense_attr_loop_log fuel A attr bsz st buf off
  = Ret ((rc, st', buf', size, off'), log) ->
  reading_ (cells ++ delivered_cells upto log) st'.
Proof.
  induction fuel as [|fuel IH];
    intros cells st buf off rc st' buf' size off' log Hr Hrun;
    [discriminate|].
  cbn [read_dense_attr_loop_log] in Hrun.
  destruct (vector_at (tile_done_ st) attr) as [td| |];
    unfold mbind at 1, Run_bind at 1 in Hrun; try discriminate.
  match type of Hrun with
  | context [mbind _ ?m] =>
      destruct m as [[[[[rc1 st1] buf1] off1] log1]| |] eqn:E1
  end; unfold mbind at 1, Run_bind at 1 in Hrun; try discriminate.
  assert (Hfirst : reading_ (cells ++ delivered_cells upto log1) st1).
  { destruct (negb td).
    - eapply copy_cell_ranges_reading; eauto.
    - inversion E1; subst. simpl. rewrite app_nil_r. exact Hr. }
  destruct (negb (rc1 =? TILEDB_ARS_OK)).
  { inversion Hrun; subst. exact Hfirst. }
  destruct (vector_at (overflow_ st1) attr) as [[|]| |];
    unfold mbind at 1, Run_bind at 1 in Hrun; try discriminate.
  { inversion Hrun; subst. exact Hfirst. }
  destruct (vector_at (fragment_cell_pos_ranges_vec_pos_ st1) attr)
    as [pos| |] eqn:Epos; unfold mbind at 1, Run_bind at 1 in Hrun;
    try discriminate.
  match type of Hrun with
  | context [mbind _ ?m] => destruct m as [[rc2 st2]| |] eqn:E2
  end; unfold mbind at 1, Run_bind at 1 in Hrun; try discriminate.
  assert (Hnext : reading_ (cells ++ delivered_cells upto log1) st2).
  { destruct (past_the_plans pos st1) eqn:Epast.
    - eapply get_next_cell_ranges_dense_reading; eauto.
    - inversion E2; subst. exact Hfirst. }
  destruct (negb (rc2 =? TILEDB_ARS_OK)).
  { inversion Hrun; subst. exact Hnext. }
  destruct (done_ st2).
  { inversion Hrun; subst. exact Hnext. }
  destruct (copy_cell_ranges_log attr bsz st2 buf1 off1)
    as [[[[[rc3 st3] buf3] off3] log2]| |] eqn:Ecopy;
    unfold mbind at 1, Run_bind at 1 in Hrun; try discriminate.
  pose proof (copy_cell_ranges_reading bsz _ _ _ _ _ _ _ _ _ Hnext Ecopy)
    as Hcopy.
  rewrite <- app_assoc, <- delivered_cells_app in Hcopy.
  destruct (negb (rc3 =? TILEDB_ARS_OK)).
  { inversion Hrun; subst. exact Hcopy. }
  destruct (vector_at (overflow_ st3) attr) as [[|]| |];
    unfold mbind at 1, Run_bind at 1 in Hrun; try discriminate.
  { inversion Hrun; subst. exact Hcopy. }
  destruct (read_dense_attr_loop_log fuel A attr bsz st3 buf3 off3)
    as [[[[[[rc4 st4] buf4] size4] off4] log3]| |] eqn:Eloop;
    unfold mbind, Run_bind in Hrun; try discriminate.
  inversion Hrun; subst; clear Hrun.
  pose proof (IH _ _ _ _ _ _ _ _ _ _ Hcopy Eloop) as Hloop.
  rewrite <- app_assoc, <- delivered_cells_app, <- app_assoc in Hloop.
  exact Hloop.
Qed.

Lemma consecutive_reads_reading (B : Z) (fuels : list nat) :
  forall (cells : list Cell) (st : ArrayReadState F) buffer outs st' log,
  reading_ cells st ->
  consecutive_reads_log fuels A attr st buffer B = Ret (outs, st', log) ->
  reading_ (cells ++ delivered_cells upto log) st'.
Proof.
  induction fuels as [|fuel fuels IH];
    intros cells st buffer outs st' log Hr Hrun.
  - simpl in Hrun. inversion Hrun; subst. simpl. rewrite app_nil_r.
    exact Hr.
  - cbn [consecutive_reads_log] in Hrun.
    destruct (read_dense_attr_loop_log fuel A attr B (reset_state A st)
                buffer 0)
      as [[[[[[rc1 st1] buf1] size1] off1] log1]| |] eqn:Eread;
      unfold mbind at 1, Run_bind at 1 in Hrun; try discriminate.
    destruct (vector_at (overflow_ st1) attr) as [ov| |];
      unfold mbind at 1, Run_bind at 1 in Hrun; try discriminate.
    destruct (consecutive_reads_log fuels A attr st1 buf1 B)
      as [[[outs2 st2] log2]| |] eqn:Erest;
      unfold mbind, Run_bind in Hrun; try discriminate.
    inversion Hrun; subst; clear Hrun.
    pose proof (read_dense_attr_loop_reading B fuel _ _ _ _ _ _ _ _ _ _
                  (reading_reset _ _ Hr) Eread) as H1.
    pose proof (IH _ _ _ _ _ _ H1 Erest) as H2.
    rewrite <- app_assoc, <- delivered_cells_app in H2. exact H2.
Qed.

Lemma reading_start (fs : list F) :
  Forall (fun f => exists c, on f c) fs ->
  reading_ [] (new_ArrayReadState A fs).
Proof.
  intros Hfs. unfold reading, new_ArrayReadState. cbv zeta. state_cbn.
  split; [exact I|]. split; [reflexivity|].
  split; [intros t Ht; discriminate Ht|].
  split; [intros d Hd; discriminate Hd|].
  split; [|split; [reflexivity|split; [exact Hfs|]]].
  - intros pos Ep. apply vector_at_Ret in Ep as [_ Ep].
    apply lookup_replicate in Ep as [-> _]. split; [simpl; lia|].
    intros plan Eplan. discriminate Eplan.
  - intros Hne. contradiction.
Qed.

End Read.

Lemma pairwise_NoDup {X : Type} (R : X -> X -> Prop) (l : list X) :
  (forall x, ~ R x x) -> pairwise R l -> NoDup l.
Proof.
  intros Hirr. induction l as [|a l IH]; intros Hl; [constructor|].
  destruct Hl as [Ha Hl]. constructor; [|auto].
  intros Hin. rewrite list.Forall_forall in Ha.
  exact (Hirr a (Ha a Hin)).
Qed.


(** ** The two tiles of the examples *)

Lemma SimpleFragment_positional (attr : Z) : PositionalCopy attr sf_next.
Proof.
  split; [|reflexivity].
  intros f buffer bsz off r f' buffer' off' Hcopy.
  cbn [Fragment.copy_cell_range SimpleFragment_ops] in Hcopy.
  unfold sf_copy in Hcopy. inversion Hcopy; subst; clear Hcopy.
  cbn [Fragment.overflow SimpleFragment_ops sf_overflow sf_next sf_with].
  set (first := Z.max (fst r) (sf_next f)).
  set (wanted := snd r - first + 1).
  set (n := Z.max 0 (Z.min wanted (bsz - off))).
  assert (Hn : 0 <= n) by (unfold n; lia).
  split; [lia|]. split; [lia|]. split.
  - intros Hlt. unfold n in *. lia.
  - intros Hov. apply orb_false_iff in Hov as [_ Hov].
    apply Z.ltb_ge in Hov. unfold n, wanted in *. lia.
Qed.

Lemma covering_laws (A : Array) (attr : Z) : FragmentLaws A attr covering.
Proof.
  split.
  - intros f c (Ht & Hd & Hm & Hr). repeat split; assumption.
  - intros f c (Ht & Hd & Hm & Hr). repeat split; assumption.
  - intros f c buffer bsz off r f' buffer' off' (Ht & Hd & Hm & Hr) Hcopy.
    cbn [Fragment.copy_cell_range SimpleFragment_ops] in Hcopy.
    unfold sf_copy in Hcopy. inversion Hcopy; subst.
    repeat split; assumption.
  - intros f c (Ht & Hd & Hm & Hr). repeat split; assumption.
  - intros f t i l (Ht & Hd & Hm & Hr) AS td. exists [].
    cbn [Fragment.compute_fragment_cell_ranges SimpleFragment_ops].
    rewrite Hr. split; [reflexivity|]. split; [constructor | exact I].
  - intros f t (Ht & Hd & Hm & Hr) Hsparse.
    cbn [Fragment.dense SimpleFragment_ops] in Hsparse. congruence.
  - intros f t r l (Ht & Hd & Hm & Hr) Hsparse.
    cbn [Fragment.dense SimpleFragment_ops] in Hsparse. congruence.
  - intros f c r (Ht & Hd & Hm & Hr) _. exact Hd.
Qed.

Lemma in_tile_1d (n : nat) (dom : list Z) (e lo hi : Z) (c : Coords) :
  in_tile (row_major_schema n dom [e]) [lo; hi] c
  <-> exists x, c = [x] /\ lo <= x <= hi.
Proof.
  unfold in_tile. simpl. split.
  - intros [Hlen Hb]. destruct c as [|x [|y c]]; try discriminate.
    exists x. split; [reflexivity|].
    pose proof (Hb 0%nat ltac:(lia)) as H0. unfold idx in H0. simpl in H0. lia.
  - intros (x & -> & Hx). split; [reflexivity|].
    intros i Hi. destruct i as [|i]; unfold idx; simpl; lia.
Qed.

Lemma cell_pos_1d (n : nat) (dom : list Z) (e lo hi x : Z) :
  cell_pos (row_major_schema n dom [e]) [lo; hi] [x] = x - lo.
Proof. unfold cell_pos, normalize. simpl. unfold idx. simpl. lia. Qed.

(** The cells of a tile of a one-dimensional row-major array are ordered by
    their positions. *)
Lemma cell_order_laws_1d (n : nat) (dom : list Z) (e lo hi : Z) :
  CellOrderLaws (row_major_schema n dom [e]) [lo; hi].
Proof.
  split; intros a b Ha Hb;
    apply in_tile_1d in Ha as (x & -> & Hx);
    apply in_tile_1d in Hb as (x' & -> & Hx');
    rewrite ?cell_pos_1d.
  - intros E. f_equal. lia.
  - simpl.
    destruct (Z.ltb_spec x x'); [simpl; symmetry; apply Z.compare_lt_iff; lia|].
    destruct (Z.gtb_spec x x'); [simpl; symmetry; apply Z.compare_gt_iff; lia|].
    simpl. symmetry. apply Z.compare_eq_iff. lia.
  - intros Hlt.
    change (get_next_cell_coords (row_major_schema n dom [e]) [lo; hi] [x])
      with [idx [x] 0 + 1].
    rewrite cell_pos_1d. unfold idx. simpl.
    split; [apply in_tile_1d; exists (x + 1); split; [reflexivity|]; lia|lia].
  - intros Hlt.
    change (get_previous_cell_coords (row_major_schema n dom [e]) [lo; hi]
              [x])
      with [idx [x] 0 - 1].
    rewrite cell_pos_1d. unfold idx. simpl.
    split; [apply in_tile_1d; exists (x - 1); split; [reflexivity|]; lia|lia].
Qed.

Lemma row_major_cmp_trans (a b c : Coords) :
  row_major_cmp a b < 0 -> row_major_cmp b c < 0 -> row_major_cmp a c < 0.
Proof.
  revert b c. induction a as [|x a IH]; intros b c; [simpl; lia|].
  destruct b as [|y b]; [simpl; lia|].
  destruct c as [|z c]; [simpl; lia|]. simpl.
  destruct (Z.ltb_spec x y), (Z.ltb_spec y z), (Z.ltb_spec x z);
    try lia;
    destruct (Z.gtb_spec x y), (Z.gtb_spec y z), (Z.gtb_spec x z);
    try lia.
  apply IH.
Qed.

Lemma row_major_cmp_irrefl (a : Coords) : ~ row_major_cmp a a < 0.
Proof.
  induction a as [|x a IH]; simpl; [lia|].
  destruct (Z.ltb_spec x x); [lia|].
  destruct (Z.gtb_spec x x); [lia|]. exact IH.
Qed.

(** The tiles of a one-dimensional row-major array are ordered by their
    coordinate, and the next tile is the next coordinate. *)
Lemma tile_order_laws_1d (n : nat) (dom : list Z) (e : Z) (d : list Z) :
  TileOrderLaws (row_major_schema n dom [e]) d.
Proof.
  split.
  - intros c Hc. simpl in Hc. destruct c as [|x [|y c]]; try discriminate.
    reflexivity.
  - intros c Hc _. simpl in Hc. destruct c as [|x [|y c]]; try discriminate.
    change (get_next_tile_coords (row_major_schema n dom [e]) d [x])
      with [idx [x] 0 + 1].
    unfold idx. simpl. destruct (Z.ltb_spec x (x + 1)); lia.
  - intros a b c. apply row_major_cmp_trans.
  - intros a. apply row_major_cmp_irrefl.
Qed.

Lemma range_tile_two_tiles (t : Coords) :
  range_tile two_tile_array t -> t = [0] \/ t = [1].
Proof.
  intros [-> | Ht]; [left; reflexivity|].
  change (range_tile_domain two_tile_array) with [0; 1] in Ht.
  apply in_tile_1d in Ht as (x & -> & Hx).
  assert (x = 0 \/ x = 1) as [-> | ->] by lia; auto.
Qed.

Lemma overlap_ranges_ok_two_tiles :
  overlap_ranges_ok SimpleFragment two_tile_array.
Proof.
  intros st fuel tile l Hrt Hcur Hmor Htype Hrun td.
  unfold compute_max_overlap_fragment_cell_ranges in Hrun.
  rewrite Hcur, Htype, Hmor in Hrun.
  apply range_tile_two_tiles in Hrt as [-> | ->]; vm_compute in Hrun;
    inversion Hrun; subst l; clear Hrun; subst td;
    (split; [|split; [constructor | exact I]]);
    (apply List.Forall_cons; [|constructor]);
    unfold valid_range;
    [ change (compute_tile_domain (array_schema two_tile_array) [0])
        with [0; 4]
    | change (compute_tile_domain (array_schema two_tile_array) [1])
        with [5; 9] ];
    (split; [apply in_tile_1d; eexists; split; [reflexivity|]; simpl; lia|]);
    (split; [apply in_tile_1d; eexists; split; [reflexivity|]; simpl; lia|]);
    vm_compute; discriminate.
Qed.

